(** * MText parser: a shallow embedding of [src/parser.ts]

    The development follows the TypeScript source class by class:
    the utility functions ([rgb2int], [int2rgb]), [TextScanner],
    [MTextContext], and [MTextParser] with its sub-parsers and the token
    generator [parse]; the members of [TextScanner] that the parser never
    calls and the string utilities next to the parser follow the parser.
    [parseFloatValueOrFactor], which nothing calls, is left out.

    Conventions of the embedding.
    - A JavaScript string is the list of its UTF-16 code units ([jsstring]);
      a value that is either the empty string or a one-character string
      (the result of [peek] and [get]) is an [option jschar].
    - A JavaScript number is [NaN], one of the two infinities, or a finite
      double [Fin q], written as the rational it denotes.  [parseInt] and
      [parseFloat] round the decimal value to binary64 (to nearest, ties to
      even, Infinity on overflow).  The sign of a zero is not represented:
      the program reads its numbers only through comparisons, [Math.abs],
      [toString] and [JSON.stringify], none of which tells -0 from 0.
      Integers that go through the bit operators are [Z] with the 32-bit
      wrap written out.
    - Objects are values.  The parser never writes into an object or array
      after it has stored it in a context, so tokens carry the context as a
      value; the identity of an [rgb] array is kept because the source
      compares it by reference.  [Module Heap] models [copy] with explicit
      references.
    - Loops whose cursor advances on every iteration are written with a
      counter equal to the number of characters that remain (any larger
      counter gives the same result); the loops of the paragraph sub-parser
      and of the token generator take an explicit [fuel] and return [None]
      when it runs out (more fuel never changes a result).
    - A call that throws has the result [Throw] ([Thrown], with the
      message, for the setter of [aci]): the Error of the setter and of an
      unknown property command, and the RangeError of [push] on an array
      that has reached the greatest array length. *)

From Stdlib Require Import ZArith QArith Qabs Qround Qpower List String Ascii Bool Lia.
From stdpp Require Import base option list gmap.
Import ListNotations.
Local Open Scope Z_scope.

(* ================================================================= *)
(** ** JavaScript strings *)

Definition jschar := Z.
Definition jsstring := list jschar.

Definition ch (a : ascii) : jschar := Z.of_N (N_of_ascii a).
Arguments ch a%_char.

Definition js (x : string) : jsstring := map ch (list_ascii_of_string x).
Arguments js x%_string.

(** [str_of c] is the string denoted by a zero-or-one character value. *)
Definition str_of (c : option jschar) : jsstring :=
  match c with Some z => [z] | None => [] end.

(** [c === 'x'] for a zero-or-one character value [c]. *)
Definition eqc (c : option jschar) (x : jschar) : bool :=
  match c with Some z => z =? x | None => false end.

(** [c.charCodeAt(0) < n]; the code of the empty string is NaN and every
    comparison with it is false. *)
Definition code_lt (c : option jschar) (n : Z) : bool :=
  match c with Some z => z <? n | None => false end.

Definition code_ge (c : option jschar) (n : Z) : bool :=
  match c with Some z => n <=? z | None => false end.

(** [s.includes(c)] for a needle of length at most one: the empty string is
    included in every string. *)
Definition includes1 (s : jsstring) (c : option jschar) : bool :=
  match c with None => true | Some z => existsb (Z.eqb z) s end.

Fixpoint startsWith (s p : jsstring) : bool :=
  match p, s with
  | [], _ => true
  | x :: p', y :: s' => (x =? y) && startsWith s' p'
  | _ :: _, [] => false
  end.

Fixpoint includes (s sub : jsstring) : bool :=
  startsWith s sub ||
  match s with [] => false | _ :: s' => includes s' sub end.

Definition endsWith1 (s : jsstring) (x : jschar) : bool :=
  match last s with Some z => z =? x | None => false end.

(** [s.slice(b, e)]: negative arguments count from the end, both are clamped
    to the length, and an empty range gives the empty string. *)
Definition slice (s : jsstring) (b e : Z) : jsstring :=
  let len := Z.of_nat (length s) in
  let from := if b <? 0 then Z.max (len + b) 0 else Z.min b len in
  let to := if e <? 0 then Z.max (len + e) 0 else Z.min e len in
  take (Z.to_nat (to - from)) (drop (Z.to_nat from) s).

Fixpoint split_aux (sep : jschar) (s cur : jsstring) : list jsstring :=
  match s with
  | [] => [cur]
  | c :: s' =>
      if c =? sep then cur :: split_aux sep s' [] else split_aux sep s' (cur ++ [c])
  end.

Definition split (sep : jschar) (s : jsstring) : list jsstring := split_aux sep s [].

(** [toLowerCase] of a single code unit.  Only the ASCII range is mapped; the
    result is used solely as a key of [SPECIAL_CHAR_ENCODING], and no code
    unit outside ASCII lowercases to one of its keys. *)
Definition toLowerCase (c : jschar) : jschar :=
  if (65 <=? c) && (c <=? 90) then c + 32 else c.

(* ================================================================= *)
(** ** JavaScript numbers *)

Inductive number := NaN | Fin (q : Q) | Infinity (negative : bool).

Definition isNaN (n : number) : bool :=
  match n with NaN => true | _ => false end.

Definition Math_abs (n : number) : number :=
  match n with
  | NaN => NaN
  | Fin q => Fin (Qabs q)
  | Infinity _ => Infinity false
  end.

(** Unary minus. *)
Definition num_opp (n : number) : number :=
  match n with
  | NaN => NaN
  | Fin q => Fin (Qopp q)
  | Infinity negative => Infinity (negb negative)
  end.

Definition num_of_Z (z : Z) : number := Fin (inject_Z z).

(** [a < b], [a >= b], [a <= b] and [a !== b] on numbers; every ordered
    comparison with NaN is false and NaN differs from everything. *)
Definition num_lt (a b : number) : bool :=
  match a, b with
  | Fin x, Fin y => negb (Qle_bool y x)
  | Infinity true, Fin _ | Fin _, Infinity false => true
  | Infinity true, Infinity false => true
  | _, _ => false
  end.

Definition num_le (a b : number) : bool :=
  match a, b with
  | Fin x, Fin y => Qle_bool x y
  | Infinity true, Fin _ | Fin _, Infinity false => true
  | Infinity true, Infinity _ | Infinity false, Infinity false => true
  | _, _ => false
  end.

Definition num_ge (a b : number) : bool := num_le b a.

Definition num_neq (a b : number) : bool :=
  match a, b with
  | Fin x, Fin y => negb (Qeq_bool x y)
  | Infinity s, Infinity t => negb (eqb s t)
  | _, _ => true
  end.

(** Equality of the JSON text of two numbers: [JSON.stringify] prints NaN
    and the infinities as null. *)
Definition num_json_eq (a b : number) : bool :=
  match a, b with
  | Fin x, Fin y => Qeq_bool x y
  | Fin _, _ | _, Fin _ => false
  | _, _ => true
  end.

(** Equality of the [toString] texts of two numbers: NaN, Infinity and
    -Infinity print as three different words. *)
Definition num_string_eq (a b : number) : bool :=
  match a, b with
  | Fin x, Fin y => Qeq_bool x y
  | NaN, NaN => true
  | Infinity s, Infinity t => eqb s t
  | _, _ => false
  end.

(* ----------------------------------------------------------------- *)
(** *** Rounding to binary64

    A finite double is an integer of at most 53 bits times a power of two
    whose exponent lies between -1074 and 971.  The Number value of a
    decimal literal is the double nearest to its mathematical value, the one
    with the even significand when two are equally near, and Infinity when
    that rounding reaches 2^1024.  (ECMAScript lets an engine look at the
    first 20 significant digits only; the engines in use round the whole
    literal.) *)

(** For a positive rational, the exponent [l] with [2^l <= q < 2^(l+1)]. *)
Definition floorLog2 (q : Q) : Z :=
  let a := Z.log2 (Qnum q) - Z.log2 (Zpos (Qden q)) in
  if Qle_bool (Qpower 2 a) q then a else a - 1.

(** The integer nearest to a rational that is not negative, the even one of
    the two when it lies half way. *)
Definition roundHalfEven (q : Q) : Z :=
  let f := Qfloor q in
  match Qcompare (q - inject_Z f) (1 # 2) with
  | Lt => f
  | Gt => f + 1
  | Eq => if Z.even f then f else f + 1
  end.

(** The Number value of a mathematical value that is not negative. *)
Definition roundDouble (q : Q) : number :=
  if Qle_bool q 0 then Fin 0
  else
    let e := Z.max (floorLog2 q - 52) (-1074) in
    let m := roundHalfEven (q / Qpower 2 e) in
    let v := Qred (inject_Z m * Qpower 2 e) in
    if Qle_bool (Qpower 2 1024) v then Infinity false else Fin v.

(** ToInt32, the conversion applied by the bit operators. *)
Definition wrap32 (z : Z) : Z := (z + 2 ^ 31) mod 2 ^ 32 - 2 ^ 31.

Definition ToInt32 (n : number) : Z :=
  match n with
  | Fin q => wrap32 (Z.quot (Qnum q) (Zpos (Qden q)))
  | _ => 0
  end.

Definition js_shl (a n : Z) : Z := wrap32 (Z.shiftl (wrap32 a) n).
Definition js_shr (a n : Z) : Z := Z.shiftr (wrap32 a) n.
Definition js_or (a b : Z) : Z := Z.lor (wrap32 a) (wrap32 b).
Definition js_and (a b : Z) : Z := Z.land (wrap32 a) (wrap32 b).

(* ----------------------------------------------------------------- *)
(** *** The regular expressions of the source and the literal parsers *)

Definition isDigit (c : jschar) : bool := (48 <=? c) && (c <=? 57).

Definition isHexDigit (c : jschar) : bool :=
  isDigit c || ((65 <=? c) && (c <=? 70)) || ((97 <=? c) && (c <=? 102)).

Definition isSign (c : jschar) : bool := (c =? ch "+") || (c =? ch "-").

(** Length of the longest prefix made of decimal digits. *)
Fixpoint digitRun (s : jsstring) : nat :=
  match s with
  | c :: s' => if isDigit c then S (digitRun s') else O
  | [] => O
  end.

Definition digitsValue (s : jsstring) : Z :=
  fold_left (fun acc c => 10 * acc + (c - 48)) s 0.

(** One or more digits, then optionally a dot and further digits; when
    [leadingDot], alternatively a dot and one or more digits. *)
Definition matchMantissa (leadingDot : bool) (s : jsstring) : option nat :=
  let n := digitRun s in
  if (0 <? n)%nat then
    match drop n s with
    | c :: r => if c =? ch "." then Some (n + 1 + digitRun r)%nat else Some n
    | [] => Some n
    end
  else if leadingDot then
    match s with
    | c :: r =>
        if (c =? ch ".") && (0 <? digitRun r)%nat then Some (1 + digitRun r)%nat
        else None
    | [] => None
    end
  else None.

(** The optional exponent group: e or E, an optional sign, one or more
    digits.  The length matched, 0 when the group is skipped. *)
Definition matchExponent (s : jsstring) : nat :=
  match s with
  | c :: r =>
      if (c =? ch "e") || (c =? ch "E") then
        let '(k, r') :=
          match r with
          | d :: r' => if isSign d then (1%nat, r') else (O, r)
          | [] => (O, r)
          end in
        let n := digitRun r' in
        if (0 <? n)%nat then (1 + k + n)%nat else O
      else O
  | [] => O
  end.

(** The optional suffix x. *)
Definition matchOptX (s : jsstring) : nat :=
  match s with c :: _ => if c =? ch "x" then 1%nat else O | [] => O end.

(** An optional sign in front of [body], with the backtracking of the regex
    engine: when the body fails after the sign, the match is retried
    without it. *)
Definition matchOptSign (body : jsstring -> option nat) (s : jsstring) : option nat :=
  match s with
  | c :: r =>
      if isSign c then
        match body r with Some n => Some (S n) | None => body s end
      else body s
  | [] => body s
  end.

Definition floatBody (leadingDot relative : bool) (s : jsstring) : option nat :=
  match matchMantissa leadingDot s with
  | Some m =>
      let e := matchExponent (drop m s) in
      let x := if relative then matchOptX (drop (m + e) s) else O in
      Some (m + e + x)%nat
  | None => None
  end.

(** The pattern of [extractFloatExpression]: optional sign, mantissa in
    either form, optional exponent and, when [relative], an optional x.
    The result is the length of [match[0]]. *)
Definition floatPattern (relative : bool) (s : jsstring) : option nat :=
  matchOptSign (floatBody true relative) s.

(** The pattern of [parseFloatValue] in the paragraph sub-parser: as above
    but the mantissa must start with a digit and there is no x suffix. *)
Definition paragraphFloatPattern (s : jsstring) : option nat :=
  matchOptSign (floatBody false false) s.

(** [parseInt] on a string that starts with a run of decimal digits (the
    only strings the source passes to it): the Number value of the run; NaN
    when there is no digit. *)
Definition parseInt (s : jsstring) : number :=
  match take (digitRun s) s with
  | [] => NaN
  | d => roundDouble (inject_Z (digitsValue d))
  end.

(** [parseFloat] on a decimal literal: the Number value of the longest
    prefix that is a signed decimal with optional fraction and exponent; NaN
    when there is none. *)
Definition parseFloat (s : jsstring) : number :=
  let '(neg, r) :=
    match s with
    | c :: r' => if c =? ch "-" then (true, r') else if c =? ch "+" then (false, r') else (false, s)
    | [] => (false, s)
    end in
  let ni := digitRun r in
  let ip := take ni r in
  let r1 := drop ni r in
  let '(fp, r2) :=
    match r1 with
    | c :: r' =>
        if c =? ch "." then (take (digitRun r') r', drop (digitRun r') r') else ([], r1)
    | [] => ([], r1)
    end in
  match ip ++ fp with
  | [] => NaN
  | digits =>
      let e :=
        match r2 with
        | c :: r' =>
            if (c =? ch "e") || (c =? ch "E") then
              let '(eneg, r'') :=
                match r' with
                | d :: t => if d =? ch "-" then (true, t) else if d =? ch "+" then (false, t) else (false, r')
                | [] => (false, r')
                end in
              let v := digitsValue (take (digitRun r'') r'') in
              if (0 <? digitRun r'')%nat then (if eneg then - v else v) else 0
            else 0
        | [] => 0
        end in
      let q := (inject_Z (digitsValue digits) * Qpower (10 # 1) (e - Z.of_nat (length fp)))%Q in
      if neg then num_opp (roundDouble q) else roundDouble q
  end.

(* ================================================================= *)
(** ** Enumerations and plain data *)

Inductive TokenType :=
  | NONE | WORD | STACK | SPACE | NBSP | TABULATOR | NEW_PARAGRAPH
  | NEW_COLUMN | WRAP_AT_DIMLINE | PROPERTIES_CHANGED.

(** [MTextLineAlignment]; [ALIGN_NaN] is the value [parseInt('')] that
    [parseAlign] stores when the command is the last thing in the input. *)
Inductive MTextLineAlignment := BOTTOM | MIDDLE | TOP | ALIGN_NaN.

Inductive MTextParagraphAlignment :=
  | DEFAULT | LEFT | RIGHT | CENTER | JUSTIFIED | DISTRIBUTED.

(** [MTextStroke] *)
Definition UNDERLINE : Z := 1.
Definition OVERLINE : Z := 2.
Definition STRIKE_THROUGH : Z := 4.

Definition RGB := (Z * Z * Z)%type.

(** An RGB array together with its identity: [getPropertyChanges] compares
    the [rgb] fields with [!==], that is by reference. *)
Record RGBArray := { rgb_id : nat; rgb_value : RGB }.

Record FactorValue := { value : number; isRelative : bool }.

Record FontFace := { family : jsstring; style : jsstring; weight : Z }.

(** An element of [tab_stops]: a number, or the string [kind + value.toString()]
    kept as its two parts, the letter and the number printed after it. *)
Inductive TabStop :=
  | TabNumber (v : number)
  | TabString (kind : jschar) (v : number).

Record ParagraphProperties := {
  para_indent : number;
  para_left : number;
  para_right : number;
  para_align : MTextParagraphAlignment;
  tab_stops : list TabStop;
}.

(** [SPECIAL_CHAR_ENCODING] *)
Definition SPECIAL_CHAR_ENCODING (code : option jschar) : option jschar :=
  match code with
  | Some c =>
      if c =? ch "c" then Some 216      (* U+00D8 *)
      else if c =? ch "d" then Some 176 (* U+00B0 *)
      else if c =? ch "p" then Some 177 (* U+00B1 *)
      else None
  | None => None
  end.

(** [CHAR_TO_ALIGN[c] || MTextParagraphAlignment.DEFAULT] *)
Definition CHAR_TO_ALIGN (c : option jschar) : MTextParagraphAlignment :=
  match c with
  | Some z =>
      if z =? ch "l" then LEFT
      else if z =? ch "r" then RIGHT
      else if z =? ch "c" then CENTER
      else if z =? ch "j" then JUSTIFIED
      else if z =? ch "d" then DISTRIBUTED
      else DEFAULT
  | None => DEFAULT
  end.

Definition rgb2int (rgb : RGB) : Z :=
  let '(r, g, b) := rgb in
  js_or (js_or (js_shl b 16) (js_shl g 8)) r.

Definition int2rgb (v : Z) : RGB :=
  let r := js_and v 255 in
  let g := js_and (js_shr v 8) 255 in
  let b := js_and (js_shr v 16) 255 in
  (r, g, b).

(* ================================================================= *)
(** ** TextScanner *)

Record TextScanner := { text : jsstring; textLen : Z; _index : Z }.

Definition newTextScanner (t : jsstring) : TextScanner :=
  {| text := t; textLen := Z.of_nat (length t); _index := 0 |}.

(** [t[i]]; [None] stands for [undefined]. *)
Definition charAt (t : jsstring) (i : Z) : option jschar :=
  if i <? 0 then None else t !! Z.to_nat i.

Definition set_index (sc : TextScanner) (i : Z) : TextScanner :=
  {| text := text sc; textLen := textLen sc; _index := i |}.

Definition currentIndex (sc : TextScanner) : Z := _index sc.

Definition isEmpty (sc : TextScanner) : bool := textLen sc <=? _index sc.

Definition hasData (sc : TextScanner) : bool := _index sc <? textLen sc.

Definition get (sc : TextScanner) : option jschar * TextScanner :=
  if isEmpty sc then (None, sc)
  else (charAt (text sc) (_index sc), set_index sc (_index sc + 1)).

Definition consume (count : Z) (sc : TextScanner) : TextScanner :=
  set_index sc (Z.max 0 (Z.min (_index sc + count) (textLen sc))).

Definition peek (offset : Z) (sc : TextScanner) : option jschar :=
  let index := _index sc + offset in
  if (textLen sc <=? index) || (index <? 0) then None
  else charAt (text sc) index.

(** The loop of [find].  [n] counts the characters from [index] to the end of
    the text; the cursor moves by one or two on every iteration, so the
    counter reaches zero only once [index < textLen] has become false. *)
Fixpoint find_loop (n : nat) (t : jsstring) (len : Z) (char : jschar)
    (escape : bool) (index : Z) : Z :=
  match n with
  | O => -1
  | S n' =>
      if index <? len then
        if escape && eqc (charAt t index) (ch "\") then
          if index + 1 <? len then
            if eqc (charAt t (index + 1)) char then index + 1
            else find_loop n' t len char escape (index + 2)
          else find_loop n' t len char escape (index + 1)
        else if eqc (charAt t index) char then index
        else find_loop n' t len char escape (index + 1)
      else -1
  end.

Definition find (char : jschar) (escape : bool) (sc : TextScanner) : Z :=
  find_loop (Z.to_nat (textLen sc - _index sc)) (text sc) (textLen sc)
    char escape (_index sc).

Definition tail (sc : TextScanner) : jsstring :=
  slice (text sc) (_index sc) (Z.of_nat (length (text sc))).

(** The invariant the constructor establishes and [consume] keeps. *)
Definition wf_scanner (sc : TextScanner) : Prop :=
  textLen sc = Z.of_nat (length (text sc)) /\ 0 <= _index sc <= textLen sc.

(** [sc'] is a later state of the scanner [sc]: the same text, the cursor
    not before where it was. *)
Definition advances (sc sc' : TextScanner) : Prop :=
  text sc' = text sc /\ textLen sc' = textLen sc
  /\ _index sc <= _index sc' /\ wf_scanner sc'.

(** No backslash of the text is directly followed by the letter p. *)
Fixpoint noParagraphCommand (t : jsstring) : bool :=
  match t with
  | c :: r =>
      match r with
      | d :: _ => negb ((c =? ch "\") && (d =? ch "p"))
      | [] => true
      end && noParagraphCommand r
  | [] => true
  end.

(* ================================================================= *)
(** ** MTextContext *)

Record MTextContext := {
  _stroke : Z;
  continueStroke : bool;
  _aci : number;
  rgb : option RGBArray;
  align : MTextLineAlignment;
  fontFace : FontFace;
  _capHeight : FactorValue;
  _widthFactor : FactorValue;
  _charTrackingFactor : FactorValue;
  oblique : number;
  paragraph : ParagraphProperties;
}.

(** [new MTextContext()] *)
Definition newMTextContext : MTextContext := {|
  _stroke := 0;
  continueStroke := false;
  _aci := num_of_Z 7;
  rgb := None;
  align := BOTTOM;
  fontFace := {| family := []; style := js "Regular"; weight := 400 |};
  _capHeight := {| value := Fin 1; isRelative := false |};
  _widthFactor := {| value := Fin 1; isRelative := false |};
  _charTrackingFactor := {| value := Fin 1; isRelative := false |};
  oblique := Fin 0;
  paragraph := {| para_indent := Fin 0; para_left := Fin 0; para_right := Fin 0;
                  para_align := DEFAULT; tab_stops := [] |};
|}.

(** Field assignments. *)
Definition set_stroke (c : MTextContext) (v : Z) : MTextContext :=
  {| _stroke := v; continueStroke := continueStroke c; _aci := _aci c;
     rgb := rgb c; align := align c; fontFace := fontFace c;
     _capHeight := _capHeight c; _widthFactor := _widthFactor c;
     _charTrackingFactor := _charTrackingFactor c; oblique := oblique c;
     paragraph := paragraph c |}.

Definition set_continueStroke (c : MTextContext) (v : bool) : MTextContext :=
  {| _stroke := _stroke c; continueStroke := v; _aci := _aci c;
     rgb := rgb c; align := align c; fontFace := fontFace c;
     _capHeight := _capHeight c; _widthFactor := _widthFactor c;
     _charTrackingFactor := _charTrackingFactor c; oblique := oblique c;
     paragraph := paragraph c |}.

Definition set_rgb (c : MTextContext) (v : option RGBArray) : MTextContext :=
  {| _stroke := _stroke c; continueStroke := continueStroke c; _aci := _aci c;
     rgb := v; align := align c; fontFace := fontFace c;
     _capHeight := _capHeight c; _widthFactor := _widthFactor c;
     _charTrackingFactor := _charTrackingFactor c; oblique := oblique c;
     paragraph := paragraph c |}.

Definition set_align (c : MTextContext) (v : MTextLineAlignment) : MTextContext :=
  {| _stroke := _stroke c; continueStroke := continueStroke c; _aci := _aci c;
     rgb := rgb c; align := v; fontFace := fontFace c;
     _capHeight := _capHeight c; _widthFactor := _widthFactor c;
     _charTrackingFactor := _charTrackingFactor c; oblique := oblique c;
     paragraph := paragraph c |}.

Definition set_fontFace (c : MTextContext) (v : FontFace) : MTextContext :=
  {| _stroke := _stroke c; continueStroke := continueStroke c; _aci := _aci c;
     rgb := rgb c; align := align c; fontFace := v;
     _capHeight := _capHeight c; _widthFactor := _widthFactor c;
     _charTrackingFactor := _charTrackingFactor c; oblique := oblique c;
     paragraph := paragraph c |}.

Definition set_oblique (c : MTextContext) (v : number) : MTextContext :=
  {| _stroke := _stroke c; continueStroke := continueStroke c; _aci := _aci c;
     rgb := rgb c; align := align c; fontFace := fontFace c;
     _capHeight := _capHeight c; _widthFactor := _widthFactor c;
     _charTrackingFactor := _charTrackingFactor c; oblique := v;
     paragraph := paragraph c |}.

Definition set_paragraph (c : MTextContext) (v : ParagraphProperties) : MTextContext :=
  {| _stroke := _stroke c; continueStroke := continueStroke c; _aci := _aci c;
     rgb := rgb c; align := align c; fontFace := fontFace c;
     _capHeight := _capHeight c; _widthFactor := _widthFactor c;
     _charTrackingFactor := _charTrackingFactor c; oblique := oblique c;
     paragraph := v |}.

(** The accessors with a body. *)
Definition absFactor (v : FactorValue) : FactorValue :=
  {| value := Math_abs (value v); isRelative := isRelative v |}.

Definition capHeight (c : MTextContext) : FactorValue := _capHeight c.

Definition set_capHeight (c : MTextContext) (v : FactorValue) : MTextContext :=
  {| _stroke := _stroke c; continueStroke := continueStroke c; _aci := _aci c;
     rgb := rgb c; align := align c; fontFace := fontFace c;
     _capHeight := absFactor v; _widthFactor := _widthFactor c;
     _charTrackingFactor := _charTrackingFactor c; oblique := oblique c;
     paragraph := paragraph c |}.

Definition widthFactor (c : MTextContext) : FactorValue := _widthFactor c.

Definition set_widthFactor (c : MTextContext) (v : FactorValue) : MTextContext :=
  {| _stroke := _stroke c; continueStroke := continueStroke c; _aci := _aci c;
     rgb := rgb c; align := align c; fontFace := fontFace c;
     _capHeight := _capHeight c; _widthFactor := absFactor v;
     _charTrackingFactor := _charTrackingFactor c; oblique := oblique c;
     paragraph := paragraph c |}.

Definition charTrackingFactor (c : MTextContext) : FactorValue := _charTrackingFactor c.

Definition set_charTrackingFactor (c : MTextContext) (v : FactorValue) : MTextContext :=
  {| _stroke := _stroke c; continueStroke := continueStroke c; _aci := _aci c;
     rgb := rgb c; align := align c; fontFace := fontFace c;
     _capHeight := _capHeight c; _widthFactor := _widthFactor c;
     _charTrackingFactor := absFactor v; oblique := oblique c;
     paragraph := paragraph c |}.

Definition aci (c : MTextContext) : number := _aci c.

(** How a call ends: it returns, or it throws an [Error] with a message. *)
Inductive outcome := Returned | Thrown (message : string).

(** The result of a computation that may throw before producing its value. *)
Inductive result (A : Type) := Ok (a : A) | Throw.
Arguments Ok {A} a.
Arguments Throw {A}.

(** [set aci(value)]: the only setter with a [throw].  The pair is the
    object after the call and the way the call ended. *)
Definition set_aci (c : MTextContext) (v : number) : MTextContext * outcome :=
  if num_ge v (num_of_Z 0) && num_le v (num_of_Z 256) then
    ({| _stroke := _stroke c; continueStroke := continueStroke c; _aci := v;
        rgb := None; align := align c; fontFace := fontFace c;
        _capHeight := _capHeight c; _widthFactor := _widthFactor c;
        _charTrackingFactor := _charTrackingFactor c; oblique := oblique c;
        paragraph := paragraph c |}, Returned)
  else (c, Thrown "ACI not in range [0, 256]").

(** [Boolean(n)] for an int32. *)
Definition truthy (z : Z) : bool := negb (z =? 0).

Definition _setStrokeState (c : MTextContext) (stroke : Z) (state : bool) : MTextContext :=
  if state then set_stroke c (js_or (_stroke c) stroke)
  else set_stroke c (js_and (_stroke c) (Z.lnot (wrap32 stroke))).

Definition underline (c : MTextContext) : bool := truthy (js_and (_stroke c) UNDERLINE).
Definition set_underline (c : MTextContext) (v : bool) := _setStrokeState c UNDERLINE v.

Definition strikeThrough (c : MTextContext) : bool := truthy (js_and (_stroke c) STRIKE_THROUGH).
Definition set_strikeThrough (c : MTextContext) (v : bool) := _setStrokeState c STRIKE_THROUGH v.

Definition overline (c : MTextContext) : bool := truthy (js_and (_stroke c) OVERLINE).
Definition set_overline (c : MTextContext) (v : bool) := _setStrokeState c OVERLINE v.

Definition hasAnyStroke (c : MTextContext) : bool := truthy (_stroke c).

(** [copy()] as the parser observes it.  The fresh object receives the
    scalar fields, the same [rgb] array (same identity), clones of
    [fontFace], of the three factor objects and of [paragraph]; [tab_stops]
    inside the clone is the same array.  The parser never writes into an
    array or object reachable from a context after creating it, so the
    sharing is invisible here; [Module Heap] below models [copy] with
    explicit references. *)
Definition copy (c : MTextContext) : MTextContext :=
  {| _stroke := _stroke c;
     continueStroke := continueStroke c;
     _aci := _aci c;
     rgb := rgb c;
     align := align c;
     fontFace := {| family := family (fontFace c); style := style (fontFace c);
                    weight := weight (fontFace c) |};
     _capHeight := {| value := value (_capHeight c); isRelative := isRelative (_capHeight c) |};
     _widthFactor := {| value := value (_widthFactor c); isRelative := isRelative (_widthFactor c) |};
     _charTrackingFactor := {| value := value (_charTrackingFactor c);
                               isRelative := isRelative (_charTrackingFactor c) |};
     oblique := oblique c;
     paragraph := {| para_indent := para_indent (paragraph c);
                     para_left := para_left (paragraph c);
                     para_right := para_right (paragraph c);
                     para_align := para_align (paragraph c);
                     tab_stops := tab_stops (paragraph c) |} |}.

(* ================================================================= *)
(** ** Tokens *)

(** [Partial<ParagraphProperties>]: the keys present in the diff. *)
Record PartialParagraph := {
  pp_indent : option number;
  pp_align : option MTextParagraphAlignment;
  pp_left : option number;
  pp_right : option number;
  pp_tab_stops : option (list TabStop);
}.

(** [Properties]: every key is optional; [ch_rgb] may be present and null. *)
Record Properties := {
  ch_underline : option bool;
  ch_overline : option bool;
  ch_strikeThrough : option bool;
  ch_aci : option number;
  ch_rgb : option (option RGBArray);
  ch_align : option MTextLineAlignment;
  ch_fontFace : option FontFace;
  ch_capHeight : option FactorValue;
  ch_widthFactor : option FactorValue;
  ch_charTrackingFactor : option FactorValue;
  ch_oblique : option number;
  ch_paragraph : option PartialParagraph;
}.

Record ChangedProperties := { command : jschar; changes : Properties }.

(** [TokenData] *)
Inductive TokenData :=
  | DNull
  | DWord (w : jsstring)
  | DStack (numerator denominator stackingType : jsstring)
  | DChanged (c : ChangedProperties).

Record MTextToken := { tok_type : TokenType; tok_ctx : MTextContext; tok_data : TokenData }.

(* ================================================================= *)
(** ** MTextParser *)

(** The state of a parser instance.  [nextRgbId] is the identity the next
    RGB array created by the parser receives. *)
Record MTextParser := {
  scanner : TextScanner;
  ctx : MTextContext;
  ctxStack : list MTextContext;
  parserContinueStroke : bool;
  yieldPropertyCommands : bool;
  lastCtx : MTextContext;
  inStackContext : bool;
  nextRgbId : nat;
}.

Definition with_scanner (p : MTextParser) (sc : TextScanner) : MTextParser :=
  {| scanner := sc; ctx := ctx p; ctxStack := ctxStack p;
     parserContinueStroke := parserContinueStroke p;
     yieldPropertyCommands := yieldPropertyCommands p; lastCtx := lastCtx p;
     inStackContext := inStackContext p; nextRgbId := nextRgbId p |}.

Definition with_ctx (p : MTextParser) (c : MTextContext) : MTextParser :=
  {| scanner := scanner p; ctx := c; ctxStack := ctxStack p;
     parserContinueStroke := parserContinueStroke p;
     yieldPropertyCommands := yieldPropertyCommands p; lastCtx := lastCtx p;
     inStackContext := inStackContext p; nextRgbId := nextRgbId p |}.

Definition with_ctxStack (p : MTextParser) (s : list MTextContext) : MTextParser :=
  {| scanner := scanner p; ctx := ctx p; ctxStack := s;
     parserContinueStroke := parserContinueStroke p;
     yieldPropertyCommands := yieldPropertyCommands p; lastCtx := lastCtx p;
     inStackContext := inStackContext p; nextRgbId := nextRgbId p |}.

Definition with_continueStroke (p : MTextParser) (b : bool) : MTextParser :=
  {| scanner := scanner p; ctx := ctx p; ctxStack := ctxStack p;
     parserContinueStroke := b;
     yieldPropertyCommands := yieldPropertyCommands p; lastCtx := lastCtx p;
     inStackContext := inStackContext p; nextRgbId := nextRgbId p |}.

Definition with_lastCtx (p : MTextParser) (c : MTextContext) : MTextParser :=
  {| scanner := scanner p; ctx := ctx p; ctxStack := ctxStack p;
     parserContinueStroke := parserContinueStroke p;
     yieldPropertyCommands := yieldPropertyCommands p; lastCtx := c;
     inStackContext := inStackContext p; nextRgbId := nextRgbId p |}.

Definition with_inStackContext (p : MTextParser) (b : bool) : MTextParser :=
  {| scanner := scanner p; ctx := ctx p; ctxStack := ctxStack p;
     parserContinueStroke := parserContinueStroke p;
     yieldPropertyCommands := yieldPropertyCommands p; lastCtx := lastCtx p;
     inStackContext := b; nextRgbId := nextRgbId p |}.

Definition with_nextRgbId (p : MTextParser) (n : nat) : MTextParser :=
  {| scanner := scanner p; ctx := ctx p; ctxStack := ctxStack p;
     parserContinueStroke := parserContinueStroke p;
     yieldPropertyCommands := yieldPropertyCommands p; lastCtx := lastCtx p;
     inStackContext := inStackContext p; nextRgbId := n |}.

(** [new MTextParser(content, ctx, yieldPropertyCommands)]; without a context
    argument the caller passes [newMTextContext]. *)
Definition newMTextParser (content : jsstring) (c : MTextContext)
    (yieldCommands : bool) : MTextParser :=
  {| scanner := newTextScanner content;
     ctx := c;
     ctxStack := [];
     parserContinueStroke := false;
     yieldPropertyCommands := yieldCommands;
     lastCtx := copy c;
     inStackContext := false;
     nextRgbId := match rgb c with Some a => S (rgb_id a) | None => O end |}.

Definition pushCtx (p : MTextParser) : MTextParser :=
  with_ctxStack p (ctxStack p ++ [ctx p]).

Definition popCtx (p : MTextParser) : MTextParser :=
  match last (ctxStack p) with
  | Some c => with_ctx (with_ctxStack p (removelast (ctxStack p))) c
  | None => p
  end.

Definition consumeOptionalTerminator (sc : TextScanner) : TextScanner :=
  if eqc (peek 0 sc) (ch ";") then consume 1 sc else sc.

(** [extractExpression(escape)] *)
Definition extractExpression (escape : bool) (sc : TextScanner) : jsstring * TextScanner :=
  let stop := find (ch ";") escape sc in
  if stop <? 0 then
    let expr := tail sc in
    (expr, consume (Z.of_nat (length expr)) sc)
  else
    let prevChar := peek (stop - currentIndex sc - 1) sc in
    let isEscaped := eqc prevChar (ch "\") in
    let expr := slice (tail sc) 0 (stop - currentIndex sc + (if isEscaped then 1 else 0)) in
    (expr, consume (Z.of_nat (length expr) + 1) sc).

(** [extractFloatExpression(relative)] *)
Definition extractFloatExpression (relative : bool) (sc : TextScanner) : jsstring * TextScanner :=
  match floatPattern relative (tail sc) with
  | Some n =>
      let result := take n (tail sc) in
      (result, consume (Z.of_nat (length result)) sc)
  | None => ([], sc)
  end.

(** [extractIntExpression()] *)
Definition extractIntExpression (sc : TextScanner) : jsstring * TextScanner :=
  match digitRun (tail sc) with
  | O => ([], sc)
  | n =>
      let result := take n (tail sc) in
      (result, consume (Z.of_nat (length result)) sc)
  end.

(* ----------------------------------------------------------------- *)
(** *** parseStacking *)

(** The closure [getNextChar] over the local scanner. *)
Definition getNextChar (sc : TextScanner) : (option jschar * bool) * TextScanner :=
  let c := peek 0 sc in
  let c := if code_lt c 32 then Some (ch " ") else c in
  if eqc c (ch "\") then
    let sc := consume 1 sc in
    let c := peek 0 sc in
    ((c, true), consume 1 sc)
  else ((c, false), consume 1 sc).

Definition isDivider (c : option jschar) : bool :=
  eqc c (ch "/") || eqc c (ch "#") || eqc c (ch "^").

(** [parseNumerator]: [n] counts the characters that remain in the local
    scanner, of which [getNextChar] takes at least one. *)
Fixpoint parseNumerator_loop (n : nat) (sc : TextScanner) (word : jsstring)
    : (jsstring * jsstring) * TextScanner :=
  match n with
  | O => ((word, []), sc)
  | S n' =>
      if hasData sc then
        let '((c, escape), sc') := getNextChar sc in
        if negb escape && isDivider c then ((word, str_of c), sc')
        else parseNumerator_loop n' sc' (word ++ str_of c)
      else ((word, []), sc)
  end.

Definition remaining (sc : TextScanner) : nat := Z.to_nat (textLen sc - _index sc).

Definition parseNumerator (sc : TextScanner) : (jsstring * jsstring) * TextScanner :=
  parseNumerator_loop (remaining sc) sc [].

Fixpoint parseDenominator_loop (n : nat) (sc : TextScanner) (word : jsstring)
    (skipping : bool) : jsstring * TextScanner :=
  match n with
  | O => (word, sc)
  | S n' =>
      if hasData sc then
        let '((c, escape), sc') := getNextChar sc in
        if skipping && eqc c (ch " ") then parseDenominator_loop n' sc' word skipping
        else if negb escape && eqc c (ch ";") then (word, sc')
        else parseDenominator_loop n' sc' (word ++ str_of c) false
      else (word, sc)
  end.

Definition parseDenominator (skipLeadingSpace : bool) (sc : TextScanner) : jsstring * TextScanner :=
  parseDenominator_loop (remaining sc) sc [] skipLeadingSpace.

(** The first part of the body of [parseStacking], after the expression has
    been extracted: the values of [numerator], [denominator] and
    [stackingType] when the special case is tested. *)
Definition stackParts (expr : jsstring) : jsstring * jsstring * jsstring :=
  let sc := newTextScanner expr in
  let '((numerator, stackingType), sc) := parseNumerator sc in
  let denominator :=
    match stackingType with
    | [] => []
    | _ => fst (parseDenominator (eqc (head stackingType) (ch "^")) sc)
    end in
  (numerator, denominator, stackingType).

(** The three [return] statements of [parseStacking]. *)
Definition stackExpression (expr : jsstring) : TokenType * TokenData :=
  let '(numerator, denominator, stackingType) := stackParts expr in
  if (match numerator with [] => true | _ => false end) && includes denominator (js "I/")
  then (STACK, DStack (js " ") (js " ") (js "/"))
  else if eqc (head stackingType) (ch "^")
  then (STACK, DStack numerator denominator (js "^"))
  else (STACK, DStack numerator denominator stackingType).

Definition parseStacking (p : MTextParser) : (TokenType * TokenData) * MTextParser :=
  let '(expr, sc) := extractExpression true (scanner p) in
  (stackExpression expr, with_scanner p sc).

(* ----------------------------------------------------------------- *)
(** *** The property sub-parsers

    Each takes the parser (for [this.scanner]) and the context under
    construction, and returns both. *)

Definition parseAlign (p : MTextParser) (c : MTextContext) : MTextParser * MTextContext :=
  let '(char, sc) := get (scanner p) in
  let c :=
    if includes1 (js "012") char then
      set_align c (match char with
                   | Some z => if z =? ch "0" then BOTTOM else if z =? ch "1" then MIDDLE else TOP
                   | None => ALIGN_NaN
                   end)
    else set_align c BOTTOM in
  (with_scanner p (consumeOptionalTerminator sc), c).

(** The shared body of [parseHeight], [parseWidth] and [parseCharTracking]:
    the factor object built from the expression.  [parseFloat] does not throw,
    so the [catch] branch of the source is never entered. *)
Definition factorOfExpr (expr : jsstring) : FactorValue :=
  if endsWith1 expr (ch "x")
  then {| value := parseFloat (slice expr 0 (-1)); isRelative := true |}
  else {| value := parseFloat expr; isRelative := false |}.

Definition parseHeight (p : MTextParser) (c : MTextContext) : MTextParser * MTextContext :=
  let '(expr, sc) := extractFloatExpression true (scanner p) in
  let c := match expr with [] => c | _ => set_capHeight c (factorOfExpr expr) end in
  (with_scanner p (consumeOptionalTerminator sc), c).

Definition parseWidth (p : MTextParser) (c : MTextContext) : MTextParser * MTextContext :=
  let '(expr, sc) := extractFloatExpression true (scanner p) in
  let c := match expr with [] => c | _ => set_widthFactor c (factorOfExpr expr) end in
  (with_scanner p (consumeOptionalTerminator sc), c).

Definition parseCharTracking (p : MTextParser) (c : MTextContext) : MTextParser * MTextContext :=
  let '(expr, sc) := extractFloatExpression true (scanner p) in
  let c := match expr with
           | [] => c
           | _ => set_charTrackingFactor c (absFactor (factorOfExpr expr))
           end in
  (with_scanner p (consumeOptionalTerminator sc), c).

Definition parseOblique (p : MTextParser) (c : MTextContext) : MTextParser * MTextContext :=
  let '(obliqueExpr, sc) := extractFloatExpression false (scanner p) in
  let c := match obliqueExpr with [] => c | _ => set_oblique c (parseFloat obliqueExpr) end in
  (with_scanner p (consumeOptionalTerminator sc), c).

(** [parseAciColor]: the setter may throw, in which case the scanner stays
    where the digits left it. *)
Definition parseAciColor (p : MTextParser) (c : MTextContext)
    : MTextParser * result MTextContext :=
  let '(aciExpr, sc) := extractIntExpression (scanner p) in
  match aciExpr with
  | [] => (with_scanner p (consumeOptionalTerminator sc), Ok c)
  | _ =>
      let v := parseInt aciExpr in
      if num_lt v (num_of_Z 257) then
        match set_aci c v with
        | (c', Returned) => (with_scanner p (consumeOptionalTerminator sc), Ok (set_rgb c' None))
        | (_, Thrown _) => (with_scanner p sc, Throw)
        end
      else (with_scanner p (consumeOptionalTerminator sc), Ok c)
  end.

Definition parseRgbColor (p : MTextParser) (c : MTextContext) : MTextParser * MTextContext :=
  let '(rgbExpr, sc) := extractIntExpression (scanner p) in
  match rgbExpr with
  | [] => (with_scanner p (consumeOptionalTerminator sc), c)
  | _ =>
      let v := js_and (ToInt32 (parseInt rgbExpr)) 16777215 in
      let '(b, g, r) := int2rgb v in
      let arr := {| rgb_id := nextRgbId p; rgb_value := (r, g, b) |} in
      (with_nextRgbId (with_scanner p (consumeOptionalTerminator sc)) (S (nextRgbId p)),
       set_rgb c (Some arr))
  end.

Definition parseFontProperties (p : MTextParser) (c : MTextContext) : MTextParser * MTextContext :=
  let '(expr, sc) := extractExpression false (scanner p) in
  let parts := split (ch "|") expr in
  let c :=
    match parts with
    | (_ :: _) as name :: rest =>
        let step (acc : jsstring * Z) (part : jsstring) :=
          if startsWith part (js "b1") then (fst acc, 700)
          else if startsWith part (js "i1") then (js "Italic", snd acc)
          else acc in
        let '(style, weight) := fold_left step rest (js "Regular", 400) in
        set_fontFace c {| family := name; style := style; weight := weight |}
    | _ => c
    end in
  (with_scanner p sc, c).

(* ----------------------------------------------------------------- *)
(** *** parseParagraphProperties *)

(** [while (scanner.peek() === ',') scanner.consume(1)]; [n] counts the
    characters that remain. *)
Fixpoint skipCommas_loop (n : nat) (sc : TextScanner) : TextScanner :=
  match n with
  | O => sc
  | S n' => if eqc (peek 0 sc) (ch ",") then skipCommas_loop n' (consume 1 sc) else sc
  end.

Definition skipCommas (sc : TextScanner) : TextScanner := skipCommas_loop (remaining sc) sc.

(** The closure [parseFloatValue] over the local scanner. *)
Definition parseFloatValue (sc : TextScanner) : number * TextScanner :=
  match paragraphFloatPattern (tail sc) with
  | Some n =>
      let m := take n (tail sc) in
      let v := parseFloat m in
      let sc := consume (Z.of_nat (length m)) sc in
      (v, skipCommas sc)
  | None => (num_of_Z 0, sc)
  end.

(** The greatest length of an array.  ECMAScript fixes it at 2^32 - 1; an
    engine that cannot allocate an array of that length raises the same
    RangeError earlier. *)
Definition maxArrayLength : Z := 2 ^ 32 - 1.

(** [tabStops.push(stop)]: on an array of the greatest length, [push] throws
    a RangeError (Invalid array length). *)
Definition push (tabStops : list TabStop) (stop : TabStop) : result (list TabStop) :=
  if Z.of_nat (length tabStops) <? maxArrayLength then Ok (tabStops ++ [stop])
  else Throw.

(** The inner loop of [case 't'].  [None]: the fuel ran out; [Some Throw]:
    [push] threw. *)
Fixpoint tabStops_loop (fuel : nat) (sc : TextScanner) (tabStops : list TabStop)
    : option (result (TextScanner * list TabStop)) :=
  match fuel with
  | O => None
  | S fuel' =>
      if hasData sc then
        let type := peek 0 sc in
        if eqc type (ch "r") || eqc type (ch "c") then
          let sc := consume 1 sc in
          let '(v, sc) := parseFloatValue sc in
          match push tabStops (TabString (default 0 type) v) with
          | Ok tabStops => tabStops_loop fuel' sc tabStops
          | Throw => Some Throw
          end
        else
          let '(v, sc) := parseFloatValue sc in
          if negb (isNaN v) then
            match push tabStops (TabNumber v) with
            | Ok tabStops => tabStops_loop fuel' sc tabStops
            | Throw => Some Throw
            end
          else tabStops_loop fuel' (consume 1 sc) tabStops
      else Some (Ok (sc, tabStops))
  end.

(** The local variables of [parseParagraphProperties]. *)
Record ParagraphLocals := {
  l_indent : number;
  l_left : number;
  l_right : number;
  l_align : MTextParagraphAlignment;
  l_tabStops : list TabStop;
}.

(** The outer [while (scanner.hasData)] loop with its [switch]. *)
Fixpoint paragraph_loop (fuel : nat) (sc : TextScanner) (l : ParagraphLocals)
    : option (result ParagraphLocals) :=
  match fuel with
  | O => None
  | S fuel' =>
      if hasData sc then
        let '(cmd, sc) := get sc in
        if eqc cmd (ch "i") then
          let '(v, sc) := parseFloatValue sc in
          paragraph_loop fuel' sc
            {| l_indent := v; l_left := l_left l; l_right := l_right l;
               l_align := l_align l; l_tabStops := l_tabStops l |}
        else if eqc cmd (ch "l") then
          let '(v, sc) := parseFloatValue sc in
          paragraph_loop fuel' sc
            {| l_indent := l_indent l; l_left := v; l_right := l_right l;
               l_align := l_align l; l_tabStops := l_tabStops l |}
        else if eqc cmd (ch "r") then
          let '(v, sc) := parseFloatValue sc in
          paragraph_loop fuel' sc
            {| l_indent := l_indent l; l_left := l_left l; l_right := v;
               l_align := l_align l; l_tabStops := l_tabStops l |}
        else if eqc cmd (ch "x") then paragraph_loop fuel' sc l
        else if eqc cmd (ch "q") then
          let '(adjustment, sc) := get sc in
          paragraph_loop fuel' (skipCommas sc)
            {| l_indent := l_indent l; l_left := l_left l; l_right := l_right l;
               l_align := CHAR_TO_ALIGN adjustment; l_tabStops := l_tabStops l |}
        else if eqc cmd (ch "t") then
          match tabStops_loop fuel' sc [] with
          | Some (Ok (sc, stops)) =>
              paragraph_loop fuel' sc
                {| l_indent := l_indent l; l_left := l_left l; l_right := l_right l;
                   l_align := l_align l; l_tabStops := stops |}
          | Some Throw => Some Throw
          | None => None
          end
        else paragraph_loop fuel' sc l
      else Some (Ok l)
  end.

(** [parseParagraphProperties]: when the tab-stop loop throws, the scanner
    of the parser stands after the expression and the context has not been
    written. *)
Definition parseParagraphProperties (fuel : nat) (p : MTextParser) (c : MTextContext)
    : option (MTextParser * result MTextContext) :=
  let '(expr, sc) := extractExpression false (scanner p) in
  let locals :=
    {| l_indent := para_indent (paragraph c); l_left := para_left (paragraph c);
       l_right := para_right (paragraph c); l_align := para_align (paragraph c);
       l_tabStops := [] |} in
  match paragraph_loop fuel (newTextScanner expr) locals with
  | Some (Ok l) =>
      Some (with_scanner p sc,
            Ok (set_paragraph c
                  {| para_indent := l_indent l; para_left := l_left l;
                     para_right := l_right l; para_align := l_align l;
                     tab_stops := l_tabStops l |}))
  | Some Throw => Some (with_scanner p sc, Throw)
  | None => None
  end.

(* ----------------------------------------------------------------- *)
(** *** getPropertyChanges *)

Fixpoint str_eqb (a b : jsstring) : bool :=
  match a, b with
  | [], [] => true
  | x :: a', y :: b' => (x =? y) && str_eqb a' b'
  | _, _ => false
  end.

(** [a !== b] on line alignments, NaN included. *)
Definition lineAlign_neq (a b : MTextLineAlignment) : bool :=
  match a, b with
  | BOTTOM, BOTTOM | MIDDLE, MIDDLE | TOP, TOP => false
  | _, _ => true
  end.

Definition paraAlign_eqb (a b : MTextParagraphAlignment) : bool :=
  match a, b with
  | DEFAULT, DEFAULT | LEFT, LEFT | RIGHT, RIGHT | CENTER, CENTER
  | JUSTIFIED, JUSTIFIED | DISTRIBUTED, DISTRIBUTED => true
  | _, _ => false
  end.

(** [a !== b] on the [rgb] fields: null, or an array compared by identity. *)
Definition rgb_neq (a b : option RGBArray) : bool :=
  match a, b with
  | None, None => false
  | Some x, Some y => negb (Nat.eqb (rgb_id x) (rgb_id y))
  | _, _ => true
  end.

(** Equality of the [JSON.stringify] texts. *)
Definition fontFace_json_eq (a b : FontFace) : bool :=
  str_eqb (family a) (family b) && str_eqb (style a) (style b) && (weight a =? weight b).

Definition tabStop_json_eq (a b : TabStop) : bool :=
  match a, b with
  | TabNumber x, TabNumber y => num_json_eq x y
  | TabString k x, TabString l y => (k =? l) && num_string_eq x y
  | _, _ => false
  end.

Fixpoint tabStops_json_eq (a b : list TabStop) : bool :=
  match a, b with
  | [], [] => true
  | x :: a', y :: b' => tabStop_json_eq x y && tabStops_json_eq a' b'
  | _, _ => false
  end.

Definition paragraph_json_eq (a b : ParagraphProperties) : bool :=
  num_json_eq (para_indent a) (para_indent b) &&
  num_json_eq (para_left a) (para_left b) &&
  num_json_eq (para_right a) (para_right b) &&
  paraAlign_eqb (para_align a) (para_align b) &&
  tabStops_json_eq (tab_stops a) (tab_stops b).

Definition factor_neq (a b : FactorValue) : bool :=
  num_neq (value a) (value b) || negb (eqb (isRelative a) (isRelative b)).

Definition when {A : Type} (b : bool) (x : A) : option A := if b then Some x else None.

Definition paragraphChanges (o n : ParagraphProperties) : PartialParagraph :=
  {| pp_indent := when (num_neq (para_indent o) (para_indent n)) (para_indent n);
     pp_align := when (negb (paraAlign_eqb (para_align o) (para_align n))) (para_align n);
     pp_left := when (num_neq (para_left o) (para_left n)) (para_left n);
     pp_right := when (num_neq (para_right o) (para_right n)) (para_right n);
     pp_tab_stops := when (negb (tabStops_json_eq (tab_stops o) (tab_stops n))) (tab_stops n) |}.

(** A key is present in an object literal. *)
Definition present {A : Type} (x : option A) : bool :=
  match x with Some _ => true | None => false end.

(** [Object.keys(changedProps).length > 0] *)
Definition partialHasKeys (c : PartialParagraph) : bool :=
  present (pp_indent c) || present (pp_align c) || present (pp_left c) ||
  present (pp_right c) || present (pp_tab_stops c).

Definition getPropertyChanges (oldCtx newCtx : MTextContext) : Properties :=
  {| ch_underline := when (negb (eqb (underline oldCtx) (underline newCtx))) (underline newCtx);
     ch_overline := when (negb (eqb (overline oldCtx) (overline newCtx))) (overline newCtx);
     ch_strikeThrough :=
       when (negb (eqb (strikeThrough oldCtx) (strikeThrough newCtx))) (strikeThrough newCtx);
     ch_aci := when (num_neq (aci oldCtx) (aci newCtx)) (aci newCtx);
     ch_rgb :=
       when (num_neq (aci oldCtx) (aci newCtx) || rgb_neq (rgb oldCtx) (rgb newCtx)) (rgb newCtx);
     ch_align := when (lineAlign_neq (align oldCtx) (align newCtx)) (align newCtx);
     ch_fontFace :=
       when (negb (fontFace_json_eq (fontFace oldCtx) (fontFace newCtx))) (fontFace newCtx);
     ch_capHeight := when (factor_neq (capHeight oldCtx) (capHeight newCtx)) (capHeight newCtx);
     ch_widthFactor :=
       when (factor_neq (widthFactor oldCtx) (widthFactor newCtx)) (widthFactor newCtx);
     ch_charTrackingFactor :=
       when (factor_neq (charTrackingFactor oldCtx) (charTrackingFactor newCtx))
            (charTrackingFactor newCtx);
     ch_oblique := when (num_neq (oblique oldCtx) (oblique newCtx)) (oblique newCtx);
     ch_paragraph :=
       if paragraph_json_eq (paragraph oldCtx) (paragraph newCtx) then None
       else
         let changedProps := paragraphChanges (paragraph oldCtx) (paragraph newCtx) in
         when (partialHasKeys changedProps) changedProps |}.

(** [Object.keys(changes).length > 0] *)
Definition hasKeys (c : Properties) : bool :=
  present (ch_underline c) || present (ch_overline c) || present (ch_strikeThrough c) ||
  present (ch_aci c) || present (ch_rgb c) || present (ch_align c) ||
  present (ch_fontFace c) || present (ch_capHeight c) || present (ch_widthFactor c) ||
  present (ch_charTrackingFactor c) || present (ch_oblique c) || present (ch_paragraph c).

(* ----------------------------------------------------------------- *)
(** *** parseProperties *)

(** The [switch (cmd)] of [parseProperties], applied to the copy [newCtx]. *)
Definition dispatchProperty (fuel : nat) (cmd : jschar) (p : MTextParser)
    (newCtx : MTextContext) : option (MTextParser * result MTextContext) :=
  if cmd =? ch "L" then
    Some (with_continueStroke p true, Ok (set_underline newCtx true))
  else if cmd =? ch "l" then
    let newCtx := set_underline newCtx false in
    Some (if negb (hasAnyStroke newCtx) then with_continueStroke p false else p, Ok newCtx)
  else if cmd =? ch "O" then
    Some (with_continueStroke p true, Ok (set_overline newCtx true))
  else if cmd =? ch "o" then
    let newCtx := set_overline newCtx false in
    Some (if negb (hasAnyStroke newCtx) then with_continueStroke p false else p, Ok newCtx)
  else if cmd =? ch "K" then
    Some (with_continueStroke p true, Ok (set_strikeThrough newCtx true))
  else if cmd =? ch "k" then
    let newCtx := set_strikeThrough newCtx false in
    Some (if negb (hasAnyStroke newCtx) then with_continueStroke p false else p, Ok newCtx)
  else if cmd =? ch "A" then
    let '(p, c) := parseAlign p newCtx in Some (p, Ok c)
  else if cmd =? ch "C" then Some (parseAciColor p newCtx)
  else if cmd =? ch "c" then
    let '(p, c) := parseRgbColor p newCtx in Some (p, Ok c)
  else if cmd =? ch "H" then
    let '(p, c) := parseHeight p newCtx in Some (p, Ok c)
  else if cmd =? ch "W" then
    let '(p, c) := parseWidth p newCtx in Some (p, Ok c)
  else if cmd =? ch "Q" then
    let '(p, c) := parseOblique p newCtx in Some (p, Ok c)
  else if cmd =? ch "T" then
    let '(p, c) := parseCharTracking p newCtx in Some (p, Ok c)
  else if cmd =? ch "p" then parseParagraphProperties fuel p newCtx
  else if (cmd =? ch "f") || (cmd =? ch "F") then
    let '(p, c) := parseFontProperties p newCtx in Some (p, Ok c)
  else Some (p, Throw).

(** [parseProperties(cmd)].  [None]: the fuel ran out; [Throw]: the call
    throws, with the parser as the exception leaves it. *)
Definition parseProperties (fuel : nat) (cmd : jschar) (p : MTextParser)
    : option (MTextParser * result (option ChangedProperties)) :=
  let newCtx := copy (ctx p) in
  match dispatchProperty fuel cmd p newCtx with
  | None => None
  | Some (p, Throw) => Some (p, Throw)
  | Some (p, Ok newCtx) =>
      let p := with_continueStroke p (hasAnyStroke newCtx) in
      let newCtx := set_continueStroke newCtx (parserContinueStroke p) in
      let p := with_ctx p newCtx in
      if yieldPropertyCommands p then
        let changes := getPropertyChanges (lastCtx p) newCtx in
        if hasKeys changes then
          Some (with_lastCtx p (copy (ctx p)),
                Ok (Some {| command := cmd; changes := changes |}))
        else Some (p, Ok None)
      else Some (p, Ok None)
  end.

(* ----------------------------------------------------------------- *)
(** *** parse *)

(** One iteration of the [while (this.scanner.hasData)] loop of [nextToken]
    either continues with a new word buffer or returns a token, possibly
    after setting [followupToken]. *)
Inductive step :=
  | Continue (p : MTextParser) (word : jsstring)
  | Return (t : TokenType) (d : TokenData) (followupToken : option TokenType)
           (p : MTextParser).

Definition step_parser (st : step) : MTextParser :=
  match st with Continue p _ => p | Return _ _ _ p => p end.

(** The part of the loop body below the backslash block. *)
Definition plainChar (p : MTextParser) (word : jsstring) (letter : option jschar)
    (escape : bool) : step :=
  let sc := scanner p in
  if eqc letter (ch "%") && eqc (peek 1 sc) (ch "%") then
    let code := option_map toLowerCase (peek 2 sc) in
    match SPECIAL_CHAR_ENCODING code with
    | Some specialChar => Continue (with_scanner p (consume 3 sc)) (word ++ [specialChar])
    | None => Continue (with_scanner p (consume 3 sc)) word
    end
  else if eqc letter (ch " ") then
    match word with
    | _ :: _ => Return WORD (DWord word) (Some SPACE) (with_scanner p (consume 1 sc))
    | [] => Return SPACE DNull None (with_scanner p (consume 1 sc))
    end
  else if negb escape && eqc letter (ch "{") then
    match word with
    | _ :: _ => Return WORD (DWord word) None p
    | [] => Continue (pushCtx (with_scanner p (consume 1 sc))) word
    end
  else if negb escape && eqc letter (ch "}") then
    match word with
    | _ :: _ => Return WORD (DWord word) None p
    | [] => Continue (popCtx (with_scanner p (consume 1 sc))) word
    end
  else
    let last_part :=
      Continue (with_scanner p (consume 1 sc))
               (if code_ge letter 32 then word ++ str_of letter else word) in
    if negb (inStackContext p) && eqc letter (ch "^") then
      match peek 1 sc with
      | Some nextChar =>
          let p := with_scanner p (consume 2 sc) in
          if nextChar =? 32 then Continue p (word ++ js "^")
          else if nextChar =? 73 then
            match word with
            | _ :: _ => Return WORD (DWord word) None p
            | [] => Return TABULATOR DNull None p
            end
          else if nextChar =? 74 then
            match word with
            | _ :: _ => Return WORD (DWord word) None p
            | [] => Return NEW_PARAGRAPH DNull None p
            end
          else if nextChar =? 77 then Continue p word
          else Continue p (word ++ [9647]) (* U+25AF *)
      | None => last_part
      end
    else last_part.

(** The letters with a [case] in the [switch] of [nextToken] or of
    [parseProperties]. *)
Definition knownCommands : jsstring := js "~PNXSMmLlOoKkACcHWQTpfF".

Section Parse.

(** The two [TextDecoder]s of [decodeMultiByteChar], applied to the two bytes;
    [None] when constructing or running the decoder throws. *)
Variable gbkDecoder : Z -> Z -> option jsstring.
Variable big5Decoder : Z -> Z -> option jsstring.

Definition hexDigitValue (c : jschar) : Z :=
  if isDigit c then c - 48
  else if (65 <=? c) && (c <=? 70) then c - 55
  else c - 87.

Definition decodeMultiByteChar (hex : jsstring) : jsstring :=
  let byte (s : jsstring) := fold_left (fun acc c => 16 * acc + hexDigitValue c) s 0 in
  let b0 := byte (take 2 hex) in
  let b1 := byte (take 2 (drop 2 hex)) in
  match gbkDecoder b0 b1 with
  | None => [9647]
  | Some gbkResult =>
      if negb (str_eqb gbkResult [9647]) then gbkResult
      else
        match big5Decoder b0 b1 with
        | None => [9647]
        | Some big5Result =>
            if negb (str_eqb big5Result [9647]) then big5Result else [9647]
        end
  end.

(** [case 'm': case 'M':] *)
Definition multiByte (p : MTextParser) (word : jsstring) : step :=
  let sc := scanner p in
  let literal (sc : TextScanner) := Continue (with_scanner p sc) (word ++ js "\M") in
  if eqc (peek 0 sc) (ch "+") then
    let sc := consume 1 sc in
    let hexCode := take 4 (tail sc) in
    if (length hexCode =? 4)%nat && forallb isHexDigit hexCode then
      let sc := consume 4 sc in
      let decodedChar := decodeMultiByteChar hexCode in
      match word with
      | _ :: _ => Return WORD (DWord word) None (with_scanner p sc)
      | [] => Return WORD (DWord decodedChar) None (with_scanner p sc)
      end
    else literal (consume (-1) sc)
  else literal sc.

(** The [switch (cmd)] of [nextToken]; the scanner stands after the command
    letter. *)
Definition commandSwitch (fuel : nat) (p : MTextParser) (word : jsstring)
    (cmdStartIndex : Z) (cmd : option jschar) : option step :=
  if eqc cmd (ch "~") then Some (Return NBSP DNull None p)
  else if eqc cmd (ch "P") then Some (Return NEW_PARAGRAPH DNull None p)
  else if eqc cmd (ch "N") then Some (Return NEW_COLUMN DNull None p)
  else if eqc cmd (ch "X") then Some (Return WRAP_AT_DIMLINE DNull None p)
  else if eqc cmd (ch "S") then
    let p := with_inStackContext p true in
    let '(r, p) := parseStacking p in
    let p := with_inStackContext p false in
    Some (Return (fst r) (snd r) None p)
  else if eqc cmd (ch "m") || eqc cmd (ch "M") then Some (multiByte p word)
  else
    match cmd with
    | Some c =>
        match parseProperties fuel c p with
        | None => None
        | Some (p, Ok (Some propertyChanges)) =>
            if yieldPropertyCommands p then
              Some (Return PROPERTIES_CHANGED (DChanged propertyChanges) None
                           (with_lastCtx p (copy (ctx p))))
            else Some (Continue p word)
        | Some (p, Ok None) => Some (Continue p word)
        | Some (p, Throw) =>
            let commandText :=
              slice (tail (scanner p)) cmdStartIndex (currentIndex (scanner p)) in
            Some (Continue p (word ++ commandText))
        end
    | None => Some (Continue p word)
    end.

(** The body of the [while (this.scanner.hasData)] loop of [nextToken]. *)
Definition loop_body (fuel : nat) (p : MTextParser) (word : jsstring) : option step :=
  let letter := peek 0 (scanner p) in
  let cmdStartIndex := currentIndex (scanner p) in
  if code_lt letter 32 then
    let p := with_scanner p (consume 1 (scanner p)) in
    if eqc letter 9 then Some (Return TABULATOR DNull None p)
    else if eqc letter 10 then Some (Return NEW_PARAGRAPH DNull None p)
    else Some (plainChar p word (Some (ch " ")) false)
  else if eqc letter (ch "\") then
    if includes1 (js "\{}") (peek 1 (scanner p)) then
      let p := with_scanner p (consume 1 (scanner p)) in
      Some (plainChar p word (peek 0 (scanner p)) true)
    else
      match word with
      | _ :: _ => Some (Return WORD (DWord word) None p)
      | [] =>
          let sc := consume 1 (scanner p) in
          let '(cmd, sc) := get sc in
          commandSwitch fuel (with_scanner p sc) word cmdStartIndex cmd
      end
  else Some (plainChar p word letter false).

(** The closure [nextToken] from the point where [word] is initialised:
    its result is the returned pair, the value left in [followupToken] and
    the parser. *)
Fixpoint nextToken_loop (fuel : nat) (p : MTextParser) (word : jsstring)
    : option (TokenType * TokenData * option TokenType * MTextParser) :=
  match fuel with
  | O => None
  | S fuel' =>
      if hasData (scanner p) then
        match loop_body fuel' p word with
        | None => None
        | Some (Continue p' word') => nextToken_loop fuel' p' word'
        | Some (Return t d f p') => Some (t, d, f, p')
        end
      else
        match word with
        | _ :: _ => Some (WORD, DWord word, None, p)
        | [] => Some (NONE, DNull, None, p)
        end
  end.

Definition nextToken (fuel : nat) (p : MTextParser)
    : option (TokenType * TokenData * option TokenType * MTextParser) :=
  nextToken_loop fuel p [].

(** The tokens the generator yields until it finishes: the [while (true)]
    loop of [parse].  Every token carries the context the parser holds at
    the moment of the [yield]. *)
Fixpoint parse_loop (fuel : nat) (p : MTextParser) : option (list MTextToken) :=
  match fuel with
  | O => None
  | S fuel' =>
      match nextToken fuel' p with
      | None => None
      | Some (NONE, _, _, _) => Some []
      | Some (t, d, followupToken, p') =>
          let first := {| tok_type := t; tok_ctx := ctx p'; tok_data := d |} in
          let second :=
            match followupToken with
            | Some f => [{| tok_type := f; tok_ctx := ctx p'; tok_data := DNull |}]
            | None => []
            end in
          match parse_loop fuel' p' with
          | Some rest => Some (first :: second ++ rest)
          | None => None
          end
      end
  end.

(** [Array.from(new MTextParser(content, ctx, yieldPropertyCommands).parse())] *)
Definition parse (fuel : nat) (content : jsstring) (c : MTextContext)
    (yieldCommands : bool) : option (list MTextToken) :=
  parse_loop fuel (newMTextParser content c yieldCommands).

End Parse.

(** A platform whose [TextDecoder] knows neither legacy encoding. *)
Definition noDecoder (b0 b1 : Z) : option jsstring := None.

(* ================================================================= *)
(** ** The mutating interface of MTextContext

    The writes a caller can perform on a context: the accessor setters and
    the assignments to the public fields. *)

Inductive ContextOp :=
  | SetCapHeight (v : FactorValue)
  | SetWidthFactor (v : FactorValue)
  | SetCharTrackingFactor (v : FactorValue)
  | SetAci (v : number)
  | SetUnderline (v : bool)
  | SetStrikeThrough (v : bool)
  | SetOverline (v : bool)
  | AssignContinueStroke (v : bool)
  | AssignRgb (v : option RGBArray)
  | AssignAlign (v : MTextLineAlignment)
  | AssignFontFace (v : FontFace)
  | AssignOblique (v : number)
  | AssignParagraph (v : ParagraphProperties).

Definition runOp (op : ContextOp) (c : MTextContext) : MTextContext * outcome :=
  match op with
  | SetCapHeight v => (set_capHeight c v, Returned)
  | SetWidthFactor v => (set_widthFactor c v, Returned)
  | SetCharTrackingFactor v => (set_charTrackingFactor c v, Returned)
  | SetAci v => set_aci c v
  | SetUnderline v => (set_underline c v, Returned)
  | SetStrikeThrough v => (set_strikeThrough c v, Returned)
  | SetOverline v => (set_overline c v, Returned)
  | AssignContinueStroke v => (set_continueStroke c v, Returned)
  | AssignRgb v => (set_rgb c v, Returned)
  | AssignAlign v => (set_align c v, Returned)
  | AssignFontFace v => (set_fontFace c v, Returned)
  | AssignOblique v => (set_oblique c v, Returned)
  | AssignParagraph v => (set_paragraph c v, Returned)
  end.

(** The value is a number of the closed interval from 0 to 256. *)
Definition inAciRange (v : number) : Prop :=
  exists q : Q, v = Fin q /\ (0 <= q)%Q /\ (q <= 256)%Q.

(* ================================================================= *)
(** ** MTextContext.copy on the object heap

    Contexts, their nested objects and their arrays as cells of a heap, with
    references between them: what [copy] clones and what it shares. *)

Module Heap.

Definition loc := nat.

Inductive cell :=
  | RgbCell (v : RGB)
  | FontFaceCell (f : FontFace)
  | FactorCell (f : FactorValue)
  | TabStopsCell (stops : list TabStop)
  | ParagraphCell (indent left_ right_ : number) (align_ : MTextParagraphAlignment)
                  (tab_stops_ : loc)
  | ContextCell (stroke : Z) (continueStroke_ : bool) (aci_ : number)
                (rgb_ : option loc) (align_ : MTextLineAlignment)
                (fontFace_ capHeight_ widthFactor_ charTrackingFactor_ : loc)
                (oblique_ : number) (paragraph_ : loc).

Definition heap := list cell.

(** A new object or array. *)
Definition alloc (h : heap) (c : cell) : loc * heap := (length h, h ++ [c]).

(** [new MTextContext()]: the field initialisers allocate the nested
    objects. *)
Definition newContext (h : heap) : loc * heap :=
  let '(ff, h) := alloc h (FontFaceCell (fontFace newMTextContext)) in
  let '(chh, h) := alloc h (FactorCell (_capHeight newMTextContext)) in
  let '(wf, h) := alloc h (FactorCell (_widthFactor newMTextContext)) in
  let '(ct, h) := alloc h (FactorCell (_charTrackingFactor newMTextContext)) in
  let '(ts, h) := alloc h (TabStopsCell []) in
  let '(pa, h) := alloc h (ParagraphCell (Fin 0) (Fin 0) (Fin 0) DEFAULT ts) in
  alloc h (ContextCell 0 false (num_of_Z 7) None BOTTOM ff chh wf ct (Fin 0) pa).

(** [this.copy()].  The spread [{ ...o }] allocates an object with the
    fields of [o]; a field holding a reference is copied as that reference. *)
Definition copy (h : heap) (this : loc) : option (loc * heap) :=
  match h !! this with
  | Some (ContextCell s cs a r al ff chh wf ct ob pa) =>
      match h !! ff, h !! chh, h !! wf, h !! ct, h !! pa with
      | Some (FontFaceCell f), Some (FactorCell c1), Some (FactorCell c2),
        Some (FactorCell c3), Some (ParagraphCell i l r' a' ts) =>
          let '(ctx, h) := newContext h in
          let '(ff', h) := alloc h (FontFaceCell f) in
          let '(chh', h) := alloc h (FactorCell c1) in
          let '(wf', h) := alloc h (FactorCell c2) in
          let '(ct', h) := alloc h (FactorCell c3) in
          let '(pa', h) := alloc h (ParagraphCell i l r' a' ts) in
          Some (ctx, <[ctx := ContextCell s cs a r al ff' chh' wf' ct' ob pa']> h)
      | _, _, _, _, _ => None
      end
  | _ => None
  end.

(** The array that [c.paragraph.tab_stops] refers to. *)
Definition tabStopsRef (h : heap) (c : loc) : option loc :=
  match h !! c with
  | Some (ContextCell _ _ _ _ _ _ _ _ _ _ pa) =>
      match h !! pa with
      | Some (ParagraphCell _ _ _ _ ts) => Some ts
      | _ => None
      end
  | _ => None
  end.

(** The value of [c.paragraph.tab_stops]. *)
Definition readTabStops (h : heap) (c : loc) : option (list TabStop) :=
  match tabStopsRef h c with
  | Some ts =>
      match h !! ts with
      | Some (TabStopsCell stops) => Some stops
      | _ => None
      end
  | None => None
  end.

(** [c.paragraph.tab_stops.push(stop)] *)
Definition pushTabStop (h : heap) (c : loc) (stop : TabStop) : option heap :=
  match tabStopsRef h c with
  | Some ts =>
      match h !! ts with
      | Some (TabStopsCell stops) => Some (<[ts := TabStopsCell (stops ++ [stop])]> h)
      | _ => None
      end
  | None => None
  end.

(** The value of [c.fontFace]. *)
Definition readFontFace (h : heap) (c : loc) : option FontFace :=
  match h !! c with
  | Some (ContextCell _ _ _ _ _ ff _ _ _ _ _) =>
      match h !! ff with
      | Some (FontFaceCell f) => Some f
      | _ => None
      end
  | _ => None
  end.

(** [c.fontFace.family = name] *)
Definition writeFamily (h : heap) (c : loc) (name : jsstring) : option heap :=
  match h !! c with
  | Some (ContextCell _ _ _ _ _ ff _ _ _ _ _) =>
      match h !! ff with
      | Some (FontFaceCell f) =>
          Some (<[ff := FontFaceCell {| family := name; style := style f; weight := weight f |}]> h)
      | _ => None
      end
  | _ => None
  end.

(** The value of [c.paragraph.indent]. *)
Definition readIndent (h : heap) (c : loc) : option number :=
  match h !! c with
  | Some (ContextCell _ _ _ _ _ _ _ _ _ _ pa) =>
      match h !! pa with
      | Some (ParagraphCell i _ _ _ _) => Some i
      | _ => None
      end
  | _ => None
  end.

(** [c.paragraph.indent = v] *)
Definition writeIndent (h : heap) (c : loc) (v : number) : option heap :=
  match h !! c with
  | Some (ContextCell _ _ _ _ _ _ _ _ _ _ pa) =>
      match h !! pa with
      | Some (ParagraphCell _ l r a ts) => Some (<[pa := ParagraphCell v l r a ts]> h)
      | _ => None
      end
  | _ => None
  end.

End Heap.


(* ================================================================= *)
(** ** The remaining members of TextScanner *)

Definition isNextSpace (sc : TextScanner) : bool := eqc (peek 0 sc) (ch " ").

(** The loop of [consumeSpaces]; [n] counts the characters that remain. *)
Fixpoint consumeSpaces_loop (n : nat) (sc : TextScanner) (count : Z) : Z * TextScanner :=
  match n with
  | O => (count, sc)
  | S n' =>
      if isNextSpace sc then consumeSpaces_loop n' (consume 1 sc) (count + 1)
      else (count, sc)
  end.

Definition consumeSpaces (sc : TextScanner) : Z * TextScanner :=
  consumeSpaces_loop (remaining sc) sc 0.

(** ** Plain text

    The characters the tokeniser treats as ordinary text wherever they
    stand: code 32 and above, other than the backslash, the percent sign,
    the braces and the caret. *)
Definition isPlainChar (c : jschar) : bool :=
  (32 <=? c) && negb (existsb (Z.eqb c) (js "\%{}^")).

(** The words of a plain text and the spaces between them, in order: the
    tokens a reader expects for text without formatting. *)
Fixpoint plainTokens (word : jsstring) (s : jsstring) : list (TokenType * TokenData) :=
  match s with
  | [] => match word with [] => [] | _ :: _ => [(WORD, DWord word)] end
  | c :: r =>
      if c =? ch " " then
        match word with
        | [] => (SPACE, DNull) :: plainTokens [] r
        | _ :: _ => (WORD, DWord word) :: (SPACE, DNull) :: plainTokens [] r
        end
      else plainTokens (word ++ [c]) r
  end.

Definition tokenOf (c : MTextContext) (td : TokenType * TokenData) : MTextToken :=
  {| tok_type := fst td; tok_ctx := c; tok_data := snd td |}.

(** ** The parser state without the reporting of property changes

    [yieldPropertyCommands] and [lastCtx] serve only the reporting of
    PROPERTIES_CHANGED tokens; [withReporting p b l] is the parser [p] with
    these two fields replaced. *)
Definition withReporting (p : MTextParser) (b : bool) (l : MTextContext) : MTextParser :=
  {| scanner := scanner p; ctx := ctx p; ctxStack := ctxStack p;
     parserContinueStroke := parserContinueStroke p;
     yieldPropertyCommands := b; lastCtx := l;
     inStackContext := inStackContext p; nextRgbId := nextRgbId p |}.

Definition isPropertiesChanged (t : MTextToken) : bool :=
  match tok_type t with PROPERTIES_CHANGED => true | _ => false end.

Definition stepWithReporting (st : step) (b : bool) (l : MTextContext) : step :=
  match st with
  | Continue p word => Continue (withReporting p b l) word
  | Return t d f p => Return t d f (withReporting p b l)
  end.

(** ** The payload a token type comes with

    [TokenData] is a string for WORD, the triple of strings for STACK, the
    [ChangedProperties] object for PROPERTIES_CHANGED and null for the
    other types; NONE is the end marker and is never a token. *)
Definition tokenShape (t : TokenType) (d : TokenData) : bool :=
  match t, d with
  | WORD, DWord _ => true
  | STACK, DStack _ _ _ => true
  | PROPERTIES_CHANGED, DChanged _ => true
  | (SPACE | NBSP | TABULATOR | NEW_PARAGRAPH | NEW_COLUMN | WRAP_AT_DIMLINE), DNull => true
  | _, _ => false
  end.

(** ** Contexts with their values in range

    The ranges the setters and sub-parsers of the source aim at: the stroke
    word a combination of the three flags, the colour index a number from 0
    to 256, the components of an RGB triple bytes, the three factors not
    negative (a number or the positive infinity), and the oblique angle and
    the numbers of the paragraph properties not NaN.  The line alignment
    is not among them: [parseAlign] stores NaN when its command is the last
    thing in the input. *)
Definition nonNegative (n : number) : Prop :=
  match n with
  | Fin q => (0 <= q)%Q
  | Infinity negative => negative = false
  | NaN => False
  end.

Definition rgbBytes (a : option RGBArray) : Prop :=
  match a with
  | Some arr =>
      let '(r, g, b) := rgb_value arr in
      0 <= r <= 255 /\ 0 <= g <= 255 /\ 0 <= b <= 255
  | None => True
  end.

(** The number in an element of [tab_stops]. *)
Definition tabStopValue (t : TabStop) : number :=
  match t with TabNumber v => v | TabString _ v => v end.

Definition wf_paragraph (pp : ParagraphProperties) : Prop :=
  isNaN (para_indent pp) = false
  /\ isNaN (para_left pp) = false
  /\ isNaN (para_right pp) = false
  /\ Forall (fun t => isNaN (tabStopValue t) = false) (tab_stops pp).

Definition wf_context (c : MTextContext) : Prop :=
  0 <= _stroke c <= 7
  /\ inAciRange (aci c)
  /\ rgbBytes (rgb c)
  /\ nonNegative (value (capHeight c))
  /\ nonNegative (value (widthFactor c))
  /\ nonNegative (value (charTrackingFactor c))
  /\ isNaN (oblique c) = false
  /\ wf_paragraph (paragraph c).

(** The letters with a [case] in the [switch] of [parseProperties]. *)
Definition propertyCommands : jsstring := js "LlOoKkACcHWQTpfF".

(** ** The string utilities of the module *)

(** [text.replace(/\r\n|\r|\n/g, '\\P')]: from left to right, a carriage
    return with the line feed after it, or one of the two alone, becomes
    the two characters backslash and P. *)
Fixpoint escapeDxfLineEndings (text : jsstring) : jsstring :=
  match text with
  | [] => []
  | c :: r =>
      if c =? 13 then
        match r with
        | d :: r' =>
            if d =? 10 then js "\P" ++ escapeDxfLineEndings r'
            else js "\P" ++ escapeDxfLineEndings r
        | [] => js "\P"
        end
      else if c =? 10 then js "\P" ++ escapeDxfLineEndings r
      else c :: escapeDxfLineEndings r
  end.

(** [s.replace(/\\x/g, '')] for a letter [x]: the occurrences of the
    backslash followed by [x], found from left to right, are removed; the
    result is not scanned again. *)
Fixpoint removeCommand (x : jschar) (s : jsstring) : jsstring :=
  match s with
  | [] => []
  | c :: r =>
      match r with
      | d :: r' =>
          if (c =? ch "\") && (d =? x) then removeCommand x r'
          else c :: removeCommand x r
      | [] => [c]
      end
  end.

Definition hasInlineFormattingCodes (text : jsstring) : bool :=
  includes (removeCommand (ch "~") (removeCommand (ch "P") text)) (js "\").

(** ** Stacked fractions written without escapes *)

(** A character that [getNextChar] returns as it is: code 32 and above and
    not the backslash. *)
Definition isStackChar (c : jschar) : bool := (32 <=? c) && negb (c =? ch "\").

(** The text without its leading spaces. *)
Fixpoint dropSpaces (s : jsstring) : jsstring :=
  match s with
  | c :: r => if c =? ch " " then dropSpaces r else s
  | [] => []
  end.

(** ** The tab-stop loop that reads nothing *)

(** The local scanner of the paragraph command stands on a character that
    is neither r nor c and that starts no number. *)
Definition stuckTabStop (sc : TextScanner) : Prop :=
  hasData sc = true
  /\ eqc (peek 0 sc) (ch "r") = false
  /\ eqc (peek 0 sc) (ch "c") = false
  /\ paragraphFloatPattern (tail sc) = None.

(** ** Paragraph commands without tab stops *)

(** The text has no letter t before its first semicolon. *)
Fixpoint tabFreeExpression (t : jsstring) : bool :=
  match t with
  | c :: r => if c =? ch ";" then true else negb (c =? ch "t") && tabFreeExpression r
  | [] => true
  end.

(** Wherever a backslash is directly followed by the letter p, the text
    after the two has no letter t before its first semicolon. *)
Fixpoint noTabStopCommand (t : jsstring) : bool :=
  match t with
  | c :: r =>
      match r with
      | d :: r' => negb ((c =? ch "\") && (d =? ch "p")) || tabFreeExpression r'
      | [] => true
      end && noTabStopCommand r
  | [] => true
  end.

(** ** What the PROPERTIES_CHANGED tokens report

    Every payload of changed properties in the list is the difference
    between the context [last] that was reported before it and the context
    of its own token, has at least one key, and its token's context is what
    the payloads after it are compared with. *)
Fixpoint reportsDifferences (last : MTextContext) (tokens : list MTextToken) : Prop :=
  match tokens with
  | [] => True
  | tok :: rest =>
      match tok_data tok with
      | DChanged pc =>
          changes pc = getPropertyChanges last (tok_ctx tok)
          /\ hasKeys (changes pc) = true
          /\ reportsDifferences (copy (tok_ctx tok)) rest
      | _ => reportsDifferences last rest
      end
  end.

(** ** The tokens from the middle of a call of nextToken

    The tokens the generator yields from a point inside a call of
    [nextToken], where [word] is the word buffer: those of the rest of this
    call and of the calls after it.  [parse_loop (S m) p] is
    [tokensFrom m m p []]. *)
Definition tokensFrom (gbkDecoder big5Decoder : Z -> Z -> option jsstring) (n m : nat)
    (p : MTextParser) (word : jsstring) : option (list MTextToken) :=
  match nextToken_loop gbkDecoder big5Decoder n p word with
  | None => None
  | Some (NONE, _, _, _) => Some []
  | Some (t, d, followupToken, p') =>
      let first := {| tok_type := t; tok_ctx := ctx p'; tok_data := d |} in
      let second :=
        match followupToken with
        | Some f => [{| tok_type := f; tok_ctx := ctx p'; tok_data := DNull |}]
        | None => []
        end in
      match parse_loop gbkDecoder big5Decoder m p' with
      | Some rest => Some (first :: second ++ rest)
      | None => None
      end
  end.

(** ** getFonts

    [String.prototype.toLowerCase] on a whole string follows the Unicode
    case mappings; it is a parameter here. *)
Section GetFonts.

Variable toLowerCaseString : jsstring -> jsstring.

(** A line terminator, which the dot of a regular expression does not
    match. *)
Definition isLineTerminator (c : jschar) : bool :=
  (c =? 10) || (c =? 13) || (c =? 8232) || (c =? 8233).

(** The lazy group and the bar of the pattern: the shortest run of
    characters other than line terminators that is followed by a bar; the
    run and the text after the bar. *)
Fixpoint untilBar (s : jsstring) (acc : jsstring) : option (jsstring * jsstring) :=
  match s with
  | c :: r =>
      if c =? ch "|" then Some (acc, r)
      else if isLineTerminator c then None
      else untilBar r (acc ++ [c])
  | [] => None
  end.

(** The first groups of [mtext.matchAll(regex)], from left to right; [n]
    counts the characters that remain, of which every step takes at least
    one. *)
Fixpoint fontMatches_loop (n : nat) (s : jsstring) : list jsstring :=
  match n with
  | O => []
  | S n' =>
      match s with
      | c :: r =>
          if c =? ch "\" then
            match r with
            | f :: r' =>
                if (f =? ch "f") || (f =? ch "F") then
                  match untilBar r' [] with
                  | Some (name, rest) => name :: fontMatches_loop n' rest
                  | None => fontMatches_loop n' r
                  end
                else fontMatches_loop n' r
            | [] => []
            end
          else fontMatches_loop n' r
      | [] => []
      end
  end.

Definition fontMatches (mtext : jsstring) : list jsstring :=
  fontMatches_loop (length mtext) mtext.

(** [fonts.add(x)] on a set kept in insertion order. *)
Definition setAdd (fonts : list jsstring) (x : jsstring) : list jsstring :=
  if existsb (str_eqb x) fonts then fonts else fonts ++ [x].

Definition getFonts (mtext : jsstring) : list jsstring :=
  fold_left (fun fonts m => setAdd fonts (toLowerCaseString m)) (fontMatches mtext) [].

End GetFonts.
(** ** Rounding to binary64 *)

Lemma Qpower_2_inject (a : Z) : 0 <= a -> Qpower 2 a == inject_Z (2 ^ a).
Proof. intros H. rewrite Zpower_Qpower by exact H. reflexivity. Qed.

Lemma Qpower_2_pos (e : Z) : (0 < Qpower 2 e)%Q.
Proof. apply Qpower_0_lt. reflexivity. Qed.

Lemma roundHalfEven_integer (x : Q) (k : Z) : x == inject_Z k -> roundHalfEven x = k.
Proof.
  intros E. unfold roundHalfEven.
  assert (F : Qfloor x = k) by (rewrite E; apply Qfloor_Z).
  rewrite F.
  assert (C : Qcompare (x - inject_Z k) (1 # 2) = Lt).
  { rewrite E. apply -> Qlt_alt.
    unfold Qminus. rewrite Qplus_opp_r. reflexivity. }
  rewrite C. reflexivity.
Qed.

Lemma roundHalfEven_nonneg (x : Q) : (0 <= x)%Q -> 0 <= roundHalfEven x.
Proof.
  intros H. unfold roundHalfEven.
  assert (F : 0 <= Qfloor x).
  { change 0 with (Qfloor 0). apply Qfloor_resp_le. exact H. }
  destruct (Qcompare _ _); [destruct (Z.even _) |..]; lia.
Qed.

(** The rounded value is a finite number that is not negative, or the
    positive infinity. *)
Lemma roundDouble_cases (q : Q) :
  roundDouble q = Infinity false
  \/ exists v : Q, roundDouble q = Fin v /\ (0 <= v)%Q.
Proof.
  unfold roundDouble.
  destruct (Qle_bool q 0) eqn:Z0.
  - right. exists 0%Q. split; [reflexivity | apply Qle_refl].
  - assert (P : (0 < q)%Q).
    { apply Qnot_le_lt. intros H. apply Qle_bool_iff in H. congruence. }
    set (e := Z.max (floorLog2 q - 52) (-1074)).
    destruct (Qle_bool _ (Qred _)); [left; reflexivity |].
    right. eexists. split; [reflexivity |].
    rewrite Qred_correct.
    apply Qmult_le_0_compat; [| apply Qlt_le_weak, Qpower_2_pos].
    change 0%Q with (inject_Z 0). rewrite <- Zle_Qle.
    apply roundHalfEven_nonneg.
    apply Qle_shift_div_l; [apply Qpower_2_pos |].
    rewrite Qmult_0_l. apply Qlt_le_weak, P.
Qed.

Lemma roundDouble_not_NaN (q : Q) : isNaN (roundDouble q) = false.
Proof.
  destruct (roundDouble_cases q) as [-> | (v & -> & _)]; reflexivity.
Qed.

Lemma Qred_inject_Z (n : Z) : Qred (inject_Z n) = inject_Z n.
Proof.
  unfold inject_Z, Qred.
  pose proof (Z.ggcd_gcd n 1) as G. rewrite Z.gcd_1_r in G.
  pose proof (Z.ggcd_correct_divisors n 1) as D.
  destruct (Z.ggcd n 1) as [g [aa bb]]. cbn [fst snd] in *. subst g.
  destruct D as [D1 D2]. rewrite Z.mul_1_l in D1, D2. subst aa bb. reflexivity.
Qed.

Lemma floorLog2_integer (n : Z) : 0 < n -> floorLog2 (inject_Z n) = Z.log2 n.
Proof.
  intros P. pose proof (Z.log2_spec n P) as [S1 _]. pose proof (Z.log2_nonneg n) as LN.
  unfold floorLog2, inject_Z. cbn [Qnum Qden].
  change (Z.log2 1) with 0. rewrite Z.sub_0_r.
  assert (B : Qle_bool (Qpower 2 (Z.log2 n)) (n # 1) = true).
  { apply Qle_bool_iff. rewrite Qpower_2_inject by exact LN.
    change (n # 1) with (inject_Z n). rewrite <- Zle_Qle. exact S1. }
  rewrite B. reflexivity.
Qed.

Lemma Qle_bool_false (a b : Q) : Qle_bool a b = false <-> (b < a)%Q.
Proof.
  split.
  - intros H. apply Qnot_le_lt. intros L. apply Qle_bool_iff in L. congruence.
  - intros H. destruct (Qle_bool a b) eqn:E; [| reflexivity].
    apply Qle_bool_iff in E. exfalso. exact (Qlt_not_le _ _ H E).
Qed.

(** Integers below 2^53 are doubles. *)
Lemma roundDouble_exact (n : Z) :
  0 <= n < 2 ^ 53 -> roundDouble (inject_Z n) = num_of_Z n.
Proof.
  intros [L U]. unfold roundDouble, num_of_Z.
  destruct (Qle_bool (inject_Z n) 0) eqn:Z0.
  - apply Qle_bool_iff in Z0. change 0%Q with (inject_Z 0) in Z0.
    rewrite <- Zle_Qle in Z0. replace n with 0 by lia. reflexivity.
  - assert (P : 0 < n).
    { destruct (Z.eq_dec n 0) as [-> | ]; [discriminate Z0 | lia]. }
    clear Z0.
    pose proof (Z.log2_spec n P) as [S1 S2].
    pose proof (Z.log2_nonneg n) as LN.
    assert (L52 : Z.log2 n <= 52).
    { apply Z.lt_succ_r. apply (Z.pow_lt_mono_r_iff 2); lia. }
    rewrite (floorLog2_integer n P).
    replace (Z.max (Z.log2 n - 52) (-1074)) with (- (52 - Z.log2 n)) by lia.
    set (k := 52 - Z.log2 n). assert (K : 0 <= k) by (unfold k; lia).
    assert (PK : Qpower 2 (- k) == / inject_Z (2 ^ k)).
    { rewrite Qpower_opp, Qpower_2_inject by exact K. reflexivity. }
    assert (NZ : ~ inject_Z (2 ^ k) == 0).
    { change 0%Q with (inject_Z 0). rewrite inject_Z_injective.
      pose proof (Z.pow_pos_nonneg 2 k ltac:(lia) K). lia. }
    assert (X : (inject_Z n / Qpower 2 (- k) == inject_Z (n * 2 ^ k))%Q).
    { rewrite PK, inject_Z_mult. field. exact NZ. }
    rewrite (roundHalfEven_integer _ _ X).
    assert (V : (inject_Z (n * 2 ^ k) * Qpower 2 (- k) == inject_Z n)%Q).
    { rewrite PK, inject_Z_mult. field. exact NZ. }
    rewrite (Qred_complete _ _ V), Qred_inject_Z.
    assert (B : Qle_bool (Qpower 2 1024) (inject_Z n) = false).
    { apply Qle_bool_false. rewrite Qpower_2_inject by lia. rewrite <- Zlt_Qlt.
      assert (2 ^ 53 < 2 ^ 1024) by (apply Z.pow_lt_mono_r; lia). lia. }
    rewrite B. reflexivity.
Qed.

(** From 2^53 on the rounded value of an integer is at least 2^53. *)
Lemma roundDouble_large (n : Z) :
  2 ^ 53 <= n ->
  roundDouble (inject_Z n) = Infinity false
  \/ exists v : Q, roundDouble (inject_Z n) = Fin v /\ (inject_Z (2 ^ 53) <= v)%Q.
Proof.
  intros L. assert (P : 0 < n) by lia.
  unfold roundDouble.
  assert (Z0 : Qle_bool (inject_Z n) 0 = false).
  { apply Qle_bool_false. change 0%Q with (inject_Z 0). rewrite <- Zlt_Qlt. exact P. }
  rewrite Z0, (floorLog2_integer n P).
  pose proof (Z.log2_spec n P) as [S1 _].
  assert (L53 : 53 <= Z.log2 n).
  { change 53 with (Z.log2 (2 ^ 53)). apply Z.log2_le_mono. exact L. }
  replace (Z.max (Z.log2 n - 52) (-1074)) with (Z.log2 n - 52) by lia.
  set (e := Z.log2 n - 52). assert (E : 0 <= e) by (unfold e; lia).
  destruct (Qle_bool _ (Qred _)); [left; reflexivity |].
  right. eexists. split; [reflexivity |].
  pose proof (Qpower_2_inject e E) as PE.
  assert (M : 2 ^ 52 <= roundHalfEven (inject_Z n / Qpower 2 e)).
  { assert (F : 2 ^ 52 <= Qfloor (inject_Z n / Qpower 2 e)).
    { rewrite <- (Qfloor_Z (2 ^ 52)). apply Qfloor_resp_le.
      apply Qle_shift_div_l; [apply Qpower_2_pos |].
      rewrite PE, <- inject_Z_mult, <- Zle_Qle, <- Z.pow_add_r by lia.
      replace (52 + e) with (Z.log2 n) by (unfold e; lia). exact S1. }
    unfold roundHalfEven. destruct (Qcompare _ _); [destruct (Z.even _) |..]; lia. }
  assert (E1 : 1 <= e) by (unfold e; lia).
  assert (P1 : 2 ^ 1 <= 2 ^ e) by (apply Z.pow_le_mono_r; lia).
  set (m := roundHalfEven _) in *.
  rewrite Qred_correct, PE, <- inject_Z_mult, <- Zle_Qle.
  change (2 ^ 53) with (2 ^ 52 * 2 ^ 1).
  apply Z.mul_le_mono_nonneg; lia.
Qed.

Lemma num_lt_integer (a b : Z) : num_lt (num_of_Z a) (num_of_Z b) = (a <? b).
Proof.
  unfold num_lt, num_of_Z.
  destruct (Z.ltb_spec a b) as [L | L].
  - apply negb_true_iff. apply Qle_bool_false. rewrite <- Zlt_Qlt. exact L.
  - apply negb_false_iff. apply Qle_bool_iff. rewrite <- Zle_Qle. exact L.
Qed.

(** Comparing the Number value of a natural number with a small integer is
    comparing the natural number with it. *)
Lemma num_lt_roundDouble (n k : Z) :
  0 <= n -> k <= 2 ^ 53 ->
  num_lt (roundDouble (inject_Z n)) (num_of_Z k) = (n <? k).
Proof.
  intros N K. destruct (Z.ltb_spec n (2 ^ 53)) as [S | S].
  - rewrite roundDouble_exact by lia. apply num_lt_integer.
  - destruct (Z.ltb_spec n k) as [L | L]; [lia |].
    destruct (roundDouble_large n S) as [-> | (v & -> & V)]; [reflexivity |].
    unfold num_lt, num_of_Z. apply negb_false_iff, Qle_bool_iff.
    apply Qle_trans with (inject_Z (2 ^ 53)); [| exact V].
    rewrite <- Zle_Qle. exact K.
Qed.

Lemma isNaN_opp (n : number) : isNaN (num_opp n) = isNaN n.
Proof. destruct n; reflexivity. Qed.

Lemma isNaN_abs (n : number) : isNaN (Math_abs n) = isNaN n.
Proof. destruct n; reflexivity. Qed.

Lemma nonNegative_roundDouble (q : Q) : nonNegative (roundDouble q).
Proof.
  destruct (roundDouble_cases q) as [-> | (v & -> & V)]; [reflexivity | exact V].
Qed.

Lemma nonNegative_abs (n : number) : isNaN n = false -> nonNegative (Math_abs n).
Proof.
  destruct n as [| q | s]; [discriminate | |]; intros _; cbn [Math_abs nonNegative];
    [apply Qabs_nonneg | reflexivity].
Qed.

Lemma digitsValue_fold_nonneg (s : jsstring) (acc : Z) :
  0 <= acc -> forallb isDigit s = true ->
  0 <= fold_left (fun a c => 10 * a + (c - 48)) s acc.
Proof.
  revert acc. induction s as [| c s IH]; intros acc A D; cbn [fold_left]; [exact A |].
  cbn [forallb] in D. apply andb_true_iff in D as [D1 D2].
  apply IH; [| exact D2].
  unfold isDigit in D1. apply andb_true_iff in D1 as [D1 _]. apply Z.leb_le in D1. lia.
Qed.

Lemma digitsValue_nonneg (s : jsstring) : forallb isDigit s = true -> 0 <= digitsValue s.
Proof. apply digitsValue_fold_nonneg. lia. Qed.

(** The rounding on literals whose doubles are known. *)
Example parseFloat_tenth :
  parseFloat (js "0.1") = Fin (3602879701896397 # 36028797018963968).
Proof. vm_compute. reflexivity. Qed.

Example parseInt_above_2_53 :
  parseInt (js "9007199254740993") = num_of_Z 9007199254740992
  /\ parseInt (js "9007199254740995") = num_of_Z 9007199254740996.
Proof. split; vm_compute; reflexivity. Qed.

Example parseFloat_range :
  parseFloat (js "1.7976931348623158e308") = parseFloat (js "1.7976931348623157e308")
  /\ parseFloat (js "1.7976931348623159e308") = Infinity false
  /\ parseFloat (js "-1e400") = Infinity true
  /\ parseFloat (js "4.9e-324") = Fin (Qpower 2 (-1074))
  /\ parseFloat (js "2e-324") = Fin 0.
Proof. repeat split; vm_compute; reflexivity. Qed.
(** *** What the rounding guarantees *)

Lemma Qpower_2_add (a b : Z) : Qpower 2 (a + b) == Qpower 2 a * Qpower 2 b.
Proof. apply Qpower_plus. discriminate. Qed.

Lemma Qpower_2_mono (a b : Z) : a <= b -> (Qpower 2 a <= Qpower 2 b)%Q.
Proof.
  intros H. replace b with (a + (b - a)) by lia. rewrite Qpower_2_add.
  rewrite <- (Qmult_1_r (Qpower 2 a)) at 1.
  apply Qmult_le_l; [apply Qpower_2_pos |].
  rewrite Qpower_2_inject by lia. change 1%Q with (inject_Z 1). rewrite <- Zle_Qle.
  pose proof (Z.pow_pos_nonneg 2 (b - a) ltac:(lia) ltac:(lia)). lia.
Qed.

Lemma Qeq_le (a b : Q) : a == b -> (a <= b)%Q.
Proof. intros E. rewrite E. apply Qle_refl. Qed.

(** [floorLog2] is the binary exponent of a positive rational. *)
Lemma floorLog2_spec (q : Q) :
  (0 < q)%Q ->
  (Qpower 2 (floorLog2 q) <= q)%Q /\ (q < Qpower 2 (floorLog2 q + 1))%Q.
Proof.
  intros P. destruct q as [n d]. unfold floorLog2. cbn [Qnum Qden].
  assert (Pn : 0 < n) by (unfold Qlt in P; cbn in P; lia).
  pose proof (Z.log2_spec n Pn) as [N1 N2].
  pose proof (Z.log2_spec (Z.pos d) ltac:(lia)) as [D1 D2].
  pose proof (Z.log2_nonneg n) as Ln. pose proof (Z.log2_nonneg (Z.pos d)) as Ld.
  set (i := Z.log2 n) in *. set (j := Z.log2 (Z.pos d)) in *.
  unfold Z.succ in N2, D2.
  assert (Na : (Qpower 2 i <= inject_Z n)%Q)
    by (rewrite Qpower_2_inject by lia; rewrite <- Zle_Qle; exact N1).
  assert (Nb : (inject_Z n < Qpower 2 (i + 1))%Q)
    by (rewrite Qpower_2_inject by lia; rewrite <- Zlt_Qlt; exact N2).
  assert (Da : (Qpower 2 j <= inject_Z (Z.pos d))%Q)
    by (rewrite Qpower_2_inject by lia; rewrite <- Zle_Qle; exact D1).
  assert (Db : (inject_Z (Z.pos d) <= Qpower 2 (j + 1))%Q)
    by (rewrite Qpower_2_inject by lia; rewrite <- Zle_Qle; lia).
  assert (Dp : (0 < inject_Z (Z.pos d))%Q) by reflexivity.
  rewrite (Qmake_Qdiv n d).
  destruct (Qle_bool (Qpower 2 (i - j)) (inject_Z n / inject_Z (Z.pos d))) eqn:B.
  - apply Qle_bool_iff in B. split; [exact B |].
    apply Qlt_shift_div_r; [exact Dp |].
    apply Qlt_le_trans with (Qpower 2 (i + 1)); [exact Nb |].
    replace (i + 1) with ((i - j + 1) + j) at 1 by lia. rewrite Qpower_2_add.
    apply Qmult_le_l; [apply Qpower_2_pos | exact Da].
  - apply Qle_bool_false in B. replace (i - j - 1 + 1) with (i - j) by lia.
    split; [| exact B].
    apply Qle_shift_div_l; [exact Dp |].
    apply Qle_trans with (Qpower 2 i); [| exact Na].
    replace i with ((i - j - 1) + (j + 1)) at 2 by lia. rewrite Qpower_2_add.
    apply Qmult_le_l; [apply Qpower_2_pos | exact Db].
Qed.

Lemma roundHalfEven_near (x : Q) :
  (inject_Z (roundHalfEven x) - (1 # 2) <= x)%Q
  /\ (x <= inject_Z (roundHalfEven x) + (1 # 2))%Q.
Proof.
  unfold roundHalfEven.
  pose proof (Qfloor_le x) as F1. pose proof (Qlt_floor x) as F2.
  set (f := Qfloor x) in *.
  rewrite inject_Z_plus in F2. change (inject_Z 1) with 1%Q in F2.
  destruct (Qcompare (x - inject_Z f) (1 # 2)) eqn:C.
  - apply Qeq_alt in C.
    assert (X : x == inject_Z f + (1 # 2)).
    { rewrite <- C. ring. }
    destruct (Z.even f); rewrite ?inject_Z_plus; change (inject_Z 1) with 1%Q;
      rewrite X; split; unfold Qle; cbn; lia.
  - apply Qlt_alt in C. split.
    + apply Qle_trans with (inject_Z f); [| exact F1].
      rewrite <- (Qplus_0_r (inject_Z f)) at 2. unfold Qminus.
      apply Qplus_le_r. discriminate.
    + apply Qlt_le_weak. apply Qplus_lt_l with (- inject_Z f)%Q.
      assert (E : (inject_Z f + (1 # 2) + - inject_Z f == 1 # 2)%Q) by ring.
      rewrite E. exact C.
  - apply Qgt_alt in C. rewrite inject_Z_plus. change (inject_Z 1) with 1%Q. split.
    + apply Qlt_le_weak. apply Qplus_lt_l with (- inject_Z f)%Q.
      assert (E : (inject_Z f + 1 - (1 # 2) + - inject_Z f == 1 # 2)%Q) by ring.
      rewrite E. exact C.
    + apply Qle_trans with (inject_Z f + 1)%Q; [apply Qlt_le_weak; exact F2 |].
      rewrite <- (Qplus_0_r (inject_Z f + 1)) at 1.
      apply Qplus_le_r. discriminate.
Qed.

(** The result of the rounding for a positive value: a multiple of the
    spacing of the doubles at that value, with a significand of at most 53
    bits, within half a spacing of the value; and Infinity only from the
    value 2^1024 - 2^970 on. *)
Lemma roundDouble_spec (q : Q) :
  (0 < q)%Q ->
  let e := Z.max (floorLog2 q - 52) (-1074) in
  match roundDouble q with
  | Fin v =>
      exists m : Z,
        v == inject_Z m * Qpower 2 e /\ 0 <= m <= 2 ^ 53
        /\ (v - Qpower 2 e * (1 # 2) <= q)%Q /\ (q <= v + Qpower 2 e * (1 # 2))%Q
        /\ (v < Qpower 2 1024)%Q
  | Infinity negative =>
      negative = false /\ (Qpower 2 1024 - Qpower 2 970 <= q)%Q
  | NaN => False
  end.
Proof.
  intros P e. unfold roundDouble.
  assert (Z0 : Qle_bool q 0 = false) by (apply Qle_bool_false; exact P).
  rewrite Z0. fold e.
  pose proof (Qpower_2_pos e) as Pe.
  destruct (floorLog2_spec q P) as [L1 L2].
  pose proof (roundHalfEven_near (q / Qpower 2 e)) as [R1 R2].
  assert (M0 : 0 <= roundHalfEven (q / Qpower 2 e)).
  { apply roundHalfEven_nonneg. apply Qle_shift_div_l; [exact Pe |].
    rewrite Qmult_0_l. apply Qlt_le_weak, P. }
  assert (X : (q / Qpower 2 e < inject_Z (2 ^ 53))%Q).
  { apply Qlt_shift_div_r; [exact Pe |].
    apply Qlt_le_trans with (Qpower 2 (floorLog2 q + 1)); [exact L2 |].
    rewrite <- Qpower_2_inject by lia. rewrite <- Qpower_2_add.
    apply Qpower_2_mono. unfold e. lia. }
  assert (M53 : roundHalfEven (q / Qpower 2 e) <= 2 ^ 53).
  { assert (F : Qfloor (q / Qpower 2 e) < 2 ^ 53).
    { apply Z.lt_nge. intros G. apply (Qlt_not_le _ _ X).
      apply Qle_trans with (inject_Z (Qfloor (q / Qpower 2 e))); [| apply Qfloor_le].
      rewrite <- Zle_Qle. exact G. }
    unfold roundHalfEven. destruct (Qcompare _ _); [destruct (Z.even _) |..]; lia. }
  set (m := roundHalfEven (q / Qpower 2 e)) in *.
  assert (Ne : ~ Qpower 2 e == 0) by (apply Qnot_eq_sym, Qlt_not_eq, Pe).
  assert (Lo : (inject_Z m * Qpower 2 e - Qpower 2 e * (1 # 2) <= q)%Q).
  { apply Qle_trans with ((inject_Z m - (1 # 2)) * Qpower 2 e)%Q;
      [apply Qeq_le; ring |].
    apply Qle_trans with (q / Qpower 2 e * Qpower 2 e)%Q;
      [| apply Qeq_le; field; exact Ne].
    apply Qmult_le_compat_r; [exact R1 | apply Qlt_le_weak, Pe]. }
  assert (Hi : (q <= inject_Z m * Qpower 2 e + Qpower 2 e * (1 # 2))%Q).
  { apply Qle_trans with ((inject_Z m + (1 # 2)) * Qpower 2 e)%Q;
      [| apply Qeq_le; ring].
    apply Qle_trans with (q / Qpower 2 e * Qpower 2 e)%Q;
      [apply Qeq_le; field; exact Ne |].
    apply Qmult_le_compat_r; [exact R2 | apply Qlt_le_weak, Pe]. }
  destruct (Qle_bool (Qpower 2 1024) (Qred (inject_Z m * Qpower 2 e))) eqn:O.
  - split; [reflexivity |].
    apply Qle_bool_iff in O. rewrite Qred_correct in O.
    destruct (Z.le_gt_cases e 971) as [E971 | E971].
    + apply Qle_trans with (inject_Z m * Qpower 2 e - Qpower 2 e * (1 # 2))%Q; [| exact Lo].
      unfold Qminus. apply Qplus_le_compat; [exact O |].
      apply Qopp_le_compat.
      apply Qle_trans with (Qpower 2 971 * (1 # 2))%Q;
        [apply Qmult_le_compat_r; [apply Qpower_2_mono; exact E971 | discriminate] |].
      replace 971 with (970 + 1) by lia. rewrite Qpower_2_add.
      apply Qeq_le. change (Qpower 2 1) with 2%Q. ring.
    + apply Qle_trans with (Qpower 2 1024).
      * rewrite <- (Qplus_0_r (Qpower 2 1024)) at 2. unfold Qminus.
        apply Qplus_le_r. apply (Qopp_le_compat 0). apply Qlt_le_weak, Qpower_2_pos.
      * apply Qle_trans with (Qpower 2 (floorLog2 q)); [| exact L1].
        apply Qpower_2_mono. unfold e in E971. lia.
  - apply Qle_bool_false in O. exists m. rewrite !Qred_correct in *.
    split; [reflexivity |]. split; [split; [exact M0 | exact M53] |].
    split; [exact Lo | split; [exact Hi | exact O]].
Qed.

(* ================================================================= *)
(** * Properties *)

(** ** Integers under the bit operators *)

Lemma wrap32_id (x : Z) : - 2 ^ 31 <= x < 2 ^ 31 -> wrap32 x = x.
Proof.
  intros H. unfold wrap32. rewrite Z.mod_small; lia.
Qed.

Lemma lor_bounds (x y : Z) : 0 <= x -> 0 <= y -> 0 <= Z.lor x y <= x + y.
Proof.
  intros Hx Hy. split.
  - apply Z.lor_nonneg. split; assumption.
  - pose proof (Z.add_lor_land x y) as E.
    assert (0 <= Z.land x y) by (apply Z.land_nonneg; left; assumption).
    lia.
Qed.

Lemma low_byte (x : Z) : Z.land x 255 = x mod 256.
Proof. change 255 with (Z.ones 8). rewrite Z.land_ones by lia. reflexivity. Qed.

Lemma low_byte_shiftl (x k : Z) : 8 <= k -> Z.land (Z.shiftl x k) 255 = 0.
Proof.
  intros Hk. rewrite low_byte, Z.shiftl_mul_pow2 by lia.
  replace k with (8 + (k - 8)) by lia.
  rewrite Z.pow_add_r by lia.
  replace (x * (2 ^ 8 * 2 ^ (k - 8))) with (x * 2 ^ (k - 8) * 256) by (change (2 ^ 8) with 256; ring).
  apply Z.mod_mul. lia.
Qed.

Lemma low_byte_small (x : Z) : 0 <= x <= 255 -> Z.land x 255 = x.
Proof. intros H. rewrite low_byte. apply Z.mod_small. lia. Qed.

(** The packed integer of a triple of bytes, without the 32-bit wraps. *)
Lemma rgb2int_bytes (r g b : Z) :
  0 <= r <= 255 -> 0 <= g <= 255 -> 0 <= b <= 255 ->
  rgb2int (r, g, b) = Z.lor (Z.lor (Z.shiftl b 16) (Z.shiftl g 8)) r
  /\ 0 <= rgb2int (r, g, b) < 2 ^ 24.
Proof.
  intros Hr Hg Hb.
  assert (Eb : Z.shiftl b 16 = b * 65536) by (rewrite Z.shiftl_mul_pow2 by lia; reflexivity).
  assert (Eg : Z.shiftl g 8 = g * 256) by (rewrite Z.shiftl_mul_pow2 by lia; reflexivity).
  pose proof (lor_bounds (Z.shiftl b 16) (Z.shiftl g 8)) as B1.
  pose proof (lor_bounds (Z.lor (Z.shiftl b 16) (Z.shiftl g 8)) r) as B2.
  assert (E : rgb2int (r, g, b) = Z.lor (Z.lor (Z.shiftl b 16) (Z.shiftl g 8)) r).
  { unfold rgb2int, js_or, js_shl.
    rewrite (wrap32_id b), (wrap32_id g), (wrap32_id r) by lia.
    rewrite (wrap32_id (Z.shiftl b 16)), (wrap32_id (Z.shiftl g 8)) by lia.
    rewrite (wrap32_id (Z.shiftl b 16)), (wrap32_id (Z.shiftl g 8)) by lia.
    rewrite wrap32_id by lia. reflexivity. }
  split; [exact E | rewrite E; lia].
Qed.

(** C9.  For every triple of components between 0 and 255, unpacking the
    packed integer gives the triple back, and the low byte of the packed
    integer is component 0. *)
Theorem int2rgb_rgb2int (r g b : Z) :
  0 <= r <= 255 -> 0 <= g <= 255 -> 0 <= b <= 255 ->
  int2rgb (rgb2int (r, g, b)) = (r, g, b) /\ Z.land (rgb2int (r, g, b)) 255 = r.
Proof.
  intros Hr Hg Hb.
  destruct (rgb2int_bytes r g b Hr Hg Hb) as [E B].
  assert (Hlow : Z.land (rgb2int (r, g, b)) 255 = r).
  { rewrite E, !Z.land_lor_distr_l, !low_byte_shiftl by lia.
    rewrite low_byte_small by lia. reflexivity. }
  split; [| exact Hlow].
  unfold int2rgb, js_and, js_shr.
  assert (W : wrap32 (rgb2int (r, g, b)) = rgb2int (r, g, b)) by (apply wrap32_id; lia).
  rewrite W, (wrap32_id 255) by lia.
  assert (S8 : Z.shiftr (rgb2int (r, g, b)) 8 = Z.lor (Z.shiftl b 8) g).
  { rewrite E, !Z.shiftr_lor, !Z.shiftr_shiftl_l by lia.
    rewrite (Z.shiftr_div_pow2 r 8), (Z.div_small r) by lia.
    change (Z.shiftl g (8 - 8)) with (Z.shiftl g 0). rewrite Z.shiftl_0_r, Z.lor_0_r.
    reflexivity. }
  assert (S16 : Z.shiftr (rgb2int (r, g, b)) 16 = b).
  { rewrite E, !Z.shiftr_lor, Z.shiftr_shiftl_l by lia.
    rewrite (Z.shiftr_div_pow2 r 16), (Z.div_small r) by lia.
    rewrite (Z.shiftr_div_pow2 (Z.shiftl g 8)), (Z.shiftl_mul_pow2 g 8) by lia.
    rewrite (Z.div_small (g * 2 ^ 8)) by lia.
    change (Z.shiftl b (16 - 16)) with (Z.shiftl b 0).
    rewrite Z.shiftl_0_r, !Z.lor_0_r. reflexivity. }
  rewrite S8, S16.
  pose proof (lor_bounds (Z.shiftl b 8) g) as B8.
  assert (Z.shiftl b 8 = b * 256) by (rewrite Z.shiftl_mul_pow2 by lia; reflexivity).
  rewrite (wrap32_id (Z.lor (Z.shiftl b 8) g)), (wrap32_id b) by lia.
  rewrite Hlow, Z.land_lor_distr_l, low_byte_shiftl by lia.
  rewrite !low_byte_small by lia. reflexivity.
Qed.

Lemma int2rgb_rgb2int_witness :
  int2rgb (rgb2int (255, 227, 11)) = (255, 227, 11)
  /\ Z.land (rgb2int (255, 227, 11)) 255 = 255.
Proof. apply (int2rgb_rgb2int 255 227 11); lia. Defined.

(** ** The indexed colour setter *)

Lemma set_aci_range (c : MTextContext) (v : number) :
  snd (set_aci c v) = Returned <-> inAciRange v.
Proof.
  unfold set_aci, inAciRange, num_ge, num_le, num_of_Z.
  destruct v as [| q | [|]]; simpl.
  - split; [discriminate | intros (q & H & _); discriminate].
  - destruct (Qle_bool (inject_Z 0) q) eqn:H0; destruct (Qle_bool q (inject_Z 256)) eqn:H1;
      simpl; split; try discriminate; try reflexivity.
    + intros _. exists q. apply Qle_bool_iff in H0, H1. auto.
    + intros (q' & E & _ & Hq). injection E as <-.
      apply Qle_bool_iff in Hq. change (256%Q) with (inject_Z 256) in Hq. congruence.
    + intros (q' & E & Hq & _). injection E as <-.
      apply Qle_bool_iff in Hq. change (0%Q) with (inject_Z 0) in Hq. congruence.
    + intros (q' & E & Hq & _). injection E as <-.
      apply Qle_bool_iff in Hq. change (0%Q) with (inject_Z 0) in Hq. congruence.
  - split; [discriminate | intros (q & H & _); discriminate].
  - split; [discriminate | intros (q & H & _); discriminate].
Qed.

Lemma set_aci_cases (c : MTextContext) (v : number) :
  snd (set_aci c v) = Returned
  \/ (snd (set_aci c v) = Thrown "ACI not in range [0, 256]" /\ fst (set_aci c v) = c).
Proof.
  unfold set_aci. destruct (_ && _); simpl; [left | right; split]; reflexivity.
Qed.

(** C8.  Assigning the indexed colour throws, with the message that the
    value is not in range, exactly when the value is not in the interval
    from 0 to 256; a throwing assignment leaves the context as it was; a
    successful one stores the value and sets the RGB triple to null, leaving
    the other fields alone; and no other write to a context throws. *)
Theorem aci_setter (c : MTextContext) (v : number) :
  (snd (set_aci c v) = Thrown "ACI not in range [0, 256]" <-> ~ inAciRange v) /\
  (snd (set_aci c v) <> Returned -> fst (set_aci c v) = c) /\
  (snd (set_aci c v) = Returned ->
     aci (fst (set_aci c v)) = v /\ rgb (fst (set_aci c v)) = None /\
     set_rgb (fst (set_aci c v)) (rgb c) =
       {| _stroke := _stroke c; continueStroke := continueStroke c; _aci := v;
          rgb := rgb c; align := align c; fontFace := fontFace c;
          _capHeight := _capHeight c; _widthFactor := _widthFactor c;
          _charTrackingFactor := _charTrackingFactor c; oblique := oblique c;
          paragraph := paragraph c |}) /\
  (forall (op : ContextOp) (c0 : MTextContext),
     snd (runOp op c0) <> Returned -> exists w, op = SetAci w /\ ~ inAciRange w).
Proof.
  assert (T : forall c1 w, snd (set_aci c1 w) <> Returned <-> ~ inAciRange w).
  { intros c1 w. rewrite <- set_aci_range with (c := c1). reflexivity. }
  split; [| split; [| split]].
  - rewrite <- (T c v).
    destruct (set_aci_cases c v) as [E | [E _]]; rewrite E; split; congruence.
  - destruct (set_aci_cases c v) as [E | [_ E]]; [congruence | intros _; exact E].
  - unfold set_aci. destruct (_ && _); simpl; [| discriminate].
    intros _. repeat split.
  - intros op c0. destruct op; simpl; try congruence.
    intros H. exists v0. split; [reflexivity |]. apply (T c0). exact H.
Qed.

Lemma aci_setter_witness :
  snd (set_aci newMTextContext (num_of_Z 257)) = Thrown "ACI not in range [0, 256]"
  /\ fst (set_aci newMTextContext (num_of_Z 257)) = newMTextContext.
Proof.
  destruct (aci_setter newMTextContext (num_of_Z 257)) as (T & A & _).
  assert (H : snd (set_aci newMTextContext (num_of_Z 257))
              = Thrown "ACI not in range [0, 256]").
  { apply T. intros (q & E & _ & H). injection E as <-.
    unfold Qle in H. simpl in H. lia. }
  split; [exact H |]. apply A. rewrite H. discriminate.
Defined.

(** ** TextScanner.find *)

Lemma wf_newTextScanner (t : jsstring) : wf_scanner (newTextScanner t).
Proof. unfold wf_scanner, newTextScanner. simpl. lia. Qed.

Lemma wf_consume (n : Z) (sc : TextScanner) : wf_scanner sc -> wf_scanner (consume n sc).
Proof. unfold wf_scanner, consume. simpl. lia. Qed.

Lemma eqc_true (c : option jschar) (x : jschar) : eqc c x = true <-> c = Some x.
Proof.
  destruct c as [z |]; simpl.
  - rewrite Z.eqb_eq. split; congruence.
  - split; discriminate.
Qed.

Lemma eqc_false (c : option jschar) (x : jschar) : eqc c x = false <-> c <> Some x.
Proof.
  rewrite <- eqc_true. destruct (eqc c x); split; congruence.
Qed.

(** Any counter that covers the rest of the text gives the same result. *)
Lemma find_loop_fuel (t : jsstring) (len : Z) (char : jschar) (escape : bool) :
  forall (n m : nat) (index : Z),
    len - index <= Z.of_nat n -> len - index <= Z.of_nat m ->
    find_loop n t len char escape index = find_loop m t len char escape index.
Proof.
  induction n as [| n IH]; intros m index Hn Hm.
  - destruct m as [| m]; simpl; [reflexivity |].
    destruct (Z.ltb_spec index len); [lia | reflexivity].
  - destruct m as [| m]; simpl.
    + destruct (Z.ltb_spec index len); [lia | reflexivity].
    + destruct (Z.ltb_spec index len); [| reflexivity].
      rewrite (IH m (index + 2)), (IH m (index + 1)) by lia. reflexivity.
Qed.

(** A position reported by [find] lies in the unread part of the text and
    holds the character searched for. *)
Lemma find_loop_sound (t : jsstring) (len : Z) (char : jschar) (escape : bool) :
  forall (n : nat) (index i : Z),
    0 <= index ->
    find_loop n t len char escape index = i -> 0 <= i ->
    index <= i < len /\ charAt t i = Some char.
Proof.
  induction n as [| n IH]; intros index i Hidx E Hi; simpl in E; [lia |].
  destruct (Z.ltb_spec index len) as [Hlt |]; [| lia].
  destruct (escape && eqc (charAt t index) (ch "\")).
  - destruct (Z.ltb_spec (index + 1) len) as [Hlt1 |].
    + destruct (eqc (charAt t (index + 1)) char) eqn:Ec.
      * subst i. apply eqc_true in Ec. split; [lia | exact Ec].
      * apply IH in E; [| lia | exact Hi]. split; [lia | apply E].
    + apply IH in E; [| lia | exact Hi]. split; [lia | apply E].
  - destruct (eqc (charAt t index) char) eqn:Ec.
    + subst i. apply eqc_true in Ec. split; [lia | exact Ec].
    + apply IH in E; [| lia | exact Hi]. split; [lia | apply E].
Qed.

Lemma peek_charAt (sc : TextScanner) (k : Z) (c : jschar) :
  peek k sc = Some c ->
  charAt (text sc) (_index sc + k) = Some c /\ 0 <= _index sc + k < textLen sc.
Proof.
  unfold peek.
  destruct (Z.leb_spec (textLen sc) (_index sc + k)); simpl; [discriminate |].
  destruct (Z.ltb_spec (_index sc + k) 0); simpl; [discriminate |].
  intros E. split; [exact E | lia].
Qed.

(** In the text of two characters, a backslash and a semicolon, the
    escape-aware search for the semicolon reports position 1, whose
    predecessor is the backslash; in the text of two backslashes and a
    semicolon it reports position 2, again right after a backslash. *)
Lemma find_reports_escaped_semicolon :
  (find (ch ";") true (newTextScanner (js "\;")) = 1
   /\ charAt (js "\;") 1 = Some (ch ";")
   /\ charAt (js "\;") (1 - 1) = Some (ch "\"))
  /\
  (find (ch ";") true (newTextScanner (js "\\;")) = 2
   /\ charAt (js "\\;") 2 = Some (ch ";")
   /\ charAt (js "\\;") (2 - 1) = Some (ch "\")).
Proof. repeat split. Qed.

(** C6 (as the code has it).  With the escape flag, a backslash and the
    character after it are skipped as a unit when that character is not the
    target; when it is the target, [find] reports its position.  Every
    position [find] reports is in the unread part of the text and holds the
    target. *)
Theorem find_escape (sc : TextScanner) (char : jschar) :
  wf_scanner sc ->
  (0 <= find char true sc ->
     _index sc <= find char true sc < textLen sc
     /\ charAt (text sc) (find char true sc) = Some char) /\
  (peek 0 sc = Some (ch "\") -> peek 1 sc = Some char ->
     find char true sc = _index sc + 1) /\
  (forall d, peek 0 sc = Some (ch "\") -> peek 1 sc = Some d -> d <> char ->
     find char true sc = find char true (consume 2 sc)).
Proof.
  intros [Hlen Hidx]. split; [| split].
  - intros H. apply (find_loop_sound _ _ _ true (Z.to_nat (textLen sc - _index sc)));
      [lia | reflexivity | exact H].
  - intros H0 H1. apply peek_charAt in H0, H1.
    destruct H0 as [C0 B0], H1 as [C1 B1]. rewrite Z.add_0_r in C0.
    unfold find.
    destruct (Z.to_nat (textLen sc - _index sc)) as [| n] eqn:En; [lia |]. simpl.
    destruct (Z.ltb_spec (_index sc) (textLen sc)); [| lia].
    rewrite C0. simpl.
    destruct (Z.ltb_spec (_index sc + 1) (textLen sc)); [| lia].
    rewrite C1. simpl. rewrite Z.eqb_refl. reflexivity.
  - intros d H0 H1 Hd. apply peek_charAt in H0, H1.
    destruct H0 as [C0 B0], H1 as [C1 B1]. rewrite Z.add_0_r in C0.
    unfold find at 1.
    destruct (Z.to_nat (textLen sc - _index sc)) as [| n] eqn:En; [lia |]. simpl.
    destruct (Z.ltb_spec (_index sc) (textLen sc)); [| lia].
    rewrite C0. simpl.
    destruct (Z.ltb_spec (_index sc + 1) (textLen sc)); [| lia].
    rewrite C1. simpl.
    destruct (Z.eqb_spec d char); [contradiction |].
    unfold find, consume. simpl.
    replace (Z.max 0 (Z.min (_index sc + 2) (textLen sc))) with (_index sc + 2) by lia.
    apply find_loop_fuel; lia.
Qed.

Lemma find_escape_witness :
  wf_scanner (consume 1 (newTextScanner (js "a\b\;c")))
  /\ find (ch ";") true (consume 1 (newTextScanner (js "a\b\;c"))) = 4.
Proof.
  assert (W : wf_scanner (consume 1 (newTextScanner (js "a\b\;c")))).
  { unfold wf_scanner. simpl. lia. }
  split; [exact W |].
  destruct (find_escape (consume 1 (newTextScanner (js "a\b\;c"))) (ch ";") W)
    as (_ & _ & H).
  rewrite (H (ch "b")); [reflexivity | reflexivity | reflexivity | discriminate].
Defined.

(** ** The stacking sub-grammar *)

Lemma isDivider_cases (c : option jschar) :
  isDivider c = true -> c = Some (ch "/") \/ c = Some (ch "#") \/ c = Some (ch "^").
Proof.
  unfold isDivider. rewrite !orb_true_iff, !eqc_true. tauto.
Qed.

(** [parseNumerator] returns the empty string or one divider character as
    the stacking type. *)
Lemma parseNumerator_loop_type (n : nat) :
  forall sc word numerator stackingType sc',
    parseNumerator_loop n sc word = ((numerator, stackingType), sc') ->
    stackingType = [] \/ stackingType = js "/" \/ stackingType = js "#"
    \/ stackingType = js "^".
Proof.
  induction n as [| n IH]; intros sc word numerator stackingType sc' E; simpl in E.
  - injection E as _ <- _. left. reflexivity.
  - destruct (hasData sc).
    + destruct (getNextChar sc) as [[c escape] sc1].
      destruct (negb escape && isDivider c) eqn:D.
      * injection E as _ <- _. apply andb_true_iff in D as [_ D].
        apply isDivider_cases in D as [-> | [-> | ->]]; auto.
      * eapply IH. exact E.
    + injection E as _ <- _. left. reflexivity.
Qed.

Lemma stackParts_type (expr numerator denominator stackingType : jsstring) :
  stackParts expr = (numerator, denominator, stackingType) ->
  stackingType = [] \/ stackingType = js "/" \/ stackingType = js "#"
  \/ stackingType = js "^".
Proof.
  unfold stackParts, parseNumerator.
  destruct (parseNumerator_loop _ _ _) as [[num ty] sc] eqn:E.
  intros H. injection H as _ _ <-.
  eapply parseNumerator_loop_type. exact E.
Qed.

(** C10.  The token of a stacking expression is the fixed triple of a space,
    a space and a slash when the parsed numerator is empty and the parsed
    denominator contains the two characters I and slash, whatever else the
    denominator holds; in every other case it is the parsed numerator,
    denominator and divider. *)
Theorem stacking_special_case (p : MTextParser) :
  let expr := fst (extractExpression true (scanner p)) in
  let numerator := fst (fst (stackParts expr)) in
  let denominator := snd (fst (stackParts expr)) in
  let stackingType := snd (stackParts expr) in
  fst (fst (parseStacking p)) = STACK /\
  ((numerator = [] /\ includes denominator (js "I/") = true) ->
     snd (fst (parseStacking p)) = DStack (js " ") (js " ") (js "/")) /\
  (~ (numerator = [] /\ includes denominator (js "I/") = true) ->
     snd (fst (parseStacking p)) = DStack numerator denominator stackingType).
Proof.
  cbv zeta. unfold parseStacking.
  destruct (extractExpression true (scanner p)) as [expr sc]. simpl.
  unfold stackExpression.
  destruct (stackParts expr) as [[numerator denominator] stackingType] eqn:E. simpl.
  pose proof (stackParts_type _ _ _ _ E) as T.
  split; [| split].
  - destruct numerator; simpl; [destruct (includes denominator (js "I/")) |];
      simpl; destruct (eqc (head stackingType) (ch "^")); reflexivity.
  - intros [-> ->]. reflexivity.
  - intros H.
    assert (C : (match numerator with [] => true | _ => false end)
                && includes denominator (js "I/") = false).
    { destruct numerator; simpl; [| reflexivity].
      destruct (includes denominator (js "I/")); [| reflexivity].
      exfalso. apply H. split; reflexivity. }
    rewrite C.
    destruct T as [-> | [-> | [-> | ->]]]; reflexivity.
Qed.

(** The expression of the command [\S^I/^J;] takes the special case. *)
Lemma stacking_special_case_witness :
  stackParts (js "^I/^J") = ([], js "I/^J", js "^")
  /\ snd (fst (parseStacking
                 (with_scanner (newMTextParser (js "\S^I/^J;") newMTextContext false)
                    (consume 2 (newTextScanner (js "\S^I/^J;"))))))
     = DStack (js " ") (js " ") (js "/").
Proof.
  split; [reflexivity |].
  apply (proj1 (proj2 (stacking_special_case
           (with_scanner (newMTextParser (js "\S^I/^J;") newMTextContext false)
              (consume 2 (newTextScanner (js "\S^I/^J;"))))))).
  split; reflexivity.
Defined.

(** C5.  The three worked stacking commands, parsed from the default context
    (or from any other initial context, with or without property tokens),
    give one STACK token each, carrying the initial context, with the
    payloads 1 over 2 with a slash, 1 over 2 with a caret (the space after
    the caret is not part of the denominator) and N over P with a caret (the
    backslashes are dropped). *)
Theorem stacking_worked_examples :
  forall (gbk big5 : Z -> Z -> option jsstring) (k : nat) (c : MTextContext)
         (yieldCommands : bool),
    parse gbk big5 (3 + k) (js "\S1/2;") c yieldCommands
      = Some [{| tok_type := STACK; tok_ctx := c;
                 tok_data := DStack (js "1") (js "2") (js "/") |}]
    /\ parse gbk big5 (3 + k) (js "\S1^ 2;") c yieldCommands
      = Some [{| tok_type := STACK; tok_ctx := c;
                 tok_data := DStack (js "1") (js "2") (js "^") |}]
    /\ parse gbk big5 (3 + k) (js "\S\N^ \P;") c yieldCommands
      = Some [{| tok_type := STACK; tok_ctx := c;
                 tok_data := DStack (js "N") (js "P") (js "^") |}].
Proof.
  intros gbk big5 k c yieldCommands. repeat split; vm_compute; reflexivity.
Qed.

(** ** The two-percent codes *)

Lemma special_char_none (c : jschar) :
  ~ In c (js "cCdDpP") -> SPECIAL_CHAR_ENCODING (Some (toLowerCase c)) = None.
Proof.
  intros H. simpl in H. unfold SPECIAL_CHAR_ENCODING, toLowerCase.
  change (ch "c") with 99 in *. change (ch "d") with 100 in *.
  change (ch "p") with 112 in *. change (ch "C") with 67 in *.
  change (ch "D") with 68 in *. change (ch "P") with 80 in *.
  destruct ((65 <=? c) && (c <=? 90)) eqn:U.
  - apply andb_true_iff in U as [U1 U2]. apply Z.leb_le in U1, U2.
    destruct (Z.eqb_spec (c + 32) 99); [exfalso; apply H; right; left; lia |].
    destruct (Z.eqb_spec (c + 32) 100); [exfalso; apply H; do 3 right; left; lia |].
    destruct (Z.eqb_spec (c + 32) 112); [exfalso; apply H; do 5 right; left; lia |].
    reflexivity.
  - destruct (Z.eqb_spec c 99); [exfalso; apply H; left; lia |].
    destruct (Z.eqb_spec c 100); [exfalso; apply H; do 2 right; left; lia |].
    destruct (Z.eqb_spec c 112); [exfalso; apply H; do 4 right; left; lia |].
    reflexivity.
Qed.

(** Parsed from the default context, the text of the three codes followed
    by Text is one WORD token; its first character is U+00D8, not U+2300. *)
Lemma special_codes_first_glyph :
  parse noDecoder noDecoder 9 (js "%%c%%d%%pText") newMTextContext false
    = Some [{| tok_type := WORD; tok_ctx := newMTextContext;
               tok_data := DWord (216 :: 176 :: 177 :: js "Text") |}]
  /\ DWord (216 :: 176 :: 177 :: js "Text") <> DWord (8960 :: 176 :: 177 :: js "Text").
Proof. split; [vm_compute; reflexivity | discriminate]. Qed.

(** The glyph of a code letter, in either case. *)
Lemma special_char_some (c g : jschar) :
  (In c (js "cC") /\ g = 216) \/ (In c (js "dD") /\ g = 176)
  \/ (In c (js "pP") /\ g = 177) ->
  SPECIAL_CHAR_ENCODING (Some (toLowerCase c)) = Some g.
Proof.
  intros [[H ->] | [[H ->] | [H ->]]]; simpl in H;
    destruct H as [<- | [<- | []]]; reflexivity.
Qed.

(** C3 (as the code has it).  The text of the three codes followed by Text,
    parsed from the default context (or any other), is one WORD token with
    the payload U+00D8, U+00B0, U+00B1, Text and the initial context.
    Wherever the scanner stands on two percent signs followed by c or C, by
    d or D, or by p or P, one iteration of the token loop consumes the three
    characters and appends U+00D8, U+00B0 or U+00B1 to the word buffer; when
    the third character is none of these six letters (or there is none), it
    consumes three characters and leaves the word buffer as it is.  Neither
    changes the parser's contexts. *)
Theorem special_char_codes :
  forall (gbk big5 : Z -> Z -> option jsstring),
    (forall (k : nat) (c : MTextContext) (yieldCommands : bool),
       parse gbk big5 (9 + k) (js "%%c%%d%%pText") c yieldCommands
       = Some [{| tok_type := WORD; tok_ctx := c;
                  tok_data := DWord (216 :: 176 :: 177 :: js "Text") |}])
    /\
    (forall (fuel : nat) (p : MTextParser) (word : jsstring) (c g : jschar),
       peek 0 (scanner p) = Some (ch "%") ->
       peek 1 (scanner p) = Some (ch "%") ->
       peek 2 (scanner p) = Some c ->
       (In c (js "cC") /\ g = 216) \/ (In c (js "dD") /\ g = 176)
       \/ (In c (js "pP") /\ g = 177) ->
       loop_body gbk big5 fuel p word
       = Some (Continue (with_scanner p (consume 3 (scanner p))) (word ++ [g])))
    /\
    (forall (fuel : nat) (p : MTextParser) (word : jsstring),
       peek 0 (scanner p) = Some (ch "%") ->
       peek 1 (scanner p) = Some (ch "%") ->
       (forall c, peek 2 (scanner p) = Some c -> ~ In c (js "cCdDpP")) ->
       loop_body gbk big5 fuel p word
       = Some (Continue (with_scanner p (consume 3 (scanner p))) word)).
Proof.
  intros gbk big5.
  assert (B : forall fuel p word,
             peek 0 (scanner p) = Some (ch "%") ->
             peek 1 (scanner p) = Some (ch "%") ->
             loop_body gbk big5 fuel p word
             = Some match SPECIAL_CHAR_ENCODING (option_map toLowerCase (peek 2 (scanner p))) with
                    | Some specialChar =>
                        Continue (with_scanner p (consume 3 (scanner p))) (word ++ [specialChar])
                    | None => Continue (with_scanner p (consume 3 (scanner p))) word
                    end).
  { intros fuel p word H0 H1.
    unfold loop_body. rewrite H0.
    change (code_lt (Some (ch "%")) 32) with false.
    change (eqc (Some (ch "%")) (ch "\")) with false. cbv iota.
    unfold plainChar. rewrite H1.
    change (eqc (Some (ch "%")) (ch "%") && eqc (Some (ch "%")) (ch "%")) with true.
    reflexivity. }
  split; [| split].
  - intros k c yieldCommands. vm_compute. reflexivity.
  - intros fuel p word c g H0 H1 H2 G.
    rewrite (B fuel p word H0 H1), H2. unfold option_map.
    rewrite (special_char_some c g G). reflexivity.
  - intros fuel p word H0 H1 H2.
    rewrite (B fuel p word H0 H1).
    destruct (peek 2 (scanner p)) as [c |]; unfold option_map.
    + rewrite special_char_none by (apply H2; reflexivity). reflexivity.
    + reflexivity.
Qed.

Lemma special_char_codes_witness :
  loop_body noDecoder noDecoder 0 (newMTextParser (js "%%D") newMTextContext false) (js "ab")
  = Some (Continue (with_scanner (newMTextParser (js "%%D") newMTextContext false)
                      (consume 3 (newTextScanner (js "%%D"))))
                   (js "ab" ++ [176]))
  /\
  loop_body noDecoder noDecoder 0 (newMTextParser (js "%%x") newMTextContext false) (js "ab")
  = Some (Continue (with_scanner (newMTextParser (js "%%x") newMTextContext false)
                      (consume 3 (newTextScanner (js "%%x"))))
                   (js "ab")).
Proof.
  destruct (special_char_codes noDecoder noDecoder) as (_ & G & N). split.
  - apply (G 0%nat (newMTextParser (js "%%D") newMTextContext false) (js "ab") (ch "D") 176).
    + reflexivity.
    + reflexivity.
    + reflexivity.
    + right. left. split; [right; left; reflexivity | reflexivity].
  - apply (N 0%nat (newMTextParser (js "%%x") newMTextContext false) (js "ab")).
    + reflexivity.
    + reflexivity.
    + intros c E. injection E as <-. simpl. intros H.
      repeat (destruct H as [H | H]; [discriminate H |]). exact H.
Defined.

(** ** Unknown command letters *)

Lemma not_in_eqb (c k : jschar) (l : jsstring) :
  ~ In c l -> In k l -> (c =? k) = false.
Proof.
  intros Hc Hk. apply Z.eqb_neq. intros ->. contradiction.
Qed.

Ltac known_letter :=
  unfold knownCommands; simpl; repeat (first [left; reflexivity | right]).

Ltac skip_cases H :=
  repeat match goal with
         | |- context [?c =? ch ?a] =>
             rewrite (not_in_eqb c (ch a) knownCommands H) by known_letter
         end.

(** What the code does with a command letter outside the table: the text
    appended to the word buffer is cut from the unread rest of the input at
    the offsets of the command in the whole input. *)
Lemma unknown_command_step (gbk big5 : Z -> Z -> option jsstring) (fuel : nat)
    (p : MTextParser) (word : jsstring) (cmdStartIndex : Z) (c : jschar) :
  ~ In c knownCommands ->
  commandSwitch gbk big5 fuel p word cmdStartIndex (Some c)
  = Some (Continue p (word ++ slice (tail (scanner p)) cmdStartIndex
                                    (currentIndex (scanner p)))).
Proof.
  intros H.
  unfold commandSwitch, eqc. skip_cases H. simpl.
  unfold parseProperties, dispatchProperty. skip_cases H. simpl. reflexivity.
Qed.

(** C2 (what the code does).  A backslash followed by a character that is no
    command letter and none of backslash and the braces yields no token at
    all, from any initial context; followed by more text, the two characters
    are replaced by a copy of the two characters after them. *)
Theorem unknown_command_lost :
  forall (gbk big5 : Z -> Z -> option jsstring) (k : nat) (c0 : MTextContext)
         (yieldCommands : bool),
    (forall c : jschar,
       ~ In c knownCommands -> ~ In c (js "\{}") ->
       parse gbk big5 (3 + k) [ch "\"; c] c0 yieldCommands = Some [])
    /\ parse gbk big5 (10 + k) (js "\zabcd") c0 yieldCommands
       = Some [{| tok_type := WORD; tok_ctx := c0;
                  tok_data := DWord (js "ababcd") |}].
Proof.
  intros gbk big5 k c0 yieldCommands. split; [| vm_compute; reflexivity].
  intros c Hc Hb.
  assert (E : includes1 (js "\{}") (Some c) = false).
  { simpl. rewrite !(not_in_eqb c _ (js "\{}") Hb) by (simpl; auto). reflexivity. }
  unfold parse. simpl parse_loop. unfold nextToken. simpl nextToken_loop.
  change (hasData (scanner (newMTextParser [ch "\"; c] c0 yieldCommands))) with true.
  cbv iota. unfold loop_body.
  change (peek 0 (scanner (newMTextParser [ch "\"; c] c0 yieldCommands)))
    with (Some (ch "\")).
  change (peek 1 (scanner (newMTextParser [ch "\"; c] c0 yieldCommands)))
    with (Some c).
  rewrite E. simpl code_lt. simpl eqc. cbv iota.
  change (get (consume 1 (scanner (newMTextParser [ch "\"; c] c0 yieldCommands))))
    with (Some c, set_index (newTextScanner [ch "\"; c]) 2).
  cbv iota beta.
  rewrite unknown_command_step by exact Hc.
  destruct k; reflexivity.
Qed.

Lemma unknown_command_lost_witness :
  parse noDecoder noDecoder 3 (js "\z") newMTextContext false = Some [].
Proof.
  apply (proj1 (unknown_command_lost noDecoder noDecoder 0 newMTextContext false) (ch "z")).
  - unfold knownCommands. simpl. intros H.
    repeat (destruct H as [H | H]; [discriminate H |]). exact H.
  - simpl. intros H.
    repeat (destruct H as [H | H]; [discriminate H |]). exact H.
Defined.
(** ** The tab-stop loop of the paragraph command *)

(** In that situation an iteration of the tab-stop loop pushes the number 0
    and leaves the scanner where it is, as long as the array takes one more
    element. *)
Lemma tabStops_loop_stuck_step (sc : TextScanner) (fuel : nat) (tabStops : list TabStop) :
  stuckTabStop sc ->
  Z.of_nat (length tabStops) < maxArrayLength ->
  tabStops_loop (S fuel) sc tabStops
  = tabStops_loop fuel sc (tabStops ++ [TabNumber (num_of_Z 0)]).
Proof.
  intros (Hd & Hr & Hc & Hp) L. cbn [tabStops_loop].
  rewrite Hd, Hr, Hc. cbn [orb]. unfold parseFloatValue. rewrite Hp.
  cbn [isNaN num_of_Z negb]. unfold push.
  destruct (Z.ltb_spec (Z.of_nat (length tabStops)) maxArrayLength); [reflexivity | lia].
Qed.

(** On the full array the iteration throws. *)
Lemma tabStops_loop_stuck_full (sc : TextScanner) (fuel : nat) (tabStops : list TabStop) :
  stuckTabStop sc ->
  maxArrayLength <= Z.of_nat (length tabStops) ->
  tabStops_loop (S fuel) sc tabStops = Some Throw.
Proof.
  intros (Hd & Hr & Hc & Hp) L. cbn [tabStops_loop].
  rewrite Hd, Hr, Hc. cbn [orb]. unfold parseFloatValue. rewrite Hp.
  cbn [isNaN num_of_Z negb]. unfold push.
  destruct (Z.ltb_spec (Z.of_nat (length tabStops)) maxArrayLength); [lia | reflexivity].
Qed.

(** The loop therefore runs, without reading a character, for as many
    iterations as the array has room, and ends with the RangeError in the
    iteration after. *)
Lemma tabStops_loop_stuck (sc : TextScanner) :
  stuckTabStop sc ->
  forall (fuel : nat) (tabStops : list TabStop),
    Z.of_nat (length tabStops) <= maxArrayLength ->
    (Z.of_nat fuel <= maxArrayLength - Z.of_nat (length tabStops) ->
     tabStops_loop fuel sc tabStops = None)
    /\ (maxArrayLength - Z.of_nat (length tabStops) < Z.of_nat fuel ->
        tabStops_loop fuel sc tabStops = Some Throw).
Proof.
  intros St. induction fuel as [| fuel IH]; intros tabStops L.
  - split; [reflexivity | lia].
  - destruct (Z.ltb_spec (Z.of_nat (length tabStops)) maxArrayLength) as [R | R].
    + rewrite (tabStops_loop_stuck_step sc fuel tabStops St R).
      destruct (IH (tabStops ++ [TabNumber (num_of_Z 0)])) as [I1 I2].
      { rewrite length_app. cbn [length]. lia. }
      rewrite length_app in I1, I2. cbn [length] in I1, I2.
      split; intros H; [apply I1 | apply I2]; lia.
    + split; [lia | intros _; apply tabStops_loop_stuck_full; assumption].
Qed.

Lemma stuckTabStop_ta : stuckTabStop (set_index (newTextScanner (js "ta")) 1).
Proof. repeat split. Qed.

Lemma maxArrayLength_pos : 0 < maxArrayLength.
Proof. reflexivity. Qed.

Lemma paragraph_loop_ta (fuel : nat) (l : ParagraphLocals) :
  paragraph_loop fuel (newTextScanner (js "ta")) l
  = if (fuel <=? S (Z.to_nat maxArrayLength))%nat then None else Some Throw.
Proof.
  pose proof maxArrayLength_pos as MP.
  destruct fuel as [| fuel]; [reflexivity |].
  cbn [paragraph_loop].
  change (hasData (newTextScanner (js "ta"))) with true. cbv iota.
  change (get (newTextScanner (js "ta")))
    with (Some (ch "t"), set_index (newTextScanner (js "ta")) 1).
  cbv iota beta.
  change (eqc (Some (ch "t")) (ch "i")) with false.
  change (eqc (Some (ch "t")) (ch "l")) with false.
  change (eqc (Some (ch "t")) (ch "r")) with false.
  change (eqc (Some (ch "t")) (ch "x")) with false.
  change (eqc (Some (ch "t")) (ch "q")) with false.
  change (eqc (Some (ch "t")) (ch "t")) with true. cbv iota.
  destruct (tabStops_loop_stuck _ stuckTabStop_ta fuel []) as [I1 I2];
    [cbn [length]; lia |].
  cbn [length] in I1, I2.
  destruct (Nat.leb_spec (S fuel) (S (Z.to_nat maxArrayLength))) as [B | B].
  - rewrite I1 by lia. reflexivity.
  - rewrite I2 by lia. reflexivity.
Qed.

(** The first iteration of the token loop on the text of the paragraph
    command with the tab-stop list a. *)
Lemma loop_body_pta (gbk big5 : Z -> Z -> option jsstring) (fuel : nat)
    (c : MTextContext) (yieldCommands : bool) :
  loop_body gbk big5 fuel (newMTextParser (js "\pta;") c yieldCommands) []
  = if (fuel <=? S (Z.to_nat maxArrayLength))%nat then None
    else Some (Continue (with_scanner (newMTextParser (js "\pta;") c yieldCommands)
                           (set_index (newTextScanner (js "\pta;")) 5)) []).
Proof.
  unfold loop_body.
  change (peek 0 (scanner (newMTextParser (js "\pta;") c yieldCommands)))
    with (Some (ch "\")).
  change (peek 1 (scanner (newMTextParser (js "\pta;") c yieldCommands)))
    with (Some (ch "p")).
  change (code_lt (Some (ch "\")) 32) with false.
  change (eqc (Some (ch "\")) (ch "\")) with true.
  change (includes1 (js "\{}") (Some (ch "p"))) with false. cbv iota.
  change (get (consume 1 (scanner (newMTextParser (js "\pta;") c yieldCommands))))
    with (Some (ch "p"), set_index (newTextScanner (js "\pta;")) 2).
  cbv iota beta.
  unfold commandSwitch.
  change (eqc (Some (ch "p")) (ch "~")) with false.
  change (eqc (Some (ch "p")) (ch "P")) with false.
  change (eqc (Some (ch "p")) (ch "N")) with false.
  change (eqc (Some (ch "p")) (ch "X")) with false.
  change (eqc (Some (ch "p")) (ch "S")) with false.
  change (eqc (Some (ch "p")) (ch "m") || eqc (Some (ch "p")) (ch "M")) with false.
  cbv iota.
  unfold parseProperties, dispatchProperty.
  change (ch "p" =? ch "L") with false. change (ch "p" =? ch "l") with false.
  change (ch "p" =? ch "O") with false. change (ch "p" =? ch "o") with false.
  change (ch "p" =? ch "K") with false. change (ch "p" =? ch "k") with false.
  change (ch "p" =? ch "A") with false. change (ch "p" =? ch "C") with false.
  change (ch "p" =? ch "c") with false. change (ch "p" =? ch "H") with false.
  change (ch "p" =? ch "W") with false. change (ch "p" =? ch "Q") with false.
  change (ch "p" =? ch "T") with false. change (ch "p" =? ch "p") with true.
  cbv iota.
  unfold parseParagraphProperties.
  change (extractExpression false
            (scanner (with_scanner (newMTextParser (js "\pta;") c yieldCommands)
                        (set_index (newTextScanner (js "\pta;")) 2))))
    with (js "ta", set_index (newTextScanner (js "\pta;")) 5).
  cbv iota beta.
  rewrite paragraph_loop_ta.
  destruct (fuel <=? S (Z.to_nat maxArrayLength))%nat; reflexivity.
Qed.

(** C1 (what the code does).  On the text of the paragraph command with the
    tab-stop list a, the tab-stop loop stands on the letter a: every
    iteration pushes a 0 and reads nothing, the loop is still running after
    as many iterations as an array can have elements, and the next push
    throws.  The token loop swallows that error, and the generator finishes
    without a token, from any initial context; with less fuel than the array
    has room the run has not finished. *)
Theorem paragraph_tab_stop_overflow :
  forall (gbk big5 : Z -> Z -> option jsstring) (c : MTextContext) (yieldCommands : bool),
    (forall (fuel : nat) (tabStops : list TabStop),
       Z.of_nat (length tabStops) < maxArrayLength ->
       tabStops_loop (S fuel) (set_index (newTextScanner (js "ta")) 1) tabStops
       = tabStops_loop fuel (set_index (newTextScanner (js "ta")) 1)
           (tabStops ++ [TabNumber (num_of_Z 0)]))
    /\ (forall fuel : nat,
          tabStops_loop fuel (set_index (newTextScanner (js "ta")) 1) []
          = if (fuel <=? Z.to_nat maxArrayLength)%nat then None else Some Throw)
    /\ (forall fuel : nat,
          parse gbk big5 fuel (js "\pta;") c yieldCommands
          = if (fuel <=? Z.to_nat maxArrayLength + 3)%nat then None else Some []).
Proof.
  intros gbk big5 c yieldCommands.
  pose proof maxArrayLength_pos as MP.
  split; [| split].
  - intros fuel tabStops L. apply tabStops_loop_stuck_step; [apply stuckTabStop_ta | exact L].
  - intros fuel.
    destruct (tabStops_loop_stuck _ stuckTabStop_ta fuel []) as [I1 I2];
      [cbn [length]; lia |].
    cbn [length] in I1, I2.
    destruct (Nat.leb_spec fuel (Z.to_nat maxArrayLength)) as [B | B];
      [apply I1 | apply I2]; lia.
  - intros fuel. unfold parse.
    destruct fuel as [| f1].
    { destruct (Nat.leb_spec 0 (Z.to_nat maxArrayLength + 3)); [reflexivity | lia]. }
    cbn [parse_loop]. unfold nextToken.
    destruct f1 as [| f2].
    { destruct (Nat.leb_spec 1 (Z.to_nat maxArrayLength + 3)); [reflexivity | lia]. }
    cbn [nextToken_loop].
    change (hasData (scanner (newMTextParser (js "\pta;") c yieldCommands))) with true.
    cbv iota. rewrite loop_body_pta.
    destruct (Nat.leb_spec f2 (S (Z.to_nat maxArrayLength))) as [B | B].
    + destruct (Nat.leb_spec (S (S f2)) (Z.to_nat maxArrayLength + 3)); [reflexivity | lia].
    + destruct f2 as [| f3]; [lia |].
      cbn [nextToken_loop].
      change (hasData (scanner (with_scanner (newMTextParser (js "\pta;") c yieldCommands)
                                  (set_index (newTextScanner (js "\pta;")) 5))))
        with false.
      cbv iota.
      destruct (Nat.leb_spec (S (S (S f3))) (Z.to_nat maxArrayLength + 3)); [lia | reflexivity].
Qed.

(** ** The colour commands *)

Lemma digitRun_take (s : jsstring) :
  digitRun (take (digitRun s) s) = digitRun s
  /\ length (take (digitRun s) s) = digitRun s.
Proof.
  induction s as [| c s [IH1 IH2]]; simpl; [split; reflexivity |].
  destruct (isDigit c) eqn:D; simpl; [| split; reflexivity].
  rewrite D, IH1, IH2. split; reflexivity.
Qed.

Lemma digitRun_forallb (s : jsstring) : forallb isDigit (take (digitRun s) s) = true.
Proof.
  induction s as [| c s IH]; [reflexivity |].
  cbn [digitRun]. destruct (isDigit c) eqn:D; [| reflexivity].
  cbn [take forallb]. rewrite D. exact IH.
Qed.

(** The expression [extractIntExpression] returns is a run of digits, on
    which [parseInt] is the Number value of the decimal value. *)
Lemma extractInt_parseInt (sc sc' : TextScanner) (digits : jsstring) :
  extractIntExpression sc = (digits, sc') -> digits <> [] ->
  parseInt digits = roundDouble (inject_Z (digitsValue digits))
  /\ 0 <= digitsValue digits.
Proof.
  unfold extractIntExpression. intros E Hne.
  destruct (digitRun (tail sc)) as [| n] eqn:R.
  - injection E as <- _. contradiction.
  - injection E as <- _. rewrite <- R in *.
    destruct (digitRun_take (tail sc)) as [H1 H2].
    split; [| apply digitsValue_nonneg, digitRun_forallb].
    unfold parseInt. rewrite H1, <- H2 at 1. rewrite firstn_all.
    destruct (take (digitRun (tail sc)) (tail sc)); [contradiction | reflexivity].
Qed.

Lemma ToInt32_range (v : number) : - 2 ^ 31 <= ToInt32 v < 2 ^ 31.
Proof.
  destruct v as [| q | s]; cbn [ToInt32]; try lia.
  unfold wrap32. pose proof (Z.mod_pos_bound (Z.quot (Qnum q) (Z.pos (Qden q)) + 2 ^ 31) (2 ^ 32)).
  lia.
Qed.

Lemma ToInt32_integer (v : Z) : ToInt32 (num_of_Z v) = wrap32 v.
Proof. unfold ToInt32, num_of_Z. simpl. rewrite Z.quot_1_r. reflexivity. Qed.

Lemma wrap32_range (v : Z) : - 2 ^ 31 <= wrap32 v < 2 ^ 31.
Proof.
  unfold wrap32. pose proof (Z.mod_pos_bound (v + 2 ^ 31) (2 ^ 32)). lia.
Qed.

Lemma wrap32_low24 (v : Z) : Z.land (wrap32 v) 16777215 = Z.land v 16777215.
Proof.
  change 16777215 with (Z.ones 24). rewrite !Z.land_ones by lia.
  unfold wrap32. rewrite (Z.mod_eq (v + 2 ^ 31) (2 ^ 32)) by lia.
  replace (v + 2 ^ 31 - 2 ^ 32 * ((v + 2 ^ 31) / 2 ^ 32) - 2 ^ 31)
    with (v + (- (256 * ((v + 2 ^ 31) / 2 ^ 32))) * 2 ^ 24) by lia.
  apply Z.mod_add. lia.
Qed.

(** The triple [int2rgb] returns for a 24-bit value. *)
Lemma int2rgb_24 (m : Z) :
  0 <= m < 2 ^ 24 ->
  int2rgb m = (Z.land m 255, Z.land (Z.shiftr m 8) 255, Z.land (Z.shiftr m 16) 255).
Proof.
  intros H. unfold int2rgb, js_and, js_shr.
  assert (0 <= Z.shiftr m 8 < 2 ^ 24).
  { rewrite Z.shiftr_div_pow2 by lia. split; [apply Z.div_pos; lia |].
    apply Z.div_lt_upper_bound; lia. }
  assert (0 <= Z.shiftr m 16 < 2 ^ 24).
  { rewrite Z.shiftr_div_pow2 by lia. split; [apply Z.div_pos; lia |].
    apply Z.div_lt_upper_bound; lia. }
  rewrite (wrap32_id m), (wrap32_id 255) by lia.
  rewrite (wrap32_id (Z.shiftr m 8)), (wrap32_id (Z.shiftr m 16)) by lia.
  reflexivity.
Qed.

(** After the command [\c255;] the token's context holds the RGB triple and
    still holds the indexed colour 7 of the default context. *)
Lemma rgb_command_keeps_aci :
  exists tok : MTextToken,
    parse noDecoder noDecoder 5 (js "\c255;A") newMTextContext false = Some [tok]
    /\ option_map rgb_value (rgb (tok_ctx tok)) = Some (0, 0, 255)
    /\ aci (tok_ctx tok) = num_of_Z 7
    /\ inAciRange (aci (tok_ctx tok)).
Proof.
  eexists. split; [vm_compute; reflexivity |]. simpl.
  split; [reflexivity |]. split; [reflexivity |].
  exists (inject_Z 7). split; [reflexivity |]. split; discriminate.
Qed.

(** C4 (as the code has it).  With a run of digits, the RGB command stores
    the number [parseInt] returns for the run, taken as a 32-bit integer
    and masked to 24 bits, as a triple, high byte first, and leaves the
    stored indexed colour as it was; whenever the decimal value of the run
    is below 2^53, that number is the decimal value.  The indexed-colour
    command with a value up to 256 stores the value and sets the RGB triple
    to null, as does every successful assignment of the indexed colour. *)
Theorem colour_commands (p : MTextParser) (c : MTextContext) (digits : jsstring)
    (sc : TextScanner) :
  extractIntExpression (scanner p) = (digits, sc) ->
  digits <> [] ->
  let m := Z.land (ToInt32 (parseInt digits)) 16777215 in
  (option_map rgb_value (rgb (snd (parseRgbColor p c)))
     = Some (Z.land (Z.shiftr m 16) 255, Z.land (Z.shiftr m 8) 255, Z.land m 255)
   /\ aci (snd (parseRgbColor p c)) = aci c)
  /\ (digitsValue digits < 2 ^ 53 ->
      parseInt digits = num_of_Z (digitsValue digits)
      /\ m = Z.land (digitsValue digits) 16777215)
  /\ (0 <= digitsValue digits <= 256 ->
      exists c', snd (parseAciColor p c) = Ok c'
                 /\ aci c' = num_of_Z (digitsValue digits) /\ rgb c' = None)
  /\ (forall (c0 : MTextContext) (v : number),
        snd (set_aci c0 v) = Returned -> rgb (fst (set_aci c0 v)) = None).
Proof.
  intros E Hne m.
  destruct (extractInt_parseInt _ _ _ E Hne) as [P N].
  assert (X : digitsValue digits < 2 ^ 53 ->
              parseInt digits = num_of_Z (digitsValue digits)).
  { intros Hv. rewrite P. apply roundDouble_exact. lia. }
  split; [| split; [| split]].
  - unfold parseRgbColor. rewrite E.
    destruct digits as [| d ds]; [contradiction |].
    unfold js_and at 1.
    rewrite (wrap32_id (ToInt32 _)) by apply ToInt32_range.
    rewrite (wrap32_id 16777215) by lia.
    fold m.
    assert (B : 0 <= m < 2 ^ 24).
    { unfold m. change 16777215 with (Z.ones 24). rewrite Z.land_ones by lia.
      apply Z.mod_pos_bound. lia. }
    rewrite (int2rgb_24 m B). simpl. split; reflexivity.
  - intros Hv. split; [exact (X Hv) |].
    unfold m. rewrite (X Hv), ToInt32_integer. apply wrap32_low24.
  - intros R. unfold parseAciColor. rewrite E.
    destruct digits as [| d ds]; [contradiction |].
    rewrite X by lia.
    assert (L : num_lt (num_of_Z (digitsValue (d :: ds))) (num_of_Z 257) = true).
    { unfold num_lt, num_of_Z. apply negb_true_iff.
      destruct (Qle_bool (inject_Z 257) (inject_Z (digitsValue (d :: ds)))) eqn:Q;
        [| reflexivity].
      apply Qle_bool_iff in Q. rewrite <- Zle_Qle in Q. lia. }
    rewrite L.
    assert (St : snd (set_aci c (num_of_Z (digitsValue (d :: ds)))) = Returned).
    { apply set_aci_range. exists (inject_Z (digitsValue (d :: ds))).
      split; [reflexivity |]. change 0%Q with (inject_Z 0).
      change 256%Q with (inject_Z 256). rewrite <- !Zle_Qle. lia. }
    unfold set_aci in *.
    destruct (num_ge _ _ && num_le _ _); [| discriminate St].
    simpl. eexists. split; [reflexivity |]. split; reflexivity.
  - intros c0 v. unfold set_aci. destruct (_ && _); simpl; [reflexivity | discriminate].
Qed.

Lemma colour_commands_witness :
  option_map rgb_value
    (rgb (snd (parseRgbColor
                 (with_scanner (newMTextParser (js "\c9007199254740993;") newMTextContext false)
                    (consume 2 (newTextScanner (js "\c9007199254740993;"))))
                 newMTextContext)))
  = Some (0, 0, 0).
Proof.
  pose proof (colour_commands
                (with_scanner (newMTextParser (js "\c9007199254740993;") newMTextContext false)
                   (consume 2 (newTextScanner (js "\c9007199254740993;"))))
                newMTextContext (js "9007199254740993")
                (consume 18 (newTextScanner (js "\c9007199254740993;")))) as H.
  cbv zeta in H.
  destruct H as [[H _] _].
  - reflexivity.
  - discriminate.
  - rewrite H. vm_compute. reflexivity.
Defined.

(** ** copy on the heap *)

Lemma alloc_app (h l : Heap.heap) (c : Heap.cell) :
  Heap.alloc (h ++ l) c = ((length h + length l)%nat, h ++ (l ++ [c])).
Proof. unfold Heap.alloc. rewrite length_app, app_assoc. reflexivity. Qed.

(** The heap after [copy]: seven cells of the fresh context, five clones,
    and the fresh context cell pointing to the clones.  The clone of the
    paragraph object holds the reference [ts] of the original. *)
Lemma copy_result (h : Heap.heap) (this : Heap.loc)
    s cs a r al ff chh wf ct ob pa f c1 c2 c3 i l r' a' ts :
  h !! this = Some (Heap.ContextCell s cs a r al ff chh wf ct ob pa) ->
  h !! ff = Some (Heap.FontFaceCell f) ->
  h !! chh = Some (Heap.FactorCell c1) ->
  h !! wf = Some (Heap.FactorCell c2) ->
  h !! ct = Some (Heap.FactorCell c3) ->
  h !! pa = Some (Heap.ParagraphCell i l r' a' ts) ->
  Heap.copy h this
  = Some ((length h + 6)%nat,
          h ++ [Heap.FontFaceCell (fontFace newMTextContext);
                Heap.FactorCell (_capHeight newMTextContext);
                Heap.FactorCell (_widthFactor newMTextContext);
                Heap.FactorCell (_charTrackingFactor newMTextContext);
                Heap.TabStopsCell [];
                Heap.ParagraphCell (Fin 0) (Fin 0) (Fin 0) DEFAULT (length h + 4)%nat;
                Heap.ContextCell s cs a r al (length h + 7)%nat (length h + 8)%nat
                  (length h + 9)%nat (length h + 10)%nat ob (length h + 11)%nat;
                Heap.FontFaceCell f; Heap.FactorCell c1; Heap.FactorCell c2;
                Heap.FactorCell c3; Heap.ParagraphCell i l r' a' ts]).
Proof.
  intros H0 H1 H2 H3 H4 H5. unfold Heap.copy. rewrite H0, H1, H2, H3, H4, H5.
  unfold Heap.newContext.
  rewrite <- (app_nil_r h) at 1 2.
  rewrite !alloc_app. simpl length. simpl app.
  rewrite !app_nil_r.
  rewrite (insert_app_r (h : list Heap.cell) _ 6).
  rewrite !Nat.add_0_r. reflexivity.
Qed.

Lemma lookup_app_plus (h l : Heap.heap) (k : nat) :
  (h ++ l) !! (length h + k)%nat = l !! k.
Proof.
  rewrite lookup_app_r by lia.
  replace (length h + k - length h)%nat with k by lia. reflexivity.
Qed.

Lemma lookup_app_old (h l : Heap.heap) (k : nat) (c : Heap.cell) :
  h !! k = Some c -> (h ++ l) !! k = Some c.
Proof.
  intros H. rewrite lookup_app_l; [exact H |].
  apply lookup_lt_Some in H. exact H.
Qed.

(** After [c2 = c1.copy()], the two contexts are different objects whose
    paragraph objects refer to one and the same [tab_stops] array. *)
Lemma copy_aliases_tab_stops (h h' : Heap.heap) (c1 c2 : Heap.loc) :
  Heap.copy h c1 = Some (c2, h') ->
  c2 <> c1
  /\ exists ts, Heap.tabStopsRef h' c1 = Some ts /\ Heap.tabStopsRef h' c2 = Some ts.
Proof.
  intros H.
  assert (C : exists s cs a r al ff chh wf ct ob pa f x1 x2 x3 i l r' a' ts,
             h !! c1 = Some (Heap.ContextCell s cs a r al ff chh wf ct ob pa)
             /\ h !! ff = Some (Heap.FontFaceCell f)
             /\ h !! chh = Some (Heap.FactorCell x1)
             /\ h !! wf = Some (Heap.FactorCell x2)
             /\ h !! ct = Some (Heap.FactorCell x3)
             /\ h !! pa = Some (Heap.ParagraphCell i l r' a' ts)).
  { unfold Heap.copy in H.
    destruct (h !! c1) as [[| | | | | s cs a r al ff chh wf ct ob pa] |] eqn:E0;
      try discriminate H.
    destruct (h !! ff) as [[| f | | | |] |] eqn:E1; try discriminate H.
    destruct (h !! chh) as [[| | x1 | | |] |] eqn:E2; try discriminate H.
    destruct (h !! wf) as [[| | x2 | | |] |] eqn:E3; try discriminate H.
    destruct (h !! ct) as [[| | x3 | | |] |] eqn:E4; try discriminate H.
    destruct (h !! pa) as [[| | | | i l r' a' ts |] |] eqn:E5; try discriminate H.
    do 20 eexists. repeat split; eassumption. }
  destruct C as (s & cs & a & r & al & ff & chh & wf & ct & ob & pa & f & x1 & x2
                 & x3 & i & l & r' & a' & ts & H0 & H1 & H2 & H3 & H4 & H5).
  rewrite (copy_result _ _ _ _ _ _ _ _ _ _ _ _ _ _ _ _ _ _ _ _ _ _ H0 H1 H2 H3 H4 H5) in H.
  injection H as <- <-.
  pose proof (lookup_lt_Some _ _ _ H0) as L.
  split; [lia |].
  exists ts. unfold Heap.tabStopsRef. split.
  - rewrite (lookup_app_old _ _ _ _ H0), (lookup_app_old _ _ _ _ H5). reflexivity.
  - rewrite (lookup_app_plus h _ 6). simpl.
    rewrite (lookup_app_plus h _ 11). reflexivity.
Qed.

(** C7 (what the code does).  Take a default context [c1], copy it to [c2]
    and push a tab stop onto the tab-stop list of [c2]: the tab-stop list of
    [c1], empty before, now holds that stop.  Writes to the font face or to
    the paragraph properties of [c2] do not show in [c1]. *)
Theorem copy_shares_tab_stops_array :
  let c1 := fst (Heap.newContext []) in
  let h0 := snd (Heap.newContext []) in
  exists (c2 : Heap.loc) (h1 h2 h3 h4 : Heap.heap),
    Heap.copy h0 c1 = Some (c2, h1)
    /\ c2 <> c1
    /\ Heap.readTabStops h1 c1 = Some []
    /\ Heap.pushTabStop h1 c2 (TabNumber (num_of_Z 4)) = Some h2
    /\ Heap.readTabStops h2 c1 = Some [TabNumber (num_of_Z 4)]
    /\ Heap.writeFamily h1 c2 (js "Arial") = Some h3
    /\ Heap.readFontFace h3 c1 = Heap.readFontFace h1 c1
    /\ Heap.writeIndent h1 c2 (num_of_Z 2) = Some h4
    /\ Heap.readIndent h4 c1 = Heap.readIndent h1 c1.
Proof.
  cbv zeta. do 5 eexists.
  split; [vm_compute; reflexivity |].
  split; [discriminate |].
  split; [reflexivity |].
  split; [vm_compute; reflexivity |].
  split; [reflexivity |].
  split; [vm_compute; reflexivity |].
  split; [reflexivity |].
  split; [vm_compute; reflexivity |].
  reflexivity.
Qed.

(** ** The counters and the fuel

    The loops that carry a counter give the same result with any larger
    counter, and a computation that returns with some fuel returns the same
    with more. *)

Lemma hasData_lt (sc : TextScanner) : hasData sc = true <-> _index sc < textLen sc.
Proof. unfold hasData. apply Z.ltb_lt. Qed.

Lemma remaining_consume (sc : TextScanner) :
  wf_scanner sc -> hasData sc = true ->
  (remaining (consume 1 sc) < remaining sc)%nat.
Proof.
  intros W D. apply hasData_lt in D.
  unfold remaining, consume, wf_scanner in *. simpl. lia.
Qed.

Lemma remaining_consume_le (n : Z) (sc : TextScanner) :
  wf_scanner sc -> 0 <= n -> (remaining (consume n sc) <= remaining sc)%nat.
Proof.
  intros W Hn. unfold remaining, consume, wf_scanner in *. simpl. lia.
Qed.

Lemma getNextChar_progress (sc : TextScanner) :
  wf_scanner sc -> hasData sc = true ->
  wf_scanner (snd (getNextChar sc))
  /\ (remaining (snd (getNextChar sc)) < remaining sc)%nat.
Proof.
  intros W D. unfold getNextChar.
  pose proof (remaining_consume sc W D) as R1.
  pose proof (wf_consume 1 sc W) as W1.
  destruct (eqc _ (ch "\")); simpl.
  - split; [apply wf_consume; exact W1 |].
    pose proof (remaining_consume_le 1 (consume 1 sc) W1 ltac:(lia)). lia.
  - split; [exact W1 | exact R1].
Qed.

Lemma hasData_remaining (sc : TextScanner) :
  hasData sc = false -> remaining sc = O.
Proof.
  unfold hasData, remaining. intros H. apply Z.ltb_ge in H. lia.
Qed.

Lemma parseNumerator_loop_counter :
  forall (n m : nat) (sc : TextScanner) (word : jsstring),
    wf_scanner sc -> (remaining sc <= n)%nat -> (remaining sc <= m)%nat ->
    parseNumerator_loop n sc word = parseNumerator_loop m sc word.
Proof.
  induction n as [| n IH]; intros m sc word W Hn Hm.
  - destruct m as [| m]; simpl; [reflexivity |].
    destruct (hasData sc) eqn:D; [| reflexivity].
    apply hasData_lt in D. unfold remaining in Hn. lia.
  - destruct (hasData sc) eqn:D.
    + destruct m as [| m];
        [apply hasData_lt in D; unfold remaining in Hm; lia |].
      simpl. rewrite D.
      destruct (getNextChar_progress sc W D) as [W' R'].
      destruct (getNextChar sc) as [[c escape] sc']. simpl in W', R'.
      destruct (negb escape && isDivider c); [reflexivity |].
      apply IH; [exact W' | lia | lia].
    + destruct m as [| m]; simpl; rewrite ?D; reflexivity.
Qed.

Lemma parseDenominator_loop_counter :
  forall (n m : nat) (sc : TextScanner) (word : jsstring) (skipping : bool),
    wf_scanner sc -> (remaining sc <= n)%nat -> (remaining sc <= m)%nat ->
    parseDenominator_loop n sc word skipping = parseDenominator_loop m sc word skipping.
Proof.
  induction n as [| n IH]; intros m sc word skipping W Hn Hm.
  - destruct m as [| m]; simpl; [reflexivity |].
    destruct (hasData sc) eqn:D; [| reflexivity].
    apply hasData_lt in D. unfold remaining in Hn. lia.
  - destruct (hasData sc) eqn:D.
    + destruct m as [| m];
        [apply hasData_lt in D; unfold remaining in Hm; lia |].
      simpl. rewrite D.
      destruct (getNextChar_progress sc W D) as [W' R'].
      destruct (getNextChar sc) as [[c escape] sc']. simpl in W', R'.
      destruct (skipping && eqc c (ch " ")); [apply IH; [exact W' | lia | lia] |].
      destruct (negb escape && eqc c (ch ";")); [reflexivity |].
      apply IH; [exact W' | lia | lia].
    + destruct m as [| m]; simpl; rewrite ?D; reflexivity.
Qed.

Lemma skipCommas_loop_counter :
  forall (n m : nat) (sc : TextScanner),
    wf_scanner sc -> (remaining sc <= n)%nat -> (remaining sc <= m)%nat ->
    skipCommas_loop n sc = skipCommas_loop m sc.
Proof.
  assert (E : forall sc, wf_scanner sc -> eqc (peek 0 sc) (ch ",") = true ->
                         hasData sc = true).
  { intros sc W H. apply eqc_true in H. apply peek_charAt in H as [_ B].
    apply hasData_lt. lia. }
  induction n as [| n IH]; intros m sc W Hn Hm.
  - destruct m as [| m]; simpl; [reflexivity |].
    destruct (eqc (peek 0 sc) (ch ",")) eqn:C; [| reflexivity].
    apply E in C; [| exact W]. apply hasData_lt in C. unfold remaining in Hn. lia.
  - simpl. destruct (eqc (peek 0 sc) (ch ",")) eqn:C.
    + pose proof (E sc W C) as D.
      destruct m as [| m];
        [apply hasData_lt in D; unfold remaining in Hm; lia |].
      simpl. rewrite C.
      pose proof (remaining_consume sc W D).
      apply IH; [apply wf_consume; exact W | lia | lia].
    + destruct m as [| m]; simpl; rewrite ?C; reflexivity.
Qed.

Lemma tabStops_loop_mono :
  forall (n m : nat) (sc : TextScanner) (tabStops : list TabStop) r,
    (n <= m)%nat ->
    tabStops_loop n sc tabStops = Some r -> tabStops_loop m sc tabStops = Some r.
Proof.
  induction n as [| n IH]; intros m sc tabStops r L H; [discriminate H |].
  destruct m as [| m]; [lia |]. simpl in *.
  destruct (hasData sc); [| exact H].
  destruct (eqc (peek 0 sc) (ch "r") || eqc (peek 0 sc) (ch "c")).
  - destruct (parseFloatValue (consume 1 sc)) as [v sc'].
    destruct (push tabStops _); [apply (IH m); [lia | exact H] | exact H].
  - destruct (parseFloatValue sc) as [v sc'].
    destruct (negb (isNaN v)); [| apply (IH m); [lia | exact H]].
    destruct (push tabStops _); [apply (IH m); [lia | exact H] | exact H].
Qed.

Lemma paragraph_loop_mono :
  forall (n m : nat) (sc : TextScanner) (l : ParagraphLocals) r,
    (n <= m)%nat ->
    paragraph_loop n sc l = Some r -> paragraph_loop m sc l = Some r.
Proof.
  induction n as [| n IH]; intros m sc l r L H; [discriminate H |].
  destruct m as [| m]; [lia |]. simpl in *.
  destruct (hasData sc); [| exact H].
  destruct (get sc) as [cmd sc1].
  destruct (eqc cmd (ch "i"));
    [destruct (parseFloatValue sc1); apply (IH m); [lia | exact H] |].
  destruct (eqc cmd (ch "l"));
    [destruct (parseFloatValue sc1); apply (IH m); [lia | exact H] |].
  destruct (eqc cmd (ch "r"));
    [destruct (parseFloatValue sc1); apply (IH m); [lia | exact H] |].
  destruct (eqc cmd (ch "x")); [apply (IH m); [lia | exact H] |].
  destruct (eqc cmd (ch "q"));
    [destruct (get sc1); apply (IH m); [lia | exact H] |].
  destruct (eqc cmd (ch "t")); [| apply (IH m); [lia | exact H]].
  destruct (tabStops_loop n sc1 []) as [[[sc2 stops] |] |] eqn:T; [| | discriminate H];
    rewrite (tabStops_loop_mono n m sc1 [] _ ltac:(lia) T);
    [apply (IH m); [lia | exact H] | exact H].
Qed.

Lemma parseProperties_mono (n m : nat) (cmd : jschar) (p : MTextParser) r :
  (n <= m)%nat ->
  parseProperties n cmd p = Some r -> parseProperties m cmd p = Some r.
Proof.
  intros L. unfold parseProperties.
  assert (D : forall x, dispatchProperty n cmd p (copy (ctx p)) = Some x ->
                        dispatchProperty m cmd p (copy (ctx p)) = Some x).
  { intros x. unfold dispatchProperty.
    repeat match goal with
           | |- context [if (?a =? ?b) || (?c =? ?d) then _ else _] =>
               destruct ((a =? b) || (c =? d)); [exact (fun H => H) |]
           | |- context [if ?a =? ch "p" then _ else _] => destruct (a =? ch "p")
           | |- context [if ?a =? ?b then _ else _] =>
               destruct (a =? b); [exact (fun H => H) |]
           end; try exact (fun H => H).
    unfold parseParagraphProperties.
    destruct (extractExpression false (scanner p)) as [expr sc].
    destruct (paragraph_loop n _ _) as [l |] eqn:P; [| discriminate].
    rewrite (paragraph_loop_mono n m _ _ _ L P). exact (fun H => H). }
  destruct (dispatchProperty n cmd p (copy (ctx p))) as [x |]; [| discriminate].
  rewrite (D x eq_refl). exact (fun H => H).
Qed.

Lemma loop_body_mono (gbk big5 : Z -> Z -> option jsstring) (n m : nat)
    (p : MTextParser) (word : jsstring) (st : step) :
  (n <= m)%nat ->
  loop_body gbk big5 n p word = Some st -> loop_body gbk big5 m p word = Some st.
Proof.
  intros L. unfold loop_body.
  destruct (code_lt _ 32); [exact (fun H => H) |].
  destruct (eqc _ (ch "\")); [| exact (fun H => H)].
  destruct (includes1 _ _); [exact (fun H => H) |].
  destruct word; [| exact (fun H => H)].
  destruct (get (consume 1 (scanner p))) as [cmd sc].
  unfold commandSwitch.
  repeat match goal with
         | |- context [if eqc cmd ?k || eqc cmd ?l then _ else _] =>
             destruct (eqc cmd k || eqc cmd l); [exact (fun H => H) |]
         | |- context [if eqc cmd ?k then _ else _] =>
             destruct (eqc cmd k); [exact (fun H => H) |]
         end.
  destruct cmd as [c |]; [| exact (fun H => H)].
  destruct (parseProperties n c _) as [r |] eqn:P; [| discriminate].
  rewrite (parseProperties_mono n m c _ r L P). exact (fun H => H).
Qed.

Lemma nextToken_loop_mono (gbk big5 : Z -> Z -> option jsstring) :
  forall (n m : nat) (p : MTextParser) (word : jsstring) r,
    (n <= m)%nat ->
    nextToken_loop gbk big5 n p word = Some r ->
    nextToken_loop gbk big5 m p word = Some r.
Proof.
  induction n as [| n IH]; intros m p word r L H; [discriminate H |].
  destruct m as [| m]; [lia |]. simpl in *.
  destruct (hasData (scanner p)); [| exact H].
  destruct (loop_body gbk big5 n p word) as [st |] eqn:B; [| discriminate H].
  rewrite (loop_body_mono gbk big5 n m p word st ltac:(lia) B).
  destruct st; [apply (IH m); [lia | exact H] | exact H].
Qed.

Lemma parse_loop_mono (gbk big5 : Z -> Z -> option jsstring) :
  forall (n m : nat) (p : MTextParser) r,
    (n <= m)%nat ->
    parse_loop gbk big5 n p = Some r -> parse_loop gbk big5 m p = Some r.
Proof.
  induction n as [| n IH]; intros m p r L H; [discriminate H |].
  destruct m as [| m]; [lia |]. simpl in *. unfold nextToken in *.
  destruct (nextToken_loop gbk big5 n p []) as [[[[t d] f] p'] |] eqn:N;
    [| discriminate H].
  rewrite (nextToken_loop_mono gbk big5 n m p [] _ ltac:(lia) N).
  destruct t; try exact H;
    (destruct (parse_loop gbk big5 n p') as [rest |] eqn:R; [| discriminate H];
     rewrite (IH m p' rest ltac:(lia) R); exact H).
Qed.

(** ** Termination of the generator away from the paragraph command *)

Lemma advances_refl (sc : TextScanner) : wf_scanner sc -> advances sc sc.
Proof. intros H. unfold advances. repeat split; first [reflexivity | apply H]. Qed.

Lemma advances_trans (a b c : TextScanner) :
  advances a b -> advances b c -> advances a c.
Proof.
  unfold advances. intros (T1 & L1 & I1 & W1) (T2 & L2 & I2 & W2).
  repeat split; first [congruence | apply W2 | lia].
Qed.

Lemma advances_wf (a b : TextScanner) : advances a b -> wf_scanner b.
Proof. intros H. apply H. Qed.

Lemma advances_consume (n : Z) (sc : TextScanner) :
  wf_scanner sc -> 0 <= n -> advances sc (consume n sc).
Proof.
  intros W Hn. unfold advances, consume, wf_scanner in *. simpl.
  repeat split; first [reflexivity | lia].
Qed.

Lemma advances_get (sc : TextScanner) : wf_scanner sc -> advances sc (snd (get sc)).
Proof.
  intros W. unfold get, isEmpty.
  destruct (Z.leb_spec (textLen sc) (_index sc)); simpl.
  - apply advances_refl. exact W.
  - unfold advances, wf_scanner in *. simpl. repeat split; first [reflexivity | lia].
Qed.

Lemma advances_terminator (sc : TextScanner) :
  wf_scanner sc -> advances sc (consumeOptionalTerminator sc).
Proof.
  intros W. unfold consumeOptionalTerminator.
  destruct (eqc (peek 0 sc) (ch ";")).
  - apply advances_consume; [exact W | lia].
  - apply advances_refl. exact W.
Qed.

Lemma advances_extractExpression (escape : bool) (sc : TextScanner) :
  wf_scanner sc -> advances sc (snd (extractExpression escape sc)).
Proof.
  intros W. unfold extractExpression.
  destruct (find (ch ";") escape sc <? 0); simpl; apply advances_consume; try exact W; lia.
Qed.

Lemma advances_extractFloat (relative : bool) (sc : TextScanner) :
  wf_scanner sc -> advances sc (snd (extractFloatExpression relative sc)).
Proof.
  intros W. unfold extractFloatExpression.
  destruct (floatPattern relative (tail sc)); simpl.
  - apply advances_consume; [exact W | lia].
  - apply advances_refl. exact W.
Qed.

Lemma advances_extractInt (sc : TextScanner) :
  wf_scanner sc -> advances sc (snd (extractIntExpression sc)).
Proof.
  intros W. unfold extractIntExpression.
  destruct (digitRun (tail sc)); simpl.
  - apply advances_refl. exact W.
  - apply advances_consume; [exact W | lia].
Qed.

(** Extraction followed by the optional terminator. *)
Lemma advances_then_terminator (sc sc' : TextScanner) :
  advances sc sc' -> advances sc (consumeOptionalTerminator sc').
Proof.
  intros H. eapply advances_trans; [exact H |].
  apply advances_terminator. eapply advances_wf. exact H.
Qed.

Lemma parseAlign_advances (p : MTextParser) (c : MTextContext) :
  wf_scanner (scanner p) -> advances (scanner p) (scanner (fst (parseAlign p c))).
Proof.
  intros W. unfold parseAlign.
  pose proof (advances_get _ W) as G.
  destruct (get (scanner p)) as [char sc]. simpl in *.
  apply advances_then_terminator. exact G.
Qed.

Lemma parseHeight_advances (p : MTextParser) (c : MTextContext) :
  wf_scanner (scanner p) -> advances (scanner p) (scanner (fst (parseHeight p c))).
Proof.
  intros W. unfold parseHeight.
  pose proof (advances_extractFloat true _ W) as G.
  destruct (extractFloatExpression true (scanner p)) as [expr sc]. simpl in *.
  apply advances_then_terminator. exact G.
Qed.

Lemma parseWidth_advances (p : MTextParser) (c : MTextContext) :
  wf_scanner (scanner p) -> advances (scanner p) (scanner (fst (parseWidth p c))).
Proof.
  intros W. unfold parseWidth.
  pose proof (advances_extractFloat true _ W) as G.
  destruct (extractFloatExpression true (scanner p)) as [expr sc]. simpl in *.
  apply advances_then_terminator. exact G.
Qed.

Lemma parseCharTracking_advances (p : MTextParser) (c : MTextContext) :
  wf_scanner (scanner p) ->
  advances (scanner p) (scanner (fst (parseCharTracking p c))).
Proof.
  intros W. unfold parseCharTracking.
  pose proof (advances_extractFloat true _ W) as G.
  destruct (extractFloatExpression true (scanner p)) as [expr sc]. simpl in *.
  apply advances_then_terminator. exact G.
Qed.

Lemma parseOblique_advances (p : MTextParser) (c : MTextContext) :
  wf_scanner (scanner p) -> advances (scanner p) (scanner (fst (parseOblique p c))).
Proof.
  intros W. unfold parseOblique.
  pose proof (advances_extractFloat false _ W) as G.
  destruct (extractFloatExpression false (scanner p)) as [expr sc]. simpl in *.
  apply advances_then_terminator. exact G.
Qed.

Lemma parseAciColor_advances (p : MTextParser) (c : MTextContext) :
  wf_scanner (scanner p) -> advances (scanner p) (scanner (fst (parseAciColor p c))).
Proof.
  intros W. unfold parseAciColor.
  pose proof (advances_extractInt _ W) as G.
  destruct (extractIntExpression (scanner p)) as [expr sc]. simpl in G.
  destruct expr as [| d ds]; simpl.
  - apply advances_then_terminator. exact G.
  - destruct (num_lt _ _); [| simpl; apply advances_then_terminator; exact G].
    destruct (set_aci c _) as [c' [|]]; simpl;
      [apply advances_then_terminator |]; exact G.
Qed.

Lemma parseRgbColor_advances (p : MTextParser) (c : MTextContext) :
  wf_scanner (scanner p) -> advances (scanner p) (scanner (fst (parseRgbColor p c))).
Proof.
  intros W. unfold parseRgbColor.
  pose proof (advances_extractInt _ W) as G.
  destruct (extractIntExpression (scanner p)) as [expr sc]. simpl in G.
  destruct expr as [| d ds]; simpl.
  - apply advances_then_terminator. exact G.
  - unfold int2rgb. simpl. apply advances_then_terminator. exact G.
Qed.

Lemma parseFontProperties_advances (p : MTextParser) (c : MTextContext) :
  wf_scanner (scanner p) ->
  advances (scanner p) (scanner (fst (parseFontProperties p c))).
Proof.
  intros W. unfold parseFontProperties.
  pose proof (advances_extractExpression false _ W) as G.
  destruct (extractExpression false (scanner p)) as [expr sc]. simpl in *. exact G.
Qed.

Lemma parseStacking_advances (p : MTextParser) :
  wf_scanner (scanner p) -> advances (scanner p) (scanner (snd (parseStacking p))).
Proof.
  intros W. unfold parseStacking.
  pose proof (advances_extractExpression true _ W) as G.
  destruct (extractExpression true (scanner p)) as [expr sc]. simpl in *. exact G.
Qed.

(** Every property command other than the paragraph command returns or
    throws, whatever the fuel, with the scanner at or after where it was. *)
Lemma dispatchProperty_returns (fuel : nat) (cmd : jschar) (p : MTextParser)
    (c : MTextContext) :
  wf_scanner (scanner p) -> cmd <> ch "p" ->
  exists p' r, dispatchProperty fuel cmd p c = Some (p', r)
               /\ advances (scanner p) (scanner p').
Proof.
  intros W Hp. unfold dispatchProperty.
  pose proof (advances_refl _ W) as R.
  repeat match goal with
         | |- context [if negb (hasAnyStroke ?x) then _ else _] =>
             destruct (negb (hasAnyStroke x))
         end.
  all: repeat match goal with
         | |- context [?x =? ch "p"] =>
             destruct (Z.eqb_spec x (ch "p")); [contradiction |]
         | |- context [(?x =? ?k) || (?y =? ?l)] => destruct ((x =? k) || (y =? l))
         | |- context [?x =? ?k] => destruct (x =? k)
         end.
  all: try (do 2 eexists; split; [reflexivity | exact R]).
  all: match goal with
       | |- context [parseAlign ?q ?d] =>
           pose proof (parseAlign_advances q d W) as G; destruct (parseAlign q d)
       | |- context [parseAciColor ?q ?d] =>
           pose proof (parseAciColor_advances q d W) as G; destruct (parseAciColor q d)
       | |- context [parseRgbColor ?q ?d] =>
           pose proof (parseRgbColor_advances q d W) as G; destruct (parseRgbColor q d)
       | |- context [parseHeight ?q ?d] =>
           pose proof (parseHeight_advances q d W) as G; destruct (parseHeight q d)
       | |- context [parseWidth ?q ?d] =>
           pose proof (parseWidth_advances q d W) as G; destruct (parseWidth q d)
       | |- context [parseOblique ?q ?d] =>
           pose proof (parseOblique_advances q d W) as G; destruct (parseOblique q d)
       | |- context [parseCharTracking ?q ?d] =>
           pose proof (parseCharTracking_advances q d W) as G;
           destruct (parseCharTracking q d)
       | |- context [parseFontProperties ?q ?d] =>
           pose proof (parseFontProperties_advances q d W) as G;
           destruct (parseFontProperties q d)
       end; do 2 eexists; split; [reflexivity | exact G].
Qed.

Lemma parseProperties_returns (fuel : nat) (cmd : jschar) (p : MTextParser) :
  wf_scanner (scanner p) -> cmd <> ch "p" ->
  exists p' r, parseProperties fuel cmd p = Some (p', r)
               /\ advances (scanner p) (scanner p').
Proof.
  intros W Hp. unfold parseProperties.
  destruct (dispatchProperty_returns fuel cmd p (copy (ctx p)) W Hp)
    as (p' & r & E & A).
  rewrite E. destruct r as [c' |].
  - simpl. destruct (yieldPropertyCommands p').
    + destruct (hasKeys _); do 2 eexists; (split; [reflexivity | exact A]).
    + do 2 eexists. split; [reflexivity | exact A].
  - do 2 eexists. split; [reflexivity | exact A].
Qed.

Lemma scanner_popCtx (p : MTextParser) : scanner (popCtx p) = scanner p.
Proof. unfold popCtx. destruct (last (ctxStack p)); reflexivity. Qed.

(** A forward [consume] from a position with data moves the cursor. *)
Lemma consume_strict (n : Z) (sc : TextScanner) :
  wf_scanner sc -> hasData sc = true -> 1 <= n -> _index sc < _index (consume n sc).
Proof.
  intros W H Hn. apply hasData_lt in H. unfold consume, wf_scanner in *. simpl. lia.
Qed.

Lemma multiByte_advances (gbk big5 : Z -> Z -> option jsstring) (p : MTextParser)
    (word : jsstring) :
  wf_scanner (scanner p) ->
  advances (scanner p) (scanner (step_parser (multiByte gbk big5 p word))).
Proof.
  intros W. unfold multiByte.
  destruct (eqc (peek 0 (scanner p)) (ch "+")) eqn:E.
  - apply eqc_true in E. apply peek_charAt in E as [_ B].
    destruct (_ && _).
    + destruct word; simpl;
        (apply advances_trans with (consume 1 (scanner p));
         [apply advances_consume; [exact W | lia]
         | apply advances_consume; [apply wf_consume; exact W | lia]]).
    + simpl. unfold advances, consume, wf_scanner in *. simpl.
      repeat split; first [reflexivity | lia].
  - simpl. apply advances_refl. exact W.
Qed.

Lemma commandSwitch_returns (gbk big5 : Z -> Z -> option jsstring) (fuel : nat)
    (p : MTextParser) (word : jsstring) (start : Z) (cmd : option jschar) :
  wf_scanner (scanner p) -> cmd <> Some (ch "p") ->
  exists st, commandSwitch gbk big5 fuel p word start cmd = Some st
             /\ advances (scanner p) (scanner (step_parser st)).
Proof.
  intros W Hp. unfold commandSwitch.
  pose proof (advances_refl _ W) as R.
  destruct (eqc cmd (ch "~")); [eexists; split; [reflexivity | exact R] |].
  destruct (eqc cmd (ch "P")); [eexists; split; [reflexivity | exact R] |].
  destruct (eqc cmd (ch "N")); [eexists; split; [reflexivity | exact R] |].
  destruct (eqc cmd (ch "X")); [eexists; split; [reflexivity | exact R] |].
  destruct (eqc cmd (ch "S")).
  { pose proof (parseStacking_advances (with_inStackContext p true) W) as G.
    destruct (parseStacking (with_inStackContext p true)) as [r p'].
    eexists. split; [reflexivity | exact G]. }
  destruct (eqc cmd (ch "m") || eqc cmd (ch "M")).
  { eexists. split; [reflexivity | apply multiByte_advances; exact W]. }
  destruct cmd as [c |]; [| eexists; split; [reflexivity | exact R]].
  assert (Hc : c <> ch "p") by congruence.
  destruct (parseProperties_returns fuel c p W Hc) as (p' & r & E & A).
  rewrite E. destruct r as [[pc |] |].
  - destruct (yieldPropertyCommands p'); eexists; (split; [reflexivity | exact A]).
  - eexists. split; [reflexivity | exact A].
  - eexists. split; [reflexivity | exact A].
Qed.

(** The lower part of the loop body moves the cursor, unless it returns the
    pending word in front of a brace. *)
Lemma plainChar_progress (p : MTextParser) (word : jsstring) (letter : option jschar)
    (escape : bool) :
  wf_scanner (scanner p) ->
  advances (scanner p) (scanner (step_parser (plainChar p word letter escape)))
  /\ (hasData (scanner p) = true ->
      match plainChar p word letter escape with
      | Continue p' _ => _index (scanner p) < _index (scanner p')
      | Return _ _ _ p' => word = [] -> _index (scanner p) < _index (scanner p')
      end).
Proof.
  intros W.
  assert (A : forall n, 1 <= n -> advances (scanner p) (consume n (scanner p)))
    by (intros; apply advances_consume; [exact W | lia]).
  assert (S : forall n, hasData (scanner p) = true -> 1 <= n ->
                        _index (scanner p) < _index (consume n (scanner p)))
    by (intros; apply consume_strict; assumption).
  pose proof (advances_refl _ W) as R.
  unfold plainChar.
  destruct (eqc letter (ch "%") && eqc (peek 1 (scanner p)) (ch "%")).
  { destruct (SPECIAL_CHAR_ENCODING _); simpl; (split; [apply A | intros; apply S]);
      first [assumption | lia]. }
  destruct (eqc letter (ch " ")).
  { destruct word; simpl; (split; [apply A | intros; apply S]); first [assumption | lia]. }
  destruct (negb escape && eqc letter (ch "{")).
  { destruct word; simpl.
    - split; [apply A | intros; apply S]; first [assumption | lia].
    - split; [exact R | intros _ H; discriminate H]. }
  destruct (negb escape && eqc letter (ch "}")).
  { destruct word; simpl.
    - rewrite scanner_popCtx. simpl.
      split; [apply A | intros; apply S]; first [assumption | lia].
    - split; [exact R | intros _ H; discriminate H]. }
  assert (L : forall w,
             advances (scanner p)
               (scanner (step_parser (Continue (with_scanner p (consume 1 (scanner p))) w)))
             /\ (hasData (scanner p) = true ->
                 _index (scanner p) < _index (scanner (with_scanner p (consume 1 (scanner p)))))).
  { intros w. simpl. split; [apply A | intros; apply S]; first [assumption | lia]. }
  destruct (negb (inStackContext p) && eqc letter (ch "^")); [| apply L].
  destruct (peek 1 (scanner p)) as [nextChar |]; [| apply L].
  destruct (nextChar =? 32);
    [simpl; split; [apply A | intros; apply S]; first [assumption | lia] |].
  destruct (nextChar =? 73);
    [destruct word; simpl; (split; [apply A | intros; apply S]);
     first [assumption | lia] |].
  destruct (nextChar =? 74);
    [destruct word; simpl; (split; [apply A | intros; apply S]);
     first [assumption | lia] |].
  destruct (nextChar =? 77); simpl; (split; [apply A | intros; apply S]);
    first [assumption | lia].
Qed.

Lemma noParagraphCommand_spec (t : jsstring) :
  noParagraphCommand t = true ->
  forall n : nat, t !! n = Some (ch "\") -> t !! S n <> Some (ch "p").
Proof.
  induction t as [| c r IH]; intros H n Hn; [discriminate Hn |].
  simpl in H. apply andb_true_iff in H as [H1 H2].
  destruct n as [| n].
  - simpl in Hn. injection Hn as ->. simpl.
    destruct r as [| d r']; [discriminate |].
    simpl. intros E. injection E as ->. discriminate H1.
  - simpl in Hn. simpl. apply IH; assumption.
Qed.

(** The character [get] returns after the backslash is not p. *)
Lemma command_letter_not_p (sc : TextScanner) :
  wf_scanner sc -> noParagraphCommand (text sc) = true ->
  peek 0 sc = Some (ch "\") ->
  fst (get (consume 1 sc)) <> Some (ch "p").
Proof.
  intros W N P0. apply peek_charAt in P0 as [C0 B0]. rewrite Z.add_0_r in *.
  unfold get, isEmpty, consume. simpl.
  replace (Z.max 0 (Z.min (_index sc + 1) (textLen sc))) with (_index sc + 1)
    by (unfold wf_scanner in W; lia).
  destruct (Z.leb_spec (textLen sc) (_index sc + 1)); simpl; [discriminate |].
  unfold charAt in *.
  destruct (Z.ltb_spec (_index sc) 0); [lia |].
  destruct (Z.ltb_spec (_index sc + 1) 0); [lia |].
  replace (Z.to_nat (_index sc + 1)) with (S (Z.to_nat (_index sc))) by lia.
  apply noParagraphCommand_spec; assumption.
Qed.

(** One iteration of the token loop, away from the paragraph command,
    completes and moves the cursor, unless it returns the pending word. *)
Lemma loop_body_progress (gbk big5 : Z -> Z -> option jsstring) (fuel : nat)
    (p : MTextParser) (word : jsstring) :
  wf_scanner (scanner p) -> hasData (scanner p) = true ->
  noParagraphCommand (text (scanner p)) = true ->
  exists st, loop_body gbk big5 fuel p word = Some st
             /\ advances (scanner p) (scanner (step_parser st))
             /\ match st with
                | Continue p' _ => _index (scanner p) < _index (scanner p')
                | Return _ _ _ p' => word = [] -> _index (scanner p) < _index (scanner p')
                end.
Proof.
  intros W D N.
  pose proof (advances_consume 1 _ W ltac:(lia)) as A1.
  pose proof (consume_strict 1 _ W D ltac:(lia)) as S1.
  assert (Shift : forall w letter escape,
             exists st,
               Some (plainChar (with_scanner p (consume 1 (scanner p))) w letter escape)
               = Some st
               /\ advances (scanner p) (scanner (step_parser st))
               /\ match st with
                  | Continue p' _ => _index (scanner p) < _index (scanner p')
                  | Return _ _ _ p' => w = [] -> _index (scanner p) < _index (scanner p')
                  end).
  { intros w letter escape.
    destruct (plainChar_progress (with_scanner p (consume 1 (scanner p))) w letter escape
                (advances_wf _ _ A1)) as [A _].
    simpl in A.
    eexists. split; [reflexivity |].
    split; [eapply advances_trans; [exact A1 | exact A] |].
    destruct A as (_ & _ & I & _).
    destruct (plainChar _ w letter escape); simpl in *; intros; lia. }
  unfold loop_body.
  destruct (code_lt (peek 0 (scanner p)) 32).
  { destruct (eqc (peek 0 (scanner p)) 9);
      [eexists; split; [reflexivity |]; simpl; split; [exact A1 | intros _; exact S1] |].
    destruct (eqc (peek 0 (scanner p)) 10);
      [eexists; split; [reflexivity |]; simpl; split; [exact A1 | intros _; exact S1] |].
    apply Shift. }
  destruct (eqc (peek 0 (scanner p)) (ch "\")) eqn:B.
  - destruct (includes1 (js "\{}") (peek 1 (scanner p))); [apply Shift |].
    destruct word as [| w ws].
    + apply eqc_true in B.
      pose proof (command_letter_not_p _ W N B) as Hc.
      pose proof (advances_get _ (advances_wf _ _ A1)) as G.
      destruct (get (consume 1 (scanner p))) as [cmd sc2]. simpl in Hc, G.
      destruct (commandSwitch_returns gbk big5 fuel (with_scanner p sc2) []
                  (currentIndex (scanner p)) cmd (advances_wf _ _ G) Hc)
        as (st & E & A).
      simpl in A. exists st. split; [exact E |].
      split; [eapply advances_trans; [exact A1 |];
              eapply advances_trans; [exact G | exact A] |].
      destruct G as (_ & _ & I1 & _). destruct A as (_ & _ & I2 & _).
      destruct st; simpl in *; intros; lia.
    + eexists. split; [reflexivity |]. simpl.
      split; [apply advances_refl; exact W | intros H; discriminate H].
  - destruct (plainChar_progress p word (peek 0 (scanner p)) false W) as [A S].
    eexists. split; [reflexivity |]. split; [exact A | apply S; exact D].
Qed.

(** With more fuel than characters left, [nextToken] returns; when it
    returns a token after starting with an empty word buffer, the cursor has
    moved. *)
Lemma nextToken_loop_returns (gbk big5 : Z -> Z -> option jsstring) :
  forall (fuel : nat) (p : MTextParser) (word : jsstring),
    wf_scanner (scanner p) ->
    noParagraphCommand (text (scanner p)) = true ->
    (remaining (scanner p) < fuel)%nat ->
    exists t d f p',
      nextToken_loop gbk big5 fuel p word = Some (t, d, f, p')
      /\ advances (scanner p) (scanner p')
      /\ (word = [] -> t <> NONE -> _index (scanner p) < _index (scanner p')).
Proof.
  induction fuel as [| fuel IH]; intros p word W N F; [lia |].
  simpl. destruct (hasData (scanner p)) eqn:D.
  - destruct (loop_body_progress gbk big5 fuel p word W D N) as (st & E & A & S).
    rewrite E. destruct st as [p1 w1 | t d f p1]; simpl in A.
    + assert (F1 : (remaining (scanner p1) < fuel)%nat).
      { apply hasData_lt in D. unfold remaining in *.
        destruct A as (_ & L & _ & _). lia. }
      assert (N1 : noParagraphCommand (text (scanner p1)) = true).
      { destruct A as (T & _). rewrite T. exact N. }
      destruct (IH p1 w1 (advances_wf _ _ A) N1 F1) as (t & d & f & p' & E1 & A1 & _).
      exists t, d, f, p'. split; [exact E1 |].
      split; [eapply advances_trans; [exact A | exact A1] |].
      intros _ _. destruct A1 as (_ & _ & I & _). lia.
    + exists t, d, f, p1. split; [reflexivity |]. split; [exact A |].
      intros Hw _. apply S. exact Hw.
  - destruct word as [| w ws].
    + exists NONE, DNull, None, p. split; [reflexivity |].
      split; [apply advances_refl; exact W | intros _ H; contradiction].
    + exists WORD, (DWord (w :: ws)), None, p. split; [reflexivity |].
      split; [apply advances_refl; exact W | intros H; discriminate H].
Qed.

Lemma parse_loop_returns (gbk big5 : Z -> Z -> option jsstring) :
  forall (fuel : nat) (p : MTextParser),
    wf_scanner (scanner p) ->
    noParagraphCommand (text (scanner p)) = true ->
    (remaining (scanner p) + 1 < fuel)%nat ->
    exists tokens, parse_loop gbk big5 fuel p = Some tokens.
Proof.
  induction fuel as [| fuel IH]; intros p W N F; [lia |].
  simpl. unfold nextToken.
  destruct (nextToken_loop_returns gbk big5 fuel p [] W N ltac:(lia))
    as (t & d & f & p' & E & A & S).
  rewrite E.
  assert (Next : t <> NONE -> exists rest, parse_loop gbk big5 fuel p' = Some rest).
  { intros Ht. apply IH.
    - eapply advances_wf. exact A.
    - destruct A as (T & _). rewrite T. exact N.
    - pose proof (S eq_refl Ht) as I. destruct A as (_ & L & _ & [_ B]).
      unfold remaining in *. lia. }
  destruct t; try (destruct (Next ltac:(discriminate)) as [rest ->]; eexists; reflexivity).
  eexists. reflexivity.
Qed.

(** X1.  Every input in which no backslash is directly followed by the
    letter p is tokenised completely: with fuel for two more steps than it
    has characters, and with any more, [parse] returns one and the same list
    of tokens. *)
Theorem parse_terminates_without_paragraph
    (gbk big5 : Z -> Z -> option jsstring) (content : jsstring) (c : MTextContext)
    (yieldCommands : bool) :
  noParagraphCommand content = true ->
  exists tokens, forall k : nat,
    parse gbk big5 (length content + 2 + k) content c yieldCommands = Some tokens.
Proof.
  intros N. unfold parse.
  destruct (parse_loop_returns gbk big5 (length content + 2)
              (newMTextParser content c yieldCommands)) as [tokens E].
  - apply wf_newTextScanner.
  - exact N.
  - unfold remaining, newMTextParser, newTextScanner. simpl. lia.
  - exists tokens. intros k.
    apply (parse_loop_mono gbk big5 (length content + 2)); [lia | exact E].
Qed.

Lemma parse_terminates_without_paragraph_witness :
  noParagraphCommand (js "{\H2;A}\z %%c\S1/2;") = true
  /\ exists tokens, forall k : nat,
       parse noDecoder noDecoder (length (js "{\H2;A}\z %%c\S1/2;") + 2 + k)
         (js "{\H2;A}\z %%c\S1/2;") newMTextContext false = Some tokens.
Proof.
  assert (N : noParagraphCommand (js "{\H2;A}\z %%c\S1/2;") = true) by reflexivity.
  split; [exact N |].
  exact (parse_terminates_without_paragraph noDecoder noDecoder _ newMTextContext false N).
Defined.

(** ** The scanner seen as the unread rest of its text *)

Lemma tail_drop (sc : TextScanner) :
  wf_scanner sc -> tail sc = drop (Z.to_nat (_index sc)) (text sc).
Proof.
  intros [L I]. unfold tail, slice.
  destruct (Z.ltb_spec (_index sc) 0); [lia |].
  destruct (Z.ltb_spec (Z.of_nat (length (text sc))) 0); [lia |].
  rewrite Z.min_id, Z.min_l by lia.
  apply take_ge. rewrite length_drop. lia.
Qed.

Lemma tail_cons (sc : TextScanner) (c : jschar) (rest : jsstring) :
  wf_scanner sc -> tail sc = c :: rest ->
  hasData sc = true /\ peek 0 sc = Some c /\ tail (consume 1 sc) = rest
  /\ peek 1 sc = head rest /\ _index (consume 1 sc) = _index sc + 1.
Proof.
  intros W E. pose proof W as [L I].
  rewrite tail_drop in E by exact W.
  assert (Hlt : _index sc < textLen sc).
  { destruct (Z.ltb_spec (_index sc) (textLen sc)) as [| Hge]; [assumption |].
    rewrite drop_ge in E by lia. discriminate E. }
  assert (H0 : text sc !! Z.to_nat (_index sc) = Some c).
  { pose proof (lookup_drop (text sc) (Z.to_nat (_index sc)) 0) as D.
    rewrite E, Nat.add_0_r in D. symmetry. exact D. }
  assert (Hr : drop (S (Z.to_nat (_index sc))) (text sc) = rest).
  { change (S (Z.to_nat (_index sc))) with (1 + Z.to_nat (_index sc))%nat.
    rewrite Nat.add_comm, <- drop_drop, E. reflexivity. }
  assert (Ec : _index (consume 1 sc) = _index sc + 1)
    by (unfold consume; simpl; lia).
  split; [apply Z.ltb_lt; exact Hlt |]. split; [| split; [| split; [| exact Ec]]].
  - unfold peek, charAt. rewrite Z.add_0_r.
    destruct (Z.leb_spec (textLen sc) (_index sc)); [lia |].
    destruct (Z.ltb_spec (_index sc) 0); [lia |]. exact H0.
  - rewrite tail_drop by (apply wf_consume; exact W). rewrite Ec.
    replace (Z.to_nat (_index sc + 1)) with (S (Z.to_nat (_index sc))) by lia.
    exact Hr.
  - unfold peek, charAt.
    destruct (Z.leb_spec (textLen sc) (_index sc + 1)); simpl.
    + rewrite <- Hr, drop_ge by lia. reflexivity.
    + destruct (Z.ltb_spec (_index sc + 1) 0); [lia |].
      replace (Z.to_nat (_index sc + 1)) with (S (Z.to_nat (_index sc))) by lia.
      rewrite <- Hr, head_lookup, lookup_drop, Nat.add_0_r. reflexivity.
Qed.

Lemma tail_nil (sc : TextScanner) :
  wf_scanner sc -> tail sc = [] -> hasData sc = false /\ peek 0 sc = None.
Proof.
  intros W E. pose proof W as [L I].
  rewrite tail_drop in E by exact W.
  assert (length (drop (Z.to_nat (_index sc)) (text sc)) = O) by (rewrite E; reflexivity).
  rewrite length_drop in *.
  assert (Hge : textLen sc <= _index sc) by lia.
  split; [apply Z.ltb_ge; exact Hge |].
  unfold peek. rewrite Z.add_0_r.
  destruct (Z.leb_spec (textLen sc) (_index sc)); [reflexivity | lia].
Qed.

Lemma charAt_tail (sc : TextScanner) (k : Z) :
  wf_scanner sc -> 0 <= k ->
  charAt (text sc) (_index sc + k) = tail sc !! Z.to_nat k.
Proof.
  intros W K. pose proof W as [L I]. rewrite tail_drop by exact W.
  unfold charAt. destruct (Z.ltb_spec (_index sc + k) 0); [lia |].
  symmetry. etransitivity; [apply lookup_drop |]. f_equal. lia.
Qed.

Lemma peek_tail (sc : TextScanner) (k : Z) :
  wf_scanner sc -> 0 <= k -> peek k sc = tail sc !! Z.to_nat k.
Proof.
  intros W K. pose proof W as [L I]. unfold peek.
  destruct (Z.leb_spec (textLen sc) (_index sc + k)); simpl.
  - symmetry. apply lookup_ge_None. rewrite tail_drop by exact W.
    rewrite length_drop. lia.
  - destruct (Z.ltb_spec (_index sc + k) 0); [lia |]. apply charAt_tail; assumption.
Qed.

Lemma tail_consume (sc : TextScanner) (n : Z) :
  wf_scanner sc -> 0 <= n -> tail (consume n sc) = drop (Z.to_nat n) (tail sc).
Proof.
  intros W N. pose proof W as [L I].
  rewrite (tail_drop (consume n sc)) by (apply wf_consume; exact W).
  rewrite tail_drop by exact W. rewrite drop_drop.
  unfold consume, set_index. cbn [_index text].
  destruct (Z.le_gt_cases (_index sc + n) (textLen sc)).
  - f_equal. lia.
  - rewrite !drop_ge by lia. reflexivity.
Qed.

Lemma length_tail (sc : TextScanner) :
  wf_scanner sc -> length (tail sc) = remaining sc.
Proof.
  intros W. pose proof W as [L I]. rewrite tail_drop by exact W.
  rewrite length_drop. unfold remaining. lia.
Qed.

Lemma js_lookup_app_l (a b : jsstring) (k : nat) :
  (k < length a)%nat -> (a ++ b) !! k = a !! k.
Proof. apply lookup_app_l. Qed.

Lemma js_lookup_middle (a b : jsstring) (c : jschar) :
  (a ++ c :: b) !! length a = Some c.
Proof. apply list_lookup_middle. reflexivity. Qed.

Lemma js_lookup_In (l : jsstring) (k : nat) (c : jschar) : l !! k = Some c -> In c l.
Proof. intros H. apply list_elem_of_In. exact (list_elem_of_lookup_2 l k c H). Qed.

Lemma get_peek (sc : TextScanner) : wf_scanner sc -> get sc = (peek 0 sc, consume 1 sc).
Proof.
  intros W. pose proof W as [L I]. unfold get, isEmpty, peek, consume.
  rewrite Z.add_0_r.
  destruct (Z.leb_spec (textLen sc) (_index sc)); cbn [orb].
  - destruct sc as [t len idx]. unfold set_index. cbn [_index textLen text] in *.
    do 2 f_equal. lia.
  - destruct (Z.ltb_spec (_index sc) 0); [lia |].
    replace (Z.max 0 (Z.min (_index sc + 1) (textLen sc))) with (_index sc + 1) by lia.
    reflexivity.
Qed.

(** ** TextScanner: bounds, composition, search *)

Lemma charAt_in_range (t : jsstring) (i : Z) :
  0 <= i < Z.of_nat (length t) -> exists c, charAt t i = Some c.
Proof.
  intros H. unfold charAt. destruct (Z.ltb_spec i 0); [lia |].
  destruct (lookup_lt_is_Some_2 t (Z.to_nat i)) as [c E]; [lia |].
  exists c. exact E.
Qed.

(** X2.  On a scanner in its invariant, [consume] with any count (negative
    or beyond the end) keeps the cursor inside the text; two forward
    consumes add up; a forward consume within the text is undone by the
    same backward one; [get] is [peek] followed by [consume(1)] and at the
    end returns the empty string without moving; and [peek] returns the
    empty string exactly for the offsets that fall outside the text. *)
Theorem scanner_operations (sc : TextScanner) :
  wf_scanner sc ->
  (forall n, wf_scanner (consume n sc))
  /\ (forall a b, 0 <= a -> 0 <= b -> consume b (consume a sc) = consume (a + b) sc)
  /\ (forall n, 0 <= n -> _index sc + n <= textLen sc ->
        consume (- n) (consume n sc) = sc)
  /\ get sc = (peek 0 sc, consume 1 sc)
  /\ (hasData sc = false -> get sc = (None, sc))
  /\ (forall k, peek k sc = None <-> (_index sc + k < 0 \/ textLen sc <= _index sc + k)).
Proof.
  intros W. pose proof W as [L I].
  split; [intros n; apply wf_consume; exact W |].
  split.
  { intros a b Ha Hb. unfold consume, set_index. simpl. f_equal. lia. }
  split.
  { intros n Hn Hle. destruct sc as [t len idx]. unfold consume, set_index. simpl in *.
    f_equal. lia. }
  assert (G : hasData sc = false -> get sc = (None, sc)).
  { intros D. apply Z.ltb_ge in D. unfold get, isEmpty.
    destruct (Z.leb_spec (textLen sc) (_index sc)); [reflexivity | lia]. }
  split; [apply get_peek; exact W | split; [exact G |]].
  intros k. unfold peek.
  destruct (Z.leb_spec (textLen sc) (_index sc + k)); simpl.
  - split; [intros _; right; assumption | reflexivity].
  - destruct (Z.ltb_spec (_index sc + k) 0).
    + split; [intros _; left; assumption | reflexivity].
    + destruct (charAt_in_range (text sc) (_index sc + k)) as [c E]; [lia |].
      rewrite E. split; [discriminate | lia].
Qed.

Lemma scanner_operations_witness :
  wf_scanner (consume 3 (newTextScanner (js "Hello World")))
  /\ consume (-2) (consume 2 (consume 3 (newTextScanner (js "Hello World"))))
     = consume 3 (newTextScanner (js "Hello World")).
Proof.
  assert (W : wf_scanner (consume 3 (newTextScanner (js "Hello World")))).
  { unfold wf_scanner. simpl. lia. }
  split; [exact W |].
  destruct (scanner_operations _ W) as (_ & _ & R & _).
  apply (R 2); simpl; lia.
Defined.

(** The search without the escape flag, by position. *)
Lemma find_loop_first (t : jsstring) (len : Z) (char : jschar) :
  forall (n : nat) (index : Z),
    len - index <= Z.of_nat n ->
    let i := find_loop n t len char false index in
    (i = -1 /\ forall j, index <= j < len -> charAt t j <> Some char)
    \/ (index <= i < len /\ charAt t i = Some char
        /\ forall j, index <= j < i -> charAt t j <> Some char).
Proof.
  induction n as [| n IH]; intros index Hn; simpl.
  - left. split; [reflexivity | intros j Hj; lia].
  - destruct (Z.ltb_spec index len) as [Hlt |];
      [| left; split; [reflexivity | intros j Hj; lia]].
    destruct (eqc (charAt t index) char) eqn:E.
    + right. apply eqc_true in E. split; [lia |]. split; [exact E | intros j Hj; lia].
    + apply eqc_false in E.
      destruct (IH (index + 1) ltac:(lia)) as [[-> N] | (B & C & N)].
      * left. split; [reflexivity |]. intros j Hj.
        destruct (Z.eq_dec j index) as [-> |]; [exact E | apply N; lia].
      * right. split; [lia |]. split; [exact C |]. intros j Hj.
        destruct (Z.eq_dec j index) as [-> |]; [exact E | apply N; lia].
Qed.

(** X3.  Without the escape flag, [find] returns the position of the first
    occurrence of the character at or after the cursor, and -1 exactly when
    the unread text does not contain it. *)
Theorem find_first_occurrence (sc : TextScanner) (char : jschar) :
  wf_scanner sc ->
  (find char false sc = -1
   /\ forall j, _index sc <= j < textLen sc -> charAt (text sc) j <> Some char)
  \/ (_index sc <= find char false sc < textLen sc
      /\ charAt (text sc) (find char false sc) = Some char
      /\ forall j, _index sc <= j < find char false sc ->
                   charAt (text sc) j <> Some char).
Proof.
  intros [L I]. unfold find. apply find_loop_first. lia.
Qed.

Lemma find_first_occurrence_witness :
  wf_scanner (newTextScanner (js "Hello World"))
  /\ forall j, 0 <= j < 11 -> charAt (js "Hello World") j <> Some (ch "X").
Proof.
  assert (W : wf_scanner (newTextScanner (js "Hello World"))).
  { unfold wf_scanner. simpl. lia. }
  split; [exact W |].
  destruct (find_first_occurrence _ (ch "X") W) as [[_ N] | [B _]].
  - exact N.
  - exfalso. change (find (ch "X") false (newTextScanner (js "Hello World"))) with (-1) in B.
    unfold newTextScanner in B. cbn [_index] in B. lia.
Defined.

Lemma isNextSpace_false_head (sc : TextScanner) :
  wf_scanner sc -> isNextSpace sc = false -> head (tail sc) <> Some (ch " ").
Proof.
  intros W H. unfold isNextSpace in H. apply eqc_false in H.
  destruct (tail sc) as [| c rest] eqn:E; [discriminate |].
  destruct (tail_cons sc c rest W E) as (_ & P & _). simpl. congruence.
Qed.

Lemma consumeSpaces_loop_spec :
  forall (n : nat) (sc : TextScanner) (count : Z),
    wf_scanner sc -> (remaining sc <= n)%nat -> 0 <= count ->
    let r := consumeSpaces_loop n sc count in
    wf_scanner (snd r)
    /\ count <= fst r
    /\ tail sc = repeat (ch " ") (Z.to_nat (fst r - count)) ++ tail (snd r)
    /\ head (tail (snd r)) <> Some (ch " ")
    /\ _index (snd r) = _index sc + (fst r - count).
Proof.
  induction n as [| n IH]; intros sc count W R Hc; cbn [consumeSpaces_loop].
  - cbn [fst snd]. rewrite Z.sub_diag. cbn [Z.to_nat repeat app].
    split; [exact W |]. split; [lia |]. split; [reflexivity |]. split; [| lia].
    assert (D : hasData sc = false) by (apply Z.ltb_ge; unfold remaining in R; lia).
    rewrite tail_drop by exact W. destruct W as [L I].
    rewrite drop_ge by (apply Z.ltb_ge in D; lia). discriminate.
  - destruct (isNextSpace sc) eqn:Sp; cbn [fst snd].
    + unfold isNextSpace in Sp. apply eqc_true in Sp.
      destruct (tail sc) as [| c rest] eqn:E.
      { destruct (tail_nil sc W E) as [_ P]. congruence. }
      destruct (tail_cons sc c rest W E) as (D & P & T & _ & Ix).
      assert (c = ch " ") by congruence. subst c.
      assert (R1 : (remaining (consume 1 sc) <= n)%nat).
      { pose proof (remaining_consume sc W D). lia. }
      destruct (IH (consume 1 sc) (count + 1) (wf_consume 1 sc W) R1 ltac:(lia))
        as (W' & C' & T' & H' & I').
      split; [exact W' |]. split; [lia |]. split; [| split; [exact H' | lia]].
      rewrite T in T'.
      replace (Z.to_nat (fst (consumeSpaces_loop n (consume 1 sc) (count + 1)) - count))
        with (S (Z.to_nat (fst (consumeSpaces_loop n (consume 1 sc) (count + 1))
                           - (count + 1)))) by lia.
      cbn [repeat app]. rewrite <- T'. reflexivity.
    + rewrite Z.sub_diag. cbn [Z.to_nat repeat app].
      split; [exact W |]. split; [lia |]. split; [reflexivity |]. split; [| lia].
      apply isNextSpace_false_head; assumption.
Qed.

(** X4.  [consumeSpaces] returns the number of spaces it skipped: the unread
    text was that many spaces followed by what is unread afterwards, the
    cursor has moved by exactly that number, and the next character, if
    any, is not a space. *)
Theorem consumeSpaces_spec (sc : TextScanner) :
  wf_scanner sc ->
  0 <= fst (consumeSpaces sc)
  /\ tail sc = repeat (ch " ") (Z.to_nat (fst (consumeSpaces sc)))
               ++ tail (snd (consumeSpaces sc))
  /\ head (tail (snd (consumeSpaces sc))) <> Some (ch " ")
  /\ _index (snd (consumeSpaces sc)) = _index sc + fst (consumeSpaces sc).
Proof.
  intros W. unfold consumeSpaces.
  destruct (consumeSpaces_loop_spec (remaining sc) sc 0 W ltac:(lia) ltac:(lia))
    as (_ & C & T & H & I).
  rewrite Z.sub_0_r in *. repeat split; assumption.
Qed.

Lemma consumeSpaces_spec_witness :
  wf_scanner (consume 1 (newTextScanner (js "a   b ")))
  /\ _index (snd (consumeSpaces (consume 1 (newTextScanner (js "a   b ")))))
     = 1 + fst (consumeSpaces (consume 1 (newTextScanner (js "a   b ")))).
Proof.
  assert (W : wf_scanner (consume 1 (newTextScanner (js "a   b ")))).
  { unfold wf_scanner. simpl. lia. }
  split; [exact W |].
  apply (consumeSpaces_spec _ W).
Defined.

(** ** Colours and stroke flags: the bit operations *)

Lemma pack_unpack_bits (w : Z) :
  Z.lor (Z.lor (Z.shiftl (Z.land (Z.shiftr w 16) 255) 16)
               (Z.shiftl (Z.land (Z.shiftr w 8) 255) 8))
        (Z.land w 255)
  = Z.land w 16777215.
Proof.
  apply Z.bits_inj'. intros n Hn.
  change 255 with (Z.ones 8). change 16777215 with (Z.ones 24).
  rewrite !Z.lor_spec, !Z.land_spec, (Z.testbit_ones_nonneg 24 n) by lia.
  destruct (Z.ltb_spec n 8).
  - rewrite (Z.shiftl_spec _ 16 n), (Z.shiftl_spec _ 8 n) by lia.
    rewrite !(Z.testbit_neg_r _ (n - _)) by lia.
    rewrite (Z.testbit_ones_nonneg 8 n) by lia.
    destruct (Z.ltb_spec n 8); [| lia]. destruct (Z.ltb_spec n 24); [| lia].
    reflexivity.
  - rewrite (Z.testbit_ones_nonneg 8 n) by lia.
    destruct (Z.ltb_spec n 8); [lia |]. rewrite andb_false_r, orb_false_r.
    rewrite (Z.shiftl_spec _ 8 n), Z.land_spec, Z.shiftr_spec by lia.
    replace (n - 8 + 8) with n by lia.
    rewrite (Z.testbit_ones_nonneg 8 (n - 8)) by lia.
    destruct (Z.ltb_spec n 16).
    + rewrite (Z.shiftl_spec _ 16 n), (Z.testbit_neg_r _ (n - 16)) by lia.
      destruct (Z.ltb_spec (n - 8) 8); [| lia]. destruct (Z.ltb_spec n 24); [| lia].
      reflexivity.
    + destruct (Z.ltb_spec (n - 8) 8); [lia |]. rewrite andb_false_r, orb_false_r.
      rewrite (Z.shiftl_spec _ 16 n), Z.land_spec, Z.shiftr_spec by lia.
      replace (n - 16 + 16) with n by lia.
      rewrite (Z.testbit_ones_nonneg 8 (n - 16)) by lia.
      destruct (Z.ltb_spec (n - 16) 8), (Z.ltb_spec n 24); try lia; reflexivity.
Qed.

Lemma land_255_range (x : Z) : 0 <= Z.land x 255 <= 255.
Proof. rewrite low_byte. pose proof (Z.mod_pos_bound x 256). lia. Qed.

(** [int2rgb] without the 32-bit wraps of the shifted values. *)
Lemma int2rgb_wrap (v : Z) :
  int2rgb v = (Z.land (wrap32 v) 255,
               Z.land (Z.shiftr (wrap32 v) 8) 255,
               Z.land (Z.shiftr (wrap32 v) 16) 255).
Proof.
  unfold int2rgb, js_and, js_shr.
  pose proof (wrap32_range v) as R.
  assert (R8 : - 2 ^ 31 <= Z.shiftr (wrap32 v) 8 < 2 ^ 31).
  { rewrite Z.shiftr_div_pow2 by lia. split.
    - apply Z.div_le_lower_bound; lia.
    - apply Z.div_lt_upper_bound; lia. }
  assert (R16 : - 2 ^ 31 <= Z.shiftr (wrap32 v) 16 < 2 ^ 31).
  { rewrite Z.shiftr_div_pow2 by lia. split.
    - apply Z.div_le_lower_bound; lia.
    - apply Z.div_lt_upper_bound; lia. }
  rewrite (wrap32_id 255) by lia.
  rewrite (wrap32_id (Z.shiftr (wrap32 v) 8)), (wrap32_id (Z.shiftr (wrap32 v) 16)) by lia.
  reflexivity.
Qed.

(** X5.  For every integer, the three components [int2rgb] returns lie
    between 0 and 255, and packing them again with [rgb2int] gives the low
    24 bits of the integer: the integer itself exactly when it is a 24-bit
    colour value, with anything above bit 23 dropped otherwise. *)
Theorem rgb2int_int2rgb (v : Z) :
  (let '(r, g, b) := int2rgb v in
   0 <= r <= 255 /\ 0 <= g <= 255 /\ 0 <= b <= 255)
  /\ rgb2int (int2rgb v) = v mod 2 ^ 24
  /\ (rgb2int (int2rgb v) = v <-> 0 <= v < 2 ^ 24).
Proof.
  pose proof (int2rgb_wrap v) as E.
  assert (P : rgb2int (int2rgb v) = v mod 2 ^ 24).
  { rewrite E.
    destruct (rgb2int_bytes (Z.land (wrap32 v) 255) (Z.land (Z.shiftr (wrap32 v) 8) 255)
                (Z.land (Z.shiftr (wrap32 v) 16) 255)) as [P _];
      try apply land_255_range.
    rewrite P, pack_unpack_bits, wrap32_low24.
    change 16777215 with (Z.ones 24). rewrite Z.land_ones by lia. reflexivity. }
  split; [rewrite E; repeat split; apply land_255_range |].
  split; [exact P |].
  rewrite P. pose proof (Z.mod_pos_bound v (2 ^ 24)).
  split; [intros <-; lia | intros H'; apply Z.mod_small; exact H'].
Qed.

Lemma wrap32_mod (v : Z) : wrap32 v mod 2 ^ 32 = v mod 2 ^ 32.
Proof.
  unfold wrap32. rewrite (Z.mod_eq (v + 2 ^ 31) (2 ^ 32)) by lia.
  replace (v + 2 ^ 31 - 2 ^ 32 * ((v + 2 ^ 31) / 2 ^ 32) - 2 ^ 31)
    with (v + (- ((v + 2 ^ 31) / 2 ^ 32)) * 2 ^ 32) by lia.
  apply Z.mod_add. lia.
Qed.

Lemma wrap32_testbit (v n : Z) : 0 <= n < 32 -> Z.testbit (wrap32 v) n = Z.testbit v n.
Proof.
  intros H.
  rewrite <- (Z.mod_pow2_bits_low (wrap32 v) 32 n), <- (Z.mod_pow2_bits_low v 32 n) by lia.
  rewrite wrap32_mod. reflexivity.
Qed.

Lemma land_pow2 (x k : Z) :
  0 <= k -> Z.land x (2 ^ k) = if Z.testbit x k then 2 ^ k else 0.
Proof.
  intros Hk. apply Z.bits_inj'. intros n Hn.
  rewrite Z.land_spec, Z.pow2_bits_eqb by lia.
  destruct (Z.eqb_spec k n) as [-> | N].
  - destruct (Z.testbit x n); simpl.
    + rewrite Z.pow2_bits_true by lia. reflexivity.
    + rewrite Z.bits_0. reflexivity.
  - rewrite andb_false_r. destruct (Z.testbit x k).
    + rewrite Z.pow2_bits_false by lia. reflexivity.
    + rewrite Z.bits_0. reflexivity.
Qed.

(** Reading the flag at bit [k] of a stroke word. *)
Lemma stroke_flag (s k : Z) :
  0 <= k < 31 -> truthy (js_and s (2 ^ k)) = Z.testbit s k.
Proof.
  intros Hk. unfold truthy, js_and.
  assert (0 < 2 ^ k < 2 ^ 31).
  { split; [apply Z.pow_pos_nonneg; lia | apply Z.pow_lt_mono_r; lia]. }
  rewrite (wrap32_id (2 ^ k)) by lia.
  rewrite land_pow2, wrap32_testbit by lia.
  destruct (Z.testbit s k).
  - destruct (Z.eqb_spec (2 ^ k) 0); [lia | reflexivity].
  - reflexivity.
Qed.

(** Bit [j] of the stroke word after the flag at bit [k] has been written. *)
Lemma setStrokeState_bit (c : MTextContext) (k j : Z) (state : bool) :
  0 <= k < 31 -> 0 <= j < 31 ->
  Z.testbit (_stroke (_setStrokeState c (2 ^ k) state)) j
  = if j =? k then state else Z.testbit (_stroke c) j.
Proof.
  intros Hk Hj.
  assert (0 < 2 ^ k < 2 ^ 31).
  { split; [apply Z.pow_pos_nonneg; lia | apply Z.pow_lt_mono_r; lia]. }
  unfold _setStrokeState. destruct state; unfold set_stroke; cbn [_stroke].
  - unfold js_or. rewrite (wrap32_id (2 ^ k)) by lia.
    rewrite Z.lor_spec, wrap32_testbit, Z.pow2_bits_eqb by lia.
    destruct (Z.eqb_spec j k) as [-> |].
    + rewrite Z.eqb_refl. apply orb_true_r.
    + destruct (Z.eqb_spec k j); [lia |]. apply orb_false_r.
  - unfold js_and. rewrite (wrap32_id (2 ^ k)) by lia.
    pose proof (wrap32_range (2 ^ k)) as R.
    rewrite (wrap32_id (Z.lnot (2 ^ k))) by (unfold Z.lnot; lia).
    rewrite Z.land_spec, Z.lnot_spec, wrap32_testbit, Z.pow2_bits_eqb by lia.
    destruct (Z.eqb_spec j k) as [-> |].
    + rewrite Z.eqb_refl. apply andb_false_r.
    + destruct (Z.eqb_spec k j); [lia |]. apply andb_true_r.
Qed.

(** X6.  The three stroke flags are independent: whatever the stroke word
    holds, writing one of [underline], [overline], [strikeThrough] makes its
    getter return the written value and leaves the other two getters
    unchanged. *)
Theorem stroke_flags_independent (c : MTextContext) (v : bool) :
  (underline (set_underline c v) = v
   /\ overline (set_underline c v) = overline c
   /\ strikeThrough (set_underline c v) = strikeThrough c)
  /\ (overline (set_overline c v) = v
      /\ underline (set_overline c v) = underline c
      /\ strikeThrough (set_overline c v) = strikeThrough c)
  /\ (strikeThrough (set_strikeThrough c v) = v
      /\ underline (set_strikeThrough c v) = underline c
      /\ overline (set_strikeThrough c v) = overline c).
Proof.
  unfold underline, overline, strikeThrough,
    set_underline, set_overline, set_strikeThrough.
  change UNDERLINE with (2 ^ 0). change OVERLINE with (2 ^ 1).
  change STRIKE_THROUGH with (2 ^ 2).
  rewrite !stroke_flag, !setStrokeState_bit by lia.
  repeat split; reflexivity.
Qed.

(** The setters keep a stroke word that is a combination of the flags. *)
Lemma setStrokeState_range (c : MTextContext) (s : Z) (state : bool) :
  0 <= _stroke c <= 7 -> s = UNDERLINE \/ s = OVERLINE \/ s = STRIKE_THROUGH ->
  0 <= _stroke (_setStrokeState c s state) <= 7.
Proof.
  intros H S. unfold _setStrokeState, set_stroke.
  assert (C : _stroke c = 0 \/ _stroke c = 1 \/ _stroke c = 2 \/ _stroke c = 3
              \/ _stroke c = 4 \/ _stroke c = 5 \/ _stroke c = 6 \/ _stroke c = 7) by lia.
  destruct C as [E | [E | [E | [E | [E | [E | [E | E]]]]]]]; rewrite E;
    destruct S as [-> | [-> | ->]]; destruct state; cbn [_stroke]; vm_compute;
    split; discriminate.
Qed.

(** X7.  On a context whose stroke word is a combination of the three
    flags, every stroke setter keeps it one, and [hasAnyStroke] is true
    exactly when at least one of the three getters is. *)
Theorem hasAnyStroke_flags (c : MTextContext) :
  0 <= _stroke c <= 7 ->
  hasAnyStroke c = underline c || overline c || strikeThrough c
  /\ (forall v, 0 <= _stroke (set_underline c v) <= 7)
  /\ (forall v, 0 <= _stroke (set_overline c v) <= 7)
  /\ (forall v, 0 <= _stroke (set_strikeThrough c v) <= 7).
Proof.
  intros H. split.
  - unfold hasAnyStroke, underline, overline, strikeThrough.
    assert (C : _stroke c = 0 \/ _stroke c = 1 \/ _stroke c = 2 \/ _stroke c = 3
                \/ _stroke c = 4 \/ _stroke c = 5 \/ _stroke c = 6 \/ _stroke c = 7) by lia.
    destruct C as [E | [E | [E | [E | [E | [E | [E | E]]]]]]]; rewrite E; reflexivity.
  - repeat split; apply setStrokeState_range; auto.
Qed.

Lemma hasAnyStroke_flags_witness :
  0 <= _stroke (set_overline newMTextContext true) <= 7
  /\ hasAnyStroke (set_overline newMTextContext true) = true.
Proof.
  assert (R : 0 <= _stroke (set_overline newMTextContext true) <= 7).
  { vm_compute. split; discriminate. }
  split; [exact R |].
  destruct (hasAnyStroke_flags _ R) as [E _]. rewrite E. reflexivity.
Defined.

(** ** Text without formatting *)

Lemma plain_char_step (gbk big5 : Z -> Z -> option jsstring) (fuel : nat)
    (p : MTextParser) (word : jsstring) (c : jschar) (rest : jsstring) :
  wf_scanner (scanner p) -> tail (scanner p) = c :: rest ->
  isPlainChar c = true ->
  loop_body gbk big5 fuel p word
  = Some (if c =? ch " " then
            match word with
            | [] => Return SPACE DNull None (with_scanner p (consume 1 (scanner p)))
            | _ :: _ => Return WORD (DWord word) (Some SPACE)
                          (with_scanner p (consume 1 (scanner p)))
            end
          else Continue (with_scanner p (consume 1 (scanner p))) (word ++ [c])).
Proof.
  intros W T P.
  destruct (tail_cons _ _ _ W T) as (_ & P0 & _).
  unfold isPlainChar in P. apply andb_prop in P. destruct P as [G N].
  apply negb_true_iff in N. simpl in N.
  repeat (apply orb_false_elim in N; destruct N as [? N]).
  unfold loop_body, plainChar. rewrite P0. cbn [code_lt eqc code_ge str_of].
  change (ch "\") with 92 in *. change (ch "%") with 37 in *.
  change (ch "{") with 123 in *. change (ch "}") with 125 in *.
  change (ch "^") with 94 in *. change (ch " ") with 32 in *.
  destruct (Z.ltb_spec c 32); [apply Z.leb_le in G; lia |].
  repeat match goal with H : (c =? _) = false |- _ => rewrite H; clear H end.
  cbn [andb negb]. rewrite ?andb_false_r. cbn [andb].
  destruct (c =? 32); [destruct word; reflexivity |].
  rewrite G. reflexivity.
Qed.

Lemma plain_run (gbk big5 : Z -> Z -> option jsstring) :
  forall (s : jsstring) (p : MTextParser) (word : jsstring) (n m : nat),
    wf_scanner (scanner p) -> tail (scanner p) = s ->
    forallb isPlainChar s = true ->
    (length s < n)%nat ->
    (length s + (match word with [] => 0 | _ :: _ => 1 end) < m)%nat ->
    match nextToken_loop gbk big5 n p word with
    | None => None
    | Some (NONE, _, _, _) => Some []
    | Some (t, d, followupToken, p') =>
        match parse_loop gbk big5 m p' with
        | Some rest =>
            Some ({| tok_type := t; tok_ctx := ctx p'; tok_data := d |}
                  :: match followupToken with
                     | Some f => [{| tok_type := f; tok_ctx := ctx p'; tok_data := DNull |}]
                     | None => []
                     end ++ rest)
        | None => None
        end
    end = Some (map (tokenOf (ctx p)) (plainTokens word s)).
Proof.
  induction s as [| c r IH]; intros p word n m W T P Hn Hm.
  - destruct (tail_nil _ W T) as [D _].
    destruct n as [| n]; [simpl in Hn; lia |]. cbn [nextToken_loop]. rewrite D.
    destruct word as [| w0 word]; [reflexivity |].
    destruct m as [| [| m]]; [simpl in Hm; lia | simpl in Hm; lia |].
    cbn [parse_loop nextToken nextToken_loop]. rewrite D. reflexivity.
  - destruct (tail_cons _ _ _ W T) as (D & _ & T1 & _).
    cbn [forallb] in P. apply andb_prop in P. destruct P as [Pc Pr].
    cbn [length] in Hn, Hm.
    destruct n as [| n]; [lia |]. cbn [nextToken_loop]. rewrite D.
    rewrite (plain_char_step gbk big5 n p word c r W T Pc).
    cbn [plainTokens].
    assert (W1 : wf_scanner (scanner (with_scanner p (consume 1 (scanner p)))))
      by (apply wf_consume; exact W).
    destruct (c =? ch " ").
    + destruct m as [| m]; [lia |].
      pose proof (IH (with_scanner p (consume 1 (scanner p))) [] m m W1 T1 Pr
                    ltac:(lia) ltac:(simpl; lia)) as R.
      change (match nextToken_loop gbk big5 m (with_scanner p (consume 1 (scanner p))) [] with
              | Some (NONE, _, _, _) => Some []
              | Some (t, d, followupToken, p') =>
                  match parse_loop gbk big5 m p' with
                  | Some rest =>
                      Some ({| tok_type := t; tok_ctx := ctx p'; tok_data := d |}
                            :: match followupToken with
                               | Some f => [{| tok_type := f; tok_ctx := ctx p'; tok_data := DNull |}]
                               | None => []
                               end ++ rest)
                  | None => None
                  end
              | None => None
              end)
        with (parse_loop gbk big5 (S m) (with_scanner p (consume 1 (scanner p)))) in R.
      destruct word as [| w0 word]; rewrite R; reflexivity.
    + apply (IH (with_scanner p (consume 1 (scanner p))) (word ++ [c]) n m W1 T1 Pr).
      * lia.
      * destruct (word ++ [c]) eqn:E; [destruct word; discriminate E |].
        destruct word; lia.
Qed.

(** The tokens of a plain rest of the input. *)
Lemma parse_loop_plain (gbk big5 : Z -> Z -> option jsstring) (s : jsstring)
    (p : MTextParser) (m : nat) :
  wf_scanner (scanner p) -> tail (scanner p) = s ->
  forallb isPlainChar s = true ->
  (length s + 1 < m)%nat ->
  parse_loop gbk big5 m p = Some (map (tokenOf (ctx p)) (plainTokens [] s)).
Proof.
  intros W T P L. destruct m as [| m]; [lia |].
  cbn [parse_loop]. unfold nextToken.
  apply (plain_run gbk big5 s p [] m m W T P); [lia | simpl; lia].
Qed.

(** X8.  Text made only of plain characters (code 32 and above, no
    backslash, percent sign, brace or caret) is split at its spaces: the
    tokens are its non-empty words and one SPACE token for every space, in
    order, each carrying the initial context unchanged; fuel for two more
    steps than the text has characters is enough, and more changes nothing. *)
Theorem parse_plain_text (gbk big5 : Z -> Z -> option jsstring) (content : jsstring)
    (c : MTextContext) (yieldCommands : bool) (k : nat) :
  forallb isPlainChar content = true ->
  parse gbk big5 (length content + 2 + k) content c yieldCommands
  = Some (map (tokenOf c) (plainTokens [] content)).
Proof.
  intros P. unfold parse.
  apply (parse_loop_plain gbk big5 content (newMTextParser content c yieldCommands)).
  - apply wf_newTextScanner.
  - rewrite tail_drop by apply wf_newTextScanner. reflexivity.
  - exact P.
  - lia.
Qed.

Lemma parse_plain_text_witness :
  forallb isPlainChar (js "Hello  W") = true
  /\ parse noDecoder noDecoder 10 (js "Hello  W") newMTextContext false
     = Some [ {| tok_type := WORD; tok_ctx := newMTextContext; tok_data := DWord (js "Hello") |};
              {| tok_type := SPACE; tok_ctx := newMTextContext; tok_data := DNull |};
              {| tok_type := SPACE; tok_ctx := newMTextContext; tok_data := DNull |};
              {| tok_type := WORD; tok_ctx := newMTextContext; tok_data := DWord (js "W") |} ].
Proof.
  assert (P : forallb isPlainChar (js "Hello  W") = true) by reflexivity.
  split; [exact P |].
  exact (parse_plain_text noDecoder noDecoder (js "Hello  W") newMTextContext false 0 P).
Defined.

(** A run of plain characters other than the space goes into the word
    buffer. *)
Lemma nextToken_loop_word (gbk big5 : Z -> Z -> option jsstring) :
  forall (u : jsstring) (rest : jsstring) (p : MTextParser) (word : jsstring) (n : nat),
    wf_scanner (scanner p) -> tail (scanner p) = u ++ rest ->
    forallb (fun c => isPlainChar c && negb (c =? ch " ")) u = true ->
    nextToken_loop gbk big5 (length u + n) p word
    = nextToken_loop gbk big5 n
        (with_scanner p (consume (Z.of_nat (length u)) (scanner p))) (word ++ u).
Proof.
  induction u as [| c u IH]; intros rest p word n W T P.
  - cbn [length Nat.add]. change (Z.of_nat 0) with 0. rewrite app_nil_r.
    replace (with_scanner p (consume 0 (scanner p))) with p; [reflexivity |].
    destruct p as [sc ? ? ? ? ? ? ?]. unfold with_scanner. cbn. f_equal.
    destruct W as [L I]. destruct sc as [t len idx]. unfold consume, set_index.
    cbn in *. f_equal. lia.
  - cbn [forallb] in P. apply andb_prop in P. destruct P as [Pc P].
    apply andb_prop in Pc. destruct Pc as [Pc Ns]. apply negb_true_iff in Ns.
    cbn [app] in T. destruct (tail_cons _ _ _ W T) as (D & _ & T1 & _).
    cbn [length Nat.add nextToken_loop]. rewrite D.
    rewrite (plain_char_step gbk big5 _ p word c (u ++ rest) W T Pc), Ns.
    rewrite (IH rest (with_scanner p (consume 1 (scanner p))) (word ++ [c]) n
               (wf_consume 1 _ W) T1 P).
    cbn [with_scanner scanner]. rewrite <- app_assoc. cbn [app].
    do 2 f_equal. apply hasData_lt in D. destruct W as [L I].
    unfold consume, set_index. cbn [_index textLen text]. f_equal. lia.
Qed.

(** X17.  Control characters in the text.  A tab or line feed character
    yields TABULATOR or NEW_PARAGRAPH, and the word that stands directly
    before it is lost; any other control character ends the word like a
    space does, and the character after it, whatever it is, is skipped.
    Here [u] is a non-empty word, [c] the control character, [x] the
    character after it and [v] plain text. *)
Theorem control_characters (gbk big5 : Z -> Z -> option jsstring) (u v : jsstring)
    (c x : jschar) (c0 : MTextContext) (yieldCommands : bool) (k : nat) :
  forallb (fun c => isPlainChar c && negb (c =? ch " ")) u = true ->
  forallb isPlainChar v = true ->
  u <> [] -> 0 <= c < 32 ->
  ((c =? 9) || (c =? 10) = true -> isPlainChar x = true) ->
  parse gbk big5 (length u + length v + 5 + k) (u ++ c :: x :: v) c0 yieldCommands
  = Some (if (c =? 9) || (c =? 10) then
            tokenOf c0 (if c =? 9 then TABULATOR else NEW_PARAGRAPH, DNull)
            :: map (tokenOf c0) (plainTokens [] (x :: v))
          else
            tokenOf c0 (WORD, DWord u) :: tokenOf c0 (SPACE, DNull)
            :: map (tokenOf c0) (plainTokens [] v)).
Proof.
  intros Pu Pv Nu Hc Px. unfold parse.
  set (p0 := newMTextParser (u ++ c :: x :: v) c0 yieldCommands).
  assert (W0 : wf_scanner (scanner p0)) by apply wf_newTextScanner.
  assert (T0 : tail (scanner p0) = u ++ c :: x :: v)
    by (rewrite tail_drop by exact W0; reflexivity).
  replace (length u + length v + 5 + k)%nat
    with (S (length u + S (length v + 3 + k))) by lia.
  cbn [parse_loop]. unfold nextToken.
  rewrite (nextToken_loop_word gbk big5 u (c :: x :: v) p0 [] _ W0 T0 Pu).
  set (p1 := with_scanner p0 (consume (Z.of_nat (length u)) (scanner p0))).
  assert (W1 : wf_scanner (scanner p1)) by (apply wf_consume; exact W0).
  assert (T1 : tail (scanner p1) = c :: x :: v).
  { unfold p1. cbn [with_scanner scanner]. rewrite tail_consume by (try exact W0; lia).
    rewrite T0, Nat2Z.id, drop_app_length. reflexivity. }
  destruct (tail_cons _ _ _ W1 T1) as (D1 & P1 & T2 & _).
  cbn [app nextToken_loop]. rewrite D1.
  assert (W2 : wf_scanner (consume 1 (scanner p1))) by (apply wf_consume; exact W1).
  assert (Pxv : (c =? 9) || (c =? 10) = true -> forallb isPlainChar (x :: v) = true).
  { intros H. cbn [forallb]. rewrite (Px H), Pv. reflexivity. }
  unfold loop_body. rewrite P1. cbn [code_lt eqc].
  destruct (Z.ltb_spec c 32); [| lia].
  destruct (Z.eqb_spec c 9) as [-> | N9].
  { cbn [orb Z.eqb Pos.eqb].
    rewrite (parse_loop_plain gbk big5 (x :: v) (with_scanner p1 (consume 1 (scanner p1)))
               _ W2 T2 (Pxv eq_refl)) by (cbn [length]; lia).
    destruct u; [contradiction | reflexivity]. }
  destruct (Z.eqb_spec c 10) as [-> | N10].
  { cbn [orb Z.eqb Pos.eqb].
    rewrite (parse_loop_plain gbk big5 (x :: v) (with_scanner p1 (consume 1 (scanner p1)))
               _ W2 T2 (Pxv eq_refl)) by (cbn [length]; lia).
    destruct u; [contradiction | reflexivity]. }
  cbn [orb]. unfold plainChar. cbn [eqc andb]. change (ch " " =? ch "%") with false.
  cbn [andb]. rewrite Z.eqb_refl.
  destruct u as [| u0 u]; [contradiction |]. cbn [app].
  set (p2 := with_scanner (with_scanner p1 (consume 1 (scanner p1)))
               (consume 1 (scanner (with_scanner p1 (consume 1 (scanner p1)))))).
  assert (W3 : wf_scanner (scanner p2)) by (apply wf_consume; exact W2).
  assert (T3 : tail (scanner p2) = v).
  { unfold p2. cbn [with_scanner scanner]. rewrite tail_consume by (try exact W2; lia).
    rewrite T2. reflexivity. }
  rewrite (parse_loop_plain gbk big5 v p2 _ W3 T3 Pv) by lia.
  reflexivity.
Qed.

Lemma control_characters_witness :
  forallb (fun c => isPlainChar c && negb (c =? ch " ")) (js "ab") = true
  /\ parse noDecoder noDecoder 8 (js "ab" ++ 9 :: ch "c" :: js "d") newMTextContext false
     = Some [ tokenOf newMTextContext (TABULATOR, DNull);
              tokenOf newMTextContext (WORD, DWord (js "cd")) ].
Proof.
  assert (P : forallb (fun c => isPlainChar c && negb (c =? ch " ")) (js "ab") = true)
    by reflexivity.
  split; [exact P |].
  apply (control_characters noDecoder noDecoder (js "ab") (js "d") 9 (ch "c") newMTextContext
           false 0 P); [reflexivity | discriminate | lia | reflexivity].
Defined.

(** ** The reporting fields are a frame of every sub-parser *)

Lemma withReporting_same (p : MTextParser) :
  withReporting p (yieldPropertyCommands p) (lastCtx p) = p.
Proof. destruct p; reflexivity. Qed.

Lemma withReporting_twice (p : MTextParser) (b b' : bool) (l l' : MTextContext) :
  withReporting (withReporting p b l) b' l' = withReporting p b' l'.
Proof. reflexivity. Qed.

Ltac frame_tac :=
  intros; cbv beta delta [withReporting with_scanner with_nextRgbId with_continueStroke
                          with_ctx with_ctxStack with_inStackContext with_lastCtx] ;
  cbn [scanner ctx ctxStack parserContinueStroke yieldPropertyCommands lastCtx
       inStackContext nextRgbId fst snd];
  repeat match goal with
         | |- context [match ?x with _ => _ end] => destruct x eqn:?
         end;
  cbn [scanner ctx ctxStack parserContinueStroke yieldPropertyCommands lastCtx
       inStackContext nextRgbId fst snd];
  try reflexivity.

Lemma parseAlign_frame p c b l :
  parseAlign (withReporting p b l) c
  = (withReporting (fst (parseAlign p c)) b l, snd (parseAlign p c)).
Proof. unfold parseAlign. frame_tac. Qed.

Lemma parseHeight_frame p c b l :
  parseHeight (withReporting p b l) c
  = (withReporting (fst (parseHeight p c)) b l, snd (parseHeight p c)).
Proof. unfold parseHeight. frame_tac. Qed.

Lemma parseWidth_frame p c b l :
  parseWidth (withReporting p b l) c
  = (withReporting (fst (parseWidth p c)) b l, snd (parseWidth p c)).
Proof. unfold parseWidth. frame_tac. Qed.

Lemma parseCharTracking_frame p c b l :
  parseCharTracking (withReporting p b l) c
  = (withReporting (fst (parseCharTracking p c)) b l, snd (parseCharTracking p c)).
Proof. unfold parseCharTracking. frame_tac. Qed.

Lemma parseOblique_frame p c b l :
  parseOblique (withReporting p b l) c
  = (withReporting (fst (parseOblique p c)) b l, snd (parseOblique p c)).
Proof. unfold parseOblique. frame_tac. Qed.

Lemma parseAciColor_frame p c b l :
  parseAciColor (withReporting p b l) c
  = (withReporting (fst (parseAciColor p c)) b l, snd (parseAciColor p c)).
Proof. unfold parseAciColor. frame_tac. Qed.

Lemma parseRgbColor_frame p c b l :
  parseRgbColor (withReporting p b l) c
  = (withReporting (fst (parseRgbColor p c)) b l, snd (parseRgbColor p c)).
Proof. unfold parseRgbColor. frame_tac. Qed.

Lemma parseFontProperties_frame p c b l :
  parseFontProperties (withReporting p b l) c
  = (withReporting (fst (parseFontProperties p c)) b l, snd (parseFontProperties p c)).
Proof. unfold parseFontProperties. frame_tac. Qed.

Lemma parseParagraphProperties_frame fuel p c b l :
  parseParagraphProperties fuel (withReporting p b l) c
  = match parseParagraphProperties fuel p c with
    | Some (p', c') => Some (withReporting p' b l, c')
    | None => None
    end.
Proof. unfold parseParagraphProperties. frame_tac. Qed.

Lemma parseStacking_frame p b l :
  parseStacking (withReporting p b l)
  = (fst (parseStacking p), withReporting (snd (parseStacking p)) b l).
Proof. unfold parseStacking. frame_tac. Qed.

Lemma dispatchProperty_frame fuel cmd p c b l :
  dispatchProperty fuel cmd (withReporting p b l) c
  = match dispatchProperty fuel cmd p c with
    | Some (p', r) => Some (withReporting p' b l, r)
    | None => None
    end.
Proof.
  unfold dispatchProperty.
  rewrite parseAlign_frame, parseAciColor_frame, parseRgbColor_frame, parseHeight_frame,
    parseWidth_frame, parseOblique_frame, parseCharTracking_frame,
    parseParagraphProperties_frame, parseFontProperties_frame.
  destruct (parseAlign p c), (parseAciColor p c), (parseRgbColor p c), (parseHeight p c),
    (parseWidth p c), (parseOblique p c), (parseCharTracking p c),
    (parseFontProperties p c), (parseParagraphProperties fuel p c) as [[? ?] |];
  cbn [fst snd];
  repeat match goal with
         | |- context [if ?x then _ else _] => destruct x
         end; reflexivity.
Qed.

(** [parseProperties] leaves the option as it is. *)
Lemma parseProperties_flag fuel cmd p p' r :
  parseProperties fuel cmd p = Some (p', r) ->
  yieldPropertyCommands p' = yieldPropertyCommands p.
Proof.
  unfold parseProperties.
  pose proof (dispatchProperty_frame fuel cmd p (copy (ctx p))
                (yieldPropertyCommands p) (lastCtx p)) as F.
  rewrite withReporting_same in F.
  destruct (dispatchProperty fuel cmd p (copy (ctx p))) as [[p1 r1] |]; [| discriminate].
  assert (Y : yieldPropertyCommands p1 = yieldPropertyCommands p).
  { injection F as F. rewrite F. reflexivity. }
  clear F. destruct r1 as [c1 |].
  - cbn [with_continueStroke with_ctx yieldPropertyCommands].
    destruct (yieldPropertyCommands p1) eqn:Y1; [destruct (hasKeys _) |];
      intros H; injection H as <- <-; cbn; congruence.
  - intros H. injection H as <- <-. exact Y.
Qed.

(** With the option off, [parseProperties] changes the parser in the same
    way and reports nothing. *)
Lemma parseProperties_off fuel cmd p l :
  parseProperties fuel cmd (withReporting p false l)
  = match parseProperties fuel cmd p with
    | None => None
    | Some (p', Throw) => Some (withReporting p' false l, Throw)
    | Some (p', Ok _) => Some (withReporting p' false l, Ok None)
    end.
Proof.
  unfold parseProperties. cbn [withReporting ctx].
  rewrite dispatchProperty_frame.
  destruct (dispatchProperty fuel cmd p (copy (ctx p))) as [[p1 [c1 |]] |];
    [| reflexivity | reflexivity].
  cbn [with_continueStroke with_ctx withReporting yieldPropertyCommands].
  destruct (yieldPropertyCommands p1); [destruct (hasKeys _) |]; reflexivity.
Qed.

Lemma stackExpression_type (e : jsstring) :
  exists n d t, stackExpression e = (STACK, DStack n d t).
Proof.
  unfold stackExpression. destruct (stackParts e) as [[n d] t].
  destruct (_ && _); [| destruct (eqc _ _)]; do 3 eexists; reflexivity.
Qed.

(** What one pass of the loop can return below the backslash block. *)
Lemma plainChar_shape p word letter escape t d f p' :
  plainChar p word letter escape = Return t d f p' ->
  tokenShape t d = true /\ t <> PROPERTIES_CHANGED
  /\ (f = None \/ (f = Some SPACE /\ t = WORD)).
Proof.
  unfold plainChar.
  repeat match goal with
         | |- context [match ?x with _ => _ end] => destruct x eqn:?
         end;
    intros H; try discriminate H; injection H as <- <- <- <-;
    (split; [reflexivity | split; [discriminate | auto]]).
Qed.

Lemma plainChar_frame p word letter escape b l :
  plainChar (withReporting p b l) word letter escape
  = stepWithReporting (plainChar p word letter escape) b l.
Proof.
  unfold plainChar. cbn [withReporting scanner inStackContext].
  repeat match goal with
         | |- context [match ?x with _ => _ end] => destruct x eqn:?
         end; try reflexivity.
  unfold popCtx. cbn. destruct (last (ctxStack p)); reflexivity.
Qed.

Lemma multiByte_shape gbk big5 p word t d f p' :
  multiByte gbk big5 p word = Return t d f p' ->
  tokenShape t d = true /\ t <> PROPERTIES_CHANGED /\ f = None.
Proof.
  unfold multiByte.
  repeat match goal with
         | |- context [match ?x with _ => _ end] => destruct x eqn:?
         end;
    intros H; try discriminate H; injection H as <- <- <- <-;
    (split; [reflexivity | split; [discriminate | reflexivity]]).
Qed.

Lemma multiByte_frame gbk big5 p word b l :
  multiByte gbk big5 (withReporting p b l) word
  = stepWithReporting (multiByte gbk big5 p word) b l.
Proof.
  unfold multiByte. cbn [withReporting scanner].
  repeat match goal with
         | |- context [match ?x with _ => _ end] => destruct x eqn:?
         end; reflexivity.
Qed.

(** What the command switch can return, and that it keeps the option. *)
Ltac shape_done :=
  cbn; repeat split; first [reflexivity | discriminate | assumption | congruence | auto].

Lemma commandSwitch_shape gbk big5 fuel p word idx cmd st :
  commandSwitch gbk big5 fuel p word idx cmd = Some st ->
  yieldPropertyCommands (step_parser st) = yieldPropertyCommands p
  /\ match st with
     | Continue _ _ => True
     | Return t d f _ =>
         tokenShape t d = true /\ f = None
         /\ (t = PROPERTIES_CHANGED -> yieldPropertyCommands p = true)
     end.
Proof.
  unfold commandSwitch.
  destruct (eqc cmd (ch "~")); [intros H; injection H as <-; shape_done |].
  destruct (eqc cmd (ch "P")); [intros H; injection H as <-; shape_done |].
  destruct (eqc cmd (ch "N")); [intros H; injection H as <-; shape_done |].
  destruct (eqc cmd (ch "X")); [intros H; injection H as <-; shape_done |].
  destruct (eqc cmd (ch "S")).
  { pose proof (parseStacking_frame (with_inStackContext p true)
                  (yieldPropertyCommands p) (lastCtx p)) as F.
    change (withReporting (with_inStackContext p true) (yieldPropertyCommands p) (lastCtx p))
      with (with_inStackContext (withReporting p (yieldPropertyCommands p) (lastCtx p)) true)
      in F.
    rewrite withReporting_same in F.
    destruct (parseStacking (with_inStackContext p true)) as [r p1] eqn:E.
    cbn [fst snd] in F. injection F as F2.
    assert (T : exists n d t, r = (STACK, DStack n d t)).
    { unfold parseStacking in E. destruct (extractExpression true _) as [expr sc].
      injection E as <- _. apply stackExpression_type. }
    destruct T as (n & d & t & ->).
    intros H; injection H as <-. cbn. rewrite F2. cbn.
    split; [reflexivity | split; [reflexivity | split; [reflexivity | discriminate]]]. }
  destruct (eqc cmd (ch "m") || eqc cmd (ch "M")).
  { intros H; injection H as <-.
    pose proof (multiByte_frame gbk big5 p word (yieldPropertyCommands p) (lastCtx p)) as F.
    rewrite withReporting_same in F.
    destruct (multiByte gbk big5 p word) as [p1 w1 | t d f p1] eqn:E.
    - cbn in F. injection F as F. cbn. rewrite F. cbn. auto.
    - cbn in F. injection F as F. cbn. rewrite F. cbn. split; [reflexivity |].
      destruct (multiByte_shape _ _ _ _ _ _ _ _ E) as (S1 & S2 & S3).
      split; [exact S1 | split; [exact S3 | intros; contradiction]]. }
  destruct cmd as [c |]; [| intros H; injection H as <-; shape_done].
  destruct (parseProperties fuel c p) as [[p1 [[pc |] |]] |] eqn:E; [| | | discriminate].
  - pose proof (parseProperties_flag _ _ _ _ _ E) as Y.
    destruct (yieldPropertyCommands p1) eqn:Y1; intros H; injection H as <-; shape_done.
  - pose proof (parseProperties_flag _ _ _ _ _ E) as Y.
    intros H; injection H as <-; shape_done.
  - pose proof (parseProperties_flag _ _ _ _ _ E) as Y.
    intros H; injection H as <-; shape_done.
Qed.

(** With the option off, the command switch continues where it would have
    returned a PROPERTIES_CHANGED token, and is unchanged otherwise. *)
Lemma commandSwitch_off gbk big5 fuel p word idx cmd l :
  commandSwitch gbk big5 fuel (withReporting p false l) word idx cmd
  = match commandSwitch gbk big5 fuel p word idx cmd with
    | None => None
    | Some (Return PROPERTIES_CHANGED _ _ p') => Some (Continue (withReporting p' false l) word)
    | Some st => Some (stepWithReporting st false l)
    end.
Proof.
  unfold commandSwitch.
  destruct (eqc cmd (ch "~")); [reflexivity |].
  destruct (eqc cmd (ch "P")); [reflexivity |].
  destruct (eqc cmd (ch "N")); [reflexivity |].
  destruct (eqc cmd (ch "X")); [reflexivity |].
  destruct (eqc cmd (ch "S")).
  { change (with_inStackContext (withReporting p false l) true)
      with (withReporting (with_inStackContext p true) false l).
    rewrite parseStacking_frame.
    destruct (parseStacking (with_inStackContext p true)) as [r p1] eqn:E.
    assert (T : exists n d t, r = (STACK, DStack n d t)).
    { unfold parseStacking in E. destruct (extractExpression true _) as [expr sc].
      injection E as <- _. apply stackExpression_type. }
    destruct T as (n & d & t & ->). reflexivity. }
  destruct (eqc cmd (ch "m") || eqc cmd (ch "M")).
  { rewrite multiByte_frame.
    destruct (multiByte gbk big5 p word) as [p1 w1 | t d f p1] eqn:E; [reflexivity |].
    destruct (multiByte_shape _ _ _ _ _ _ _ _ E) as (_ & S2 & _).
    destruct t; try reflexivity. contradiction. }
  destruct cmd as [c |]; [| reflexivity].
  rewrite parseProperties_off.
  destruct (parseProperties fuel c p) as [[p1 [[pc |] |]] |] eqn:E; try reflexivity.
  cbn [withReporting yieldPropertyCommands].
  destruct (yieldPropertyCommands p1); reflexivity.
Qed.

Lemma loop_body_shape gbk big5 fuel p word st :
  loop_body gbk big5 fuel p word = Some st ->
  yieldPropertyCommands (step_parser st) = yieldPropertyCommands p
  /\ match st with
     | Continue _ _ => True
     | Return t d f _ =>
         tokenShape t d = true
         /\ (f = None \/ (f = Some SPACE /\ t = WORD))
         /\ (t = PROPERTIES_CHANGED -> yieldPropertyCommands p = true /\ word = [])
     end.
Proof.
  assert (PC : forall q w letter escape,
             yieldPropertyCommands q = yieldPropertyCommands p ->
             Some (plainChar q w letter escape) = Some st ->
             yieldPropertyCommands (step_parser st) = yieldPropertyCommands p
             /\ match st with
                | Continue _ _ => True
                | Return t d f _ =>
                    tokenShape t d = true
                    /\ (f = None \/ (f = Some SPACE /\ t = WORD))
                    /\ (t = PROPERTIES_CHANGED -> yieldPropertyCommands p = true /\ word = [])
                end).
  { intros q w letter escape Y H. injection H as <-.
    pose proof (plainChar_frame q w letter escape (yieldPropertyCommands q) (lastCtx q)) as F.
    rewrite withReporting_same in F.
    destruct (plainChar q w letter escape) as [p1 w1 | t d f p1] eqn:E.
    - cbn in F. injection F as F. cbn. rewrite F. cbn. auto.
    - cbn in F. injection F as F. cbn. rewrite F. cbn. split; [exact Y |].
      destruct (plainChar_shape _ _ _ _ _ _ _ _ E) as (S1 & S2 & S3).
      split; [exact S1 | split; [exact S3 | intros; contradiction]]. }
  unfold loop_body.
  destruct (code_lt (peek 0 (scanner p)) 32).
  { destruct (eqc (peek 0 (scanner p)) 9);
      [intros H; injection H as <-; cbn; split; [reflexivity |];
       split; [reflexivity | split; [auto | discriminate]] |].
    destruct (eqc (peek 0 (scanner p)) 10);
      [intros H; injection H as <-; cbn; split; [reflexivity |];
       split; [reflexivity | split; [auto | discriminate]] |].
    apply PC. reflexivity. }
  destruct (eqc (peek 0 (scanner p)) (ch "\")); [| apply PC; reflexivity].
  destruct (includes1 _ _); [apply PC; reflexivity |].
  destruct word as [| w0 word].
  - destruct (get (consume 1 (scanner p))) as [cmd sc].
    intros H. destruct (commandSwitch_shape _ _ _ _ _ _ _ _ H) as [Y S].
    split; [exact Y |]. destruct st as [| t d f p1]; [exact I |].
    destruct S as (S1 & -> & S3). split; [exact S1 | split; [auto |]].
    intros T. split; [apply S3; exact T | reflexivity].
  - intros H; injection H as <-; cbn. split; [reflexivity |].
    split; [reflexivity | split; [auto | discriminate]].
Qed.

Lemma loop_body_off gbk big5 fuel p word l :
  loop_body gbk big5 fuel (withReporting p false l) word
  = match loop_body gbk big5 fuel p word with
    | None => None
    | Some (Return PROPERTIES_CHANGED _ _ p') => Some (Continue (withReporting p' false l) [])
    | Some st => Some (stepWithReporting st false l)
    end.
Proof.
  assert (PC : forall q w letter escape,
             Some (plainChar (withReporting q false l) w letter escape)
             = match Some (plainChar q w letter escape) with
               | None => None
               | Some (Return PROPERTIES_CHANGED _ _ p') =>
                   Some (Continue (withReporting p' false l) [])
               | Some st => Some (stepWithReporting st false l)
               end).
  { intros q w letter escape. rewrite plainChar_frame.
    destruct (plainChar q w letter escape) as [p1 w1 | t d f p1] eqn:E; [reflexivity |].
    destruct (plainChar_shape _ _ _ _ _ _ _ _ E) as (_ & S2 & _).
    destruct t; try reflexivity. contradiction. }
  unfold loop_body. cbn [withReporting scanner].
  destruct (code_lt (peek 0 (scanner p)) 32).
  { destruct (eqc (peek 0 (scanner p)) 9); [reflexivity |].
    destruct (eqc (peek 0 (scanner p)) 10); [reflexivity |].
    apply (PC (with_scanner p (consume 1 (scanner p)))). }
  destruct (eqc (peek 0 (scanner p)) (ch "\")); [| apply PC].
  destruct (includes1 _ _); [apply (PC (with_scanner p (consume 1 (scanner p)))) |].
  destruct word as [| w0 word]; [| reflexivity].
  destruct (get (consume 1 (scanner p))) as [cmd sc].
  apply (commandSwitch_off gbk big5 fuel (with_scanner p sc) [] _ cmd l).
Qed.

(** ** The token stream *)

(** The tokens one call of [nextToken] makes the generator yield. *)
Lemma parse_loop_inv gbk big5 (n : nat) (p : MTextParser) (tokens : list MTextToken) :
  parse_loop gbk big5 (S n) p = Some tokens ->
  exists t d f p',
    nextToken_loop gbk big5 n p [] = Some (t, d, f, p')
    /\ ((t = NONE /\ tokens = [])
        \/ (t <> NONE /\ exists rest,
              parse_loop gbk big5 n p' = Some rest
              /\ tokens = {| tok_type := t; tok_ctx := ctx p'; tok_data := d |}
                          :: match f with
                             | Some x => [{| tok_type := x; tok_ctx := ctx p'; tok_data := DNull |}]
                             | None => []
                             end ++ rest)).
Proof.
  cbn [parse_loop]. unfold nextToken.
  destruct (nextToken_loop gbk big5 n p []) as [[[[t d] f] p'] |]; [| discriminate].
  intros H. exists t, d, f, p'. split; [reflexivity |].
  destruct t;
    try (right; split; [discriminate |];
         destruct (parse_loop gbk big5 n p') as [rest |]; [| discriminate];
         injection H as <-; exists rest; split; reflexivity).
  left. injection H as <-. split; reflexivity.
Qed.

Lemma parse_loop_end gbk big5 (n : nat) (p : MTextParser) d f p' :
  nextToken_loop gbk big5 n p [] = Some (NONE, d, f, p') ->
  parse_loop gbk big5 (S n) p = Some [].
Proof. intros H. cbn [parse_loop]. unfold nextToken. rewrite H. reflexivity. Qed.

Lemma parse_loop_cons gbk big5 (n : nat) (p : MTextParser) t d f p' rest :
  nextToken_loop gbk big5 n p [] = Some (t, d, f, p') -> t <> NONE ->
  parse_loop gbk big5 n p' = Some rest ->
  parse_loop gbk big5 (S n) p
  = Some ({| tok_type := t; tok_ctx := ctx p'; tok_data := d |}
          :: match f with
             | Some x => [{| tok_type := x; tok_ctx := ctx p'; tok_data := DNull |}]
             | None => []
             end ++ rest).
Proof.
  intros H T R. cbn [parse_loop]. unfold nextToken. rewrite H, R.
  destruct t; try reflexivity. contradiction.
Qed.

Lemma nextToken_loop_shape gbk big5 :
  forall (n : nat) (p : MTextParser) (word : jsstring) t d f p',
    nextToken_loop gbk big5 n p word = Some (t, d, f, p') ->
    yieldPropertyCommands p' = yieldPropertyCommands p
    /\ (t = NONE \/ tokenShape t d = true)
    /\ (f = None \/ (f = Some SPACE /\ t = WORD))
    /\ (t = PROPERTIES_CHANGED -> yieldPropertyCommands p = true).
Proof.
  induction n as [| n IH]; intros p word t d f p' H; [discriminate H |].
  cbn [nextToken_loop] in H. destruct (hasData (scanner p)).
  - destruct (loop_body gbk big5 n p word) as [st |] eqn:B; [| discriminate H].
    destruct (loop_body_shape _ _ _ _ _ _ B) as [Y S].
    destruct st as [p1 w1 | t1 d1 f1 p1]; cbn [step_parser] in Y.
    + destruct (IH _ _ _ _ _ _ H) as (Y' & S1 & S2 & S3).
      rewrite <- Y. repeat split; assumption.
    + injection H as -> -> -> ->. destruct S as (S1 & S2 & S3).
      repeat split; try assumption; [right; exact S1 | apply S3].
  - destruct word; injection H as <- <- <- <-;
      (split; [reflexivity |]; split; [auto |]; split; [auto | discriminate]).
Qed.

(** X9.  Every token of a finished run has the payload of its type: a
    string for WORD, the three strings for STACK, the changed properties for
    PROPERTIES_CHANGED and null for all others; the end marker NONE is
    never yielded, and PROPERTIES_CHANGED only when the parser was created
    with [yieldPropertyCommands]. *)
Theorem tokens_well_typed gbk big5 (fuel : nat) (content : jsstring) (c : MTextContext)
    (yieldCommands : bool) (tokens : list MTextToken) :
  parse gbk big5 fuel content c yieldCommands = Some tokens ->
  Forall (fun tok =>
            tokenShape (tok_type tok) (tok_data tok) = true
            /\ (tok_type tok = PROPERTIES_CHANGED -> yieldCommands = true)) tokens.
Proof.
  unfold parse.
  change yieldCommands with (yieldPropertyCommands (newMTextParser content c yieldCommands)) at 2.
  generalize (newMTextParser content c yieldCommands) as p. clear content c yieldCommands.
  revert tokens. induction fuel as [| n IH]; intros tokens p H; [discriminate H |].
  destruct (parse_loop_inv _ _ _ _ _ H) as (t & d & f & p' & N & [[_ ->] | (T & rest & R & ->)]);
    [constructor |].
  destruct (nextToken_loop_shape _ _ _ _ _ _ _ _ _ N) as (Y & S1 & S2 & S3).
  pose proof (IH _ _ R) as Rest. rewrite Y in Rest.
  constructor.
  - cbn. split; [destruct S1 as [? | S1]; [contradiction | exact S1] | exact S3].
  - destruct S2 as [-> | [-> _]]; cbn [app]; [exact Rest |].
    constructor; [cbn; split; [reflexivity | discriminate] | exact Rest].
Qed.

Lemma tokens_well_typed_witness :
  exists tokens,
    parse noDecoder noDecoder 30 (js "a\L b\S1/2;^I") newMTextContext true = Some tokens
    /\ Forall (fun tok =>
                 tokenShape (tok_type tok) (tok_data tok) = true
                 /\ (tok_type tok = PROPERTIES_CHANGED -> true = true)) tokens.
Proof.
  eexists. split; [vm_compute; reflexivity |].
  apply (tokens_well_typed noDecoder noDecoder 30 (js "a\L b\S1/2;^I") newMTextContext true).
  vm_compute. reflexivity.
Defined.

(** With the option off, [nextToken] returns what it returns with the
    option on, except that it goes on where a PROPERTIES_CHANGED token was
    returned. *)
Lemma nextToken_loop_off gbk big5 (l : MTextContext) :
  forall (n : nat) (p : MTextParser) (word : jsstring) t d f p',
    nextToken_loop gbk big5 n p word = Some (t, d, f, p') ->
    (t <> PROPERTIES_CHANGED ->
     nextToken_loop gbk big5 n (withReporting p false l) word
     = Some (t, d, f, withReporting p' false l))
    /\ (t = PROPERTIES_CHANGED ->
        f = None
        /\ forall m r,
            nextToken_loop gbk big5 m (withReporting p' false l) [] = Some r ->
            nextToken_loop gbk big5 (n + m) (withReporting p false l) word = Some r).
Proof.
  induction n as [| n IH]; intros p word t d f p' H; [discriminate H |].
  cbn [nextToken_loop] in H. cbn [nextToken_loop Nat.add withReporting scanner].
  destruct (hasData (scanner p)).
  - destruct (loop_body gbk big5 n p word) as [st |] eqn:B; [| discriminate H].
    pose proof (loop_body_off gbk big5 n p word l) as O. rewrite B in O.
    destruct (loop_body_shape _ _ _ _ _ _ B) as [_ S].
    destruct st as [p1 w1 | t1 d1 f1 p1].
    + cbn [stepWithReporting] in O.
      destruct (IH _ _ _ _ _ _ H) as [A1 A2]. split.
      * intros T. change (withReporting p false l) with (withReporting p false l).
        fold (withReporting p false l). rewrite O. apply A1. exact T.
      * intros T. destruct (A2 T) as [F A]. split; [exact F |]. intros m r R.
        fold (withReporting p false l).
        rewrite (loop_body_mono gbk big5 n (n + m) _ _ _ ltac:(lia) O).
        apply A. exact R.
    + injection H as -> -> -> ->. destruct S as (S1 & S2 & S3). split.
      * intros T. fold (withReporting p false l).
        assert (O' : loop_body gbk big5 n (withReporting p false l) word
                     = Some (Return t d f (withReporting p' false l))).
        { rewrite O. destruct t; try reflexivity. contradiction. }
        rewrite O'. reflexivity.
      * intros ->. destruct S2 as [-> | [_ S2]]; [| discriminate S2].
        split; [reflexivity |]. intros m r R.
        fold (withReporting p false l).
        rewrite (loop_body_mono gbk big5 n (n + m) _ _ _ ltac:(lia) O).
        apply (nextToken_loop_mono gbk big5 m (n + m)); [lia | exact R].
  - split.
    + intros _. destruct word; injection H as <- <- <- <-; reflexivity.
    + intros ->. destruct word; discriminate H.
Qed.

Lemma PROPERTIES_CHANGED_dec (t : TokenType) :
  t = PROPERTIES_CHANGED \/ t <> PROPERTIES_CHANGED.
Proof. destruct t; first [left; reflexivity | right; discriminate]. Qed.

Lemma parse_loop_off gbk big5 (l : MTextContext) :
  forall (n : nat) (p : MTextParser) (tokens : list MTextToken),
    parse_loop gbk big5 n p = Some tokens ->
    exists m, parse_loop gbk big5 m (withReporting p false l)
              = Some (List.filter (fun tok => negb (isPropertiesChanged tok)) tokens).
Proof.
  induction n as [| n IH]; intros p tokens H; [discriminate H |].
  destruct (parse_loop_inv _ _ _ _ _ H) as (t & d & f & p' & N & [[-> ->] | (T & rest & R & ->)]).
  - exists (S n). destruct (nextToken_loop_off gbk big5 l _ _ _ _ _ _ _ N) as [A _].
    apply (parse_loop_end gbk big5 n _ d f (withReporting p' false l)).
    apply A. discriminate.
  - destruct (IH _ _ R) as [m M].
    destruct (nextToken_loop_off gbk big5 l _ _ _ _ _ _ _ N) as [A1 A2].
    destruct (nextToken_loop_shape _ _ _ _ _ _ _ _ _ N) as (_ & _ & S2 & _).
    destruct (PROPERTIES_CHANGED_dec t) as [-> | NPC].
    + destruct (A2 eq_refl) as [-> A]. cbn [app List.filter isPropertiesChanged tok_type negb].
      destruct m as [| m]; [discriminate M |].
      destruct (parse_loop_inv _ _ _ _ _ M)
        as (t2 & d2 & f2 & p2 & N2 & [[-> E] | (T2 & rest2 & R2 & E)]).
      * exists (S (n + m)). rewrite E.
        apply (parse_loop_end gbk big5 (n + m) _ d2 f2 p2). apply A. exact N2.
      * exists (S (n + m)). rewrite E.
        apply (parse_loop_cons gbk big5 (n + m) _ t2 d2 f2 p2 rest2);
          [apply A; exact N2 | exact T2 |].
        apply (parse_loop_mono gbk big5 m (n + m)); [lia | exact R2].
    + exists (S (Nat.max n m)).
      assert (E : List.filter (fun tok => negb (isPropertiesChanged tok))
                    ({| tok_type := t; tok_ctx := ctx p'; tok_data := d |}
                     :: match f with
                        | Some x => [{| tok_type := x; tok_ctx := ctx p'; tok_data := DNull |}]
                        | None => []
                        end ++ rest)
                  = {| tok_type := t; tok_ctx := ctx (withReporting p' false l); tok_data := d |}
                    :: match f with
                       | Some x => [{| tok_type := x; tok_ctx := ctx (withReporting p' false l);
                                        tok_data := DNull |}]
                       | None => []
                       end ++ List.filter (fun tok => negb (isPropertiesChanged tok)) rest).
      { cbn [List.filter]. unfold isPropertiesChanged at 1. cbn [tok_type].
        destruct S2 as [-> | [-> _]]; destruct t; try contradiction; reflexivity. }
      rewrite E.
      apply (parse_loop_cons gbk big5 (Nat.max n m) _ t d f (withReporting p' false l)).
      * apply (nextToken_loop_mono gbk big5 n); [lia | apply A1; exact NPC].
      * exact T.
      * apply (parse_loop_mono gbk big5 m); [lia | exact M].
Qed.

(** X10.  Creating the parser with [yieldPropertyCommands] only adds
    tokens: when the run with the option finishes, the run without it
    finishes too, and yields exactly the tokens of the first run that are
    not PROPERTIES_CHANGED, in the same order, each with the same payload
    and the same context. *)
Theorem property_commands_only_add_tokens gbk big5 (fuel : nat) (content : jsstring)
    (c : MTextContext) (tokens : list MTextToken) :
  parse gbk big5 fuel content c true = Some tokens ->
  exists fuel', forall k : nat,
    parse gbk big5 (fuel' + k) content c false
    = Some (List.filter (fun tok => negb (isPropertiesChanged tok)) tokens).
Proof.
  unfold parse. intros H.
  destruct (parse_loop_off gbk big5 (copy c) _ _ _ H) as [m M].
  exists m. intros k.
  apply (parse_loop_mono gbk big5 m (m + k)); [lia | exact M].
Qed.

Lemma property_commands_only_add_tokens_witness :
  exists tokens,
    parse noDecoder noDecoder 30 (js "a\L b\C1;{\H2x;c}") newMTextContext true = Some tokens
    /\ exists fuel', forall k : nat,
         parse noDecoder noDecoder (fuel' + k) (js "a\L b\C1;{\H2x;c}") newMTextContext false
         = Some (List.filter (fun tok => negb (isPropertiesChanged tok)) tokens).
Proof.
  eexists. split; [vm_compute; reflexivity |].
  apply (property_commands_only_add_tokens noDecoder noDecoder 30).
  vm_compute. reflexivity.
Defined.

(** ** What the property commands do to a context *)

Lemma inAciRange_integer (v : Z) : 0 <= v <= 256 -> inAciRange (num_of_Z v).
Proof.
  intros H. exists (inject_Z v). split; [reflexivity |].
  change 0%Q with (inject_Z 0). change 256%Q with (inject_Z 256).
  rewrite <- !Zle_Qle. exact H.
Qed.

(** [parseAciColor] never makes the setter throw. *)
Lemma parseAciColor_ok (p : MTextParser) (c : MTextContext) :
  exists c', snd (parseAciColor p c) = Ok c'
             /\ (c' = c \/ (inAciRange (aci c') /\ rgb c' = None
                            /\ _stroke c' = _stroke c
                            /\ _capHeight c' = _capHeight c
                            /\ _widthFactor c' = _widthFactor c
                            /\ _charTrackingFactor c' = _charTrackingFactor c
                            /\ oblique c' = oblique c
                            /\ paragraph c' = paragraph c)).
Proof.
  unfold parseAciColor.
  destruct (extractIntExpression (scanner p)) as [aciExpr sc] eqn:E.
  destruct aciExpr as [| d ds]; [exists c; split; [reflexivity | left; reflexivity] |].
  destruct (extractInt_parseInt _ _ _ E ltac:(discriminate)) as [P N].
  assert (L257 : 257 <= 2 ^ 53) by (vm_compute; discriminate).
  rewrite P, num_lt_roundDouble by assumption.
  destruct (Z.ltb_spec (digitsValue (d :: ds)) 257) as [L | L];
    [| exists c; split; [reflexivity | left; reflexivity]].
  assert (S53 : 256 < 2 ^ 53) by reflexivity.
  rewrite roundDouble_exact by lia.
  pose proof (inAciRange_integer (digitsValue (d :: ds)) ltac:(lia)) as R.
  pose proof (proj2 (set_aci_range c _) R) as S.
  destruct (set_aci c (num_of_Z (digitsValue (d :: ds)))) as [c1 o] eqn:A.
  cbn [snd] in S. subst o. cbv beta iota. eexists. split; [reflexivity |]. right.
  unfold set_aci in A. destruct (_ && _); [| discriminate A].
  injection A as <-. cbn. repeat split; try reflexivity. exact R.
Qed.

Lemma propertyCommands_cases (cmd : jschar) :
  existsb (Z.eqb cmd) propertyCommands = false ->
  (cmd =? ch "L") = false /\ (cmd =? ch "l") = false /\ (cmd =? ch "O") = false
  /\ (cmd =? ch "o") = false /\ (cmd =? ch "K") = false /\ (cmd =? ch "k") = false
  /\ (cmd =? ch "A") = false /\ (cmd =? ch "C") = false /\ (cmd =? ch "c") = false
  /\ (cmd =? ch "H") = false /\ (cmd =? ch "W") = false /\ (cmd =? ch "Q") = false
  /\ (cmd =? ch "T") = false /\ (cmd =? ch "p") = false /\ (cmd =? ch "f") = false
  /\ (cmd =? ch "F") = false.
Proof.
  unfold propertyCommands. cbn [js list_ascii_of_string map existsb]. intros H.
  repeat (apply orb_false_elim in H; destruct H as [? H]).
  repeat split; assumption.
Qed.

Lemma dispatchProperty_p (fuel : nat) (p : MTextParser) (c : MTextContext) :
  dispatchProperty fuel (ch "p") p c = parseParagraphProperties fuel p c.
Proof. reflexivity. Qed.

Lemma with_scanner_same (p : MTextParser) : with_scanner p (scanner p) = p.
Proof. destruct p; reflexivity. Qed.

Lemma parseParagraphProperties_scanner fuel p c p' r :
  parseParagraphProperties fuel p c = Some (p', r) ->
  p' = with_scanner p (snd (extractExpression false (scanner p))).
Proof.
  unfold parseParagraphProperties.
  destruct (extractExpression false (scanner p)) as [expr sc]. cbn [snd].
  destruct (paragraph_loop _ _ _) as [[l |] |]; intros H; [| | discriminate H];
    injection H as <- _; reflexivity.
Qed.

(** The switch of [parseProperties]: it throws for the letters without a
    case, leaving the parser as it found it; with a case, only the
    paragraph command can throw, and a throw moves nothing but the
    scanner. *)
Lemma dispatchProperty_throw fuel cmd p c p' r :
  dispatchProperty fuel cmd p c = Some (p', r) ->
  (existsb (Z.eqb cmd) propertyCommands = false -> r = Throw /\ p' = p)
  /\ (r = Throw -> existsb (Z.eqb cmd) propertyCommands = true -> cmd = ch "p")
  /\ (r = Throw -> exists sc, p' = with_scanner p sc).
Proof.
  destruct (existsb (Z.eqb cmd) propertyCommands) eqn:K.
  - intros H. split; [discriminate |].
    destruct (Z.eq_dec cmd (ch "p")) as [-> | Np].
    + split; [reflexivity |]. intros _. rewrite dispatchProperty_p in H.
      eexists. apply (parseParagraphProperties_scanner _ _ _ _ _ H).
    + assert (R : r <> Throw).
      { revert H. unfold dispatchProperty.
        destruct (parseAciColor_ok p c) as (c' & A & _).
        destruct (parseAciColor p c) as [pa ra]. cbn [snd] in A. subst ra.
        destruct (parseAlign p c), (parseRgbColor p c), (parseHeight p c),
          (parseWidth p c), (parseOblique p c), (parseCharTracking p c),
          (parseFontProperties p c).
        repeat match goal with
               | |- context [if ?x then _ else _] => destruct x eqn:?
               end.
        all: try (intros H; injection H as <- <-; discriminate).
        all: try match goal with
                 | H : (?x =? ch "p") = true |- _ => apply Z.eqb_eq in H; contradiction
                 end.
        all: exfalso; unfold propertyCommands in K;
          cbn [js list_ascii_of_string map existsb] in K;
          repeat match goal with
                 | H : (_ || _) = false |- _ => apply orb_false_elim in H; destruct H
                 end;
          repeat match goal with
                 | H : (?x =? _) = false |- _ => rewrite H in K
                 end; discriminate K. }
      split; intros; contradiction.
  - destruct (propertyCommands_cases cmd K)
      as (E1 & E2 & E3 & E4 & E5 & E6 & E7 & E8 & E9 & E10 & E11 & E12 & E13 & E14 & E15 & E16).
    unfold dispatchProperty.
    rewrite E1, E2, E3, E4, E5, E6, E7, E8, E9, E10, E11, E12, E13, E14, E15, E16.
    cbn [orb]. intros H. injection H as <- <-.
    split; [intros _; split; reflexivity |].
    split; [discriminate |].
    intros _. exists (scanner p). symmetry. apply with_scanner_same.
Qed.

(** ** Numbers in property commands *)

Lemma isDigit_not_sign (d : jschar) :
  isDigit d = true ->
  (d =? ch "-") = false /\ (d =? ch "+") = false /\ (d =? ch ".") = false
  /\ (d =? ch "x") = false.
Proof.
  unfold isDigit. intros H. apply andb_prop in H. destruct H as [A B].
  apply Z.leb_le in A, B.
  change (ch "-") with 45. change (ch "+") with 43. change (ch ".") with 46.
  change (ch "x") with 120.
  repeat split; apply Z.eqb_neq; lia.
Qed.

(** [parseFloat] gives a number as soon as the text starts, after an
    optional sign, with a digit or with a dot and a digit. *)
Ltac float_done :=
  cbv iota beta zeta;
  first [ reflexivity
        | apply roundDouble_not_NaN
        | rewrite isNaN_opp; apply roundDouble_not_NaN ].

Ltac float_body :=
  cbv iota; cbn [digitRun take drop app];
  first [float_done | idtac];
  lazymatch goal with
  | |- context [drop (digitRun ?r) ?r] =>
      destruct (drop (digitRun r) r) as [| ? ?];
      [float_done
      | match goal with |- context [if ?c =? ch "." then _ else _] =>
          destruct (c =? ch ".") end; float_done]
  | _ => idtac
  end.

Lemma parseFloat_number (s : jsstring) :
  (exists d r, s = d :: r /\ isDigit d = true)
  \/ (exists d r, s = ch "." :: d :: r /\ isDigit d = true)
  \/ (exists c d r, s = c :: d :: r /\ isSign c = true /\ isDigit d = true)
  \/ (exists c d r, s = c :: ch "." :: d :: r /\ isSign c = true /\ isDigit d = true) ->
  isNaN (parseFloat s) = false.
Proof.
  assert (ND : isDigit (ch ".") = false) by reflexivity.
  intros H. unfold parseFloat.
  destruct H as [(d & r & -> & D) | [(d & r & -> & D) | [(c & d & r & -> & Sg & D)
                                                         | (c & d & r & -> & Sg & D)]]].
  - destruct (isDigit_not_sign d D) as (N1 & N2 & _). rewrite N1, N2.
    cbn [digitRun]. rewrite D. float_body.
  - change (ch "." =? ch "-") with false. change (ch "." =? ch "+") with false.
    cbv iota. cbn [digitRun]. rewrite ND. cbn [take drop]. rewrite Z.eqb_refl.
    cbn [digitRun]. rewrite D. float_body.
  - unfold isSign in Sg.
    destruct (c =? ch "-") eqn:M; [| destruct (c =? ch "+") eqn:P; [| discriminate Sg]];
      cbn [digitRun]; rewrite D; float_body.
  - unfold isSign in Sg.
    destruct (c =? ch "-") eqn:M; [| destruct (c =? ch "+") eqn:P; [| discriminate Sg]];
      cbn [digitRun]; rewrite ND; cbn [take drop]; rewrite Z.eqb_refl;
      cbn [digitRun]; rewrite D; float_body.
Qed.

Lemma digitRun_pos (s : jsstring) :
  (0 < digitRun s)%nat -> exists d r, s = d :: r /\ isDigit d = true.
Proof.
  destruct s as [| d r]; cbn [digitRun]; [lia |].
  destruct (isDigit d) eqn:D; [| lia]. intros _. exists d, r.
  split; [reflexivity | exact D].
Qed.

(** Where the mantissa of a matched literal starts: with a digit, or with a
    dot and a digit; the match extends at least that far. *)
Lemma floatBody_start (relative : bool) (s : jsstring) (n : nat) :
  floatBody true relative s = Some n ->
  (exists d r, s = d :: r /\ isDigit d = true /\ (1 <= n)%nat)
  \/ (exists d r, s = ch "." :: d :: r /\ isDigit d = true /\ (2 <= n)%nat).
Proof.
  unfold floatBody. destruct (matchMantissa true s) as [m |] eqn:M; [| discriminate].
  intros H. cbv zeta in H. injection H as <-. unfold matchMantissa in M.
  destruct (Nat.ltb_spec 0 (digitRun s)) as [P | P].
  - destruct (digitRun_pos s P) as (d & r & -> & D). left. exists d, r.
    split; [reflexivity | split; [exact D |]].
    remember (digitRun (d :: r)) as k eqn:Ek. clear Ek.
    assert (k <= m)%nat; [| lia].
    destruct (drop k (d :: r)) as [| c r'];
      [injection M as <-; lia |].
    destruct (c =? ch "."); injection M as <-; lia.
  - destruct s as [| c r]; [discriminate M |].
    destruct (c =? ch ".") eqn:C; [| discriminate M].
    destruct (Nat.ltb_spec 0 (digitRun r)) as [Q | Q]; [| discriminate M].
    cbn [andb] in M. injection M as <-.
    destruct (digitRun_pos r Q) as (d & r' & -> & D). right.
    apply Z.eqb_eq in C. subst c. exists d, r'.
    split; [reflexivity | split; [exact D | lia]].
Qed.

Lemma floatPattern_start (relative : bool) (s : jsstring) (n : nat) :
  floatPattern relative s = Some n ->
  exists k, (0 < k <= n)%nat
            /\ (exists d, s !! (k - 1)%nat = Some d /\ isDigit d = true)
            /\ forall j, (k <= j)%nat -> isNaN (parseFloat (take j s)) = false.
Proof.
  unfold floatPattern, matchOptSign.
  assert (U : forall n, floatBody true relative s = Some n ->
              exists k, (0 < k <= n)%nat
                        /\ (exists d, s !! (k - 1)%nat = Some d /\ isDigit d = true)
                        /\ forall j, (k <= j)%nat -> isNaN (parseFloat (take j s)) = false).
  { intros n0 H. destruct (floatBody_start _ _ _ H)
      as [(d & r & -> & D & L) | (d & r & -> & D & L)].
    - exists 1%nat. split; [lia |]. split; [exists d; split; [reflexivity | exact D] |].
      intros j Hj. destruct j as [| j]; [lia |]. cbn [take].
      apply parseFloat_number. left. eauto.
    - exists 2%nat. split; [lia |]. split; [exists d; split; [reflexivity | exact D] |].
      intros j Hj. destruct j as [| [| j]]; [lia | lia |]. cbn [take].
      apply parseFloat_number. right. left. eauto. }
  destruct s as [| c r]; [apply U |].
  destruct (isSign c) eqn:Sg; [| apply U].
  destruct (floatBody true relative r) as [n' |] eqn:B.
  - intros H. injection H as <-.
    destruct (floatBody_start _ _ _ B) as [(d & r' & -> & D & L) | (d & r' & -> & D & L)].
    + exists 2%nat. split; [lia |]. split; [exists d; split; [reflexivity | exact D] |].
      intros j Hj. destruct j as [| [| j]]; [lia | lia |]. cbn [take].
      apply parseFloat_number. right. right. left. exists c, d. eauto.
    + exists 3%nat. split; [lia |]. split; [exists d; split; [reflexivity | exact D] |].
      intros j Hj. destruct j as [| [| [| j]]]; [lia | lia | lia |]. cbn [take].
      apply parseFloat_number. right. right. right. exists c, d. eauto.
  - apply U.
Qed.

Lemma slice_drop_last (e : jsstring) : slice e 0 (-1) = take (length e - 1) e.
Proof.
  unfold slice. cbn [Z.ltb Z.compare].
  replace (Z.min 0 (Z.of_nat (length e))) with 0 by lia.
  replace (Z.to_nat (Z.max (Z.of_nat (length e) + -1) 0 - 0)) with (length e - 1)%nat by lia.
  reflexivity.
Qed.

Lemma js_take_take (s : jsstring) (a b : nat) :
  (a <= b)%nat -> take a (take b s) = take a s.
Proof. intros H. rewrite take_take. f_equal. lia. Qed.

(** The number of a matched factor expression, with or without the x. *)
Lemma factorOfExpr_number (s : jsstring) (n : nat) :
  floatPattern true s = Some n -> isNaN (value (factorOfExpr (take n s))) = false.
Proof.
  intros H. destruct (floatPattern_start _ _ _ H) as (k & K & (d & Dk & D) & N).
  unfold factorOfExpr. destruct (endsWith1 (take n s) (ch "x")) eqn:E; cbn [value].
  - pose proof (lookup_lt_Some _ _ _ Dk) as Lk.
    assert (Ll : length (take n s) = Nat.min n (length s)) by apply length_take.
    assert (Sl : slice (take n s) 0 (-1) = take (length (take n s) - 1) s).
    { rewrite slice_drop_last. apply js_take_take. lia. }
    rewrite Sl. apply N.
    destruct (Nat.eq_dec (length (take n s)) k) as [Ek |]; [| lia].
    exfalso. unfold endsWith1 in E.
    assert (La : last (take n s) = Some d).
    { rewrite last_lookup, Ek.
      replace (Nat.pred k) with (k - 1)%nat by lia.
      rewrite lookup_take_lt by lia. exact Dk. }
    rewrite La in E. destruct (isDigit_not_sign d D) as (_ & _ & _ & X). congruence.
  - apply N. lia.
Qed.

Lemma extractFloat_factor (sc sc' : TextScanner) (expr : jsstring) :
  extractFloatExpression true sc = (expr, sc') -> expr <> [] ->
  isNaN (value (factorOfExpr expr)) = false.
Proof.
  unfold extractFloatExpression.
  destruct (floatPattern true (tail sc)) as [n |] eqn:F.
  - intros H _. injection H as <- _. apply factorOfExpr_number. exact F.
  - intros H Ne. injection H as <- _. contradiction.
Qed.

Lemma extractFloat_oblique (sc sc' : TextScanner) (expr : jsstring) :
  extractFloatExpression false sc = (expr, sc') -> expr <> [] ->
  isNaN (parseFloat expr) = false.
Proof.
  unfold extractFloatExpression.
  destruct (floatPattern false (tail sc)) as [n |] eqn:F.
  - intros H _. injection H as <- _.
    destruct (floatPattern_start _ _ _ F) as (k & K & _ & N). apply N. lia.
  - intros H Ne. injection H as <- _. contradiction.
Qed.

(** ** The contexts of the tokens stay in range *)

Lemma wf_context_copy (c : MTextContext) : wf_context c -> wf_context (copy c).
Proof. exact (fun H => H). Qed.

Lemma wf_context_continueStroke (c : MTextContext) (b : bool) :
  wf_context c -> wf_context (set_continueStroke c b).
Proof. exact (fun H => H). Qed.

Lemma wf_context_stroke (c : MTextContext) (s : Z) (state : bool) :
  s = UNDERLINE \/ s = OVERLINE \/ s = STRIKE_THROUGH ->
  wf_context c -> wf_context (_setStrokeState c s state).
Proof.
  intros S (H1 & H2 & H3 & H4 & H5 & H6 & H7 & P1 & P2 & P3 & P4).
  split; [apply setStrokeState_range; assumption |].
  unfold _setStrokeState. destruct state; repeat split; assumption.
Qed.

Ltac parser_frame :=
  repeat match goal with
         | |- context [match ?x with _ => _ end] => destruct x eqn:?
         end;
  cbn; repeat split; try reflexivity; try assumption.

Lemma parseAlign_wf p c :
  wf_context c ->
  wf_context (snd (parseAlign p c))
  /\ ctx (fst (parseAlign p c)) = ctx p /\ ctxStack (fst (parseAlign p c)) = ctxStack p.
Proof.
  intros H. unfold parseAlign.
  destruct (get (scanner p)) as [char sc]. cbn [fst snd].
  split; [destruct (includes1 _ _); exact H | split; reflexivity].
Qed.

Lemma parseHeight_wf p c :
  wf_context c ->
  wf_context (snd (parseHeight p c))
  /\ ctx (fst (parseHeight p c)) = ctx p /\ ctxStack (fst (parseHeight p c)) = ctxStack p.
Proof.
  intros H. unfold parseHeight.
  destruct (extractFloatExpression true (scanner p)) as [expr sc] eqn:E. cbn [fst snd].
  split; [| split; reflexivity].
  destruct expr as [| e0 expr]; [exact H |].
  pose proof (extractFloat_factor _ _ _ E ltac:(discriminate)) as N.
  destruct H as (H1 & H2 & H3 & H4 & H5 & H6 & H7 & P1 & P2 & P3 & P4).
  split; [exact H1 |]. repeat split; try assumption; apply nonNegative_abs; exact N.
Qed.

Lemma parseWidth_wf p c :
  wf_context c ->
  wf_context (snd (parseWidth p c))
  /\ ctx (fst (parseWidth p c)) = ctx p /\ ctxStack (fst (parseWidth p c)) = ctxStack p.
Proof.
  intros H. unfold parseWidth.
  destruct (extractFloatExpression true (scanner p)) as [expr sc] eqn:E. cbn [fst snd].
  split; [| split; reflexivity].
  destruct expr as [| e0 expr]; [exact H |].
  pose proof (extractFloat_factor _ _ _ E ltac:(discriminate)) as N.
  destruct H as (H1 & H2 & H3 & H4 & H5 & H6 & H7 & P1 & P2 & P3 & P4).
  split; [exact H1 |]. repeat split; try assumption; apply nonNegative_abs; exact N.
Qed.

Lemma parseCharTracking_wf p c :
  wf_context c ->
  wf_context (snd (parseCharTracking p c))
  /\ ctx (fst (parseCharTracking p c)) = ctx p
  /\ ctxStack (fst (parseCharTracking p c)) = ctxStack p.
Proof.
  intros H. unfold parseCharTracking.
  destruct (extractFloatExpression true (scanner p)) as [expr sc] eqn:E. cbn [fst snd].
  split; [| split; reflexivity].
  destruct expr as [| e0 expr]; [exact H |].
  pose proof (extractFloat_factor _ _ _ E ltac:(discriminate)) as N.
  destruct H as (H1 & H2 & H3 & H4 & H5 & H6 & H7 & P1 & P2 & P3 & P4).
  split; [exact H1 |]. repeat split; try assumption.
  apply nonNegative_abs. cbn [absFactor value]. rewrite isNaN_abs. exact N.
Qed.

Lemma parseOblique_wf p c :
  wf_context c ->
  wf_context (snd (parseOblique p c))
  /\ ctx (fst (parseOblique p c)) = ctx p /\ ctxStack (fst (parseOblique p c)) = ctxStack p.
Proof.
  intros H. unfold parseOblique.
  destruct (extractFloatExpression false (scanner p)) as [expr sc] eqn:E. cbn [fst snd].
  split; [| split; reflexivity].
  destruct expr as [| e0 expr]; [exact H |].
  pose proof (extractFloat_oblique _ _ _ E ltac:(discriminate)) as N.
  destruct H as (H1 & H2 & H3 & H4 & H5 & H6 & H7 & P1 & P2 & P3 & P4).
  split; [exact H1 |]. repeat split; assumption.
Qed.

Lemma parseAciColor_frame_ctx p c :
  ctx (fst (parseAciColor p c)) = ctx p /\ ctxStack (fst (parseAciColor p c)) = ctxStack p.
Proof. unfold parseAciColor. parser_frame. Qed.

Lemma parseAciColor_wf p c c' :
  wf_context c -> snd (parseAciColor p c) = Ok c' -> wf_context c'.
Proof.
  intros H E. destruct (parseAciColor_ok p c) as (c1 & E1 & [-> | A]).
  - assert (c' = c) by congruence. subst c'. exact H.
  - assert (c' = c1) by congruence. subst c'.
    destruct A as (A1 & A2 & A3 & A4 & A5 & A6 & A7 & A8).
    destruct H as (H1 & H2 & H3 & H4 & H5 & H6 & H7 & P1 & P2 & P3 & P4).
    unfold wf_context, capHeight, widthFactor, charTrackingFactor.
    rewrite A2, A3, A4, A5, A6, A7, A8. split; [exact H1 |]. repeat split; assumption.
Qed.

Lemma parseRgbColor_wf p c :
  wf_context c ->
  wf_context (snd (parseRgbColor p c))
  /\ ctx (fst (parseRgbColor p c)) = ctx p /\ ctxStack (fst (parseRgbColor p c)) = ctxStack p.
Proof.
  intros H. unfold parseRgbColor.
  destruct (extractIntExpression (scanner p)) as [expr sc].
  destruct expr as [| d ds]; [cbn [fst snd]; split; [exact H | split; reflexivity] |].
  rewrite int2rgb_wrap. cbn [fst snd]. split; [| split; reflexivity].
  destruct H as (H1 & H2 & H3 & H4 & H5 & H6 & H7 & P1 & P2 & P3 & P4).
  split; [exact H1 |]. repeat split; try assumption; cbn; apply land_255_range.
Qed.

Lemma parseFontProperties_wf p c :
  wf_context c ->
  wf_context (snd (parseFontProperties p c))
  /\ ctx (fst (parseFontProperties p c)) = ctx p
  /\ ctxStack (fst (parseFontProperties p c)) = ctxStack p.
Proof.
  intros H. unfold parseFontProperties.
  destruct (extractExpression false (scanner p)) as [expr sc]. cbn [fst snd].
  split; [| split; reflexivity].
  destruct (split (ch "|") expr) as [| [| n0 name] rest]; try exact H.
  destruct (fold_left _ rest _) as [style weight]. exact H.
Qed.

(** The numbers of the paragraph command. *)
Lemma paragraphFloat_number (s : jsstring) (n : nat) :
  paragraphFloatPattern s = Some n -> isNaN (parseFloat (take n s)) = false.
Proof.
  assert (U : forall s n, floatBody false false s = Some n ->
                          exists d r, s = d :: r /\ isDigit d = true /\ (1 <= n)%nat).
  { intros s0 n0. unfold floatBody.
    destruct (matchMantissa false s0) as [m |] eqn:M; [| discriminate].
    intros H. cbv zeta in H. injection H as <-. unfold matchMantissa in M.
    destruct (Nat.ltb_spec 0 (digitRun s0)) as [P | P]; [| discriminate M].
    destruct (digitRun_pos s0 P) as (d & r & -> & D). exists d, r.
    split; [reflexivity | split; [exact D |]].
    remember (digitRun (d :: r)) as k eqn:Ek. clear Ek.
    assert (k <= m)%nat; [| lia].
    destruct (drop k (d :: r)) as [| c r']; [injection M as <-; lia |].
    destruct (c =? ch "."); injection M as <-; lia. }
  assert (V : forall s n, floatBody false false s = Some n ->
                          isNaN (parseFloat (take n s)) = false).
  { intros s0 n0 H. destruct (U _ _ H) as (d & r & -> & D & L).
    destruct n0 as [| n0]; [lia |]. cbn [take].
    apply parseFloat_number. left. eauto. }
  unfold paragraphFloatPattern, matchOptSign.
  destruct s as [| c r]; [apply V |].
  destruct (isSign c) eqn:Sg; [| apply V].
  destruct (floatBody false false r) as [n' |] eqn:B; [| apply V].
  intros H. injection H as <-.
  destruct (U _ _ B) as (d & r' & -> & D & L).
  destruct n' as [| n']; [lia |]. cbn [take].
  apply parseFloat_number. right. right. left. exists c, d. eauto.
Qed.

Lemma parseFloatValue_number (sc : TextScanner) : isNaN (fst (parseFloatValue sc)) = false.
Proof.
  unfold parseFloatValue.
  destruct (paragraphFloatPattern (tail sc)) as [n |] eqn:P; cbn [fst]; [| reflexivity].
  apply paragraphFloat_number. exact P.
Qed.

Lemma push_Forall (P : TabStop -> Prop) (stops stops' : list TabStop) (t : TabStop) :
  push stops t = Ok stops' -> Forall P stops -> P t -> Forall P stops'.
Proof.
  unfold push. destruct (_ <? _); [| discriminate].
  intros H F Pt. injection H as <-. apply Forall_app. split; [exact F |].
  constructor; [exact Pt | constructor].
Qed.

Lemma tabStops_loop_wf :
  forall (fuel : nat) (sc sc' : TextScanner) (stops stops' : list TabStop),
    tabStops_loop fuel sc stops = Some (Ok (sc', stops')) ->
    Forall (fun t => isNaN (tabStopValue t) = false) stops ->
    Forall (fun t => isNaN (tabStopValue t) = false) stops'.
Proof.
  induction fuel as [| fuel IH]; intros sc sc' stops stops' E F; [discriminate E |].
  cbn [tabStops_loop] in E.
  destruct (hasData sc); [| injection E as <- <-; exact F].
  destruct (eqc (peek 0 sc) (ch "r") || eqc (peek 0 sc) (ch "c")).
  - pose proof (parseFloatValue_number (consume 1 sc)) as N.
    destruct (parseFloatValue (consume 1 sc)) as [v sc1]. cbn [fst] in N.
    destruct (push stops _) as [stops1 |] eqn:Pu; [| discriminate E].
    apply (IH _ _ _ _ E). apply (push_Forall _ _ _ _ Pu F). exact N.
  - pose proof (parseFloatValue_number sc) as N.
    destruct (parseFloatValue sc) as [v sc1]. cbn [fst] in N.
    rewrite N in E. cbn [negb] in E.
    destruct (push stops _) as [stops1 |] eqn:Pu; [| discriminate E].
    apply (IH _ _ _ _ E). apply (push_Forall _ _ _ _ Pu F). exact N.
Qed.

Lemma paragraph_loop_wf :
  forall (fuel : nat) (sc : TextScanner) (l l' : ParagraphLocals),
    paragraph_loop fuel sc l = Some (Ok l') ->
    isNaN (l_indent l) = false -> isNaN (l_left l) = false -> isNaN (l_right l) = false ->
    Forall (fun t => isNaN (tabStopValue t) = false) (l_tabStops l) ->
    isNaN (l_indent l') = false /\ isNaN (l_left l') = false /\ isNaN (l_right l') = false
    /\ Forall (fun t => isNaN (tabStopValue t) = false) (l_tabStops l').
Proof.
  induction fuel as [| fuel IH]; intros sc l l' E Hi Hl Hr Ht; [discriminate E |].
  cbn [paragraph_loop] in E.
  destruct (hasData sc); [| injection E as <-; repeat split; assumption].
  destruct (get sc) as [cmd sc1].
  destruct (eqc cmd (ch "i")).
  { pose proof (parseFloatValue_number sc1) as N.
    destruct (parseFloatValue sc1) as [v sc2]. apply (IH _ _ _ E); assumption. }
  destruct (eqc cmd (ch "l")).
  { pose proof (parseFloatValue_number sc1) as N.
    destruct (parseFloatValue sc1) as [v sc2]. apply (IH _ _ _ E); assumption. }
  destruct (eqc cmd (ch "r")).
  { pose proof (parseFloatValue_number sc1) as N.
    destruct (parseFloatValue sc1) as [v sc2]. apply (IH _ _ _ E); assumption. }
  destruct (eqc cmd (ch "x")); [apply (IH _ _ _ E); assumption |].
  destruct (eqc cmd (ch "q")).
  { destruct (get sc1) as [adjustment sc2]. apply (IH _ _ _ E); assumption. }
  destruct (eqc cmd (ch "t")); [| apply (IH _ _ _ E); assumption].
  destruct (tabStops_loop fuel sc1 []) as [[[sc2 stops] |] |] eqn:T;
    [| discriminate E | discriminate E].
  apply (IH _ _ _ E); try assumption.
  apply (tabStops_loop_wf _ _ _ _ _ T). constructor.
Qed.

Lemma parseParagraphProperties_wf fuel p c p' c' :
  parseParagraphProperties fuel p c = Some (p', Ok c') ->
  wf_context c ->
  wf_context c' /\ ctx p' = ctx p /\ ctxStack p' = ctxStack p.
Proof.
  unfold parseParagraphProperties.
  destruct (extractExpression false (scanner p)) as [expr sc].
  destruct (paragraph_loop fuel _ _) as [[l |] |] eqn:P; [| discriminate | discriminate].
  intros E H. injection E as <- <-. split; [| split; reflexivity].
  destruct H as (H1 & H2 & H3 & H4 & H5 & H6 & H7 & P1 & P2 & P3 & P4).
  split; [exact H1 |]. repeat split; try assumption;
    apply (paragraph_loop_wf _ _ _ _ P); try assumption; constructor.
Qed.

Lemma dispatchProperty_wf fuel cmd p c p' c' :
  dispatchProperty fuel cmd p c = Some (p', Ok c') ->
  wf_context c ->
  wf_context c' /\ ctx p' = ctx p /\ ctxStack p' = ctxStack p.
Proof.
  intros D H. unfold dispatchProperty in D.
  pose proof (parseAlign_wf p c H) as PA.
  pose proof (parseRgbColor_wf p c H) as PR.
  pose proof (parseHeight_wf p c H) as PH.
  pose proof (parseWidth_wf p c H) as PW.
  pose proof (parseOblique_wf p c H) as PO.
  pose proof (parseCharTracking_wf p c H) as PT.
  pose proof (parseFontProperties_wf p c H) as PF.
  pose proof (parseAciColor_frame_ctx p c) as PCf.
  pose proof (parseAciColor_wf p c) as PC.
  pose proof (parseParagraphProperties_wf fuel p c) as PP.
  pose proof (fun s st S => wf_context_stroke c s st S H) as ST.
  destruct (parseAlign p c), (parseAciColor p c) as [pa ra], (parseRgbColor p c),
    (parseHeight p c), (parseWidth p c), (parseOblique p c), (parseCharTracking p c),
    (parseFontProperties p c), (parseParagraphProperties fuel p c) as [[? [? |]] |];
    cbn [fst snd] in *.
  all: repeat match type of D with
              | context [if ?x then _ else _] => destruct x
              end.
  all: try discriminate D.
  all: first [injection D as <- <- | injection D as D1 D2].
  all: try assumption.
  all: try (split; [| split; reflexivity];
            first [ exact (ST UNDERLINE true (or_introl eq_refl))
                  | exact (ST UNDERLINE false (or_introl eq_refl))
                  | exact (ST OVERLINE true (or_intror (or_introl eq_refl)))
                  | exact (ST OVERLINE false (or_intror (or_introl eq_refl)))
                  | exact (ST STRIKE_THROUGH true (or_intror (or_intror eq_refl)))
                  | exact (ST STRIKE_THROUGH false (or_intror (or_intror eq_refl))) ]).
  all: try (subst p'; split; [apply (PC _ H); exact D2 | exact PCf]).
  all: exact (PP _ _ eq_refl H).
Qed.

(** The invariant of the parser: the current context and the saved ones. *)
Lemma parseProperties_wf fuel cmd p p' r :
  parseProperties fuel cmd p = Some (p', r) ->
  wf_context (ctx p) ->
  wf_context (ctx p') /\ ctxStack p' = ctxStack p.
Proof.
  unfold parseProperties. intros E H.
  destruct (dispatchProperty fuel cmd p (copy (ctx p))) as [[p1 [c1 |]] |] eqn:D;
    [| | discriminate].
  - destruct (dispatchProperty_wf _ _ _ _ _ _ D (wf_context_copy _ H)) as (W & C & S).
    revert E. cbn [with_continueStroke with_ctx yieldPropertyCommands parserContinueStroke
                   lastCtx ctx].
    destruct (yieldPropertyCommands p1); [destruct (hasKeys _) |];
      intros E; injection E as <- <-; cbn; split; assumption.
  - destruct (dispatchProperty_throw _ _ _ _ _ _ D) as (_ & _ & T). injection E as <- <-.
    destruct (T eq_refl) as [sc ->]. split; [exact H | reflexivity].
Qed.

Lemma Forall_last {A} (P : A -> Prop) (l : list A) (x : A) :
  Forall P l -> last l = Some x -> P x /\ Forall P (removelast l).
Proof.
  intros F L. destruct (last_Some l x) as [[l' ->] _]; [exact L |].
  apply Forall_app in F. destruct F as [F1 F2].
  rewrite removelast_last. split; [| exact F1].
  inversion F2; assumption.
Qed.

Lemma plainChar_wf p word letter escape :
  wf_context (ctx p) -> Forall wf_context (ctxStack p) ->
  wf_context (ctx (step_parser (plainChar p word letter escape)))
  /\ Forall wf_context (ctxStack (step_parser (plainChar p word letter escape))).
Proof.
  intros H F.
  assert (Push : Forall wf_context (ctxStack p ++ [ctx p])).
  { apply Forall_app. split; [exact F | constructor; [exact H | constructor]]. }
  assert (Pop : wf_context (ctx (popCtx (with_scanner p (consume 1 (scanner p)))))
                /\ Forall wf_context
                     (ctxStack (popCtx (with_scanner p (consume 1 (scanner p)))))).
  { unfold popCtx. cbn [with_scanner ctxStack].
    destruct (last (ctxStack p)) as [x |] eqn:L; [| split; assumption].
    cbn. apply (Forall_last _ _ _ F L). }
  unfold plainChar.
  repeat match goal with
         | |- context [match ?x with _ => _ end] => destruct x eqn:?
         end; cbn [step_parser]; try (split; assumption); try exact Pop.
Qed.

Lemma loop_body_wf gbk big5 fuel p word st :
  loop_body gbk big5 fuel p word = Some st ->
  wf_context (ctx p) -> Forall wf_context (ctxStack p) ->
  wf_context (ctx (step_parser st)) /\ Forall wf_context (ctxStack (step_parser st)).
Proof.
  intros B H F. unfold loop_body in B.
  destruct (code_lt (peek 0 (scanner p)) 32).
  { destruct (eqc (peek 0 (scanner p)) 9); [injection B as <-; split; assumption |].
    destruct (eqc (peek 0 (scanner p)) 10); [injection B as <-; split; assumption |].
    injection B as <-. apply plainChar_wf; assumption. }
  destruct (eqc (peek 0 (scanner p)) (ch "\"));
    [| injection B as <-; apply plainChar_wf; assumption].
  destruct (includes1 _ _); [injection B as <-; apply plainChar_wf; assumption |].
  destruct word as [| w0 word]; [| injection B as <-; split; assumption].
  destruct (get (consume 1 (scanner p))) as [cmd sc].
  unfold commandSwitch in B.
  destruct (eqc cmd (ch "~")); [injection B as <-; split; assumption |].
  destruct (eqc cmd (ch "P")); [injection B as <-; split; assumption |].
  destruct (eqc cmd (ch "N")); [injection B as <-; split; assumption |].
  destruct (eqc cmd (ch "X")); [injection B as <-; split; assumption |].
  destruct (eqc cmd (ch "S")).
  { destruct (parseStacking (with_inStackContext (with_scanner p sc) true))
      as [r p1] eqn:PS.
    injection B as <-. unfold parseStacking in PS.
    destruct (extractExpression true _) as [expr sc'] in PS.
    injection PS as _ <-. split; assumption. }
  destruct (eqc cmd (ch "m") || eqc cmd (ch "M")).
  { injection B as <-. unfold multiByte.
    repeat match goal with
           | |- context [match ?x with _ => _ end] => destruct x eqn:?
           end; split; assumption. }
  destruct cmd as [c |]; [| injection B as <-; split; assumption].
  destruct (parseProperties fuel c (with_scanner p sc)) as [[p1 r] |] eqn:E;
    [| discriminate B].
  destruct (parseProperties_wf _ _ _ _ _ E H) as [W S]. cbn [with_scanner ctxStack] in S.
  destruct r as [[pc |] |].
  - destruct (yieldPropertyCommands p1); injection B as <-; cbn; rewrite ?S; split; assumption.
  - injection B as <-. cbn. rewrite S. split; assumption.
  - injection B as <-. cbn. rewrite S. split; assumption.
Qed.

Lemma nextToken_loop_wf gbk big5 :
  forall (n : nat) (p : MTextParser) (word : jsstring) t d f p',
    nextToken_loop gbk big5 n p word = Some (t, d, f, p') ->
    wf_context (ctx p) -> Forall wf_context (ctxStack p) ->
    wf_context (ctx p') /\ Forall wf_context (ctxStack p').
Proof.
  induction n as [| n IH]; intros p word t d f p' E H F; [discriminate E |].
  cbn [nextToken_loop] in E. destruct (hasData (scanner p)).
  - destruct (loop_body gbk big5 n p word) as [st |] eqn:B; [| discriminate E].
    destruct (loop_body_wf _ _ _ _ _ _ B H F) as [H1 F1].
    destruct st as [p1 w1 | t1 d1 f1 p1]; cbn [step_parser] in *.
    + apply (IH _ _ _ _ _ _ E H1 F1).
    + injection E as <- <- <- <-. split; assumption.
  - destruct word; injection E as <- <- <- <-; split; assumption.
Qed.

(** X12.  When the initial context has its values in range (stroke word a
    combination of the three flags, colour index a number from 0 to 256,
    RGB components bytes, the three factors not negative, the oblique angle
    and the numbers of the paragraph properties not NaN), so has the
    context of every token of a finished run, whatever the input: no
    command stores a colour out of range, a negative factor, or NaN in one
    of these fields (a factor can be the positive infinity).  The line
    alignment is not among them. *)
Theorem token_contexts_in_range gbk big5 (fuel : nat) (content : jsstring)
    (c : MTextContext) (yieldCommands : bool) (tokens : list MTextToken) :
  wf_context c ->
  parse gbk big5 fuel content c yieldCommands = Some tokens ->
  Forall (fun tok => wf_context (tok_ctx tok)) tokens.
Proof.
  unfold parse. intros H.
  assert (F : Forall wf_context (ctxStack (newMTextParser content c yieldCommands)))
    by constructor.
  change c with (ctx (newMTextParser content c yieldCommands)) in H.
  revert H F. generalize (newMTextParser content c yieldCommands) as p.
  clear content c yieldCommands.
  revert tokens. induction fuel as [| n IH]; intros tokens p H F E; [discriminate E |].
  destruct (parse_loop_inv _ _ _ _ _ E) as (t & d & f & p' & N & [[_ ->] | (T & rest & R & ->)]);
    [constructor |].
  destruct (nextToken_loop_wf _ _ _ _ _ _ _ _ _ N H F) as [H' F'].
  pose proof (IH _ _ H' F' R) as Rest.
  constructor; [exact H' |].
  destruct f; cbn [app]; [constructor; [exact H' | exact Rest] | exact Rest].
Qed.

Lemma token_contexts_in_range_witness :
  wf_context newMTextContext
  /\ exists tokens,
       parse noDecoder noDecoder 60 (js "{\C300;\c16777215;\H-2x;\pi1,tr2,3;a}\Q1e999;b") newMTextContext false
       = Some tokens
       /\ Forall (fun tok => wf_context (tok_ctx tok)) tokens.
Proof.
  assert (W : wf_context newMTextContext).
  { unfold wf_context. cbn.
    split; [lia |]. split; [apply (inAciRange_integer 7); lia |]. split; [exact I |].
    repeat split; try discriminate; constructor. }
  split; [exact W |].
  eexists. split; [vm_compute; reflexivity |].
  apply (token_contexts_in_range noDecoder noDecoder 60
           (js "{\C300;\c16777215;\H-2x;\pi1,tr2,3;a}\Q1e999;b") newMTextContext false _ W).
  vm_compute. reflexivity.
Defined.

(** ** escapeDxfLineEndings and hasInlineFormattingCodes *)

Lemma escapeDxfLineEndings_no_line_end (text : jsstring) :
  forallb (fun c => negb (c =? 13) && negb (c =? 10)) (escapeDxfLineEndings text) = true.
Proof.
  assert (G : forall n (t : jsstring), (length t <= n)%nat ->
              forallb (fun c => negb (c =? 13) && negb (c =? 10)) (escapeDxfLineEndings t)
              = true).
  { induction n as [| n IH]; intros t L.
    - destruct t; [reflexivity | simpl in L; lia].
    - destruct t as [| c r]; [reflexivity |]. cbn [escapeDxfLineEndings].
      cbn [length] in L.
      destruct (c =? 13) eqn:C13.
      + destruct r as [| d r']; [reflexivity |]. cbn [length] in L.
        destruct (d =? 10); cbn [js list_ascii_of_string map app forallb];
          change (ch "\") with 92; change (ch "P") with 80; cbn [Z.eqb negb andb Pos.eqb];
          apply IH; cbn [length]; lia.
      + destruct (c =? 10) eqn:C10.
        * cbn [js list_ascii_of_string map app forallb].
          change (ch "\") with 92; change (ch "P") with 80. cbn [Z.eqb negb andb Pos.eqb].
          apply IH; lia.
        * cbn [forallb]. rewrite C13, C10. cbn [negb andb]. apply IH; lia. }
  apply (G (length text)). lia.
Qed.

Lemma escapeDxfLineEndings_fixes (text : jsstring) :
  forallb (fun c => negb (c =? 13) && negb (c =? 10)) text = true ->
  escapeDxfLineEndings text = text.
Proof.
  induction text as [| c r IH]; [reflexivity |].
  cbn [forallb]. intros H. apply andb_prop in H. destruct H as [H1 H2].
  apply andb_prop in H1. destruct H1 as [C13 C10].
  apply negb_true_iff in C13, C10.
  cbn [escapeDxfLineEndings]. rewrite C13, C10, (IH H2). reflexivity.
Qed.

(** X13.  The text [escapeDxfLineEndings] returns contains neither a
    carriage return nor a line feed; a text without them is returned as it
    is, so that escaping twice is escaping once; and a CR LF pair becomes
    one escape, not two. *)
Theorem escapeDxfLineEndings_spec (text : jsstring) :
  forallb (fun c => negb (c =? 13) && negb (c =? 10)) (escapeDxfLineEndings text) = true
  /\ (forallb (fun c => negb (c =? 13) && negb (c =? 10)) text = true ->
      escapeDxfLineEndings text = text)
  /\ escapeDxfLineEndings (escapeDxfLineEndings text) = escapeDxfLineEndings text
  /\ escapeDxfLineEndings (13 :: 10 :: text) = js "\P" ++ escapeDxfLineEndings text.
Proof.
  split; [apply escapeDxfLineEndings_no_line_end |].
  split; [apply escapeDxfLineEndings_fixes |].
  split; [apply escapeDxfLineEndings_fixes, escapeDxfLineEndings_no_line_end |].
  reflexivity.
Qed.

Lemma removeCommand_other (x c : jschar) (s : jsstring) :
  (c =? ch "\") = false -> removeCommand x (c :: s) = c :: removeCommand x s.
Proof.
  intros C. cbn [removeCommand]. destruct s as [| d r]; [reflexivity |].
  rewrite C. reflexivity.
Qed.

Lemma removeCommand_no_backslash (x : jschar) (s : jsstring) :
  existsb (Z.eqb (ch "\")) s = false -> removeCommand x s = s.
Proof.
  induction s as [| c r IH]; [reflexivity |].
  cbn [existsb]. intros H. apply orb_false_elim in H. destruct H as [C H].
  rewrite Z.eqb_sym in C. rewrite (removeCommand_other x c r C), (IH H). reflexivity.
Qed.

Lemma includes_backslash (s : jsstring) :
  includes s (js "\") = existsb (Z.eqb (ch "\")) s.
Proof.
  induction s as [| c r IH]; [reflexivity |].
  cbn [includes existsb]. rewrite IH.
  cbn [js list_ascii_of_string map startsWith].
  replace (startsWith r []) with true by (destruct r; reflexivity).
  rewrite andb_true_r. reflexivity.
Qed.

(** Removing the escapes of an escaped text without backslash leaves a text
    without backslash. *)
Lemma removeCommand_escaped (text : jsstring) :
  existsb (Z.eqb (ch "\")) text = false ->
  existsb (Z.eqb (ch "\")) (removeCommand (ch "P") (escapeDxfLineEndings text)) = false.
Proof.
  assert (G : forall n (t : jsstring), (length t <= n)%nat ->
              existsb (Z.eqb (ch "\")) t = false ->
              existsb (Z.eqb (ch "\")) (removeCommand (ch "P") (escapeDxfLineEndings t))
              = false).
  { induction n as [| n IH]; intros t L H.
    - destruct t; [reflexivity | simpl in L; lia].
    - destruct t as [| c r]; [reflexivity |]. cbn [length] in L.
      cbn [existsb] in H. apply orb_false_elim in H. destruct H as [C H].
      cbn [escapeDxfLineEndings].
      assert (E : forall s, removeCommand (ch "P") (js "\P" ++ s) = removeCommand (ch "P") s)
        by reflexivity.
      destruct (c =? 13).
      + destruct r as [| d r']; [reflexivity |]. cbn [length] in L.
        cbn [existsb] in H. apply orb_false_elim in H. destruct H as [D H'].
        destruct (d =? 10); rewrite E; apply IH; cbn [length existsb]; try lia;
          try assumption.
        rewrite D, H'. reflexivity.
      + destruct (c =? 10); [rewrite E; apply IH; [lia | exact H] |].
        rewrite Z.eqb_sym in C. rewrite (removeCommand_other _ c _ C).
        cbn [existsb]. rewrite Z.eqb_sym, C. apply IH; [lia | exact H]. }
  apply (G (length text)). lia.
Qed.

(** X14.  A text without a backslash has no inline formatting codes, and
    it still has none after its line endings have been escaped: the escapes
    [escapeDxfLineEndings] inserts do not count as formatting. *)
Theorem hasInlineFormattingCodes_plain (text : jsstring) :
  existsb (Z.eqb (ch "\")) text = false ->
  hasInlineFormattingCodes text = false
  /\ hasInlineFormattingCodes (escapeDxfLineEndings text) = false.
Proof.
  intros H. unfold hasInlineFormattingCodes. rewrite !includes_backslash. split.
  - rewrite !removeCommand_no_backslash; try exact H.
    rewrite removeCommand_no_backslash; exact H.
  - rewrite (removeCommand_no_backslash (ch "~")); apply removeCommand_escaped; exact H.
Qed.

Lemma hasInlineFormattingCodes_plain_witness :
  existsb (Z.eqb (ch "\")) [ch "a"; 13; 10; ch "b"; 10] = false
  /\ hasInlineFormattingCodes (escapeDxfLineEndings [ch "a"; 13; 10; ch "b"; 10]) = false.
Proof.
  assert (H : existsb (Z.eqb (ch "\")) [ch "a"; 13; 10; ch "b"; 10] = false) by reflexivity.
  split; [exact H |].
  apply (hasInlineFormattingCodes_plain _ H).
Defined.

(** ** Expressions *)

(** How [extractExpression] cuts the unread text, without the escape flag. *)
Lemma extractExpression_cases (sc : TextScanner) :
  wf_scanner sc ->
  (forall a b,
      tail sc = a ++ ch ";" :: b -> ~ In (ch ";") a ->
      extractExpression false sc
      = if eqc (peek (Z.of_nat (length a) - 1) sc) (ch "\")
        then (a ++ [ch ";"], consume (Z.of_nat (length a) + 2) sc)
        else (a, consume (Z.of_nat (length a) + 1) sc))
  /\ (~ In (ch ";") (tail sc) ->
      extractExpression false sc = (tail sc, consume (Z.of_nat (remaining sc)) sc)).
Proof.
  intros W. pose proof W as [L I].
  pose proof (find_loop_first (text sc) (textLen sc) (ch ";")
                (Z.to_nat (textLen sc - _index sc)) (_index sc) ltac:(lia)) as F.
  cbv zeta in F. fold (find (ch ";") false sc) in F.
  split.
  - intros a b T Na.
    assert (At : forall k, (k < length a)%nat ->
                   charAt (text sc) (_index sc + Z.of_nat k) = a !! k).
    { intros k Hk. rewrite charAt_tail by (try exact W; lia).
      rewrite T, Nat2Z.id. apply js_lookup_app_l. exact Hk. }
    assert (As : charAt (text sc) (_index sc + Z.of_nat (length a)) = Some (ch ";")).
    { rewrite charAt_tail by (try exact W; lia).
      rewrite T, Nat2Z.id. apply js_lookup_middle. }
    assert (Len : (length a < remaining sc)%nat).
    { rewrite <- length_tail by exact W. rewrite T, length_app. cbn [length]. lia. }
    unfold remaining in Len.
    assert (St : find (ch ";") false sc = _index sc + Z.of_nat (length a)).
    { destruct F as [[_ N] | (B & C & N)].
      - exfalso. apply (N (_index sc + Z.of_nat (length a))); [lia | exact As].
      - destruct (Z.lt_trichotomy (find (ch ";") false sc) (_index sc + Z.of_nat (length a)))
          as [Lt | [Eq | Gt]]; [| exact Eq |].
        + exfalso. apply Na.
          replace (find (ch ";") false sc)
            with (_index sc + Z.of_nat (Z.to_nat (find (ch ";") false sc - _index sc)))
            in C by lia.
          rewrite At in C by lia.
          apply (js_lookup_In a _ _ C).
        + exfalso. apply (N (_index sc + Z.of_nat (length a))); [lia | exact As]. }
    unfold extractExpression. rewrite St.
    destruct (Z.ltb_spec (_index sc + Z.of_nat (length a)) 0); [lia |].
    unfold currentIndex.
    replace (_index sc + Z.of_nat (length a) - _index sc - 1)
      with (Z.of_nat (length a) - 1) by lia.
    replace (_index sc + Z.of_nat (length a) - _index sc) with (Z.of_nat (length a)) by lia.
    assert (Sl : forall n, (n <= length (tail sc))%nat ->
                   slice (tail sc) 0 (Z.of_nat n) = take n (tail sc)).
    { intros n Hn. unfold slice. cbn [Z.ltb Z.compare].
      destruct (Z.ltb_spec (Z.of_nat n) 0); [lia |].
      rewrite Z.min_l, Z.min_l by lia. cbn [Z.to_nat drop].
      rewrite Z.sub_0_r, Nat2Z.id. reflexivity. }
    assert (LT : length (tail sc) = (length a + S (length b))%nat)
      by (rewrite T, length_app; reflexivity).
    destruct (eqc (peek (Z.of_nat (length a) - 1) sc) (ch "\")).
    + replace (Z.of_nat (length a) + 1) with (Z.of_nat (length a + 1)) by lia.
      rewrite Sl by lia. rewrite T.
      replace (take (length a + 1) (a ++ ch ";" :: b)) with (a ++ [ch ";"]).
      * rewrite length_app. cbn [length]. do 2 f_equal. lia.
      * rewrite take_app_ge by lia.
        replace (length a + 1 - length a)%nat with 1%nat by lia. reflexivity.
    + rewrite Z.add_0_r. rewrite Sl by lia. rewrite T.
      rewrite take_app_length. reflexivity.
  - intros N.
    assert (S : find (ch ";") false sc = -1).
    { destruct F as [[E _] | (B & C & _)]; [exact E |].
      exfalso. apply N.
      replace (find (ch ";") false sc)
        with (_index sc + (find (ch ";") false sc - _index sc)) in C by lia.
      rewrite charAt_tail in C by (try exact W; lia).
      apply (js_lookup_In _ _ _ C). }
    unfold extractExpression. rewrite S. cbn [Z.ltb Z.compare].
    rewrite length_tail by exact W. reflexivity.
Qed.

(** X15.  Without the escape flag, [extractExpression] splits the unread
    text at its first semicolon: the expression is what stands before it and
    the scanner continues with what stands after it; when the character
    before that semicolon is a backslash, the semicolon is part of the
    expression and the character after it is skipped; without a semicolon
    the expression is the whole unread text and nothing is left unread. *)
Theorem extractExpression_splits (sc : TextScanner) :
  wf_scanner sc ->
  (forall a b,
      tail sc = a ++ ch ";" :: b -> ~ In (ch ";") a ->
      if eqc (peek (Z.of_nat (length a) - 1) sc) (ch "\")
      then fst (extractExpression false sc) = a ++ [ch ";"]
           /\ tail (snd (extractExpression false sc)) = drop 1 b
      else fst (extractExpression false sc) = a
           /\ tail (snd (extractExpression false sc)) = b)
  /\ (~ In (ch ";") (tail sc) ->
      fst (extractExpression false sc) = tail sc
      /\ tail (snd (extractExpression false sc)) = []).
Proof.
  intros W. destruct (extractExpression_cases sc W) as [C1 C2]. split.
  - intros a b T Na. rewrite (C1 a b T Na).
    destruct (eqc (peek (Z.of_nat (length a) - 1) sc) (ch "\")); cbn [fst snd];
      (split; [reflexivity |]); rewrite tail_consume by (try exact W; lia); rewrite T.
    + replace (Z.to_nat (Z.of_nat (length a) + 2)) with (length a + 2)%nat by lia.
      rewrite <- drop_drop, drop_app_length. reflexivity.
    + replace (Z.to_nat (Z.of_nat (length a) + 1)) with (length a + 1)%nat by lia.
      rewrite <- drop_drop, drop_app_length. reflexivity.
  - intros N. rewrite (C2 N). cbn [fst snd]. split; [reflexivity |].
    rewrite tail_consume by (try exact W; lia).
    apply drop_ge. rewrite length_tail by exact W. lia.
Qed.

Lemma extractExpression_splits_witness :
  wf_scanner (consume 2 (newTextScanner (js "\fArial|b1;x")))
  /\ fst (extractExpression false (consume 2 (newTextScanner (js "\fArial|b1;x"))))
     = js "Arial|b1"
  /\ tail (snd (extractExpression false (consume 2 (newTextScanner (js "\fArial|b1;x")))))
     = js "x".
Proof.
  assert (W : wf_scanner (consume 2 (newTextScanner (js "\fArial|b1;x")))).
  { unfold wf_scanner. simpl. lia. }
  split; [exact W |].
  destruct (extractExpression_splits _ W) as [Sp _].
  assert (Na : ~ In (ch ";") (js "Arial|b1")).
  { cbn. intros H. repeat (destruct H as [H | H]; [discriminate H |]). exact H. }
  exact (Sp (js "Arial|b1") (js "x") eq_refl Na).
Defined.

(** ** Stacking *)

Lemma getNextChar_plain (sc : TextScanner) (c : jschar) (rest : jsstring) :
  wf_scanner sc -> tail sc = c :: rest -> isStackChar c = true ->
  getNextChar sc = ((Some c, false), consume 1 sc).
Proof.
  intros W T P. destruct (tail_cons _ _ _ W T) as (_ & P0 & _).
  unfold isStackChar in P. apply andb_prop in P. destruct P as [G N].
  apply negb_true_iff in N. apply Z.leb_le in G.
  unfold getNextChar. rewrite P0. cbn [code_lt eqc].
  destruct (Z.ltb_spec c 32); [lia |]. cbn [eqc]. rewrite N. reflexivity.
Qed.

Lemma parseNumerator_loop_plain (t : jschar) (den : jsstring) :
  isDivider (Some t) = true ->
  forall (num : jsstring) (n : nat) (sc : TextScanner) (word : jsstring),
    wf_scanner sc -> tail sc = num ++ t :: den ->
    forallb (fun c => isStackChar c && negb (isDivider (Some c))) num = true ->
    (length num < n)%nat ->
    exists sc', parseNumerator_loop n sc word = ((word ++ num, [t]), sc')
                /\ wf_scanner sc' /\ tail sc' = den.
Proof.
  intros Dt. induction num as [| c num IH]; intros n sc word W T P L.
  - destruct n as [| n]; [simpl in L; lia |]. cbn [app] in T.
    destruct (tail_cons _ _ _ W T) as (D & P0 & T1 & _).
    cbn [parseNumerator_loop]. rewrite D.
    assert (G : getNextChar sc = ((Some t, false), consume 1 sc)).
    { unfold getNextChar. rewrite P0.
      unfold isDivider in Dt. cbn [eqc] in Dt.
      change (ch "/") with 47 in Dt. change (ch "#") with 35 in Dt.
      change (ch "^") with 94 in Dt. cbn [code_lt eqc]. change (ch "\") with 92.
      destruct (Z.eqb_spec t 47) as [-> |]; [reflexivity |].
      destruct (Z.eqb_spec t 35) as [-> |]; [reflexivity |].
      destruct (Z.eqb_spec t 94) as [-> |]; [reflexivity | discriminate Dt]. }
    rewrite G. cbn [negb andb]. rewrite Dt, app_nil_r.
    exists (consume 1 sc). split; [reflexivity | split; [apply wf_consume; exact W | exact T1]].
  - destruct n as [| n]; [simpl in L; lia |]. cbn [app] in T. cbn [length] in L.
    cbn [forallb] in P. apply andb_prop in P. destruct P as [Pc P].
    apply andb_prop in Pc. destruct Pc as [Sc Nd]. apply negb_true_iff in Nd.
    destruct (tail_cons _ _ _ W T) as (D & _ & T1 & _).
    cbn [parseNumerator_loop]. rewrite D, (getNextChar_plain _ _ _ W T Sc).
    cbn [negb andb]. rewrite Nd. cbn [str_of].
    destruct (IH n (consume 1 sc) (word ++ [c]) (wf_consume 1 sc W) T1 P ltac:(lia))
      as (sc' & E & W' & T').
    exists sc'. rewrite E, <- app_assoc. split; [reflexivity | split; assumption].
Qed.

Lemma parseNumerator_loop_whole :
  forall (num : jsstring) (n : nat) (sc : TextScanner) (word : jsstring),
    wf_scanner sc -> tail sc = num ->
    forallb (fun c => isStackChar c && negb (isDivider (Some c))) num = true ->
    (length num <= n)%nat ->
    fst (parseNumerator_loop n sc word) = (word ++ num, []).
Proof.
  induction num as [| c num IH]; intros n sc word W T P L.
  - destruct (tail_nil _ W T) as [D _]. rewrite app_nil_r.
    destruct n; cbn [parseNumerator_loop]; rewrite ?D; reflexivity.
  - destruct n as [| n]; [simpl in L; lia |]. cbn [length] in L.
    cbn [forallb] in P. apply andb_prop in P. destruct P as [Pc P].
    apply andb_prop in Pc. destruct Pc as [Sc Nd]. apply negb_true_iff in Nd.
    destruct (tail_cons _ _ _ W T) as (D & _ & T1 & _).
    cbn [parseNumerator_loop]. rewrite D, (getNextChar_plain _ _ _ W T Sc).
    cbn [negb andb]. rewrite Nd. cbn [str_of].
    rewrite (IH n (consume 1 sc) (word ++ [c]) (wf_consume 1 sc W) T1 P) by lia.
    rewrite <- app_assoc. reflexivity.
Qed.

Lemma parseDenominator_loop_plain :
  forall (den : jsstring) (n : nat) (sc : TextScanner) (word : jsstring) (skipping : bool),
    wf_scanner sc -> tail sc = den ->
    forallb (fun c => isStackChar c && negb (c =? ch ";")) den = true ->
    (length den <= n)%nat ->
    fst (parseDenominator_loop n sc word skipping)
    = word ++ (if skipping then dropSpaces den else den).
Proof.
  induction den as [| c den IH]; intros n sc word skipping W T P L.
  - destruct (tail_nil _ W T) as [D _].
    destruct n; cbn [parseDenominator_loop]; rewrite ?D; destruct skipping;
      rewrite app_nil_r; reflexivity.
  - destruct n as [| n]; [simpl in L; lia |]. cbn [length] in L.
    cbn [forallb] in P. apply andb_prop in P. destruct P as [Pc P].
    apply andb_prop in Pc. destruct Pc as [Sc Ns]. apply negb_true_iff in Ns.
    destruct (tail_cons _ _ _ W T) as (D & _ & T1 & _).
    cbn [parseDenominator_loop]. rewrite D, (getNextChar_plain _ _ _ W T Sc).
    cbn [eqc negb andb dropSpaces]. rewrite Ns.
    destruct skipping; cbn [andb].
    + destruct (c =? ch " ").
      * apply (IH n _ word true (wf_consume 1 sc W) T1 P). lia.
      * rewrite (IH n _ _ false (wf_consume 1 sc W) T1 P) by lia.
        cbn [str_of]. rewrite <- app_assoc. reflexivity.
    + rewrite (IH n _ _ false (wf_consume 1 sc W) T1 P) by lia.
      cbn [str_of]. rewrite <- app_assoc. reflexivity.
Qed.

(** X16.  A stacking expression written without backslash and control
    characters.  With a numerator free of dividers, one of the dividers
    slash, hash and caret, and a denominator free of semicolons, the STACK
    token holds the numerator, the denominator and the divider as written;
    after a caret the leading spaces of the denominator are dropped; an
    empty numerator whose denominator contains I/ gives the triple of a
    space, a space and a slash.  Without any divider the whole expression
    is the numerator, with empty denominator and empty divider. *)
Theorem stackExpression_fraction (num den : jsstring) (t : jschar) :
  forallb (fun c => isStackChar c && negb (isDivider (Some c))) num = true ->
  forallb (fun c => isStackChar c && negb (c =? ch ";")) den = true ->
  isDivider (Some t) = true ->
  stackExpression (num ++ t :: den)
  = (let d := if t =? ch "^" then dropSpaces den else den in
     if (match num with [] => true | _ :: _ => false end) && includes d (js "I/")
     then (STACK, DStack (js " ") (js " ") (js "/"))
     else (STACK, DStack num d [t]))
  /\ stackExpression num = (STACK, DStack num [] []).
Proof.
  intros Pn Pd Dt.
  assert (SP : stackParts (num ++ t :: den)
               = (num, if t =? ch "^" then dropSpaces den else den, [t])).
  { unfold stackParts, parseNumerator.
    destruct (parseNumerator_loop_plain t den Dt num
                (remaining (newTextScanner (num ++ t :: den)))
                (newTextScanner (num ++ t :: den)) [] (wf_newTextScanner _))
      as (sc' & E & W' & T'); [apply tail_drop, wf_newTextScanner | exact Pn | |].
    { unfold remaining, newTextScanner. cbn [textLen _index].
      rewrite length_app. cbn [length]. lia. }
    rewrite E. cbn [app head eqc]. unfold parseDenominator.
    rewrite (parseDenominator_loop_plain den (remaining sc') sc' [] (t =? ch "^") W' T' Pd)
      by (rewrite <- length_tail, T' by exact W'; lia).
    reflexivity. }
  split.
  - unfold stackExpression. rewrite SP. cbv zeta. cbn [head eqc].
    destruct (_ && _); [reflexivity |].
    destruct (Z.eqb_spec t (ch "^")) as [-> |]; reflexivity.
  - unfold stackExpression, stackParts, parseNumerator.
    pose proof (parseNumerator_loop_whole num (remaining (newTextScanner num))
                  (newTextScanner num) [] (wf_newTextScanner _)
                  (tail_drop _ (wf_newTextScanner _)) Pn) as E.
    assert (B : (length num <= remaining (newTextScanner num))%nat).
    { unfold remaining, newTextScanner. cbn [textLen _index]. lia. }
    specialize (E B).
    destruct (parseNumerator_loop _ _ _) as [[n0 st] sc'].
    cbn [fst app] in E. injection E as -> ->.
    destruct num; reflexivity.
Qed.

Lemma stackExpression_fraction_witness :
  forallb (fun c => isStackChar c && negb (isDivider (Some c))) (js "x+1") = true
  /\ stackExpression (js "x+1^  2 y") = (STACK, DStack (js "x+1") (js "2 y") (js "^")).
Proof.
  assert (P : forallb (fun c => isStackChar c && negb (isDivider (Some c))) (js "x+1") = true)
    by reflexivity.
  split; [exact P |].
  apply (stackExpression_fraction (js "x+1") (js "  2 y") (ch "^") P); reflexivity.
Defined.

(** ** getPropertyChanges *)

Lemma str_eqb_refl (s : jsstring) : str_eqb s s = true.
Proof. induction s as [| c s IH]; [reflexivity |]. cbn. rewrite Z.eqb_refl. exact IH. Qed.

Lemma num_json_eq_refl (n : number) : num_json_eq n n = true.
Proof. destruct n as [| q | s]; [reflexivity | apply Qeq_bool_refl | reflexivity]. Qed.

Lemma num_string_eq_refl (n : number) : num_string_eq n n = true.
Proof.
  destruct n as [| q | s]; [reflexivity | apply Qeq_bool_refl | apply eqb_reflx].
Qed.

Lemma num_neq_same (n : number) : num_neq n n = isNaN n.
Proof.
  destruct n as [| q | s]; [reflexivity | |]; cbn.
  - rewrite Qeq_bool_refl. reflexivity.
  - rewrite eqb_reflx. reflexivity.
Qed.

Lemma tabStops_json_eq_refl (l : list TabStop) : tabStops_json_eq l l = true.
Proof.
  induction l as [| x l IH]; [reflexivity |]. cbn [tabStops_json_eq]. rewrite IH.
  destruct x as [v | k v]; cbn [tabStop_json_eq];
    rewrite ?Z.eqb_refl, ?num_json_eq_refl, ?num_string_eq_refl; reflexivity.
Qed.

Lemma paragraph_json_eq_refl (p : ParagraphProperties) : paragraph_json_eq p p = true.
Proof.
  unfold paragraph_json_eq. rewrite !num_json_eq_refl, tabStops_json_eq_refl.
  destruct (para_align p); reflexivity.
Qed.

(** X18.  Comparing a context with its own copy reports no changed
    property, unless one of its numbers is NaN: the colour index, the line
    alignment, the oblique angle and the values of the three factors are
    compared with [!==], under which NaN differs from itself, whereas the
    font face and the paragraph properties are compared as JSON text. *)
Theorem getPropertyChanges_copy (c : MTextContext) :
  hasKeys (getPropertyChanges c (copy c))
  = isNaN (aci c)
    || (match align c with ALIGN_NaN => true | _ => false end)
    || isNaN (value (capHeight c)) || isNaN (value (widthFactor c))
    || isNaN (value (charTrackingFactor c)) || isNaN (oblique c).
Proof.
  unfold hasKeys, getPropertyChanges.
  cbn [ch_underline ch_overline ch_strikeThrough ch_aci ch_rgb ch_align ch_fontFace
       ch_capHeight ch_widthFactor ch_charTrackingFactor ch_oblique ch_paragraph].
  change (underline (copy c)) with (underline c).
  change (overline (copy c)) with (overline c).
  change (strikeThrough (copy c)) with (strikeThrough c).
  change (aci (copy c)) with (aci c).
  change (rgb (copy c)) with (rgb c).
  change (align (copy c)) with (align c).
  change (oblique (copy c)) with (oblique c).
  assert (P : paragraph_json_eq (paragraph c) (paragraph (copy c)) = true).
  { unfold paragraph_json_eq. cbn [copy paragraph para_indent para_left para_right
                                   para_align tab_stops].
    apply paragraph_json_eq_refl. }
  assert (F : fontFace_json_eq (fontFace c) (fontFace (copy c)) = true).
  { unfold fontFace_json_eq. cbn [copy fontFace family style weight].
    rewrite !str_eqb_refl, Z.eqb_refl. reflexivity. }
  assert (FN : forall f, factor_neq f {| value := value f; isRelative := isRelative f |}
                         = isNaN (value f)).
  { intros f. unfold factor_neq. cbn [value isRelative]. rewrite num_neq_same.
    destruct (isRelative f); cbn; rewrite orb_false_r; reflexivity. }
  rewrite P, F.
  change (capHeight (copy c))
    with {| value := value (capHeight c); isRelative := isRelative (capHeight c) |}.
  change (widthFactor (copy c))
    with {| value := value (widthFactor c); isRelative := isRelative (widthFactor c) |}.
  change (charTrackingFactor (copy c))
    with {| value := value (charTrackingFactor c);
            isRelative := isRelative (charTrackingFactor c) |}.
  rewrite !FN, !num_neq_same.
  assert (R : rgb_neq (rgb c) (rgb c) = false).
  { destruct (rgb c) as [a |]; [| reflexivity]. cbn. rewrite Nat.eqb_refl. reflexivity. }
  rewrite R.
  destruct (underline c), (overline c), (strikeThrough c), (isNaN (aci c)), (align c),
    (isNaN (value (capHeight c))), (isNaN (value (widthFactor c))),
    (isNaN (value (charTrackingFactor c))), (isNaN (oblique c)); reflexivity.
Qed.

(** ** Paragraph commands without tab stops *)

Lemma advances_skipCommas_loop :
  forall (n : nat) (sc : TextScanner),
    wf_scanner sc -> advances sc (skipCommas_loop n sc).
Proof.
  induction n as [| n IH]; intros sc W; cbn [skipCommas_loop];
    [apply advances_refl; exact W |].
  destruct (eqc (peek 0 sc) (ch ",")); [| apply advances_refl; exact W].
  apply advances_trans with (consume 1 sc).
  - apply advances_consume; [exact W | lia].
  - apply IH, wf_consume, W.
Qed.

Lemma advances_parseFloatValue (sc : TextScanner) :
  wf_scanner sc -> advances sc (snd (parseFloatValue sc)).
Proof.
  intros W. unfold parseFloatValue.
  destruct (paragraphFloatPattern (tail sc)); cbn [snd]; [| apply advances_refl; exact W].
  apply advances_trans with (consume (Z.of_nat (length (take n (tail sc)))) sc).
  - apply advances_consume; [exact W | lia].
  - apply advances_skipCommas_loop, wf_consume, W.
Qed.

(** Without the letter t in the rest of the expression the loop ends, and
    the list of tab stops is the one it started with. *)
Lemma paragraph_loop_no_tab :
  forall (fuel : nat) (sc : TextScanner) (l : ParagraphLocals),
    wf_scanner sc ->
    (forall j, _index sc <= j < textLen sc -> charAt (text sc) j <> Some (ch "t")) ->
    (remaining sc < fuel)%nat ->
    exists l', paragraph_loop fuel sc l = Some (Ok l') /\ l_tabStops l' = l_tabStops l.
Proof.
  induction fuel as [| fuel IH]; intros sc l W N F; [lia |].
  cbn [paragraph_loop]. destruct (hasData sc) eqn:D; [| exists l; split; reflexivity].
  pose proof D as Dlt. apply hasData_lt in Dlt. pose proof W as [Lw Iw].
  assert (G : get sc = (charAt (text sc) (_index sc), consume 1 sc)).
  { unfold get, isEmpty. destruct (Z.leb_spec (textLen sc) (_index sc)); [lia |].
    unfold consume. do 2 f_equal. lia. }
  rewrite G.
  assert (Nt : eqc (charAt (text sc) (_index sc)) (ch "t") = false).
  { apply eqc_false. apply N. lia. }
  assert (W1 : wf_scanner (consume 1 sc)) by (apply wf_consume; exact W).
  assert (Next : forall sc' l0,
             advances (consume 1 sc) sc' ->
             exists l', paragraph_loop fuel sc' l0 = Some (Ok l')
                        /\ l_tabStops l' = l_tabStops l0).
  { intros sc' l0 (T & L & I & W'). apply IH; [exact W' | |].
    - intros j Hj. rewrite T. cbn [consume set_index text]. apply N.
      rewrite L in Hj. cbn [consume set_index textLen _index] in Hj, I. lia.
    - unfold remaining in *. rewrite L.
      cbn [consume set_index textLen _index] in *. lia. }
  destruct (eqc _ (ch "i")).
  { pose proof (advances_parseFloatValue _ W1) as A.
    destruct (parseFloatValue (consume 1 sc)) as [v sc'].
    destruct (Next sc' {| l_indent := v; l_left := l_left l; l_right := l_right l;
                          l_align := l_align l; l_tabStops := l_tabStops l |} A)
      as (l' & E & T). exists l'. split; [exact E | exact T]. }
  destruct (eqc _ (ch "l")).
  { pose proof (advances_parseFloatValue _ W1) as A.
    destruct (parseFloatValue (consume 1 sc)) as [v sc'].
    destruct (Next sc' {| l_indent := l_indent l; l_left := v; l_right := l_right l;
                          l_align := l_align l; l_tabStops := l_tabStops l |} A)
      as (l' & E & T). exists l'. split; [exact E | exact T]. }
  destruct (eqc _ (ch "r")).
  { pose proof (advances_parseFloatValue _ W1) as A.
    destruct (parseFloatValue (consume 1 sc)) as [v sc'].
    destruct (Next sc' {| l_indent := l_indent l; l_left := l_left l; l_right := v;
                          l_align := l_align l; l_tabStops := l_tabStops l |} A)
      as (l' & E & T). exists l'. split; [exact E | exact T]. }
  destruct (eqc _ (ch "x")); [apply Next, advances_refl, W1 |].
  destruct (eqc _ (ch "q")).
  { pose proof (advances_get _ W1) as A.
    destruct (get (consume 1 sc)) as [adjustment sc']. cbn [snd] in A.
    assert (A' : advances (consume 1 sc) (skipCommas sc')).
    { apply advances_trans with sc'; [exact A |].
      apply advances_skipCommas_loop. apply (advances_wf _ _ A). }
    destruct (Next (skipCommas sc')
                {| l_indent := l_indent l; l_left := l_left l; l_right := l_right l;
                   l_align := CHAR_TO_ALIGN adjustment; l_tabStops := l_tabStops l |} A')
      as (l' & E & T). exists l'. split; [exact E | exact T]. }
  rewrite Nt. apply Next, advances_refl, W1.
Qed.

(** X19.  A paragraph command whose expression does not contain the
    letter t always returns, with fuel for one more step than the
    expression has characters; it leaves the scanner after the expression,
    changes nothing of the context but the paragraph properties, and the
    new paragraph properties have no tab stops, whichever the context had
    before. *)
Theorem paragraph_without_tab_stops (fuel : nat) (p : MTextParser) (c : MTextContext) :
  wf_scanner (scanner p) ->
  ~ In (ch "t") (fst (extractExpression false (scanner p))) ->
  (length (fst (extractExpression false (scanner p))) < fuel)%nat ->
  exists para,
    parseParagraphProperties fuel p c
    = Some (with_scanner p (snd (extractExpression false (scanner p))),
            Ok (set_paragraph c para))
    /\ tab_stops para = [].
Proof.
  intros W N F. unfold parseParagraphProperties.
  destruct (extractExpression false (scanner p)) as [expr sc]. cbn [fst snd] in *.
  destruct (paragraph_loop_no_tab fuel (newTextScanner expr)
              {| l_indent := para_indent (paragraph c); l_left := para_left (paragraph c);
                 l_right := para_right (paragraph c); l_align := para_align (paragraph c);
                 l_tabStops := [] |} (wf_newTextScanner expr)) as (l' & E & T).
  - intros j Hj H. apply N. unfold charAt in H. cbn [newTextScanner text _index] in *.
    destruct (Z.ltb_spec j 0); [discriminate H |]. apply (js_lookup_In _ _ _ H).
  - unfold remaining, newTextScanner. cbn [textLen _index]. lia.
  - rewrite E. eexists. split; [reflexivity |]. exact T.
Qed.

Lemma paragraph_without_tab_stops_witness :
  wf_scanner (consume 2 (newTextScanner (js "\pi1.5,l2,qc;abc")))
  /\ exists para,
       parseParagraphProperties 11
         (with_scanner (newMTextParser (js "\pi1.5,l2,qc;abc") newMTextContext false)
                       (consume 2 (newTextScanner (js "\pi1.5,l2,qc;abc"))))
         newMTextContext
       = Some (with_scanner
                 (newMTextParser (js "\pi1.5,l2,qc;abc") newMTextContext false)
                 (consume 13 (newTextScanner (js "\pi1.5,l2,qc;abc"))),
               Ok (set_paragraph newMTextContext para))
       /\ tab_stops para = [].
Proof.
  assert (W : wf_scanner (consume 2 (newTextScanner (js "\pi1.5,l2,qc;abc")))).
  { unfold wf_scanner. simpl. lia. }
  split; [exact W |].
  apply (paragraph_without_tab_stops 11
           (with_scanner (newMTextParser (js "\pi1.5,l2,qc;abc") newMTextContext false)
                         (consume 2 (newTextScanner (js "\pi1.5,l2,qc;abc"))))
           newMTextContext W).
  - vm_compute. intros H. repeat (destruct H as [H | H]; [discriminate H |]). exact H.
  - vm_compute. lia.
Defined.
(** ** When parseProperties throws *)

(** The paragraph command throws only when its expression has the letter
    t. *)
Lemma parseParagraphProperties_throw fuel p c p' :
  parseParagraphProperties fuel p c = Some (p', Throw) ->
  In (ch "t") (fst (extractExpression false (scanner p))).
Proof.
  intros H.
  destruct (in_dec Z.eq_dec (ch "t") (fst (extractExpression false (scanner p))))
    as [I | N]; [exact I | exfalso].
  revert H. unfold parseParagraphProperties.
  destruct (extractExpression false (scanner p)) as [expr sc]. cbn [fst] in N.
  set (l := {| l_indent := para_indent (paragraph c); l_left := para_left (paragraph c);
               l_right := para_right (paragraph c); l_align := para_align (paragraph c);
               l_tabStops := [] |}).
  destruct (paragraph_loop fuel (newTextScanner expr) l) as [[l1 |] |] eqn:P;
    [discriminate | | discriminate].
  intros _.
  destruct (paragraph_loop_no_tab (S (fuel + length expr)) (newTextScanner expr) l
              (wf_newTextScanner expr)) as (l' & E & _).
  - intros j Hj H. apply N. unfold charAt in H. cbn [newTextScanner text _index] in *.
    destruct (Z.ltb_spec j 0); [discriminate H |]. apply (js_lookup_In _ _ _ H).
  - unfold remaining, newTextScanner. cbn [textLen _index]. lia.
  - rewrite (paragraph_loop_mono fuel (S (fuel + length expr)) _ _ _ ltac:(lia) P) in E.
    discriminate E.
Qed.

(** X11.  [parseProperties] throws for every command letter that has no
    case in its switch, and has then changed nothing in the parser.  For a
    letter with a case it throws only in the paragraph command, and only
    when the expression of that command has the letter t: the error is the
    one of the tab-stop array; the scanner then stands after the expression
    and nothing else in the parser has changed.  In particular no input
    makes the range check of the colour index throw. *)
Theorem parseProperties_throws (fuel : nat) (cmd : jschar) (p p' : MTextParser)
    (r : result (option ChangedProperties)) :
  parseProperties fuel cmd p = Some (p', r) ->
  (existsb (Z.eqb cmd) propertyCommands = false -> r = Throw /\ p' = p)
  /\ (r = Throw -> existsb (Z.eqb cmd) propertyCommands = true ->
      cmd = ch "p"
      /\ In (ch "t") (fst (extractExpression false (scanner p)))
      /\ p' = with_scanner p (snd (extractExpression false (scanner p)))).
Proof.
  unfold parseProperties.
  destruct (dispatchProperty fuel cmd p (copy (ctx p))) as [[p1 r1] |] eqn:D;
    [| discriminate].
  destruct (dispatchProperty_throw _ _ _ _ _ _ D) as (T1 & T2 & _).
  destruct r1 as [c1 |].
  - intros H.
    assert (R : r <> Throw).
    { revert H. destruct (yieldPropertyCommands _); [destruct (hasKeys _) |];
        intros H; injection H as <- <-; discriminate. }
    split; [| intros; contradiction].
    intros K. destruct (T1 K) as [X _]. discriminate X.
  - intros H. injection H as <- <-.
    split; [intros K; split; [reflexivity | apply (T1 K)] |].
    intros _ K. pose proof (T2 eq_refl K) as ->.
    rewrite dispatchProperty_p in D.
    split; [reflexivity |]. split.
    + apply (parseParagraphProperties_throw _ _ _ _ D).
    + apply (parseParagraphProperties_scanner _ _ _ _ _ D).
Qed.

Lemma parseProperties_throws_witness :
  exists p' r,
    parseProperties 5 (ch "z") (newMTextParser (js "abc") newMTextContext true) = Some (p', r)
    /\ r = Throw /\ p' = newMTextParser (js "abc") newMTextContext true.
Proof.
  do 2 eexists. split; [reflexivity |].
  apply (proj1 (parseProperties_throws 5 (ch "z")
                  (newMTextParser (js "abc") newMTextContext true) _ _ eq_refl)).
  reflexivity.
Defined.

(** ** Termination of the generator away from tab stops *)

Lemma first_semicolon (l : jsstring) :
  In (ch ";") l -> exists a b, l = a ++ ch ";" :: b /\ ~ In (ch ";") a.
Proof.
  induction l as [| c l IH]; [intros []|].
  intros H. destruct (Z.eq_dec c (ch ";")) as [-> | Nc].
  - exists [], l. split; [reflexivity | intros []].
  - destruct H as [H | H]; [congruence |].
    destruct (IH H) as (a & b & -> & Na). exists (c :: a), b.
    split; [reflexivity |]. intros [E | I]; [congruence | contradiction].
Qed.

Lemma tabFree_prefix (a b : jsstring) :
  tabFreeExpression (a ++ b) = true -> ~ In (ch ";") a -> ~ In (ch "t") a.
Proof.
  induction a as [| c a IH]; [intros _ _ []|].
  cbn [app tabFreeExpression]. intros H Ns.
  destruct (Z.eqb_spec c (ch ";")) as [-> | Nc]; [exfalso; apply Ns; left; reflexivity |].
  apply andb_prop in H. destruct H as [Nt H]. apply negb_true_iff, Z.eqb_neq in Nt.
  intros [E | I]; [congruence |].
  apply (IH H); [intros I'; apply Ns; right; exact I' | exact I].
Qed.

(** The expression of a command whose text has no letter t before the
    first semicolon has none either, and is no longer than the unread
    text. *)
Lemma extract_tabFree (sc : TextScanner) :
  wf_scanner sc -> tabFreeExpression (tail sc) = true ->
  ~ In (ch "t") (fst (extractExpression false sc))
  /\ (length (fst (extractExpression false sc)) <= remaining sc)%nat.
Proof.
  intros W T. destruct (extractExpression_cases sc W) as [C1 C2].
  destruct (in_dec Z.eq_dec (ch ";") (tail sc)) as [I | N].
  - destruct (first_semicolon _ I) as (a & b & E & Na).
    rewrite (C1 a b E Na). rewrite E in T.
    pose proof (tabFree_prefix a _ T Na) as Nt.
    assert (L : (length a + 1 <= remaining sc)%nat).
    { rewrite <- length_tail by exact W. rewrite E, length_app. cbn [length]. lia. }
    destruct (eqc _ _); cbn [fst].
    + split; [| rewrite length_app; cbn [length]; lia].
      intros H. apply in_app_or in H. destruct H as [H | [H | []]];
        [contradiction | discriminate H].
    + split; [exact Nt | lia].
  - rewrite (C2 N). cbn [fst]. split; [| rewrite length_tail by exact W; lia].
    apply (tabFree_prefix (tail sc) []); [rewrite app_nil_r; exact T | exact N].
Qed.

Lemma noTabStopCommand_spec (t : jsstring) :
  noTabStopCommand t = true ->
  forall n : nat,
    t !! n = Some (ch "\") -> t !! S n = Some (ch "p") ->
    tabFreeExpression (drop (S (S n)) t) = true.
Proof.
  induction t as [| c r IH]; intros H n Hn Hp; [discriminate Hn |].
  cbn [noTabStopCommand] in H. apply andb_prop in H. destruct H as [H1 H2].
  destruct n as [| n].
  - cbn in Hn. injection Hn as ->.
    destruct r as [| d r']; [discriminate Hp |].
    cbn in Hp. injection Hp as ->. cbn [drop].
    rewrite !Z.eqb_refl in H1. exact H1.
  - cbn [drop]. apply IH; assumption.
Qed.

(** When the character [get] returns after the backslash is p, the
    expression that follows has no letter t. *)
Lemma command_letter_p (sc : TextScanner) :
  wf_scanner sc -> noTabStopCommand (text sc) = true ->
  peek 0 sc = Some (ch "\") ->
  fst (get (consume 1 sc)) = Some (ch "p") ->
  tabFreeExpression (tail (snd (get (consume 1 sc)))) = true
  /\ (remaining (snd (get (consume 1 sc))) + 2 <= remaining sc)%nat.
Proof.
  intros W N P0. pose proof W as [Lw Iw].
  apply peek_charAt in P0 as [C0 B0]. rewrite Z.add_0_r in *.
  unfold get, isEmpty, consume. cbn [set_index _index textLen text].
  replace (Z.max 0 (Z.min (_index sc + 1) (textLen sc))) with (_index sc + 1) by lia.
  destruct (Z.leb_spec (textLen sc) (_index sc + 1)); cbn [fst snd]; [discriminate |].
  intros Cp.
  assert (W2 : wf_scanner (set_index (set_index sc (_index sc + 1)) (_index sc + 1 + 1))).
  { unfold wf_scanner, set_index. cbn. lia. }
  split.
  - rewrite tail_drop by exact W2. cbn [set_index _index text].
    replace (Z.to_nat (_index sc + 1 + 1)) with (S (S (Z.to_nat (_index sc)))) by lia.
    unfold charAt in *.
    destruct (Z.ltb_spec (_index sc) 0); [lia |].
    destruct (Z.ltb_spec (_index sc + 1) 0); [lia |].
    replace (Z.to_nat (_index sc + 1)) with (S (Z.to_nat (_index sc))) in Cp by lia.
    apply noTabStopCommand_spec; assumption.
  - unfold remaining, set_index. cbn [_index textLen]. lia.
Qed.

Lemma parseParagraphProperties_returns (fuel : nat) (p : MTextParser) (c : MTextContext) :
  wf_scanner (scanner p) -> tabFreeExpression (tail (scanner p)) = true ->
  (remaining (scanner p) < fuel)%nat ->
  exists p' c', parseParagraphProperties fuel p c = Some (p', Ok c')
                /\ advances (scanner p) (scanner p').
Proof.
  intros W T F. destruct (extract_tabFree _ W T) as [Nt L].
  pose proof (advances_extractExpression false _ W) as A.
  unfold parseParagraphProperties.
  destruct (extractExpression false (scanner p)) as [expr sc]. cbn [fst snd] in *.
  destruct (paragraph_loop_no_tab fuel (newTextScanner expr)
              {| l_indent := para_indent (paragraph c); l_left := para_left (paragraph c);
                 l_right := para_right (paragraph c); l_align := para_align (paragraph c);
                 l_tabStops := [] |} (wf_newTextScanner expr)) as (l' & E & _).
  - intros j Hj H. apply Nt. unfold charAt in H. cbn [newTextScanner text _index] in *.
    destruct (Z.ltb_spec j 0); [discriminate H |]. apply (js_lookup_In _ _ _ H).
  - unfold remaining, newTextScanner. cbn [textLen _index]. lia.
  - rewrite E. do 2 eexists. split; [reflexivity | exact A].
Qed.

Lemma dispatchProperty_returns_tabFree (fuel : nat) (cmd : jschar) (p : MTextParser)
    (c : MTextContext) :
  wf_scanner (scanner p) ->
  (cmd = ch "p" ->
   tabFreeExpression (tail (scanner p)) = true /\ (remaining (scanner p) < fuel)%nat) ->
  exists p' r, dispatchProperty fuel cmd p c = Some (p', r)
               /\ advances (scanner p) (scanner p').
Proof.
  intros W H. destruct (Z.eq_dec cmd (ch "p")) as [-> | Np];
    [| apply dispatchProperty_returns; assumption].
  destruct (H eq_refl) as [T F].
  destruct (parseParagraphProperties_returns fuel p c W T F) as (p' & c' & E & A).
  exists p', (Ok c'). split; [| exact A].
  unfold dispatchProperty.
  repeat match goal with
         | |- context [ch "p" =? ?k] =>
             first [change (ch "p" =? k) with false | change (ch "p" =? k) with true];
             cbv iota
         end.
  rewrite E. reflexivity.
Qed.

Lemma parseProperties_returns_tabFree (fuel : nat) (cmd : jschar) (p : MTextParser) :
  wf_scanner (scanner p) ->
  (cmd = ch "p" ->
   tabFreeExpression (tail (scanner p)) = true /\ (remaining (scanner p) < fuel)%nat) ->
  exists p' r, parseProperties fuel cmd p = Some (p', r)
               /\ advances (scanner p) (scanner p').
Proof.
  intros W Hp. unfold parseProperties.
  destruct (dispatchProperty_returns_tabFree fuel cmd p (copy (ctx p)) W Hp)
    as (p' & r & E & A).
  rewrite E. destruct r as [c' |].
  - simpl. destruct (yieldPropertyCommands p').
    + destruct (hasKeys _); do 2 eexists; (split; [reflexivity | exact A]).
    + do 2 eexists. split; [reflexivity | exact A].
  - do 2 eexists. split; [reflexivity | exact A].
Qed.

Lemma commandSwitch_returns_tabFree (gbk big5 : Z -> Z -> option jsstring) (fuel : nat)
    (p : MTextParser) (word : jsstring) (start : Z) (cmd : option jschar) :
  wf_scanner (scanner p) ->
  (cmd = Some (ch "p") ->
   tabFreeExpression (tail (scanner p)) = true /\ (remaining (scanner p) < fuel)%nat) ->
  exists st, commandSwitch gbk big5 fuel p word start cmd = Some st
             /\ advances (scanner p) (scanner (step_parser st)).
Proof.
  intros W Hp.
  destruct cmd as [c |]; [| apply commandSwitch_returns; [exact W | discriminate]].
  destruct (Z.eq_dec c (ch "p")) as [-> | Np];
    [| apply commandSwitch_returns; [exact W | congruence]].
  destruct (parseProperties_returns_tabFree fuel (ch "p") p W (fun _ => Hp eq_refl))
    as (p' & r & E & A).
  unfold commandSwitch.
  change (eqc (Some (ch "p")) (ch "~")) with false.
  change (eqc (Some (ch "p")) (ch "P")) with false.
  change (eqc (Some (ch "p")) (ch "N")) with false.
  change (eqc (Some (ch "p")) (ch "X")) with false.
  change (eqc (Some (ch "p")) (ch "S")) with false.
  change (eqc (Some (ch "p")) (ch "m")) with false.
  change (eqc (Some (ch "p")) (ch "M")) with false.
  cbv iota. cbn [orb]. rewrite E. destruct r as [[pc |] |].
  - destruct (yieldPropertyCommands p'); eexists; (split; [reflexivity | exact A]).
  - eexists. split; [reflexivity | exact A].
  - eexists. split; [reflexivity | exact A].
Qed.

Lemma loop_body_progress_tabFree (gbk big5 : Z -> Z -> option jsstring) (fuel : nat)
    (p : MTextParser) (word : jsstring) :
  wf_scanner (scanner p) -> hasData (scanner p) = true ->
  noTabStopCommand (text (scanner p)) = true ->
  (remaining (scanner p) <= fuel)%nat ->
  exists st, loop_body gbk big5 fuel p word = Some st
             /\ advances (scanner p) (scanner (step_parser st))
             /\ match st with
                | Continue p' _ => _index (scanner p) < _index (scanner p')
                | Return _ _ _ p' => word = [] -> _index (scanner p) < _index (scanner p')
                end.
Proof.
  intros W D N F.
  pose proof (advances_consume 1 _ W ltac:(lia)) as A1.
  pose proof (consume_strict 1 _ W D ltac:(lia)) as S1.
  assert (Shift : forall w letter escape,
             exists st,
               Some (plainChar (with_scanner p (consume 1 (scanner p))) w letter escape)
               = Some st
               /\ advances (scanner p) (scanner (step_parser st))
               /\ match st with
                  | Continue p' _ => _index (scanner p) < _index (scanner p')
                  | Return _ _ _ p' => w = [] -> _index (scanner p) < _index (scanner p')
                  end).
  { intros w letter escape.
    destruct (plainChar_progress (with_scanner p (consume 1 (scanner p))) w letter escape
                (advances_wf _ _ A1)) as [A _].
    simpl in A.
    eexists. split; [reflexivity |].
    split; [eapply advances_trans; [exact A1 | exact A] |].
    destruct A as (_ & _ & I & _).
    destruct (plainChar _ w letter escape); simpl in *; intros; lia. }
  unfold loop_body.
  destruct (code_lt (peek 0 (scanner p)) 32).
  { destruct (eqc (peek 0 (scanner p)) 9);
      [eexists; split; [reflexivity |]; simpl; split; [exact A1 | intros _; exact S1] |].
    destruct (eqc (peek 0 (scanner p)) 10);
      [eexists; split; [reflexivity |]; simpl; split; [exact A1 | intros _; exact S1] |].
    apply Shift. }
  destruct (eqc (peek 0 (scanner p)) (ch "\")) eqn:B.
  - destruct (includes1 (js "\{}") (peek 1 (scanner p))); [apply Shift |].
    destruct word as [| w ws].
    + apply eqc_true in B.
      pose proof (command_letter_p _ W N B) as Hc.
      pose proof (advances_get _ (advances_wf _ _ A1)) as G.
      destruct (get (consume 1 (scanner p))) as [cmd sc2]. cbn [fst snd] in Hc, G.
      destruct (commandSwitch_returns_tabFree gbk big5 fuel (with_scanner p sc2) []
                  (currentIndex (scanner p)) cmd (advances_wf _ _ G))
        as (st & E & A).
      { intros Hp. destruct (Hc Hp) as [T R]. cbn [with_scanner scanner].
        split; [exact T | lia]. }
      simpl in A. exists st. split; [exact E |].
      split; [eapply advances_trans; [exact A1 |];
              eapply advances_trans; [exact G | exact A] |].
      destruct G as (_ & _ & I1 & _). destruct A as (_ & _ & I2 & _).
      destruct st; simpl in *; intros; lia.
    + eexists. split; [reflexivity |]. simpl.
      split; [apply advances_refl; exact W | intros H; discriminate H].
  - destruct (plainChar_progress p word (peek 0 (scanner p)) false W) as [A S].
    eexists. split; [reflexivity |]. split; [exact A | apply S; exact D].
Qed.

Lemma nextToken_loop_returns_tabFree (gbk big5 : Z -> Z -> option jsstring) :
  forall (fuel : nat) (p : MTextParser) (word : jsstring),
    wf_scanner (scanner p) ->
    noTabStopCommand (text (scanner p)) = true ->
    (remaining (scanner p) < fuel)%nat ->
    exists t d f p',
      nextToken_loop gbk big5 fuel p word = Some (t, d, f, p')
      /\ advances (scanner p) (scanner p')
      /\ (word = [] -> t <> NONE -> _index (scanner p) < _index (scanner p')).
Proof.
  induction fuel as [| fuel IH]; intros p word W N F; [lia |].
  simpl. destruct (hasData (scanner p)) eqn:D.
  - destruct (loop_body_progress_tabFree gbk big5 fuel p word W D N ltac:(lia))
      as (st & E & A & S).
    rewrite E. destruct st as [p1 w1 | t d f p1]; simpl in A.
    + assert (F1 : (remaining (scanner p1) < fuel)%nat).
      { apply hasData_lt in D. unfold remaining in *.
        destruct A as (_ & L & _ & _). lia. }
      assert (N1 : noTabStopCommand (text (scanner p1)) = true).
      { destruct A as (T & _). rewrite T. exact N. }
      destruct (IH p1 w1 (advances_wf _ _ A) N1 F1) as (t & d & f & p' & E1 & A1 & _).
      exists t, d, f, p'. split; [exact E1 |].
      split; [eapply advances_trans; [exact A | exact A1] |].
      intros _ _. destruct A1 as (_ & _ & I & _). lia.
    + exists t, d, f, p1. split; [reflexivity |]. split; [exact A |].
      intros Hw _. apply S. exact Hw.
  - destruct word as [| w ws].
    + exists NONE, DNull, None, p. split; [reflexivity |].
      split; [apply advances_refl; exact W | intros _ H; contradiction].
    + exists WORD, (DWord (w :: ws)), None, p. split; [reflexivity |].
      split; [apply advances_refl; exact W | intros H; discriminate H].
Qed.

Lemma parse_loop_returns_tabFree (gbk big5 : Z -> Z -> option jsstring) :
  forall (fuel : nat) (p : MTextParser),
    wf_scanner (scanner p) ->
    noTabStopCommand (text (scanner p)) = true ->
    (remaining (scanner p) + 1 < fuel)%nat ->
    exists tokens, parse_loop gbk big5 fuel p = Some tokens.
Proof.
  induction fuel as [| fuel IH]; intros p W N F; [lia |].
  simpl. unfold nextToken.
  destruct (nextToken_loop_returns_tabFree gbk big5 fuel p [] W N ltac:(lia))
    as (t & d & f & p' & E & A & S).
  rewrite E.
  assert (Next : t <> NONE -> exists rest, parse_loop gbk big5 fuel p' = Some rest).
  { intros Ht. apply IH.
    - eapply advances_wf. exact A.
    - destruct A as (T & _). rewrite T. exact N.
    - pose proof (S eq_refl Ht) as I. destruct A as (_ & L & _ & [_ B]).
      unfold remaining in *. lia. }
  destruct t; try (destruct (Next ltac:(discriminate)) as [rest ->]; eexists; reflexivity).
  eexists. reflexivity.
Qed.

(** X20.  The generator finishes on every input in which no paragraph
    command has the letter t in its expression, that is, wherever a
    backslash is directly followed by p, no t stands between the two and
    the next semicolon: with fuel for two more steps than the input has
    characters, and with any more, [parse] returns one and the same list of
    tokens. *)
Theorem parse_terminates_without_tab_stops
    (gbk big5 : Z -> Z -> option jsstring) (content : jsstring) (c : MTextContext)
    (yieldCommands : bool) :
  noTabStopCommand content = true ->
  exists tokens, forall k : nat,
    parse gbk big5 (length content + 2 + k) content c yieldCommands = Some tokens.
Proof.
  intros N. unfold parse.
  destruct (parse_loop_returns_tabFree gbk big5 (length content + 2)
              (newMTextParser content c yieldCommands)) as [tokens E].
  - apply wf_newTextScanner.
  - exact N.
  - unfold remaining, newMTextParser, newTextScanner. simpl. lia.
  - exists tokens. intros k.
    apply (parse_loop_mono gbk big5 (length content + 2)); [lia | exact E].
Qed.

Lemma parse_terminates_without_tab_stops_witness :
  noTabStopCommand (js "a\pi1,l2,qc;t\pxqr;{\H2;t}") = true
  /\ exists tokens, forall k : nat,
       parse noDecoder noDecoder (length (js "a\pi1,l2,qc;t\pxqr;{\H2;t}") + 2 + k)
         (js "a\pi1,l2,qc;t\pxqr;{\H2;t}") newMTextContext true = Some tokens.
Proof.
  assert (N : noTabStopCommand (js "a\pi1,l2,qc;t\pxqr;{\H2;t}") = true) by reflexivity.
  split; [exact N |].
  exact (parse_terminates_without_tab_stops noDecoder noDecoder _ newMTextContext true N).
Defined.
(** ** Termination of the generator *)

Lemma tabStops_loop_advances :
  forall (fuel : nat) (sc sc' : TextScanner) (stops stops' : list TabStop),
    wf_scanner sc ->
    tabStops_loop fuel sc stops = Some (Ok (sc', stops')) -> advances sc sc'.
Proof.
  induction fuel as [| fuel IH]; intros sc sc' stops stops' W E; [discriminate E |].
  cbn [tabStops_loop] in E.
  destruct (hasData sc); [| injection E as <- _; apply advances_refl; exact W].
  pose proof (wf_consume 1 sc W) as W1.
  destruct (eqc (peek 0 sc) (ch "r") || eqc (peek 0 sc) (ch "c")).
  - pose proof (advances_parseFloatValue _ W1) as A.
    destruct (parseFloatValue (consume 1 sc)) as [v sc1]. cbn [snd] in A.
    destruct (push stops _) as [stops1 |]; [| discriminate E].
    apply advances_trans with (consume 1 sc); [apply advances_consume; [exact W | lia] |].
    apply advances_trans with sc1; [exact A |].
    apply (IH _ _ _ _ (advances_wf _ _ A) E).
  - pose proof (advances_parseFloatValue _ W) as A.
    destruct (parseFloatValue sc) as [v sc1]. cbn [snd] in A.
    destruct (negb (isNaN v)).
    + destruct (push stops _) as [stops1 |]; [| discriminate E].
      apply advances_trans with sc1; [exact A |].
      apply (IH _ _ _ _ (advances_wf _ _ A) E).
    + apply advances_trans with sc1; [exact A |].
      apply advances_trans with (consume 1 sc1);
        [apply advances_consume; [apply (advances_wf _ _ A) | lia] |].
      apply (IH _ _ _ _ (wf_consume 1 sc1 (advances_wf _ _ A)) E).
Qed.

(** Every iteration of the tab-stop loop pushes an element, so the loop
    ends, at the latest with the push that the array does not take. *)
Lemma tabStops_loop_returns :
  forall (fuel : nat) (sc : TextScanner) (stops : list TabStop),
    (Z.to_nat (maxArrayLength - Z.of_nat (length stops)) < fuel)%nat ->
    exists r, tabStops_loop fuel sc stops = Some r.
Proof.
  assert (Pu : forall fuel stops t,
             (Z.to_nat (maxArrayLength - Z.of_nat (length stops)) < S fuel)%nat ->
             match push stops t with
             | Ok stops1 =>
                 (Z.to_nat (maxArrayLength - Z.of_nat (length stops1)) < fuel)%nat
             | Throw => True
             end).
  { intros fuel stops t F. unfold push.
    destruct (Z.ltb_spec (Z.of_nat (length stops)) maxArrayLength); [| exact I].
    rewrite length_app. cbn [length]. lia. }
  induction fuel as [| fuel IH]; intros sc stops F; [lia |].
  cbn [tabStops_loop].
  destruct (hasData sc); [| eexists; reflexivity].
  destruct (eqc (peek 0 sc) (ch "r") || eqc (peek 0 sc) (ch "c")).
  - destruct (parseFloatValue (consume 1 sc)) as [v sc1].
    pose proof (Pu fuel stops (TabString (default 0 (peek 0 sc)) v) F) as P.
    destruct (push stops _) as [stops1 |]; [apply IH; exact P | eexists; reflexivity].
  - pose proof (parseFloatValue_number sc) as N.
    destruct (parseFloatValue sc) as [v sc1]. cbn [fst] in N. rewrite N. cbn [negb].
    pose proof (Pu fuel stops (TabNumber v) F) as P.
    destruct (push stops _) as [stops1 |]; [apply IH; exact P | eexists; reflexivity].
Qed.

Lemma paragraph_loop_returns :
  forall (fuel : nat) (sc : TextScanner) (l : ParagraphLocals),
    wf_scanner sc ->
    (remaining sc + Z.to_nat maxArrayLength + 1 < fuel)%nat ->
    exists r, paragraph_loop fuel sc l = Some r.
Proof.
  induction fuel as [| fuel IH]; intros sc l W F; [lia |].
  cbn [paragraph_loop]. destruct (hasData sc) eqn:D; [| eexists; reflexivity].
  rewrite (get_peek sc W).
  pose proof (wf_consume 1 sc W) as W1.
  pose proof (remaining_consume sc W D) as R1.
  assert (Next : forall sc' l0, advances (consume 1 sc) sc' ->
                                exists r, paragraph_loop fuel sc' l0 = Some r).
  { intros sc' l0 A. apply IH; [apply (advances_wf _ _ A) |].
    destruct A as (_ & L & I & _). unfold remaining in *. rewrite L. lia. }
  destruct (eqc _ (ch "i")).
  { pose proof (advances_parseFloatValue _ W1) as A.
    destruct (parseFloatValue (consume 1 sc)) as [v sc']. apply Next. exact A. }
  destruct (eqc _ (ch "l")).
  { pose proof (advances_parseFloatValue _ W1) as A.
    destruct (parseFloatValue (consume 1 sc)) as [v sc']. apply Next. exact A. }
  destruct (eqc _ (ch "r")).
  { pose proof (advances_parseFloatValue _ W1) as A.
    destruct (parseFloatValue (consume 1 sc)) as [v sc']. apply Next. exact A. }
  destruct (eqc _ (ch "x")); [apply Next, advances_refl, W1 |].
  destruct (eqc _ (ch "q")).
  { pose proof (advances_get _ W1) as A.
    destruct (get (consume 1 sc)) as [adjustment sc']. cbn [snd] in A.
    apply Next. apply advances_trans with sc'; [exact A |].
    apply advances_skipCommas_loop. apply (advances_wf _ _ A). }
  destruct (eqc _ (ch "t")); [| apply Next, advances_refl, W1].
  destruct (tabStops_loop_returns fuel (consume 1 sc) []) as [r T].
  { cbn [length]. lia. }
  rewrite T. destruct r as [[sc' stops] |]; [| eexists; reflexivity].
  apply Next. apply (tabStops_loop_advances _ _ _ _ _ W1 T).
Qed.

(** The expression of a command is no longer than the unread text. *)
Lemma extractExpression_length (sc : TextScanner) :
  wf_scanner sc ->
  (length (fst (extractExpression false sc)) <= remaining sc)%nat.
Proof.
  intros W. destruct (extractExpression_cases sc W) as [C1 C2].
  destruct (in_dec Z.eq_dec (ch ";") (tail sc)) as [I | N].
  - destruct (first_semicolon _ I) as (a & b & E & Na).
    rewrite (C1 a b E Na).
    assert (L : (length a + 1 <= remaining sc)%nat).
    { rewrite <- length_tail by exact W. rewrite E, length_app. cbn [length]. lia. }
    destruct (eqc _ _); cbn [fst]; [rewrite length_app; cbn [length] |]; lia.
  - rewrite (C2 N). cbn [fst]. rewrite length_tail by exact W. lia.
Qed.

Lemma parseParagraphProperties_terminates (fuel : nat) (p : MTextParser)
    (c : MTextContext) :
  wf_scanner (scanner p) ->
  (remaining (scanner p) + Z.to_nat maxArrayLength + 1 < fuel)%nat ->
  exists p' r, parseParagraphProperties fuel p c = Some (p', r)
               /\ advances (scanner p) (scanner p').
Proof.
  intros W F. pose proof (extractExpression_length _ W) as L.
  pose proof (advances_extractExpression false _ W) as A.
  unfold parseParagraphProperties.
  destruct (extractExpression false (scanner p)) as [expr sc]. cbn [fst snd] in *.
  destruct (paragraph_loop_returns fuel (newTextScanner expr)
              {| l_indent := para_indent (paragraph c); l_left := para_left (paragraph c);
                 l_right := para_right (paragraph c); l_align := para_align (paragraph c);
                 l_tabStops := [] |} (wf_newTextScanner expr)) as [r E].
  - unfold remaining, newTextScanner. cbn [textLen _index]. lia.
  - rewrite E. destruct r; do 2 eexists; (split; [reflexivity | exact A]).
Qed.

Lemma parseProperties_terminates (fuel : nat) (cmd : jschar) (p : MTextParser) :
  wf_scanner (scanner p) ->
  (remaining (scanner p) + Z.to_nat maxArrayLength + 1 < fuel)%nat ->
  exists p' r, parseProperties fuel cmd p = Some (p', r)
               /\ advances (scanner p) (scanner p').
Proof.
  intros W F. destruct (Z.eq_dec cmd (ch "p")) as [-> | Np];
    [| apply parseProperties_returns; assumption].
  unfold parseProperties. rewrite dispatchProperty_p.
  destruct (parseParagraphProperties_terminates fuel p (copy (ctx p)) W F)
    as (p' & r & E & A).
  rewrite E. destruct r as [c' |].
  - cbn [with_continueStroke with_ctx yieldPropertyCommands].
    destruct (yieldPropertyCommands p').
    + destruct (hasKeys _); do 2 eexists; (split; [reflexivity | exact A]).
    + do 2 eexists. split; [reflexivity | exact A].
  - do 2 eexists. split; [reflexivity | exact A].
Qed.

Lemma commandSwitch_terminates (gbk big5 : Z -> Z -> option jsstring) (fuel : nat)
    (p : MTextParser) (word : jsstring) (start : Z) (cmd : option jschar) :
  wf_scanner (scanner p) ->
  (remaining (scanner p) + Z.to_nat maxArrayLength + 1 < fuel)%nat ->
  exists st, commandSwitch gbk big5 fuel p word start cmd = Some st
             /\ advances (scanner p) (scanner (step_parser st)).
Proof.
  intros W F.
  destruct cmd as [c |]; [| apply commandSwitch_returns; [exact W | discriminate]].
  destruct (Z.eq_dec c (ch "p")) as [-> | Np];
    [| apply commandSwitch_returns; [exact W | congruence]].
  destruct (parseProperties_terminates fuel (ch "p") p W F) as (p' & r & E & A).
  unfold commandSwitch.
  change (eqc (Some (ch "p")) (ch "~")) with false.
  change (eqc (Some (ch "p")) (ch "P")) with false.
  change (eqc (Some (ch "p")) (ch "N")) with false.
  change (eqc (Some (ch "p")) (ch "X")) with false.
  change (eqc (Some (ch "p")) (ch "S")) with false.
  change (eqc (Some (ch "p")) (ch "m")) with false.
  change (eqc (Some (ch "p")) (ch "M")) with false.
  cbv iota. cbn [orb]. rewrite E. destruct r as [[pc |] |].
  - destruct (yieldPropertyCommands p'); eexists; (split; [reflexivity | exact A]).
  - eexists. split; [reflexivity | exact A].
  - eexists. split; [reflexivity | exact A].
Qed.

(** One iteration of the token loop completes and moves the cursor, unless
    it returns the pending word. *)
Lemma loop_body_terminates (gbk big5 : Z -> Z -> option jsstring) (fuel : nat)
    (p : MTextParser) (word : jsstring) :
  wf_scanner (scanner p) -> hasData (scanner p) = true ->
  (remaining (scanner p) + Z.to_nat maxArrayLength + 1 < fuel)%nat ->
  exists st, loop_body gbk big5 fuel p word = Some st
             /\ advances (scanner p) (scanner (step_parser st))
             /\ match st with
                | Continue p' _ => _index (scanner p) < _index (scanner p')
                | Return _ _ _ p' => word = [] -> _index (scanner p) < _index (scanner p')
                end.
Proof.
  intros W D F.
  pose proof (advances_consume 1 _ W ltac:(lia)) as A1.
  pose proof (consume_strict 1 _ W D ltac:(lia)) as S1.
  assert (Shift : forall w letter escape,
             exists st,
               Some (plainChar (with_scanner p (consume 1 (scanner p))) w letter escape)
               = Some st
               /\ advances (scanner p) (scanner (step_parser st))
               /\ match st with
                  | Continue p' _ => _index (scanner p) < _index (scanner p')
                  | Return _ _ _ p' => w = [] -> _index (scanner p) < _index (scanner p')
                  end).
  { intros w letter escape.
    destruct (plainChar_progress (with_scanner p (consume 1 (scanner p))) w letter escape
                (advances_wf _ _ A1)) as [A _].
    simpl in A.
    eexists. split; [reflexivity |].
    split; [eapply advances_trans; [exact A1 | exact A] |].
    destruct A as (_ & _ & I & _).
    destruct (plainChar _ w letter escape); simpl in *; intros; lia. }
  unfold loop_body.
  destruct (code_lt (peek 0 (scanner p)) 32).
  { destruct (eqc (peek 0 (scanner p)) 9);
      [eexists; split; [reflexivity |]; simpl; split; [exact A1 | intros _; exact S1] |].
    destruct (eqc (peek 0 (scanner p)) 10);
      [eexists; split; [reflexivity |]; simpl; split; [exact A1 | intros _; exact S1] |].
    apply Shift. }
  destruct (eqc (peek 0 (scanner p)) (ch "\")) eqn:B.
  - destruct (includes1 (js "\{}") (peek 1 (scanner p))); [apply Shift |].
    destruct word as [| w ws].
    + pose proof (advances_get _ (advances_wf _ _ A1)) as G.
      destruct (get (consume 1 (scanner p))) as [cmd sc2]. cbn [fst snd] in G.
      destruct (commandSwitch_terminates gbk big5 fuel (with_scanner p sc2) []
                  (currentIndex (scanner p)) cmd (advances_wf _ _ G))
        as (st & E & A).
      { cbn [with_scanner scanner].
        destruct A1 as (_ & L1 & I1 & _). destruct G as (_ & L2 & I2 & _).
        unfold remaining in *. rewrite L2, L1. lia. }
      simpl in A. exists st. split; [exact E |].
      split; [eapply advances_trans; [exact A1 |];
              eapply advances_trans; [exact G | exact A] |].
      destruct G as (_ & _ & I1 & _). destruct A as (_ & _ & I2 & _).
      destruct st; simpl in *; intros; lia.
    + eexists. split; [reflexivity |]. simpl.
      split; [apply advances_refl; exact W | intros H; discriminate H].
  - destruct (plainChar_progress p word (peek 0 (scanner p)) false W) as [A S].
    eexists. split; [reflexivity |]. split; [exact A | apply S; exact D].
Qed.

Lemma nextToken_loop_terminates (gbk big5 : Z -> Z -> option jsstring) :
  forall (fuel : nat) (p : MTextParser) (word : jsstring),
    wf_scanner (scanner p) ->
    (remaining (scanner p) + Z.to_nat maxArrayLength + 2 < fuel)%nat ->
    exists t d f p',
      nextToken_loop gbk big5 fuel p word = Some (t, d, f, p')
      /\ advances (scanner p) (scanner p')
      /\ (word = [] -> t <> NONE -> _index (scanner p) < _index (scanner p')).
Proof.
  induction fuel as [| fuel IH]; intros p word W F; [lia |].
  simpl. destruct (hasData (scanner p)) eqn:D.
  - destruct (loop_body_terminates gbk big5 fuel p word W D ltac:(lia))
      as (st & E & A & S).
    rewrite E. destruct st as [p1 w1 | t d f p1]; simpl in A.
    + assert (F1 : (remaining (scanner p1) + Z.to_nat maxArrayLength + 2 < fuel)%nat).
      { apply hasData_lt in D. unfold remaining in *.
        destruct A as (_ & L & _ & _). lia. }
      destruct (IH p1 w1 (advances_wf _ _ A) F1) as (t & d & f & p' & E1 & A1 & _).
      exists t, d, f, p'. split; [exact E1 |].
      split; [eapply advances_trans; [exact A | exact A1] |].
      intros _ _. destruct A1 as (_ & _ & I & _). lia.
    + exists t, d, f, p1. split; [reflexivity |]. split; [exact A |].
      intros Hw _. apply S. exact Hw.
  - destruct word as [| w ws].
    + exists NONE, DNull, None, p. split; [reflexivity |].
      split; [apply advances_refl; exact W | intros _ H; contradiction].
    + exists WORD, (DWord (w :: ws)), None, p. split; [reflexivity |].
      split; [apply advances_refl; exact W | intros H; discriminate H].
Qed.

Lemma parse_loop_terminates (gbk big5 : Z -> Z -> option jsstring) :
  forall (fuel : nat) (p : MTextParser),
    wf_scanner (scanner p) ->
    (remaining (scanner p) + Z.to_nat maxArrayLength + 3 < fuel)%nat ->
    exists tokens, parse_loop gbk big5 fuel p = Some tokens.
Proof.
  induction fuel as [| fuel IH]; intros p W F; [lia |].
  simpl. unfold nextToken.
  destruct (nextToken_loop_terminates gbk big5 fuel p [] W ltac:(lia))
    as (t & d & f & p' & E & A & S).
  rewrite E.
  assert (Next : t <> NONE -> exists rest, parse_loop gbk big5 fuel p' = Some rest).
  { intros Ht. apply IH.
    - eapply advances_wf. exact A.
    - pose proof (S eq_refl Ht) as I. destruct A as (_ & L & _ & [_ B]).
      unfold remaining in *. lia. }
  destruct t; try (destruct (Next ltac:(discriminate)) as [rest ->]; eexists; reflexivity).
  eexists. reflexivity.
Qed.

(** X26.  The generator finishes on every input, from every context and
    with either setting of the option: with fuel for the characters of the
    input, the greatest length of an array and four more steps, and with
    any more, [parse] returns one and the same list of tokens.  What bounds
    the run is the input, whose cursor every other step moves, and the
    array of tab stops, which every iteration of the tab-stop loop
    extends. *)
Theorem parse_terminates
    (gbk big5 : Z -> Z -> option jsstring) (content : jsstring) (c : MTextContext)
    (yieldCommands : bool) :
  exists tokens, forall k : nat,
    parse gbk big5 (length content + Z.to_nat maxArrayLength + 4 + k) content c yieldCommands
    = Some tokens.
Proof.
  unfold parse.
  destruct (parse_loop_terminates gbk big5 (length content + Z.to_nat maxArrayLength + 4)
              (newMTextParser content c yieldCommands)) as [tokens E].
  - apply wf_newTextScanner.
  - unfold remaining, newMTextParser, newTextScanner. cbn [scanner textLen _index]. lia.
  - exists tokens. intros k.
    apply (parse_loop_mono gbk big5 (length content + Z.to_nat maxArrayLength + 4));
      [lia | exact E].
Qed.
(** ** What a PROPERTIES_CHANGED token reports *)

Lemma dispatchProperty_lastCtx fuel cmd p c p' r :
  dispatchProperty fuel cmd p c = Some (p', r) -> lastCtx p' = lastCtx p.
Proof.
  intros D.
  pose proof (dispatchProperty_frame fuel cmd p c (yieldPropertyCommands p) (lastCtx p)) as F.
  rewrite withReporting_same, D in F. injection F as F. rewrite F. reflexivity.
Qed.

(** A report of [parseProperties] is the difference between the context
    reported last and the new context, which is then the one reported last;
    without a report that context stays. *)
Lemma parseProperties_report fuel cmd p p' r :
  parseProperties fuel cmd p = Some (p', r) ->
  match r with
  | Ok (Some pc) =>
      changes pc = getPropertyChanges (lastCtx p) (ctx p')
      /\ hasKeys (changes pc) = true /\ lastCtx p' = copy (ctx p')
      /\ yieldPropertyCommands p' = true
  | _ => lastCtx p' = lastCtx p
  end.
Proof.
  unfold parseProperties.
  destruct (dispatchProperty fuel cmd p (copy (ctx p))) as [[p1 [c1 |]] |] eqn:D;
    [| | discriminate].
  - pose proof (dispatchProperty_lastCtx _ _ _ _ _ _ D) as L.
    cbn [with_continueStroke with_ctx yieldPropertyCommands parserContinueStroke lastCtx ctx].
    destruct (yieldPropertyCommands p1) eqn:Y; [destruct (hasKeys _) eqn:HK |];
      intros H; injection H as <- <-;
      cbn [with_lastCtx lastCtx ctx changes yieldPropertyCommands];
      [| exact L | exact L].
    rewrite <- L. split; [reflexivity |]. split; [exact HK |]. split; [reflexivity | exact Y].
  - intros H. injection H as <- <-. apply (dispatchProperty_lastCtx _ _ _ _ _ _ D).
Qed.

Lemma plainChar_report p word letter escape :
  match plainChar p word letter escape with
  | Return _ (DChanged _) _ _ => False
  | Return _ _ _ p' | Continue p' _ => lastCtx p' = lastCtx p
  end.
Proof.
  pose proof (plainChar_frame p word letter escape (yieldPropertyCommands p) (lastCtx p)) as F.
  rewrite withReporting_same in F.
  destruct (plainChar p word letter escape) as [p' w | t d f p'] eqn:E.
  - injection F as F. rewrite F. reflexivity.
  - destruct (plainChar_shape _ _ _ _ _ _ _ _ E) as (S1 & S2 & _).
    injection F as F.
    destruct d; try (rewrite F; reflexivity).
    destruct t; try discriminate S1. contradiction.
Qed.

Lemma multiByte_report gbk big5 p word :
  match multiByte gbk big5 p word with
  | Return _ (DChanged _) _ _ => False
  | Return _ _ _ p' | Continue p' _ => lastCtx p' = lastCtx p
  end.
Proof.
  pose proof (multiByte_frame gbk big5 p word (yieldPropertyCommands p) (lastCtx p)) as F.
  rewrite withReporting_same in F.
  destruct (multiByte gbk big5 p word) as [p' w | t d f p'] eqn:E.
  - injection F as F. rewrite F. reflexivity.
  - destruct (multiByte_shape _ _ _ _ _ _ _ _ E) as (S1 & S2 & _).
    injection F as F.
    destruct d; try (rewrite F; reflexivity).
    destruct t; try discriminate S1. contradiction.
Qed.

Lemma loop_body_report gbk big5 fuel p word st :
  loop_body gbk big5 fuel p word = Some st ->
  match st with
  | Return _ (DChanged pc) _ p' =>
      changes pc = getPropertyChanges (lastCtx p) (ctx p')
      /\ hasKeys (changes pc) = true /\ lastCtx p' = copy (ctx p')
  | Return _ _ _ p' | Continue p' _ => lastCtx p' = lastCtx p
  end.
Proof.
  assert (PC : forall q w letter escape,
             lastCtx q = lastCtx p ->
             Some (plainChar q w letter escape) = Some st ->
             match st with
             | Return _ (DChanged pc) _ p' =>
                 changes pc = getPropertyChanges (lastCtx p) (ctx p')
                 /\ hasKeys (changes pc) = true /\ lastCtx p' = copy (ctx p')
             | Return _ _ _ p' | Continue p' _ => lastCtx p' = lastCtx p
             end).
  { intros q w letter escape Q H. injection H as <-.
    pose proof (plainChar_report q w letter escape) as R.
    destruct (plainChar q w letter escape) as [p' w' | t d f p'];
      [congruence | destruct d; first [contradiction | congruence]]. }
  unfold loop_body.
  destruct (code_lt (peek 0 (scanner p)) 32).
  { destruct (eqc (peek 0 (scanner p)) 9); [intros H; injection H as <-; reflexivity |].
    destruct (eqc (peek 0 (scanner p)) 10); [intros H; injection H as <-; reflexivity |].
    apply PC. reflexivity. }
  destruct (eqc (peek 0 (scanner p)) (ch "\")); [| apply PC; reflexivity].
  destruct (includes1 _ _); [apply PC; reflexivity |].
  destruct word as [| w0 word]; [| intros H; injection H as <-; reflexivity].
  destruct (get (consume 1 (scanner p))) as [cmd sc].
  unfold commandSwitch.
  destruct (eqc cmd (ch "~")); [intros H; injection H as <-; reflexivity |].
  destruct (eqc cmd (ch "P")); [intros H; injection H as <-; reflexivity |].
  destruct (eqc cmd (ch "N")); [intros H; injection H as <-; reflexivity |].
  destruct (eqc cmd (ch "X")); [intros H; injection H as <-; reflexivity |].
  destruct (eqc cmd (ch "S")).
  { destruct (parseStacking _) as [r p1] eqn:PS. intros H. injection H as <-.
    unfold parseStacking in PS. destruct (extractExpression true _) as [expr sc'] in PS.
    injection PS as <- <-. destruct (stackExpression_type expr) as (n & dd & tt & ->).
    reflexivity. }
  destruct (eqc cmd (ch "m") || eqc cmd (ch "M")).
  { intros H. injection H as <-.
    pose proof (multiByte_report gbk big5 (with_scanner p sc) []) as R.
    destruct (multiByte gbk big5 (with_scanner p sc) []) as [p' w' | t d f p'];
      [exact R | destruct d; first [contradiction | exact R]]. }
  destruct cmd as [c |]; [| intros H; injection H as <-; reflexivity].
  destruct (parseProperties fuel c (with_scanner p sc)) as [[p1 r] |] eqn:E;
    [| discriminate].
  pose proof (parseProperties_report _ _ _ _ _ E) as R.
  cbn [with_scanner lastCtx] in R.
  destruct r as [[pc |] |].
  - destruct R as (R1 & R2 & R3 & R4). rewrite R4.
    intros H. injection H as <-.
    cbn [with_lastCtx ctx lastCtx]. split; [exact R1 |]. split; [exact R2 | reflexivity].
  - intros H. injection H as <-. exact R.
  - intros H. injection H as <-. exact R.
Qed.

Lemma nextToken_loop_report gbk big5 :
  forall (n : nat) (p : MTextParser) (word : jsstring) t d f p',
    nextToken_loop gbk big5 n p word = Some (t, d, f, p') ->
    match d with
    | DChanged pc =>
        changes pc = getPropertyChanges (lastCtx p) (ctx p')
        /\ hasKeys (changes pc) = true /\ lastCtx p' = copy (ctx p')
    | _ => lastCtx p' = lastCtx p
    end.
Proof.
  induction n as [| n IH]; intros p word t d f p' H; [discriminate H |].
  cbn [nextToken_loop] in H. destruct (hasData (scanner p)).
  - destruct (loop_body gbk big5 n p word) as [[p1 w1 | t1 d1 f1 p1] |] eqn:B;
      [| | discriminate H]; pose proof (loop_body_report _ _ _ _ _ _ B) as R.
    + pose proof (IH _ _ _ _ _ _ H) as R1. rewrite R in R1. exact R1.
    + injection H as <- <- <- <-. exact R.
  - destruct word; injection H as <- <- <- <-; reflexivity.
Qed.

(** X21.  The PROPERTIES_CHANGED tokens of a finished run report, each, the
    difference between the context of the PROPERTIES_CHANGED token before
    it (the initial context for the first one) and the context of their own
    token, and none of them is empty: what [getPropertyChanges] finds
    between the two contexts, whatever was pushed, popped or changed
    without a report in between. *)
Theorem changed_tokens_report_the_difference gbk big5 (fuel : nat) (content : jsstring)
    (c : MTextContext) (yieldCommands : bool) (tokens : list MTextToken) :
  parse gbk big5 fuel content c yieldCommands = Some tokens ->
  reportsDifferences (copy c) tokens.
Proof.
  unfold parse.
  change (copy c) with (lastCtx (newMTextParser content c yieldCommands)).
  generalize (newMTextParser content c yieldCommands) as p.
  clear content c yieldCommands.
  revert tokens. induction fuel as [| n IH]; intros tokens p H; [discriminate H |].
  destruct (parse_loop_inv _ _ _ _ _ H) as (t & d & f & p' & N & [[_ ->] | (T & rest & R & ->)]);
    [exact I |].
  pose proof (nextToken_loop_report _ _ _ _ _ _ _ _ _ N) as D.
  pose proof (IH _ _ R) as Rest.
  cbn [reportsDifferences tok_data tok_ctx].
  assert (Second : forall l,
             reportsDifferences l rest ->
             reportsDifferences l
               (match f with
                | Some x => [{| tok_type := x; tok_ctx := ctx p'; tok_data := DNull |}]
                | None => []
                end ++ rest)).
  { intros l Hl. destruct f; exact Hl. }
  destruct d as [| w | nu de ty | pc].
  - apply Second. rewrite <- D. exact Rest.
  - apply Second. rewrite <- D. exact Rest.
  - apply Second. rewrite <- D. exact Rest.
  - destruct D as (D1 & D2 & D3). split; [exact D1 |]. split; [exact D2 |].
    apply Second. rewrite <- D3. exact Rest.
Qed.

Lemma changed_tokens_report_the_difference_witness :
  exists tokens,
    parse noDecoder noDecoder 30 (js "{\H2;a}\Lb\c255;\c255;") newMTextContext true
    = Some tokens
    /\ length (List.filter isPropertiesChanged tokens) = 4%nat
    /\ reportsDifferences (copy newMTextContext) tokens.
Proof.
  eexists. split; [vm_compute; reflexivity |]. split; [reflexivity |].
  apply (changed_tokens_report_the_difference noDecoder noDecoder 30
           (js "{\H2;a}\Lb\c255;\c255;") newMTextContext true).
  vm_compute. reflexivity.
Defined.

(** ** copy on the heap: what is cloned *)

(** X22.  On any heap on which [c2 = c1.copy()] succeeds, the copy is a
    new object that reads the same font face and the same paragraph indent
    as the original, the original still reads what it read before, and the
    font face and the paragraph object of the two are separate: writing the
    family or the indent through one context is not seen through the
    other. *)
Theorem copy_clones_font_and_paragraph (h h1 : Heap.heap) (c1 c2 : Heap.loc) :
  Heap.copy h c1 = Some (c2, h1) ->
  c2 <> c1
  /\ Heap.readFontFace h1 c2 = Heap.readFontFace h c1
  /\ Heap.readFontFace h1 c1 = Heap.readFontFace h c1
  /\ Heap.readIndent h1 c2 = Heap.readIndent h c1
  /\ Heap.readIndent h1 c1 = Heap.readIndent h c1
  /\ (forall name h', Heap.writeFamily h1 c2 name = Some h' ->
        Heap.readFontFace h' c1 = Heap.readFontFace h1 c1)
  /\ (forall name h', Heap.writeFamily h1 c1 name = Some h' ->
        Heap.readFontFace h' c2 = Heap.readFontFace h1 c2)
  /\ (forall v h', Heap.writeIndent h1 c2 v = Some h' ->
        Heap.readIndent h' c1 = Heap.readIndent h1 c1)
  /\ (forall v h', Heap.writeIndent h1 c1 v = Some h' ->
        Heap.readIndent h' c2 = Heap.readIndent h1 c2).
Proof.
  intros H.
  assert (C : exists s cs a r al ff chh wf ct ob pa f x1 x2 x3 i l r' a' ts,
             h !! c1 = Some (Heap.ContextCell s cs a r al ff chh wf ct ob pa)
             /\ h !! ff = Some (Heap.FontFaceCell f)
             /\ h !! chh = Some (Heap.FactorCell x1)
             /\ h !! wf = Some (Heap.FactorCell x2)
             /\ h !! ct = Some (Heap.FactorCell x3)
             /\ h !! pa = Some (Heap.ParagraphCell i l r' a' ts)).
  { unfold Heap.copy in H.
    destruct (h !! c1) as [[| | | | | s cs a r al ff chh wf ct ob pa] |] eqn:E0;
      try discriminate H.
    destruct (h !! ff) as [[| f | | | |] |] eqn:E1; try discriminate H.
    destruct (h !! chh) as [[| | x1 | | |] |] eqn:E2; try discriminate H.
    destruct (h !! wf) as [[| | x2 | | |] |] eqn:E3; try discriminate H.
    destruct (h !! ct) as [[| | x3 | | |] |] eqn:E4; try discriminate H.
    destruct (h !! pa) as [[| | | | i l r' a' ts |] |] eqn:E5; try discriminate H.
    do 20 eexists. repeat split; eassumption. }
  destruct C as (s & cs & a & r & al & ff & chh & wf & ct & ob & pa & f & x1 & x2
                 & x3 & i & l & r' & a' & ts & H0 & H1 & H2 & H3 & H4 & H5).
  rewrite (copy_result _ _ _ _ _ _ _ _ _ _ _ _ _ _ _ _ _ _ _ _ _ _ H0 H1 H2 H3 H4 H5) in H.
  injection H as <- <-.
  pose proof (lookup_lt_Some _ _ _ H0) as L0.
  pose proof (lookup_lt_Some _ _ _ H1) as L1.
  pose proof (lookup_lt_Some _ _ _ H5) as L5.
  match goal with |- context [h ++ ?l] => set (L := l) end.
  assert (N0 : (h ++ L) !! c1 = Some (Heap.ContextCell s cs a r al ff chh wf ct ob pa))
    by (apply lookup_app_old; exact H0).
  assert (N1 : (h ++ L) !! ff = Some (Heap.FontFaceCell f))
    by (apply lookup_app_old; exact H1).
  assert (N5 : (h ++ L) !! pa = Some (Heap.ParagraphCell i l r' a' ts))
    by (apply lookup_app_old; exact H5).
  assert (M0 : (h ++ L) !! (length h + 6)%nat
               = Some (Heap.ContextCell s cs a r al (length h + 7)%nat (length h + 8)%nat
                         (length h + 9)%nat (length h + 10)%nat ob (length h + 11)%nat))
    by (rewrite lookup_app_plus; reflexivity).
  assert (M1 : (h ++ L) !! (length h + 7)%nat = Some (Heap.FontFaceCell f))
    by (rewrite lookup_app_plus; reflexivity).
  assert (M5 : (h ++ L) !! (length h + 11)%nat = Some (Heap.ParagraphCell i l r' a' ts))
    by (rewrite lookup_app_plus; reflexivity).
  unfold Heap.heap, Heap.loc in *.
  assert (RF1 : Heap.readFontFace (h ++ L) c1 = Some f)
    by (unfold Heap.readFontFace, Heap.heap, Heap.loc; rewrite N0, N1; reflexivity).
  assert (RF2 : Heap.readFontFace (h ++ L) (length h + 6)%nat = Some f)
    by (unfold Heap.readFontFace, Heap.heap, Heap.loc; rewrite M0, M1; reflexivity).
  assert (RI1 : Heap.readIndent (h ++ L) c1 = Some i)
    by (unfold Heap.readIndent, Heap.heap, Heap.loc; rewrite N0, N5; reflexivity).
  assert (RI2 : Heap.readIndent (h ++ L) (length h + 6)%nat = Some i)
    by (unfold Heap.readIndent, Heap.heap, Heap.loc; rewrite M0, M5; reflexivity).
  assert (RF0 : Heap.readFontFace h c1 = Some f)
    by (unfold Heap.readFontFace, Heap.heap, Heap.loc; rewrite H0, H1; reflexivity).
  assert (RI0 : Heap.readIndent h c1 = Some i)
    by (unfold Heap.readIndent, Heap.heap, Heap.loc; rewrite H0, H5; reflexivity).
  split; [lia |].
  split; [congruence |]. split; [congruence |].
  split; [congruence |]. split; [congruence |].
  assert (Ins : forall (k j : nat) (x y : Heap.cell),
             k <> j -> (h ++ L) !! j = Some y -> (<[k := x]> (h ++ L)) !! j = Some y).
  { intros k j x y Hk Hj. rewrite list_lookup_insert_ne by exact Hk. exact Hj. }
  assert (K7 : (length h + 7)%nat <> c1 /\ (length h + 7)%nat <> ff) by lia.
  assert (K11 : (length h + 11)%nat <> c1 /\ (length h + 11)%nat <> pa) by lia.
  assert (Kf : ff <> (length h + 6)%nat /\ ff <> (length h + 7)%nat) by lia.
  assert (Kp : pa <> (length h + 6)%nat /\ pa <> (length h + 11)%nat) by lia.
  split; [| split; [| split]].
  - intros name h' W. unfold Heap.writeFamily, Heap.heap, Heap.loc in W.
    rewrite M0, M1 in W. injection W as <-. rewrite RF1. unfold Heap.readFontFace.
    rewrite (Ins _ c1 _ _ (proj1 K7) N0), (Ins _ ff _ _ (proj2 K7) N1). reflexivity.
  - intros name h' W. unfold Heap.writeFamily, Heap.heap, Heap.loc in W.
    rewrite N0, N1 in W. injection W as <-. rewrite RF2. unfold Heap.readFontFace.
    rewrite (Ins _ (length h + 6)%nat _ _ (proj1 Kf) M0),
      (Ins _ (length h + 7)%nat _ _ (proj2 Kf) M1). reflexivity.
  - intros v h' W. unfold Heap.writeIndent, Heap.heap, Heap.loc in W.
    rewrite M0, M5 in W. injection W as <-. rewrite RI1. unfold Heap.readIndent.
    rewrite (Ins _ c1 _ _ (proj1 K11) N0), (Ins _ pa _ _ (proj2 K11) N5). reflexivity.
  - intros v h' W. unfold Heap.writeIndent, Heap.heap, Heap.loc in W.
    rewrite N0, N5 in W. injection W as <-. rewrite RI2. unfold Heap.readIndent.
    rewrite (Ins _ (length h + 6)%nat _ _ (proj1 Kp) M0),
      (Ins _ (length h + 11)%nat _ _ (proj2 Kp) M5). reflexivity.
Qed.

Lemma copy_clones_font_and_paragraph_witness :
  exists (c2 : Heap.loc) (h1 : Heap.heap),
    Heap.copy (snd (Heap.newContext [])) (fst (Heap.newContext [])) = Some (c2, h1)
    /\ Heap.readFontFace h1 c2
       = Heap.readFontFace (snd (Heap.newContext [])) (fst (Heap.newContext [])).
Proof.
  do 2 eexists. split; [vm_compute; reflexivity |].
  apply (copy_clones_font_and_paragraph (snd (Heap.newContext [])) _
           (fst (Heap.newContext [])) _).
  vm_compute. reflexivity.
Defined.

(** ** Groups *)

Lemma tokensFrom_plain (gbk big5 : Z -> Z -> option jsstring) (s : jsstring)
    (p : MTextParser) (word : jsstring) (n m : nat) :
  wf_scanner (scanner p) -> tail (scanner p) = s ->
  forallb isPlainChar s = true ->
  (length s < n)%nat ->
  (length s + (match word with [] => 0 | _ :: _ => 1 end) < m)%nat ->
  tokensFrom gbk big5 n m p word = Some (map (tokenOf (ctx p)) (plainTokens word s)).
Proof. apply plain_run. Qed.

(** An opening brace, with an empty word buffer, saves the context. *)
Lemma open_brace_step (gbk big5 : Z -> Z -> option jsstring) (fuel : nat)
    (p : MTextParser) (rest : jsstring) :
  wf_scanner (scanner p) -> tail (scanner p) = ch "{" :: rest ->
  loop_body gbk big5 fuel p []
  = Some (Continue (pushCtx (with_scanner p (consume 1 (scanner p)))) []).
Proof.
  intros W T. destruct (tail_cons _ _ _ W T) as (_ & P0 & _).
  unfold loop_body, plainChar. rewrite P0. reflexivity.
Qed.

(** A closing brace returns the pending word first and restores the saved
    context once the word buffer is empty. *)
Lemma close_brace_step (gbk big5 : Z -> Z -> option jsstring) (fuel : nat)
    (p : MTextParser) (word rest : jsstring) :
  wf_scanner (scanner p) -> tail (scanner p) = ch "}" :: rest ->
  loop_body gbk big5 fuel p word
  = Some (match word with
          | [] => Continue (popCtx (with_scanner p (consume 1 (scanner p)))) []
          | _ :: _ => Return WORD (DWord word) None p
          end).
Proof.
  intros W T. destruct (tail_cons _ _ _ W T) as (_ & P0 & _).
  unfold loop_body, plainChar. rewrite P0. destruct word; reflexivity.
Qed.

(** The command [\L] with the reporting of property changes off. *)
Lemma underline_step (gbk big5 : Z -> Z -> option jsstring) (fuel : nat)
    (p : MTextParser) (rest : jsstring) :
  wf_scanner (scanner p) -> tail (scanner p) = ch "\" :: ch "L" :: rest ->
  yieldPropertyCommands p = false ->
  loop_body gbk big5 fuel p []
  = Some (Continue
            (with_ctx
               (with_continueStroke (with_scanner p (consume 2 (scanner p)))
                  (hasAnyStroke (set_underline (copy (ctx p)) true)))
               (set_continueStroke (set_underline (copy (ctx p)) true)
                  (hasAnyStroke (set_underline (copy (ctx p)) true))))
            []).
Proof.
  intros W T Y. destruct (tail_cons _ _ _ W T) as (D & P0 & T1 & P1 & _).
  assert (W1 : wf_scanner (consume 1 (scanner p))) by (apply wf_consume; exact W).
  destruct (tail_cons _ _ _ W1 T1) as (_ & P2 & _).
  unfold loop_body. rewrite P0, P1. cbn [head code_lt eqc includes1 existsb].
  change (ch "\" <? 32) with false. rewrite Z.eqb_refl.
  change (ch "L" =? ch "\") with false. change (ch "L" =? ch "{") with false.
  change (ch "L" =? ch "}") with false. cbn [orb].
  rewrite (get_peek _ W1), P2.
  replace (consume 1 (consume 1 (scanner p))) with (consume 2 (scanner p)).
  - unfold commandSwitch. cbn [eqc].
    change (ch "L" =? ch "~") with false. change (ch "L" =? ch "P") with false.
    change (ch "L" =? ch "N") with false. change (ch "L" =? ch "X") with false.
    change (ch "L" =? ch "S") with false. change (ch "L" =? ch "m") with false.
    change (ch "L" =? ch "M") with false. cbn [orb].
    unfold parseProperties, dispatchProperty. rewrite Z.eqb_refl.
    cbn [with_continueStroke with_ctx with_scanner yieldPropertyCommands
         parserContinueStroke ctx scanner].
    rewrite Y. reflexivity.
  - apply hasData_lt in D. destruct W as [L I].
    unfold consume, set_index. cbn [_index textLen text]. f_equal. lia.
Qed.

Lemma parse_loop_S (gbk big5 : Z -> Z -> option jsstring) (m : nat) (p : MTextParser) :
  parse_loop gbk big5 (S m) p = tokensFrom gbk big5 m m p [].
Proof. reflexivity. Qed.

Lemma tokensFrom_continue (gbk big5 : Z -> Z -> option jsstring) (n m : nat)
    (p p' : MTextParser) (word word' : jsstring) :
  hasData (scanner p) = true ->
  loop_body gbk big5 n p word = Some (Continue p' word') ->
  tokensFrom gbk big5 (S n) m p word = tokensFrom gbk big5 n m p' word'.
Proof. intros D B. unfold tokensFrom. cbn [nextToken_loop]. rewrite D, B. reflexivity. Qed.

Lemma tokensFrom_word (gbk big5 : Z -> Z -> option jsstring) (n m : nat)
    (p p' : MTextParser) (word w : jsstring) (f : option TokenType) :
  hasData (scanner p) = true ->
  loop_body gbk big5 n p word = Some (Return WORD (DWord w) f p') ->
  tokensFrom gbk big5 (S n) m p word
  = match parse_loop gbk big5 m p' with
    | Some rest =>
        Some (tokenOf (ctx p') (WORD, DWord w)
              :: match f with
                 | Some x => [tokenOf (ctx p') (x, DNull)]
                 | None => []
                 end ++ rest)
    | None => None
    end.
Proof. intros D B. unfold tokensFrom. cbn [nextToken_loop]. rewrite D, B. reflexivity. Qed.

Lemma tokensFrom_space (gbk big5 : Z -> Z -> option jsstring) (n m : nat)
    (p p' : MTextParser) (word : jsstring) :
  hasData (scanner p) = true ->
  loop_body gbk big5 n p word = Some (Return SPACE DNull None p') ->
  tokensFrom gbk big5 (S n) m p word
  = match parse_loop gbk big5 m p' with
    | Some rest => Some (tokenOf (ctx p') (SPACE, DNull) :: rest)
    | None => None
    end.
Proof. intros D B. unfold tokensFrom. cbn [nextToken_loop]. rewrite D, B. reflexivity. Qed.

(** Plain text up to a closing brace, then plain text in the restored
    context. *)
Lemma tokensFrom_group (gbk big5 : Z -> Z -> option jsstring) (v : jsstring)
    (c0 : MTextContext) :
  forallb isPlainChar v = true ->
  forall (u : jsstring) (p : MTextParser) (word : jsstring) (n m : nat),
    wf_scanner (scanner p) -> tail (scanner p) = u ++ ch "}" :: v ->
    ctxStack p = [c0] ->
    forallb isPlainChar u = true ->
    (length u + length v + 2 < n)%nat -> (length u + length v + 3 < m)%nat ->
    tokensFrom gbk big5 n m p word
    = Some (map (tokenOf (ctx p)) (plainTokens word u)
            ++ map (tokenOf c0) (plainTokens [] v)).
Proof.
  intros Pv. induction u as [| c r IH]; intros p word n m W T St Pu Hn Hm.
  - cbn [app] in T. destruct (tail_cons _ _ _ W T) as (D & _ & T1 & _).
    cbn [length] in Hn, Hm.
    assert (Pop : wf_scanner (scanner (popCtx (with_scanner p (consume 1 (scanner p)))))
                  /\ tail (scanner (popCtx (with_scanner p (consume 1 (scanner p))))) = v
                  /\ ctx (popCtx (with_scanner p (consume 1 (scanner p)))) = c0).
    { unfold popCtx. cbn [with_scanner ctxStack]. rewrite St.
      cbn [last with_ctx with_ctxStack scanner ctx].
      split; [apply wf_consume; exact W | split; [exact T1 | reflexivity]]. }
    destruct Pop as (W' & T' & C').
    destruct word as [| w0 word].
    + destruct n as [| n]; [lia |].
      rewrite (tokensFrom_continue gbk big5 n m p _ [] [] D
                 (close_brace_step gbk big5 n p [] v W T)).
      rewrite (tokensFrom_plain gbk big5 v _ [] n m W' T' Pv) by (simpl; lia).
      rewrite C'. reflexivity.
    + destruct n as [| n]; [lia |].
      rewrite (tokensFrom_word gbk big5 n m p p (w0 :: word) (w0 :: word) None D
                 (close_brace_step gbk big5 n p (w0 :: word) v W T)).
      destruct m as [| [| m]]; [lia | lia |].
      rewrite parse_loop_S.
      rewrite (tokensFrom_continue gbk big5 m (S m) p _ [] [] D
                 (close_brace_step gbk big5 m p [] v W T)).
      rewrite (tokensFrom_plain gbk big5 v _ [] m (S m) W' T' Pv) by (simpl; lia).
      rewrite C'. reflexivity.
  - cbn [app] in T. destruct (tail_cons _ _ _ W T) as (D & _ & T1 & _).
    cbn [forallb] in Pu. apply andb_prop in Pu. destruct Pu as [Pc Pr].
    cbn [length] in Hn, Hm.
    destruct n as [| n]; [lia |].
    pose proof (plain_char_step gbk big5 n p word c (r ++ ch "}" :: v) W T Pc) as B.
    cbn [plainTokens].
    assert (W1 : wf_scanner (scanner (with_scanner p (consume 1 (scanner p)))))
      by (apply wf_consume; exact W).
    destruct (c =? ch " ").
    + destruct m as [| m]; [lia |].
      pose proof (IH (with_scanner p (consume 1 (scanner p))) [] m m W1 T1 St Pr
                    ltac:(lia) ltac:(lia)) as R.
      rewrite <- parse_loop_S in R.
      destruct word as [| w0 word].
      * rewrite (tokensFrom_space gbk big5 n (S m) p _ [] D B), R. reflexivity.
      * rewrite (tokensFrom_word gbk big5 n (S m) p _ _ _ _ D B), R. reflexivity.
    + rewrite (tokensFrom_continue gbk big5 n m p _ word _ D B).
      apply (IH (with_scanner p (consume 1 (scanner p))) (word ++ [c]) n m W1 T1 St Pr);
        lia.
Qed.

(** X23.  The scope of a property change.  In the input
    [{\L u } v] with plain texts [u] and [v], the tokens of [u] carry the
    context with the underline set, and the tokens of [v] carry the initial
    context again: the closing brace restores what the opening brace saved.
    The braces yield no token themselves, but the word before the closing
    brace ends there. *)
Theorem group_restores_context (gbk big5 : Z -> Z -> option jsstring) (u v : jsstring)
    (c0 : MTextContext) (k : nat) :
  forallb isPlainChar u = true -> forallb isPlainChar v = true ->
  parse gbk big5 (length u + length v + 6 + k)
    (js "{\L" ++ u ++ ch "}" :: v) c0 false
  = Some (map (tokenOf (set_continueStroke (set_underline (copy c0) true)
                          (hasAnyStroke (set_underline (copy c0) true))))
              (plainTokens [] u)
          ++ map (tokenOf c0) (plainTokens [] v)).
Proof.
  intros Pu Pv. unfold parse.
  set (p0 := newMTextParser (js "{\L" ++ u ++ ch "}" :: v) c0 false).
  assert (W0 : wf_scanner (scanner p0)) by apply wf_newTextScanner.
  assert (T0 : tail (scanner p0) = ch "{" :: ch "\" :: ch "L" :: u ++ ch "}" :: v)
    by (rewrite tail_drop by exact W0; reflexivity).
  destruct (tail_cons _ _ _ W0 T0) as (D0 & _ & T1 & _).
  replace (length u + length v + 6 + k)%nat
    with (S (S (S (length u + length v + 3 + k)))) by lia.
  rewrite parse_loop_S.
  rewrite (tokensFrom_continue gbk big5 _ _ p0 _ [] [] D0
             (open_brace_step gbk big5 _ p0 _ W0 T0)).
  set (p1 := pushCtx (with_scanner p0 (consume 1 (scanner p0)))).
  assert (W1 : wf_scanner (scanner p1)) by (apply wf_consume; exact W0).
  assert (T1' : tail (scanner p1) = ch "\" :: ch "L" :: u ++ ch "}" :: v) by exact T1.
  assert (D1 : hasData (scanner p1) = true) by (apply (tail_cons _ _ _ W1 T1')).
  rewrite (tokensFrom_continue gbk big5 _ _ p1 _ [] [] D1
             (underline_step gbk big5 _ p1 _ W1 T1' eq_refl)).
  match goal with
  | |- tokensFrom gbk big5 _ _ ?q [] = _ => set (p2 := q)
  end.
  assert (W2 : wf_scanner (scanner p2)) by (apply wf_consume; exact W1).
  assert (T2 : tail (scanner p2) = u ++ ch "}" :: v).
  { unfold p2. cbn [with_ctx with_continueStroke with_scanner scanner].
    rewrite tail_consume by (try exact W1; lia). rewrite T1'. reflexivity. }
  apply (tokensFrom_group gbk big5 v c0 Pv u p2 [] _ _ W2 T2 eq_refl Pu); lia.
Qed.

Lemma group_restores_context_witness :
  forallb isPlainChar (js "a b") = true
  /\ parse noDecoder noDecoder 10 (js "{\La b}c") newMTextContext false
     = Some [ tokenOf (set_continueStroke (set_underline newMTextContext true) true)
                (WORD, DWord (js "a"));
              tokenOf (set_continueStroke (set_underline newMTextContext true) true)
                (SPACE, DNull);
              tokenOf (set_continueStroke (set_underline newMTextContext true) true)
                (WORD, DWord (js "b"));
              tokenOf newMTextContext (WORD, DWord (js "c")) ].
Proof.
  assert (P : forallb isPlainChar (js "a b") = true) by reflexivity.
  split; [exact P |].
  exact (group_restores_context noDecoder noDecoder (js "a b") (js "c") newMTextContext 0
           P eq_refl).
Defined.

(** ** Caret sequences *)

Lemma tokensFrom_return (gbk big5 : Z -> Z -> option jsstring) (n m : nat)
    (p p' : MTextParser) (word : jsstring) (t : TokenType) (d : TokenData) :
  hasData (scanner p) = true ->
  loop_body gbk big5 n p word = Some (Return t d None p') -> t <> NONE ->
  tokensFrom gbk big5 (S n) m p word
  = match parse_loop gbk big5 m p' with
    | Some rest => Some (tokenOf (ctx p') (t, d) :: rest)
    | None => None
    end.
Proof.
  intros D B T. unfold tokensFrom. cbn [nextToken_loop]. rewrite D, B.
  destruct t; try reflexivity. contradiction.
Qed.

Lemma tokensFrom_skip_word (gbk big5 : Z -> Z -> option jsstring) (u rest : jsstring)
    (p : MTextParser) (word : jsstring) (n m : nat) :
  wf_scanner (scanner p) -> tail (scanner p) = u ++ rest ->
  forallb (fun c => isPlainChar c && negb (c =? ch " ")) u = true ->
  tokensFrom gbk big5 (length u + n) m p word
  = tokensFrom gbk big5 n m
      (with_scanner p (consume (Z.of_nat (length u)) (scanner p))) (word ++ u).
Proof.
  intros W T P. unfold tokensFrom.
  rewrite (nextToken_loop_word gbk big5 u rest p word n W T P). reflexivity.
Qed.

(** The step of the loop at a caret, outside a stacking expression. *)
Lemma caret_step (gbk big5 : Z -> Z -> option jsstring) (fuel : nat)
    (p : MTextParser) (word : jsstring) (x : jschar) (rest : jsstring) :
  wf_scanner (scanner p) -> tail (scanner p) = ch "^" :: x :: rest ->
  inStackContext p = false ->
  loop_body gbk big5 fuel p word
  = Some (let p' := with_scanner p (consume 2 (scanner p)) in
          if x =? 32 then Continue p' (word ++ js "^")
          else if x =? 73 then
            match word with
            | _ :: _ => Return WORD (DWord word) None p'
            | [] => Return TABULATOR DNull None p'
            end
          else if x =? 74 then
            match word with
            | _ :: _ => Return WORD (DWord word) None p'
            | [] => Return NEW_PARAGRAPH DNull None p'
            end
          else if x =? 77 then Continue p' word
          else Continue p' (word ++ [9647])).
Proof.
  intros W T S. destruct (tail_cons _ _ _ W T) as (_ & P0 & _ & P1 & _).
  unfold loop_body, plainChar. rewrite P0, P1, S. reflexivity.
Qed.

(** X25.  Caret sequences after a word [u] and before plain text [v].  The
    caret takes the character after it, whatever it is: with a space the
    caret itself joins the word; with I or J a TABULATOR or NEW_PARAGRAPH
    token is yielded when no word is pending, and when one is pending the
    word is yielded and the tab or paragraph break is lost; with M nothing
    is added; with any other character the word receives U+25AF. *)
Theorem caret_sequences (gbk big5 : Z -> Z -> option jsstring) (u v : jsstring)
    (x : jschar) (c0 : MTextContext) (yieldCommands : bool) (k : nat) :
  forallb (fun c => isPlainChar c && negb (c =? ch " ")) u = true ->
  forallb isPlainChar v = true ->
  parse gbk big5 (length u + length v + 5 + k) (u ++ ch "^" :: x :: v) c0 yieldCommands
  = Some (map (tokenOf c0)
            (if x =? 32 then plainTokens (u ++ js "^") v
             else if x =? 73 then
               match u with
               | _ :: _ => (WORD, DWord u)
               | [] => (TABULATOR, DNull)
               end :: plainTokens [] v
             else if x =? 74 then
               match u with
               | _ :: _ => (WORD, DWord u)
               | [] => (NEW_PARAGRAPH, DNull)
               end :: plainTokens [] v
             else if x =? 77 then plainTokens u v
             else plainTokens (u ++ [9647]) v)).
Proof.
  intros Pu Pv. unfold parse.
  set (p0 := newMTextParser (u ++ ch "^" :: x :: v) c0 yieldCommands).
  assert (W0 : wf_scanner (scanner p0)) by apply wf_newTextScanner.
  assert (T0 : tail (scanner p0) = u ++ ch "^" :: x :: v)
    by (rewrite tail_drop by exact W0; reflexivity).
  replace (length u + length v + 5 + k)%nat
    with (S (length u + S (length v + 3 + k))) by lia.
  rewrite parse_loop_S.
  rewrite (tokensFrom_skip_word gbk big5 u _ p0 [] _ _ W0 T0 Pu). cbn [app].
  set (p1 := with_scanner p0 (consume (Z.of_nat (length u)) (scanner p0))).
  assert (W1 : wf_scanner (scanner p1)) by (apply wf_consume; exact W0).
  assert (T1 : tail (scanner p1) = ch "^" :: x :: v).
  { unfold p1. cbn [with_scanner scanner]. rewrite tail_consume by (try exact W0; lia).
    rewrite T0, Nat2Z.id, drop_app_length. reflexivity. }
  destruct (tail_cons _ _ _ W1 T1) as (D1 & _).
  pose proof (caret_step gbk big5 (length v + 3 + k) p1 u x v W1 T1 eq_refl) as B.
  cbv zeta in B.
  set (p2 := with_scanner p1 (consume 2 (scanner p1))) in *.
  assert (W2 : wf_scanner (scanner p2)) by (apply wf_consume; exact W1).
  assert (T2 : tail (scanner p2) = v).
  { unfold p2. cbn [with_scanner scanner]. rewrite tail_consume by (try exact W1; lia).
    rewrite T1. reflexivity. }
  assert (Plain : forall w n m, (length v < n)%nat -> (length v + 1 < m)%nat ->
                    tokensFrom gbk big5 n m p2 w
                    = Some (map (tokenOf c0) (plainTokens w v))).
  { intros w n m Hn Hm.
    apply (tokensFrom_plain gbk big5 v p2 w n m W2 T2 Pv Hn). destruct w; lia. }
  assert (Rest : parse_loop gbk big5 (length u + S (length v + 3 + k)) p2
                 = Some (map (tokenOf c0) (plainTokens [] v))).
  { apply (parse_loop_plain gbk big5 v p2 _ W2 T2 Pv). lia. }
  destruct (x =? 32).
  { rewrite (tokensFrom_continue gbk big5 _ _ p1 _ _ _ D1 B). apply Plain; lia. }
  destruct (x =? 73).
  { destruct u as [| u0 u'].
    - rewrite (tokensFrom_return gbk big5 _ _ p1 _ _ _ _ D1 B) by discriminate.
      rewrite Rest. reflexivity.
    - rewrite (tokensFrom_return gbk big5 _ _ p1 _ _ _ _ D1 B) by discriminate.
      rewrite Rest. reflexivity. }
  destruct (x =? 74).
  { destruct u as [| u0 u'].
    - rewrite (tokensFrom_return gbk big5 _ _ p1 _ _ _ _ D1 B) by discriminate.
      rewrite Rest. reflexivity.
    - rewrite (tokensFrom_return gbk big5 _ _ p1 _ _ _ _ D1 B) by discriminate.
      rewrite Rest. reflexivity. }
  destruct (x =? 77).
  { rewrite (tokensFrom_continue gbk big5 _ _ p1 _ _ _ D1 B). apply Plain; lia. }
  rewrite (tokensFrom_continue gbk big5 _ _ p1 _ _ _ D1 B). apply Plain; lia.
Qed.

Lemma caret_sequences_witness :
  forallb (fun c => isPlainChar c && negb (c =? ch " ")) (js "ab") = true
  /\ parse noDecoder noDecoder 9 (js "ab^Icd") newMTextContext false
     = Some [ tokenOf newMTextContext (WORD, DWord (js "ab"));
              tokenOf newMTextContext (WORD, DWord (js "cd")) ].
Proof.
  assert (P : forallb (fun c => isPlainChar c && negb (c =? ch " ")) (js "ab") = true)
    by reflexivity.
  split; [exact P |].
  exact (caret_sequences noDecoder noDecoder (js "ab") (js "cd") (ch "I") newMTextContext
           false 0 P eq_refl).
Defined.

(** ** getFonts *)

Lemma untilBar_suffix (s : jsstring) :
  forall acc name rest, untilBar s acc = Some (name, rest) ->
                        (length rest < length s)%nat.
Proof.
  induction s as [| c r IH]; intros acc name rest H; [discriminate H |].
  cbn [untilBar] in H. destruct (c =? ch "|").
  - injection H as _ <-. cbn [length]. lia.
  - destruct (isLineTerminator c); [discriminate H |].
    apply IH in H. cbn [length]. lia.
Qed.

(** Any counter that covers the text gives the same matches. *)
Lemma fontMatches_loop_counter :
  forall (n m : nat) (s : jsstring),
    (length s <= n)%nat -> (length s <= m)%nat ->
    fontMatches_loop n s = fontMatches_loop m s.
Proof.
  induction n as [| n IH]; intros m s Hn Hm.
  - destruct s; [| simpl in Hn; lia]. destruct m; reflexivity.
  - destruct m as [| m]; [destruct s; [reflexivity | simpl in Hm; lia] |].
    cbn [fontMatches_loop]. destruct s as [| c r]; [reflexivity |].
    cbn [length] in Hn, Hm.
    destruct (c =? ch "\"); [| apply IH; lia].
    destruct r as [| f r']; [reflexivity |]. cbn [length] in Hn, Hm.
    destruct ((f =? ch "f") || (f =? ch "F")); [| apply IH; cbn [length]; lia].
    destruct (untilBar r' []) as [[name rest] |] eqn:U; [| apply IH; cbn [length]; lia].
    apply untilBar_suffix in U. f_equal. apply IH; lia.
Qed.

Lemma untilBar_name (name post : jsstring) :
  existsb (fun c => (c =? ch "|") || isLineTerminator c) name = false ->
  forall acc, untilBar (name ++ ch "|" :: post) acc = Some (acc ++ name, post).
Proof.
  induction name as [| c name IH]; intros H acc.
  - cbn [app untilBar]. rewrite Z.eqb_refl, app_nil_r. reflexivity.
  - cbn [existsb] in H. apply orb_false_elim in H. destruct H as [Hc H].
    apply orb_false_elim in Hc. destruct Hc as [B T].
    cbn [app untilBar]. rewrite B, T, (IH H), <- app_assoc. reflexivity.
Qed.

Lemma untilBar_none (s : jsstring) :
  existsb (Z.eqb (ch "|")) s = false -> forall acc, untilBar s acc = None.
Proof.
  induction s as [| c r IH]; intros H acc; [reflexivity |].
  cbn [existsb] in H. apply orb_false_elim in H. destruct H as [B H].
  cbn [untilBar]. rewrite Z.eqb_sym, B. destruct (isLineTerminator c); [reflexivity |].
  apply IH. exact H.
Qed.

Lemma fontMatches_loop_no_bar :
  forall (n : nat) (s : jsstring),
    existsb (Z.eqb (ch "|")) s = false -> fontMatches_loop n s = [].
Proof.
  induction n as [| n IH]; intros s H; [reflexivity |].
  cbn [fontMatches_loop]. destruct s as [| c r]; [reflexivity |].
  cbn [existsb] in H. apply orb_false_elim in H. destruct H as [_ H].
  destruct (c =? ch "\"); [| apply IH; exact H].
  destruct r as [| f r']; [reflexivity |].
  pose proof H as H'. cbn [existsb] in H'. apply orb_false_elim in H'. destruct H' as [_ H'].
  rewrite (untilBar_none r' H').
  destruct ((f =? ch "f") || (f =? ch "F")); apply IH; exact H.
Qed.

Lemma fontMatches_loop_skip :
  forall (pre s : jsstring) (n : nat),
    existsb (Z.eqb (ch "\")) pre = false ->
    (length (pre ++ s) <= n)%nat ->
    fontMatches_loop n (pre ++ s) = fontMatches_loop (length s) s.
Proof.
  induction pre as [| c pre IH]; intros s n H L.
  - cbn [app] in *. apply fontMatches_loop_counter; lia.
  - cbn [existsb] in H. apply orb_false_elim in H. destruct H as [B H].
    cbn [app length] in L. destruct n as [| n]; [lia |].
    cbn [app fontMatches_loop]. rewrite Z.eqb_sym, B. apply IH; [exact H | lia].
Qed.

Lemma fontMatches_loop_font (n : nat) (f : jschar) (r name rest : jsstring) :
  (f =? ch "f") || (f =? ch "F") = true -> untilBar r [] = Some (name, rest) ->
  fontMatches_loop (S n) (ch "\" :: f :: r) = name :: fontMatches_loop n rest.
Proof. intros F U. cbn [fontMatches_loop]. rewrite Z.eqb_refl, F, U. reflexivity. Qed.

(** The names collected so far stay, and the set holds a name exactly when
    it was there or is the lowercase form of a match. *)
Lemma str_eqb_eq (a b : jsstring) : str_eqb a b = true <-> a = b.
Proof.
  revert b. induction a as [| x a IH]; intros [| y b]; cbn [str_eqb];
    try (split; [discriminate | discriminate]); [split; reflexivity |].
  rewrite andb_true_iff, Z.eqb_eq, IH. split; [intros [-> ->]; reflexivity |].
  intros E. injection E as -> ->. split; reflexivity.
Qed.

Lemma setAdd_In (fonts : list jsstring) (x y : jsstring) :
  In y (setAdd fonts x) <-> In y fonts \/ y = x.
Proof.
  unfold setAdd. destruct (existsb (str_eqb x) fonts) eqn:E.
  - split; [auto |]. intros [I | ->]; [exact I |].
    apply existsb_exists in E. destruct E as (z & Iz & Ez).
    apply str_eqb_eq in Ez. subst z. exact Iz.
  - rewrite in_app_iff. cbn [In]. split.
    + intros [I | [<- | []]]; auto.
    + intros [I | ->]; auto.
Qed.

Lemma fold_setAdd_In (lower : jsstring -> jsstring) (ms : list jsstring) :
  forall (fonts : list jsstring) (y : jsstring),
    In y (fold_left (fun fonts m => setAdd fonts (lower m)) ms fonts)
    <-> In y fonts \/ exists m, In m ms /\ y = lower m.
Proof.
  induction ms as [| m ms IH]; intros fonts y; cbn [fold_left].
  - split; [auto | intros [I | (m & [] & _)]; exact I].
  - rewrite IH, setAdd_In. split.
    + intros [[I | ->] | (m' & I & E)]; [auto | right; exists m; cbn; auto |].
      right. exists m'. cbn. auto.
    + intros [I | (m' & [<- | I] & E)]; [auto | auto |]. right. exists m'. auto.
Qed.

(** X24.  [getFonts] on a text without a bar finds no font.  When a font
    command [\f name |] (or [\F]) comes after text without backslash, and
    the name contains neither a bar nor a line terminator, the fonts of the
    whole text are the lowercase form of that name and the fonts of the
    text after the bar. *)
Theorem getFonts_spec (lower : jsstring -> jsstring) (pre name post : jsstring)
    (f : jschar) :
  existsb (Z.eqb (ch "\")) pre = false ->
  (f =? ch "f") || (f =? ch "F") = true ->
  existsb (fun c => (c =? ch "|") || isLineTerminator c) name = false ->
  (forall x, In x (getFonts lower (pre ++ ch "\" :: f :: name ++ ch "|" :: post))
             <-> x = lower name \/ In x (getFonts lower post))
  /\ (forall text, existsb (Z.eqb (ch "|")) text = false -> getFonts lower text = []).
Proof.
  intros Hpre Hf Hname.
  assert (M : fontMatches (pre ++ ch "\" :: f :: name ++ ch "|" :: post)
              = name :: fontMatches post).
  { unfold fontMatches. rewrite fontMatches_loop_skip by (try exact Hpre; lia).
    cbn [length].
    rewrite (fontMatches_loop_font _ f _ name post Hf (untilBar_name name post Hname [])).
    f_equal. apply fontMatches_loop_counter; [| lia].
    rewrite length_app. cbn [length]. lia. }
  split.
  - intros x. unfold getFonts. rewrite M. rewrite !fold_setAdd_In. cbn [In]. split.
    + intros [[] | (m & [<- | I] & E)]; [left; exact E |].
      right. right. exists m. auto.
    + intros [-> | [[] | (m & I & E)]]; right; [exists name; auto | exists m; auto].
  - intros text H. unfold getFonts, fontMatches.
    rewrite (fontMatches_loop_no_bar _ _ H). reflexivity.
Qed.

Lemma getFonts_spec_witness :
  existsb (Z.eqb (ch "\")) (js "ab") = false
  /\ forall x, In x (getFonts (fun s => s)
                        (js "ab" ++ ch "\" :: ch "f" :: js "Arial" ++ ch "|" :: js "b1;c"))
               <-> x = js "Arial" \/ In x (getFonts (fun s => s) (js "b1;c")).
Proof.
  assert (P : existsb (Z.eqb (ch "\")) (js "ab") = false) by reflexivity.
  split; [exact P |].
  apply (getFonts_spec (fun s => s) (js "ab") (js "Arial") (js "b1;c") (ch "f") P);
    reflexivity.
Defined.
